(** * libvata: antichain inclusion checkers and the LTS simulation engine

    A shallow embedding of the parts of libvata that its specification makes
    claims about:
    - [Antichain]: the antichain containers the checkers store their pairs in;
    - [Choice]: the sequential choice-function generator of the downward
      inclusion functor (include/vata/down_tree_incl_fctor.hh);
    - [TreeAut]: tree automata, their runs and languages, and the indexed
      views the checkers read them through;
    - [Down]: the downward inclusion functor ([expand], [operator()] and the
      antichain tests, include/vata/down_tree_incl_fctor.hh);
    - [Counter]: the reference-counted counters with copy-on-write rows of
      the simulation engine (src/explicit_lts_sim.cc);
    - [Up]: the upward inclusion check ([checkInternal],
      src/explicit_tree_incl_up.cc), and in [UpSpec] what its correctness is
      stated with;
    - [Sim]: the simulation engine ([computeSimulation] and the OLRT
      partition refinement behind it, src/explicit_lts_sim.cc);
    - [ChoiceVector]: the odometer over the stored macro-states that the
      upward check walks through ([Choice] and [ChoiceVector],
      src/explicit_tree_incl_up.cc);
    - [CounterInv]: when a counter row is consistent;
    - [SimSpec]: the invariant of the simulation engine.

    Part II holds the theorems: [ChoiceFacts], [DownFacts], [UpFacts] (the
    steps of the upward check), [UpCorrect] (the upward check under the
    identity preorder decides language inclusion), [CounterFacts] and
    [SimFacts] (the simulation engine on an LTS without transitions); then
    [ChoiceMore], [DownMore] (verdict caches, flags, choice sets), [UpMore]
    (comparisons of macro-states, the order of the pending pairs, the
    bigger transitions of a choice), [ChoiceVectorFacts], [CounterMore]
    (rows stay consistent), [SimMore] (partitions, rings, the result),
    [PendingFacts] (the pending pairs of the upward check are processed
    pairs) and [SimInv] (the relation the simulation engine returns is
    reflexive and refines the given one). *)

From stdpp Require Import base list sorting gmap strings.
From Stdlib Require Import ZArith Lia Sorted.

Local Open Scope Z_scope.

(* ===================================================================== *)
(** * Part I: the embedding                                               *)
(* ===================================================================== *)

(** ** Outcomes of a call

    The checkers recurse and loop without a structural bound, so their
    embeddings take fuel; they also carry assertions and unchecked vector
    accesses.  A call either returns, or stops at a failed assertion (or an
    access out of range), or runs out of fuel. *)

Inductive result (A : Type) : Type :=
  | Ok (a : A)
  | Abort
  | Timeout.
Arguments Ok {A} a.
Arguments Abort {A}.
Arguments Timeout {A}.

Definition rbind {A B : Type} (m : result A) (f : A → result B) : result B :=
  match m with
  | Ok a => f a
  | Abort => Abort
  | Timeout => Timeout
  end.

Notation "x ←ʳ m ; k" := (rbind m (λ x, k))
  (at level 20, m at level 100, k at level 200, only parsing, right associativity).
Notation "' p ←ʳ m ; k" := (rbind m (λ x, match x with p => k end))
  (at level 20, p pattern, m at level 100, k at level 200, only parsing,
   right associativity).

Definition rmap {A B : Type} (f : A → B) (m : result A) : result B :=
  rbind m (λ x, Ok (f x)).

Definition require (b : bool) : result unit := if b then Ok () else Abort.

Definition of_option {A : Type} (o : option A) : result A :=
  match o with Some a => Ok a | None => Abort end.

(** ** Antichain containers *)

Module Antichain.

(** Modelled from the spec: [Antichain1C] (vata/util/antichain1c.hh is not
    among the sources), "a set of states with [refine(S)] removing any stored
    state in [S], [insert(s)] adding [s], and [contains(S)] testing non-empty
    intersection with [S]".  The stored states are kept in insertion order;
    the callers sort [data()] before they use it. *)
Definition Antichain1C := list nat.

Definition contains1 (post : Antichain1C) (S : list nat) : bool :=
  existsb (λ s, bool_decide (s ∈ S)) post.

Definition refine1 (post : Antichain1C) (S : list nat) : Antichain1C :=
  List.filter (λ s, negb (bool_decide (s ∈ S))) post.

Definition insert1 (post : Antichain1C) (s : nat) : Antichain1C :=
  if bool_decide (s ∈ post) then post else post ++ [s].

Section Antichain2C.
Context {T : Type}.

(** Modelled from the spec: [Antichain2Cv2] (vata/util/antichain2c_v2.hh is
    not among the sources), which "maps each key (state) to a list of
    macro-states":
    - [insert(k, v)] "appends [v] to the list under [k]";
    - [refine(K, v, cmp, eraser)]: "for each key [k'∈K] and each stored [v']
      under [k'] with [cmp(v, v')], erase [(k', v')] and call
      [eraser(k', handle)]";
    - [contains(K, v, cmp)]: "true iff some [(k', v')] with [k'∈K] satisfies
      [cmp(v', v)]";
    - [lookup(k)]: "list of stored macro-states under [k]", a null pointer in
      the callers' eyes when nothing is stored under [k]. *)
Definition Antichain2C := gmap nat (list T).

Definition stored (ac : gmap nat (list T)) (k : nat) : list T := default [] (ac !! k).

Definition lookup2 (ac : gmap nat (list T)) (k : nat) : option (list T) :=
  match stored ac k with
  | [] => None
  | l => Some l
  end.

Definition insert2 (ac : gmap nat (list T)) (k : nat) (v : T) : gmap nat (list T) :=
  <[k := stored ac k ++ [v]]> ac.

Definition contains2 (ac : gmap nat (list T)) (K : list nat) (v : T)
    (cmp : T → T → bool) : bool :=
  existsb (λ k, existsb (λ v', cmp v' v) (stored ac k)) K.

(** One key of [refine]: the pairs erased under [k], and what remains. *)
Definition refine_key (v : T) (cmp : T → T → bool)
    (st : gmap nat (list T) * list (nat * T)) (k : nat)
    : gmap nat (list T) * list (nat * T) :=
  let '(ac, erased) := st in
  let gone := List.filter (λ v', cmp v v') (stored ac k) in
  let kept := List.filter (λ v', negb (cmp v v')) (stored ac k) in
  (match kept with [] => delete k ac | _ => <[k := kept]> ac end,
   erased ++ map (pair k) gone).

(** [refine]: the refined antichain, and the pairs the eraser was called
    on, in order. *)
Definition refine2 (ac : gmap nat (list T)) (K : list nat) (v : T)
    (cmp : T → T → bool) : gmap nat (list T) * list (nat * T) :=
  fold_left (refine_key v cmp) K (ac, []).

End Antichain2C.
Arguments Antichain2C : clear implicits.

End Antichain.

(** ** SequentialChoiceFunctionGenerator (down_tree_incl_fctor.hh:184-233) *)

Module Choice.

(** [ChoiceFunctionType] is [std::vector<unsigned>]: entries are 32-bit
    unsigned integers, arithmetic on them wraps modulo [2^32]. *)
Definition wrap32 (z : Z) : Z := z mod 2 ^ 32.

Definition ChoiceFunctionType := list Z.

Record SequentialChoiceFunctionGenerator := Gen {
  currentCf_ : ChoiceFunctionType;
  range_ : Z;
  lastCnt_ : Z
}.

(** The constructor: [currentCf_(length, range-1)], [range_(range)],
    [lastCnt_(range == 0 ? 0 : 2)]. *)
Definition make (length : nat) (range : Z) : SequentialChoiceFunctionGenerator :=
  {| currentCf_ := replicate length (wrap32 (range - 1));
     range_ := range;
     lastCnt_ := if range =? 0 then 0 else 2 |}.

Definition IsLast (g : SequentialChoiceFunctionGenerator) : bool :=
  lastCnt_ g =? 0.

(** The [while (++currentCf_[index] == range_)] loop of [GetNext], run on
    the suffix of the vector that starts at [index].  The boolean tells
    whether the loop dropped out of the tuple ([index == size]), which is
    when [lastCnt_] is decremented. *)
Fixpoint advance (range : Z) (cf : ChoiceFunctionType) : ChoiceFunctionType * bool :=
  match cf with
  | [] => ([], true)
  | c :: rest =>
      let c' := wrap32 (c + 1) in
      if c' =? range then
        let '(rest', dropped) := advance range rest in (0 :: rest', dropped)
      else (c' :: rest, false)
  end.

(** [GetNext]; [None] when one of its assertions fails ([IsLast] holds, or
    the vector is empty, which the constructor asserts it is not). *)
Definition GetNext (g : SequentialChoiceFunctionGenerator)
  : option (ChoiceFunctionType * SequentialChoiceFunctionGenerator) :=
  if IsLast g then None
  else match currentCf_ g with
       | [] => None
       | _ :: _ =>
           let '(cf, dropped) := advance (range_ g) (currentCf_ g) in
           Some (cf, {| currentCf_ := cf;
                        range_ := range_ g;
                        lastCnt_ := if dropped then lastCnt_ g - 1 else lastCnt_ g |})
       end.

(** The caller's loop [while (!cfGen.IsLast()) { cf = cfGen.GetNext(); ... }]
    (down_tree_incl_fctor.hh:497-500): the choice functions it sees, in
    order. *)
Fixpoint produced (fuel : nat) (g : SequentialChoiceFunctionGenerator)
  : option (list ChoiceFunctionType) :=
  if IsLast g then Some []
  else match fuel with
       | O => None
       | S fuel' =>
           match GetNext g with
           | None => None
           | Some (cf, g') => cons cf <$> produced fuel' g'
           end
       end.

(** A choice function of length [k] over the range [[0, n)]. *)
Definition is_choice (k : nat) (n : Z) (v : ChoiceFunctionType) : Prop :=
  length v = k ∧ Forall (λ d, 0 ≤ d < n) v.

(** Lexicographic order on vectors, entry 0 the most significant. *)
Fixpoint lex_lt (u v : list Z) : Prop :=
  match u, v with
  | a :: u', b :: v' => a < b ∨ (a = b ∧ lex_lt u' v')
  | _, _ => False
  end.

(** The order of a little-endian counter: the last entry is the most
    significant, entry 0 varies fastest. *)
Fixpoint colex_lt (u v : list Z) : Prop :=
  match u, v with
  | a :: u', b :: v' => colex_lt u' v' ∨ (u' = v' ∧ a < b)
  | _, _ => False
  end.

(** The claim as the specification words it: the loop produces every
    choice function exactly once, in lexicographic order. *)
Definition enumerates_once_lex (k : nat) (n : Z) : Prop :=
  ∃ fuel l, produced fuel (make k n) = Some l
    ∧ (∀ v, v ∈ l ↔ is_choice k n v)
    ∧ NoDup l
    ∧ StronglySorted lex_lt l.

(** The [m]-th vector of the counter: the [k] base-[n] digits of [m],
    least significant first. *)
Fixpoint digits (k : nat) (n m : Z) : ChoiceFunctionType :=
  match k with
  | O => []
  | S k' => m mod n :: digits k' n (m / n)
  end.

End Choice.

(** ** Tree automata and their languages *)

Module TreeAut.

(** A transition [(symbol, (child₁,…,child_k), parent)]; [state()] is the
    parent. *)
Record Transition := MkTrans {
  symbol : nat;
  children : list nat;
  state : nat
}.

#[global] Instance Transition_eq_dec : EqDecision Transition.
Proof. solve_decision. Defined.

Record Aut := MkAut {
  transitions : list Transition;
  finalStates : gset nat
}.

Unset Elimination Schemes.
Inductive tree : Type := Node (sym : nat) (kids : list tree).
Set Elimination Schemes.

(** The child states [cs] of a transition are available in the sets [rs]
    reached on the subtrees, slot by slot. *)
Fixpoint fits (cs : list nat) (rs : list (list nat)) : bool :=
  match cs, rs with
  | [], [] => true
  | c :: cs', r :: rs' => bool_decide (c ∈ r) && fits cs' rs'
  | _, _ => false
  end.

(** The states the automaton reaches on a tree, bottom-up. *)
Fixpoint reach (a : Aut) (t : tree) : list nat :=
  match t with
  | Node f kids =>
      map state
        (List.filter (λ tr, bool_decide (symbol tr = f) && fits (children tr) (map (reach a) kids))
           (transitions a))
  end.

Definition accepts_from (a : Aut) (Q : list nat) (t : tree) : bool :=
  existsb (λ q, bool_decide (q ∈ Q)) (reach a t).

Definition accepts (a : Aut) (t : tree) : bool :=
  existsb (λ q, bool_decide (q ∈ finalStates a)) (reach a t).

(** Language inclusion [L(a) ⊆ L(b)]. *)
Definition included (a b : Aut) : Prop :=
  ∀ t, accepts a t = true → accepts b t = true.

(** The child tuples of the down-transitions [q → sym(…)]. *)
Definition down_tuples (a : Aut) (sym q : nat) : list (list nat) :=
  remove_dups
    (map children
       (List.filter (λ tr, bool_decide (symbol tr = sym) && bool_decide (state tr = q))
          (transitions a))).

(** Modelled from the spec: the pairs [Aut::ForeachDownSymbolFromStateAndStateSetDo]
    (not among the sources) hands to the downward functor.  "For each symbol
    and each down-transition [p → σ(p₁,…,p_k)] in [Aₛ], let [R_σ ⊆ Aᵦ]'s
    down-transitions from some [s ∈ S] under [σ]": one pair per symbol of
    [p], the set of the smaller side's tuples and the set of the bigger
    side's. *)
Definition down_symbols (smaller bigger : Aut) (p : nat) (Q : list nat)
    : list (list (list nat) * list (list nat)) :=
  map (λ sym, (down_tuples smaller sym p,
               remove_dups (concat (map (down_tuples bigger sym) Q))))
      (remove_dups (map symbol
         (List.filter (λ tr, bool_decide (state tr = p)) (transitions smaller)))).

(** The identity preorder and its index views. *)
Definition id_get (x y : nat) : bool := bool_decide (x = y).
Definition id_index (x : nat) : list nat := [x].

(** The index views of the identity preorder on the states below [n], as
    the vectors [ind] and [inv] of the upward checker. *)
Definition id_rows (n : nat) : list (list nat) := (λ s, [s]) <$> seq 0 n.

(** Modelled from the spec: the indexed views of an automaton (the class
    that builds them is not among the sources).  "[leaves(sym) →
    [transitions]] for arity-0 symbols; [up_index[sym][slot][child_state] →
    [transitions]] for arities ≥ 1", and for the smaller side the same
    transitions indexed by child state first.  The vectors are as long as
    the given numbers of symbols, slots and states. *)
Definition leaves (a : Aut) (symbols : nat) : list (list Transition) :=
  (λ sym, List.filter (λ tr, bool_decide (symbol tr = sym) && bool_decide (children tr = []))
            (transitions a)) <$> seq 0 symbols.

Definition with_child (a : Aut) (sym slot child : nat) : list Transition :=
  List.filter (λ tr, bool_decide (symbol tr = sym) && bool_decide (children tr !! slot = Some child))
    (transitions a).

Definition up_index (a : Aut) (symbols slots states : nat) : list (list (list (list Transition))) :=
  (λ sym, (λ slot, (λ child, with_child a sym slot child) <$> seq 0 states) <$> seq 0 slots)
    <$> seq 0 symbols.

Definition child_index (a : Aut) (symbols slots states : nat) : list (list (list (list Transition))) :=
  (λ child, (λ sym, (λ slot, with_child a sym slot child) <$> seq 0 slots) <$> seq 0 symbols)
    <$> seq 0 states.

End TreeAut.

(** ** DownwardInclusionFunctor (down_tree_incl_fctor.hh) *)

Module Down.
Import Antichain.

Abbreviation StateType := nat.
(** [StateSet] is an [OrdVector<StateType>]: a sorted vector without
    duplicates, so that equal sets are equal lists. *)
Abbreviation StateSet := (list nat).
Abbreviation StateTuple := (list nat).
Abbreviation StateTupleSet := (list (list nat)).
Abbreviation WorkSetElement := (nat * list nat)%type.
(** [WorkSetType] is an [std::unordered_multimap]; it is kept as the list of
    its entries, the most recently inserted first.  Entries that are equal
    as values cannot be told apart, and no reader depends on the order. *)
Abbreviation WorkSetType := (list (nat * list nat)).

(** [OrdVector::insert]. *)
Fixpoint ord_insert (x : nat) (s : StateSet) : StateSet :=
  match s with
  | [] => [x]
  | y :: s' =>
      if (x <? y)%nat then x :: s
      else if (x =? y)%nat then s
      else y :: ord_insert x s'
  end.

(** The state the functor objects of one run share by reference. *)
Record Shared := MkShared {
  workset_ : WorkSetType;
  nonIncl_ : Antichain2C StateSet
}.

(** The members every functor object owns. *)
Record DownwardInclusionFunctor := MkFunctor {
  processingStopped_ : bool;
  inclusionHolds_ : bool;
  childrenCache_ : Antichain2C StateSet
}.

(** The copy constructor: shares the workset and the non-inclusion cache,
    starts with fresh flags and an empty children cache. *)
Definition copy (downFctor : DownwardInclusionFunctor) : DownwardInclusionFunctor :=
  MkFunctor false true ∅.

Definition failProcessing (f : DownwardInclusionFunctor) : DownwardInclusionFunctor :=
  MkFunctor true false (childrenCache_ f).

Definition IsProcessingStopped (f : DownwardInclusionFunctor) : bool := processingStopped_ f.
Definition InclusionHolds (f : DownwardInclusionFunctor) : bool := inclusionHolds_ f.

Definition set_workset (sh : Shared) (ws : WorkSetType) : Shared :=
  MkShared ws (nonIncl_ sh).

(** The erase loop of [expand]: drop the first entry with the given key and
    set; [None] when there is none. *)
Fixpoint erase_first (smallerState : nat) (biggerStateSet : StateSet)
    (ws : WorkSetType) : option WorkSetType :=
  match ws with
  | [] => None
  | (p, Q) :: ws' =>
      if bool_decide (p = smallerState) && bool_decide (biggerStateSet = Q)
      then Some ws'
      else cons (p, Q) <$> erase_first smallerState biggerStateSet ws'
  end.

Section Functor.

(** [Relation::get] of the preorder, and its two index views. *)
Variable preorder_get : nat → nat → bool.
Variable preorderSmaller_ preorderBigger_ : nat → list nat.

(** Modelled from the spec: [Aut::ForeachDownSymbolFromStateAndStateSetDo]
    (the automaton class is not among the sources).  "For each symbol and
    each down-transition [p → σ(p₁,…,p_k)] in [Aₛ], let [R_σ ⊆ Aᵦ]'s
    down-transitions from some [s ∈ S] under [σ]": for a state and a state
    set, the list, symbol by symbol, of the smaller side's tuples and the
    bigger side's tuples the functor is called on. *)
Variable down_symbols : nat → StateSet → list (StateTupleSet * StateTupleSet).

Definition SetComparerSmaller (lhs rhs : StateSet) : bool :=
  forallb (λ rhsState, existsb (λ lhsState, preorder_get rhsState lhsState) lhs) rhs.

Definition SetComparerBigger (lhs rhs : StateSet) : bool :=
  forallb (λ lhsState, existsb (λ rhsState, preorder_get lhsState rhsState) rhs) lhs.

Definition isInWorkset (sh : Shared) (elem : WorkSetElement) : bool :=
  existsb (λ stateSetPair : WorkSetElement,
             preorder_get elem.1 stateSetPair.1
             && SetComparerSmaller stateSetPair.2 elem.2)
          (workset_ sh).

Definition isImpliedByChildren (f : DownwardInclusionFunctor) (elem : WorkSetElement) : bool :=
  contains2 (childrenCache_ f) (preorderBigger_ elem.1) elem.2 SetComparerSmaller.

Definition isNoninclusionImplied (sh : Shared) (elem : WorkSetElement) : bool :=
  contains2 (nonIncl_ sh) (preorderSmaller_ elem.1) elem.2 SetComparerBigger.

Definition isImpliedByPreorder (elem : WorkSetElement) : bool :=
  existsb (λ biggerState, preorder_get elem.1 biggerState) elem.2.

Definition processFoundInclusion (f : DownwardInclusionFunctor)
    (smallerState : nat) (biggerStateSet : StateSet) : DownwardInclusionFunctor :=
  let refined :=
    (refine2 (childrenCache_ f) (preorderSmaller_ smallerState) biggerStateSet
       SetComparerSmaller).1 in
  MkFunctor (processingStopped_ f) (inclusionHolds_ f)
    (insert2 refined smallerState biggerStateSet).

Definition processFoundNoninclusion (sh : Shared)
    (smallerState : nat) (biggerStateSet : StateSet) : Shared :=
  let refined :=
    (refine2 (nonIncl_ sh) (preorderBigger_ smallerState) biggerStateSet
       SetComparerBigger).1 in
  MkShared (workset_ sh) (insert2 refined smallerState biggerStateSet).

(** Some filter of [expand] fires on the pair. *)
Definition filtered (f : DownwardInclusionFunctor) (sh : Shared) (elem : WorkSetElement) : bool :=
  isInWorkset sh elem
  || isNoninclusionImplied sh elem
  || isImpliedByChildren f elem
  || isImpliedByPreorder elem.

(** A callee that gives the workset back as it got it. *)
Definition keeps_workset
    (e : DownwardInclusionFunctor → Shared → nat → StateSet →
         result (bool * DownwardInclusionFunctor * Shared)) : Prop :=
  ∀ f sh p Q b f' sh', e f sh p Q = Ok (b, f', sh') → workset_ sh' = workset_ sh.

(** *** [operator()], over a given [expand] *)

Section Call.
Variable expand :
  DownwardInclusionFunctor → Shared → nat → StateSet →
  result (bool * DownwardInclusionFunctor * Shared).

(** [for (i = 0; i < arity; ++i) if (!expand(lhsTuple[i], StateSet(rhsTuple[i])))]:
    the value of [valid] for one bigger tuple. *)
Fixpoint covers (f : DownwardInclusionFunctor) (sh : Shared)
    (lhsTuple rhsTuple : StateTuple) (positions : list nat)
    : result (bool * DownwardInclusionFunctor * Shared) :=
  match positions with
  | [] => Ok (true, f, sh)
  | i :: rest =>
      l ←ʳ of_option (lhsTuple !! i);
      r ←ʳ of_option (rhsTuple !! i);
      '(b, f1, sh1) ←ʳ expand f sh l [r];
      if b then covers f1 sh1 lhsTuple rhsTuple rest else Ok (false, f1, sh1)
  end.

(** "first check whether there is a bigger tuple". *)
Fixpoint find_bigger (f : DownwardInclusionFunctor) (sh : Shared)
    (lhsTuple : StateTuple) (arity : nat) (rhs : StateTupleSet)
    : result (bool * DownwardInclusionFunctor * Shared) :=
  match rhs with
  | [] => Ok (false, f, sh)
  | rhsTuple :: rest =>
      '(valid, f1, sh1) ←ʳ covers f sh lhsTuple rhsTuple (seq 0 arity);
      if valid then Ok (true, f1, sh1)
      else find_bigger f1 sh1 lhsTuple arity rest
  end.

(** The set [rhsSetForTuplePos] a choice function assigns to a position: the
    [cfIndex] loop, started at [cfIndex]. *)
Fixpoint rhsSetForTuplePos (rhsVector : StateTupleSet) (arity tuplePos : nat)
    (cf : Choice.ChoiceFunctionType) (cfIndex : nat) (acc : StateSet)
    : result StateSet :=
  match cf with
  | [] => Ok acc
  | c :: cf' =>
      if c =? Z.of_nat tuplePos then
        rhsTuple ←ʳ of_option (rhsVector !! cfIndex);
        _ ←ʳ require (length rhsTuple =? arity)%nat;
        x ←ʳ of_option (rhsTuple !! tuplePos);
        rhsSetForTuplePos rhsVector arity tuplePos cf' (S cfIndex) (ord_insert x acc)
      else rhsSetForTuplePos rhsVector arity tuplePos cf' (S cfIndex) acc
  end.

(** The [tuplePos] loop for one choice function: the value of [found]. *)
Fixpoint try_positions (f : DownwardInclusionFunctor) (sh : Shared)
    (lhsTuple : StateTuple) (rhsVector : StateTupleSet) (arity : nat)
    (cf : Choice.ChoiceFunctionType) (positions : list nat)
    : result (bool * DownwardInclusionFunctor * Shared) :=
  match positions with
  | [] => Ok (false, f, sh)
  | tuplePos :: rest =>
      set ←ʳ rhsSetForTuplePos rhsVector arity tuplePos cf 0 [];
      match set with
      | [] => try_positions f sh lhsTuple rhsVector arity cf rest
      | _ =>
          l ←ʳ of_option (lhsTuple !! tuplePos);
          '(b, f1, sh1) ←ʳ expand f sh l set;
          if b then Ok (true, f1, sh1)
          else try_positions f1 sh1 lhsTuple rhsVector arity cf rest
      end
  end.

(** [while (!cfGen.IsLast())]: [true] when every choice function was
    matched, [false] at the first one that was not. *)
Fixpoint choice_loop (fuel : nat) (f : DownwardInclusionFunctor) (sh : Shared)
    (lhsTuple : StateTuple) (rhsVector : StateTupleSet) (arity : nat)
    (cfGen : Choice.SequentialChoiceFunctionGenerator)
    : result (bool * DownwardInclusionFunctor * Shared) :=
  if Choice.IsLast cfGen then Ok (true, f, sh)
  else match fuel with
       | O => Timeout
       | S fuel' =>
           '(cf, cfGen') ←ʳ of_option (Choice.GetNext cfGen);
           '(found, f1, sh1) ←ʳ
             try_positions f sh lhsTuple rhsVector arity cf (seq 0 arity);
           if found then choice_loop fuel' f1 sh1 lhsTuple rhsVector arity cfGen'
           else Ok (false, f1, sh1)
       end.

(** [for (auto lhsTupleCont : lhs)] of the non-nullary case. *)
Fixpoint for_lhs (fuel : nat) (f : DownwardInclusionFunctor) (sh : Shared)
    (arity : nat) (rhs : StateTupleSet) (lhs : StateTupleSet)
    : result (DownwardInclusionFunctor * Shared) :=
  match lhs with
  | [] => Ok (f, sh)
  | lhsTuple :: rest =>
      _ ←ʳ require (length lhsTuple =? arity)%nat;
      '(valid, f1, sh1) ←ʳ find_bigger f sh lhsTuple arity rhs;
      if valid then for_lhs fuel f1 sh1 arity rhs rest
      else
        let cfGen := Choice.make (length rhs)
                       (Choice.wrap32 (Z.of_nat (length lhsTuple))) in
        '(ok, f2, sh2) ←ʳ choice_loop fuel f1 sh1 lhsTuple rhs arity cfGen;
        if ok then for_lhs fuel f2 sh2 arity rhs rest
        else Ok (failProcessing f2, sh2)
  end.

(** [operator()(lhs, lhsElemAccess, rhs, rhsElemAccess)]. *)
Definition call (fuel : nat) (f : DownwardInclusionFunctor) (sh : Shared)
    (lhs rhs : StateTupleSet) : result (DownwardInclusionFunctor * Shared) :=
  match lhs with
  | [] => Ok (f, sh)
  | first :: _ =>
      let arity := length first in
      if (arity =? 0)%nat then
        _ ←ʳ require (length lhs =? 1)%nat;
        match rhs with
        | r :: _ =>
            _ ←ʳ require (length rhs =? 1)%nat;
            _ ←ʳ require (length r =? 0)%nat;
            Ok (f, sh)
        | [] => Ok (failProcessing f, sh)
        end
      else
        match rhs with
        | [] => Ok (failProcessing f, sh)
        | _ :: _ => for_lhs fuel f sh arity rhs lhs
        end
  end.

(** The traversal calls the functor symbol by symbol, and stops once the
    functor reports [IsProcessingStopped]. *)
Fixpoint foreach (fuel : nat) (f : DownwardInclusionFunctor) (sh : Shared)
    (symbols : list (StateTupleSet * StateTupleSet))
    : result (DownwardInclusionFunctor * Shared) :=
  match symbols with
  | [] => Ok (f, sh)
  | (lhs, rhs) :: rest =>
      '(f1, sh1) ←ʳ call fuel f sh lhs rhs;
      if IsProcessingStopped f1 then Ok (f1, sh1)
      else foreach fuel f1 sh1 rest
  end.

End Call.

(** *** [expand] *)

Fixpoint expand (fuel : nat) (f : DownwardInclusionFunctor) (sh : Shared)
    (smallerState : nat) (biggerStateSet : StateSet)
    : result (bool * DownwardInclusionFunctor * Shared) :=
  match fuel with
  | O => Timeout
  | S fuel' =>
      let key := (smallerState, biggerStateSet) in
      if isInWorkset sh key then Ok (true, f, sh)
      else if isNoninclusionImplied sh key then Ok (false, f, sh)
      else if isImpliedByChildren f key then Ok (true, f, sh)
      else if isImpliedByPreorder key then Ok (true, f, sh)
      else
        let sh1 := set_workset sh (key :: workset_ sh) in
        let innerFctor := copy f in
        '(innerFctor', sh2) ←ʳ
          foreach (expand fuel') fuel' innerFctor sh1
            (down_symbols smallerState biggerStateSet);
        ws ←ʳ of_option (erase_first smallerState biggerStateSet (workset_ sh2));
        let sh3 := set_workset sh2 ws in
        if InclusionHolds innerFctor'
        then Ok (true, processFoundInclusion f smallerState biggerStateSet, sh3)
        else Ok (false, f, processFoundNoninclusion sh3 smallerState biggerStateSet)
  end.

(** The pointwise lift of the preorder to state sets: every state of [X] is
    dominated by some state of [Y]. *)
Definition lifted (X Y : StateSet) : Prop :=
  ∀ x, x ∈ X → ∃ y, y ∈ Y ∧ preorder_get x y = true.

End Functor.

End Down.

(** ** SharedCounter (explicit_lts_sim.cc:47-206) *)

Module Counter.

(** [size_t] is taken as a 64-bit unsigned integer. *)
Definition wrap64 (z : Z) : Z := z mod 2 ^ 64.

(** Counter rows are [std::vector<size_t>] objects on the heap, reached
    through [VectorAllocator::Ptr] pointers that several counters may
    hold at once.  The store maps an address to the vector behind it. *)
Abbreviation Ptr := nat.
Abbreviation Heap := (gmap nat (list Z)).

(** Modelled from the spec: [CachingAllocator] (vata/util/caching_allocator.hh
    is not among the sources), "a vector allocator that recycles integer
    vectors": [reclaim] pushes a vector on the allocator's store, and the
    call operator hands out the most recently reclaimed vector, or a new
    empty one at an unused address when the store is empty. *)
Record VectorAllocator := Alloc { store_ : list Ptr }.

Definition allocate (h : Heap) (a : VectorAllocator) : Ptr * Heap * VectorAllocator :=
  match store_ a with
  | x :: rest => (x, h, Alloc rest)
  | [] => let x := fresh (dom h) in (x, <[x := []]> h, a)
  end.

Definition reclaim (a : VectorAllocator) (x : Ptr) : VectorAllocator :=
  Alloc (x :: store_ a).

(** [std::vector::resize]: truncate, or pad with zeros. *)
Definition resize (n : nat) (v : list Z) : list Z :=
  take n v ++ replicate (n - length v) 0.

Record SharedCounter := Cnt {
  key_ : list Z;
  states_ : nat;
  range_ : list Z;
  data_ : list (option Ptr)
}.

Definition set_data (c : SharedCounter) (label : nat) (p : option Ptr) : SharedCounter :=
  {| key_ := key_ c; states_ := states_ c; range_ := range_ c;
     data_ := <[label := p]> (data_ c) |}.

(** [2 + this->key_[label*this->states_ + state]], as an index. *)
Definition slot (c : SharedCounter) (label state : nat) : option nat :=
  k ← key_ c !! (label * states_ c + state)%nat;
  Some (Z.to_nat (wrap64 (2 + k))).

(** A failed assertion (or an access outside a vector) is [None]. *)
Definition assert (b : bool) : option unit := if b then Some () else None.

Definition incr (c : SharedCounter) (h : Heap) (a : VectorAllocator)
    (label state : nat) : option (SharedCounter * Heap * VectorAllocator) :=
  orow ← data_ c !! label;
  i ← slot c label state;
  match orow with
  | Some row =>
      v ← h !! row;
      refCount ← v !! 0%nat;
      _ ← assert (refCount =? 1);
      _ ← assert (bool_decide (i < length v)%nat);
      master ← v !! 1%nat;
      let v1 := <[1%nat := wrap64 (master + 1)]> v in
      x ← v1 !! i;
      Some (c, <[row := <[i := wrap64 (x + 1)]> v1]> h, a)
  | None =>
      let '(row, h1, a1) := allocate h a in
      old ← h1 !! row;
      r ← range_ c !! label;
      let v := resize (Z.to_nat (wrap64 (2 + r))) old in
      _ ← assert (bool_decide (i < length v)%nat);
      let v1 := <[1%nat := 1]> (<[0%nat := 1]> v) in
      let v2 := take 2 v1 ++ replicate (length v1 - 2) 0 in
      Some (set_data c label (Some row), <[row := <[i := 1]> v2]> h1, a1)
  end.

(** [decr].  Assertions are modelled as they behave when they are compiled
    in; in particular [assert(!(row = nullptr))] clears the counter's own
    pointer, [row] being a reference to [data_[label]]. *)
Definition decr (c : SharedCounter) (h : Heap) (a : VectorAllocator)
    (label state : nat) : option (Z * SharedCounter * Heap * VectorAllocator) :=
  orow ← data_ c !! label;
  row ← orow;
  v ← h !! row;
  i ← slot c label state;
  _ ← assert (bool_decide (i < length v)%nat);
  refCount ← v !! 0%nat;
  master ← v !! 1%nat;
  if master =? 1 then
    x ← v !! i;
    _ ← assert (x =? 1);
    let '(h1, a1) :=
      if refCount =? 1 then (h, reclaim a row)
      else (<[row := <[0%nat := wrap64 (refCount - 1)]> v]> h, a) in
    Some (0, set_data c label None, h1, a1)
  else
    let '(row', v', h1, a1) :=
      if 1 <? refCount then
        let h0 := <[row := <[0%nat := wrap64 (refCount - 1)]> v]> h in
        let '(newRow, h1, a1) := allocate h0 a in
        let new0 := resize (length v) (default [] (h1 !! newRow)) in
        let new1 := <[0%nat := 1]> new0 in
        let new2 := take 1 new1 ++ drop 1 v in
        (newRow, new2, <[newRow := new2]> h1, a1)
      else (row, v, h, a) in
    m ← v' !! 1%nat;
    let v1 := <[1%nat := wrap64 (m - 1)]> v' in
    x ← v1 !! i;
    let r := wrap64 (x - 1) in
    Some (r, set_data c label (Some row'), <[row' := <[i := r]> v1]> h1, a1).

(** [this->copyRow(label, cnt)]: returns the updated [this] and the heap;
    [cnt] itself is not changed, only the row it points to. *)
Definition copyRow (this : SharedCounter) (h : Heap) (label : nat)
    (cnt : SharedCounter) : option (SharedCounter * Heap) :=
  mine ← data_ this !! label;
  theirs ← data_ cnt !! label;
  _ ← assert (bool_decide (length (data_ this) = length (data_ cnt)));
  row ← theirs;
  _ ← assert (bool_decide (mine = None));
  v ← h !! row;
  refCount ← v !! 0%nat;
  Some (set_data this label (Some row), <[row := <[0%nat := wrap64 (refCount + 1)]> v]> h).

(** What a counter observes of its row for [label]: the master field and
    the per-slot counts, that is, the row without its reference count. *)
Definition observed (c : SharedCounter) (h : Heap) (label : nat) : option (list Z) :=
  orow ← data_ c !! label;
  row ← orow;
  v ← h !! row;
  Some (drop 1 v).

End Counter.

(** ** ExplicitUpwardInclusion::checkInternal (explicit_tree_incl_up.cc) *)

Module Up.
Import Antichain TreeAut.

(** A macro-state is a sorted [std::vector] of states.  [BiggerType] is a
    shared pointer into a cache in which equal vectors share one object, so
    that pointer equality is equality of the vectors; the memoising caches
    ([lteCache], [evalTransitionsCache]) return what the functions they wrap
    return, and are left out. *)
Abbreviation StateSet := (list nat).
Abbreviation BiggerType := (list nat).
Abbreviation TransitionList := (list Transition).

(** Early exit from the nested loops: [return false] with its description,
    or going on with the state. *)
Inductive flow (A : Type) : Type :=
  | Return (v : bool * string)
  | Next (a : A).
Arguments Return {A} v.
Arguments Next {A} a.

Fixpoint rfold {A B : Type} (f : A → B → result A) (a : A) (l : list B) : result A :=
  match l with
  | [] => Ok a
  | x :: l' => a' ←ʳ f a x; rfold f a' l'
  end.

Fixpoint ffold {A B : Type} (f : A → B → result (flow A)) (a : A) (l : list B)
    : result (flow A) :=
  match l with
  | [] => Ok (Next a)
  | x :: l' =>
      r ←ʳ f a x;
      match r with
      | Return v => Ok (Return v)
      | Next a' => ffold f a' l'
      end
  end.

(** [checkIntersection]: the merge walk over two sorted sequences. *)
Fixpoint checkIntersection (s1 s2 : list nat) : bool :=
  match s1 with
  | [] => false
  | x :: s1' =>
      (fix walk (s2 : list nat) : bool :=
         match s2 with
         | [] => false
         | y :: s2' =>
             if (x <? y)%nat then checkIntersection s1' s2
             else if (y <? x)%nat then walk s2'
             else true
         end) s2
  end.

(** [intersectionByLookup(d, s)]. *)
Definition intersectionByLookup (d s : list Transition) : list Transition :=
  List.filter (λ t, bool_decide (t ∈ s)) d.

(** The cartesian product [ChoiceVector] walks through: slot 0 moves
    fastest, and the walk starts at the first macro-state of every slot. *)
Fixpoint product {A : Type} (ls : list (list A)) : list (list A) :=
  match ls with
  | [] => [[]]
  | l :: rest => r ← product rest; x ← l; [x :: r]
  end.

Definition refuted {A : Type} (reason : string) : result (flow A) :=
  Ok (Return (false, ("Inclusion refuted! Reason: " +:+ reason)%string)).

(** A [return false] out of the loops: its verdict is false and its reason
    is the given one. *)
Definition refutation (r : string) (v : bool * string) : Prop :=
  v = (false, ("Inclusion refuted! Reason: " +:+ r)%string).

(** The reasons the specification lists for a refutation. *)
Definition reasons : list string :=
  ["leaves not covered"; "smaller accepts, bigger does not";
   "leaves set sizes incompatible"]%string.

(** A verdict with the description that goes with it: a refutation names
    one of the reasons, a proof carries none of them. *)
Definition described (v : bool * string) : Prop :=
  if v.1 then v.2 = "Inclusion proved!"%string
  else ∃ r, r ∈ reasons ∧ v.2 = ("Inclusion refuted! Reason: " +:+ r)%string.

Record State := MkState {
  processed : Antichain2C StateSet;
  next : list (nat * StateSet)
}.

Section CheckInternal.

(** [AntichainElem::less] breaks ties by the address of the macro-state; the
    order of the addresses is not fixed by the program, and is a parameter. *)
Variable addr_lt : StateSet → StateSet → bool.

Variable smallerLeaves : list TransitionList.
Variable smallerIndex : list (list (list TransitionList)).
Variable smallerFinalStates : gset nat.
Variable biggerLeaves : list TransitionList.
Variable biggerIndex : list (list (list TransitionList)).
Variable biggerFinalStates : gset nat.
Variable ind inv : list (list nat).

Definition less (p1 p2 : nat * StateSet) : bool :=
  if (length p1.2 <? length p2.2)%nat then true
  else if (length p2.2 <? length p1.2)%nat then false
  else if (p1.1 <? p2.1)%nat then true
  else if (p2.1 <? p1.1)%nat then false
  else addr_lt p1.2 p2.2.

(** [std::set::insert] and [std::set::erase] under [less]. *)
Fixpoint next_insert (e : nat * StateSet) (l : list (nat * StateSet)) : list (nat * StateSet) :=
  match l with
  | [] => [e]
  | x :: rest =>
      if less e x then e :: l
      else if less x e then x :: next_insert e rest
      else l
  end.

Definition next_erase (l : list (nat * StateSet)) (e : nat * StateSet) : list (nat * StateSet) :=
  List.filter (λ x, less e x || less x e) l.

(** [noncachedLte].  Every state of a macro-state went through [ind.at] when
    it entered [post], so the access cannot fail here. *)
Definition noncachedLte (x y : StateSet) : bool :=
  forallb (λ s1, checkIntersection (default [] (ind !! s1)) y) x.

Definition lte (x y : BiggerType) : bool :=
  if decide (x = y) then true else noncachedLte x y.

Definition gte (x y : BiggerType) : bool := lte y x.

(** [noncachedEvalTransitions]: the transitions of the bigger automaton under
    [symbol] whose [i]-th child lies in [states].  The result is an unordered
    set; it is listed here in the order of the index, without repetitions. *)
Definition evalTransitions (symbol i : nat) (states : StateSet) : list Transition :=
  match biggerIndex !! symbol with
  | None => []
  | Some iter =>
      match iter !! i with
      | None => []
      | Some indexedTransitionList =>
          remove_dups
            (concat (map (λ state, default [] (indexedTransitionList !! state)) states))
      end
  end.

(** One bigger transition folded through the [Antichain1C] [post]. *)
Definition fold_post (st : Antichain1C * bool) (s : nat) : result (Antichain1C * bool) :=
  let '(post, accepting) := st in
  _ ←ʳ require (s <? length ind)%nat;
  up ←ʳ of_option (ind !! s);
  if contains1 post up then Ok (post, accepting)
  else
    _ ←ʳ require (s <? length inv)%nat;
    down ←ʳ of_option (inv !! s);
    Ok (insert1 (refine1 post down) s, accepting || bool_decide (s ∈ biggerFinalStates)).

(** [processed.contains], [processed.refine] with the [Eraser] on [next],
    [processed.insert], [next.insert]. *)
Definition add_processed (st : State) (p : nat) (up : list nat) (Q : BiggerType)
    : result State :=
  if contains2 (processed st) up Q lte then Ok st
  else
    _ ←ʳ require (p <? length inv)%nat;
    down ←ʳ of_option (inv !! p);
    let '(refined, erased) := refine2 (processed st) down Q gte in
    Ok (MkState (insert2 refined p Q)
          (next_insert (p, Q) (fold_left next_erase erased (next st)))).

(** *** Leaf seeding *)

Definition seed_leaf (tmp : StateSet) (isAccepting : bool) (st : State)
    (transition : Transition) : result (flow State) :=
  if negb isAccepting && bool_decide (state transition ∈ smallerFinalStates)
  then refuted "leaves not covered"
  else
    _ ←ʳ require (state transition <? length ind)%nat;
    up ←ʳ of_option (ind !! state transition);
    if checkIntersection up tmp then Ok (Next st)
    else rmap Next (add_processed st (state transition) up tmp).

Definition seed_symbol (st : State) (symbol : nat) : result (flow State) :=
  biggerTransitions ←ʳ of_option (biggerLeaves !! symbol);
  smallerTransitions ←ʳ of_option (smallerLeaves !! symbol);
  '(post, isAccepting) ←ʳ
    rfold (λ acc transition,
             _ ←ʳ require (bool_decide (children transition = []));
             fold_post acc (state transition))
          ([], false) biggerTransitions;
  let tmp := merge_sort le post in
  ffold (seed_leaf tmp isAccepting) st smallerTransitions.

(** *** The inductive step *)

(** [ChoiceVector::build]: per slot, the list of macro-states to choose
    from; [None] when [processed] holds nothing for some child. *)
Definition build (processed : Antichain2C StateSet) (fixed : BiggerType)
    (children : list nat) (index : nat) : option (list (list BiggerType)) :=
  mapM (λ '(i, child), if (i =? index)%nat then Some [fixed] else lookup2 processed child)
       (imap pair children).

(** The intersection, over the slots, of the bigger transitions whose child
    at the slot lies in the chosen macro-state. *)
Definition big_set (symbol : nat) (choice : list BiggerType) : list Transition :=
  match choice with
  | [] => []
  | Q0 :: rest =>
      fold_left (λ d '(k, Qk), intersectionByLookup d (evalTransitions symbol (S k) Qk))
        (imap pair rest) (evalTransitions symbol 0 Q0)
  end.

(** The post macro-state of a choice (before it is sorted), and
    [isBiggerAccepting]. *)
Definition post_of (symbol : nat) (choice : list BiggerType) : result (Antichain1C * bool) :=
  rfold fold_post ([], false) (map state (big_set symbol choice)).

(** The body of the [do ... while (choiceVector.next())] loop. *)
Definition choice_step (symbol : nat) (smallerTransition : Transition)
    (temporary : Antichain2C StateSet) (choice : list BiggerType)
    : result (flow (Antichain2C StateSet)) :=
  '(post, isBiggerAccepting) ←ʳ post_of symbol choice;
  let isSmallerAccepting := bool_decide (state smallerTransition ∈ smallerFinalStates) in
  if bool_decide (post = []) || (negb isBiggerAccepting && isSmallerAccepting)
  then refuted "smaller accepts, bigger does not"
  else
    let tmp := merge_sort le post in
    _ ←ʳ require (state smallerTransition <? length ind)%nat;
    up ←ʳ of_option (ind !! state smallerTransition);
    if checkIntersection up tmp then Ok (Next temporary)
    else if contains2 temporary up tmp lte then Ok (Next temporary)
    else
      _ ←ʳ require (state smallerTransition <? length inv)%nat;
      down ←ʳ of_option (inv !! state smallerTransition);
      Ok (Next (insert2 (refine2 temporary down tmp gte).1 (state smallerTransition) tmp)).

(** Promotion of [temporary] into [processed]; the map is walked in the
    order of its keys. *)
Definition promote (st : State) (temporary : Antichain2C StateSet) : result State :=
  rfold (λ st '(p, bigger),
           _ ←ʳ require (p <? length ind)%nat;
           up ←ʳ of_option (ind !! p);
           add_processed st p up bigger)
        st
        (map_to_list temporary ≫= λ '(p, biggers), pair p <$> biggers).

(** One smaller transition with the popped state at slot [j]. *)
Definition process_transition (symbol j : nat) (Q : BiggerType) (st : State)
    (smallerTransition : Transition) : result (flow State) :=
  _ ←ʳ require (j <? length (children smallerTransition))%nat;
  match build (processed st) Q (children smallerTransition) j with
  | None => Ok (Next st)
  | Some lists =>
      r ←ʳ ffold (choice_step symbol smallerTransition) ∅ (product lists);
      match r with
      | Return v => Ok (Return v)
      | Next temporary => rmap Next (promote st temporary)
      end
  end.

(** Everything done for one popped pair [(q, Q)]. *)
Definition process_pair (q : nat) (Q : BiggerType) (st : State) : result (flow State) :=
  _ ←ʳ require (q <? length inv)%nat;
  smallerTransitionIndex ←ʳ of_option (smallerIndex !! q);
  ffold (λ st '(symbol, slots),
           ffold (λ st '(j, smallerTransitions),
                    ffold (process_transition symbol j Q) st smallerTransitions)
                 st (imap pair slots))
        st (imap pair smallerTransitionIndex).

(** [while (!next.empty())]. *)
Fixpoint main_loop (fuel : nat) (st : State) : result (bool * string) :=
  match next st with
  | [] => Ok (true, "Inclusion proved!"%string)
  | (q, Q) :: rest =>
      match fuel with
      | O => Timeout
      | S fuel' =>
          r ←ʳ process_pair q Q (MkState (processed st) rest);
          match r with
          | Return v => Ok v
          | Next st' => main_loop fuel' st'
          end
      end
  end.

(** [checkInternal]: the verdict, and the description left in the context. *)
Definition checkInternal (fuel : nat) : result (bool * string) :=
  if (length biggerLeaves <? length smallerLeaves)%nat
  then Ok (false, "Inclusion refuted! Reason: leaves set sizes incompatible"%string)
  else
    r ←ʳ ffold seed_symbol (MkState ∅ []) (seq 0 (length smallerLeaves));
    match r with
    | Return v => Ok v
    | Next st => main_loop fuel st
    end.

(** The leaf transitions stay within the preorder's index views, and the
    bigger side's leaves have no children: what the assertions and the
    checked accesses of the leaf seeding ask for. *)
Definition leaves_in_range : Prop :=
  (∀ ts t, ts ∈ biggerLeaves → t ∈ ts →
     children t = [] ∧ (state t < length ind)%nat ∧ (state t < length inv)%nat)
  ∧ (∀ ts t, ts ∈ smallerLeaves → t ∈ ts →
     (state t < length ind)%nat ∧ (state t < length inv)%nat).

(** The preorder relates a final state of the bigger automaton to final
    states only: whatever [post.refine(inv.at(s))] removes for [s], if final,
    leaves the final [s] in its place. *)
Definition finals_upward_closed : Prop :=
  ∀ s down x, inv !! s = Some down → x ∈ down →
    x ∈ biggerFinalStates → s ∈ biggerFinalStates.

(** C2 as the specification words it, for one choice of one transition: the
    step refutes exactly when [Q'] is empty while [p] is final, or no state
    of [Q'] is final while [p] is final. *)
Definition refutes_as_specified (symbol : nat) (smallerTransition : Transition)
    (temporary : Antichain2C StateSet) (choice : list BiggerType) : Prop :=
  ∀ post isBiggerAccepting,
    post_of symbol choice = Ok (post, isBiggerAccepting) →
    ((∃ v, choice_step symbol smallerTransition temporary choice = Ok (Return v))
     ↔ (post = [] ∧ state smallerTransition ∈ smallerFinalStates)
       ∨ ((∀ s, s ∈ post → s ∉ biggerFinalStates)
          ∧ state smallerTransition ∈ smallerFinalStates)).

(** C4 as the specification words it: a leaf symbol with a transition in the
    smaller automaton and none in the bigger one makes the check return
    [false]. *)
Definition uncovered_leaf_refutes : Prop :=
  ∀ fuel symbol ts,
    smallerLeaves !! symbol = Some ts → ts ≠ [] →
    (biggerLeaves !! symbol = None ∨ biggerLeaves !! symbol = Some []) →
    ∃ d, checkInternal fuel = Ok (false, d).

End CheckInternal.

End Up.

(** ** The upward check on automata, and what its correctness is stated with *)

Module UpSpec.
Import Antichain TreeAut Up.

(** The upward check of [smaller] against [bigger] under the preorder with
    index views [ind] and [inv], on the indexed views of the two automata. *)
Definition InclUpward (addr_lt : list nat → list nat → bool) (smaller bigger : Aut)
    (ind inv : list (list nat)) (symbols slots states fuel : nat) : result (bool * string) :=
  checkInternal addr_lt
    (leaves smaller symbols) (child_index smaller symbols slots states) (finalStates smaller)
    (leaves bigger symbols) (up_index bigger symbols slots states) (finalStates bigger)
    ind inv fuel.

(** C1 for the upward check under the identity preorder, as the
    specification words it: the verdict is the language inclusion. *)
Definition upward_decides_inclusion (addr_lt : list nat → list nat → bool)
    (smaller bigger : Aut) (symbols slots states : nat) : Prop :=
  ∃ fuel verdict description,
    InclUpward addr_lt smaller bigger (id_rows states) (id_rows states)
      symbols slots states fuel = Ok (verdict, description)
    ∧ (verdict = true ↔ included smaller bigger).

(** A tree with a hole, and the tree it makes around a subtree. *)
Inductive ctx : Type :=
  | Hole
  | Fill (sym : nat) (before : list tree) (c : ctx) (after : list tree).

Fixpoint plug (c : ctx) (t : tree) : tree :=
  match c with
  | Hole => t
  | Fill f before c' after => Node f (before ++ plug c' t :: after)
  end.

(** A state is useful when some context takes every tree that reaches it
    to an accepted tree; an automaton without useless states has only
    useful states at the head of its transitions. *)
Definition useful (a : Aut) (p : nat) : Prop :=
  ∃ c, ∀ t, p ∈ reach a t → accepts a (plug c t) = true.

Definition no_useless_states (a : Aut) : Prop :=
  ∀ tr, tr ∈ transitions a → useful a (state tr).

(** The automaton fits the sizes its indexed views are built with. *)
Definition in_range (a : Aut) (symbols slots states : nat) : Prop :=
  ∀ tr, tr ∈ transitions a →
    (symbol tr < symbols)%nat ∧ (length (children tr) ≤ slots)%nat
    ∧ (state tr < states)%nat ∧ Forall (λ c, (c < states)%nat) (children tr).

(** One ranked alphabet: a symbol has the same arity in both automata. *)
Definition same_rank (a b : Aut) : Prop :=
  ∀ tr tr', tr ∈ transitions a → tr' ∈ transitions b →
    symbol tr = symbol tr' → length (children tr) = length (children tr').

(** The two automata do not share the number of a state. *)
Definition disjoint_states (a b : Aut) : Prop :=
  ∀ tr tr', tr ∈ transitions a → tr' ∈ transitions b → state tr ≠ state tr'.

(** Any two distinct macro-states sit at comparable addresses. *)
Definition total (addr_lt : list nat → list nat → bool) : Prop :=
  ∀ x y, x ≠ y → addr_lt x y = true ∨ addr_lt y x = true.

(** The parents of the transitions of [b] under [sym] whose children lie,
    slot by slot, in [Qs]: one step of the subset construction. *)
Definition Post (b : Aut) (sym : nat) (Qs : list (list nat)) : list nat :=
  map state
    (List.filter (λ tr, bool_decide (symbol tr = sym) && fits (children tr) Qs)
       (transitions b)).

(** All sublists of a list, and with them the finite universe of the pairs
    [(q, Q)] over the states below [n]. *)
Fixpoint powerlist {A : Type} (l : list A) : list (list A) :=
  match l with
  | [] => [[]]
  | x :: l' => powerlist l' ++ map (cons x) (powerlist l')
  end.

Definition universe (n : nat) : list (nat * list nat) :=
  p ← seq 0 n; Q ← powerlist (seq 0 n); [(p, Q)].

Section Invariant.
Variable A B : Aut.
Variable states : nat.

(** What holds of every pair [(p, Q)] the check stores: some tree takes the
    smaller automaton to [p] and the bigger one exactly to the states of
    [Q]; [Q] is strictly sorted; [p] heads a transition of the smaller
    automaton; and a final [p] comes with a final state in [Q]. *)
Definition good (p : nat) (Q : list nat) : Prop :=
  (∃ t, p ∈ reach A t ∧ ∀ s, s ∈ Q ↔ s ∈ reach B t)
  ∧ StronglySorted lt Q
  ∧ (∃ tr, tr ∈ transitions A ∧ state tr = p)
  ∧ (p ∈ finalStates A → ∃ s, s ∈ Q ∧ s ∈ finalStates B).

(** The macro-states stored under [p] cover [Q]: one of them is a subset. *)
Definition covered (ac : gmap nat (list (list nat))) (p : nat) (Q : list nat) : Prop :=
  ∃ Q', Q' ∈ stored ac p ∧ Q' ⊆ Q.

(** The antichain has grown. *)
Definition grows (ac ac' : gmap nat (list (list nat))) : Prop :=
  ∀ p Q, Q ∈ stored ac p → Q ∈ stored ac' p.

(** The choices of macro-states for the children of a transition, each pair
    taken from [popped]. *)
Definition chosen (popped : list (nat * list nat)) (children : list nat)
    (Qs : list (list nat)) : Prop :=
  Forall2 (λ p Q, (p, Q) ∈ popped) children Qs.

(** What holds of the state throughout, with the pairs popped so far:
    every stored pair is good; pending and popped pairs are stored; a popped
    pair is not pending; every stored pair is pending or popped. *)
Record Pre (st : State) (popped : list (nat * list nat)) : Prop := MkPre {
  pre_good : ∀ p Q, Q ∈ stored (processed st) p → good p Q;
  pre_next : ∀ p Q, (p, Q) ∈ next st → Q ∈ stored (processed st) p;
  pre_next_nodup : NoDup (next st);
  pre_popped : ∀ p Q, (p, Q) ∈ popped →
    Q ∈ stored (processed st) p ∧ (p, Q) ∉ next st;
  pre_nodup : NoDup popped;
  pre_split : ∀ p Q, Q ∈ stored (processed st) p →
    (p, Q) ∈ popped ∨ (p, Q) ∈ next st
}.

(** The leaf transitions of the smaller automaton are covered. *)
Definition leaves_closed (ac : gmap nat (list (list nat))) : Prop :=
  ∀ tr, tr ∈ transitions A → children tr = [] →
    covered ac (state tr) (Post B (symbol tr) []).

(** Every transition of the smaller automaton, applied to popped pairs, is
    covered. *)
Definition closed (ac : gmap nat (list (list nat)))
    (popped : list (nat * list nat)) : Prop :=
  ∀ tr Qs, tr ∈ transitions A → children tr ≠ [] →
    chosen popped (children tr) Qs →
    covered ac (state tr) (Post B (symbol tr) Qs).

(** One transition with the popped pair [(q, Q)] at slot [j] is covered. *)
Definition closed_at (popped : list (nat * list nat)) (Q : list nat)
    (tr : Transition) (j : nat) (ac : gmap nat (list (list nat))) : Prop :=
  ∀ Qs, chosen popped (children tr) Qs → Qs !! j = Some Q →
    covered ac (state tr) (Post B (symbol tr) Qs).

(** The invariant of the main loop. *)
Definition Inv (st : State) (popped : list (nat * list nat)) : Prop :=
  Pre st popped ∧ leaves_closed (processed st) ∧ closed (processed st) popped.

(** What holds of the pairs collected in [temporary] for one transition
    into [p]. *)
Definition temporary_good (p : nat) (temporary : gmap nat (list (list nat))) : Prop :=
  ∀ p' Q', Q' ∈ stored temporary p' → p' = p ∧ good p Q'.

(** A refutation is right: some tree is accepted by the smaller automaton
    and not by the bigger one. *)
Definition justified (v : bool * string) : Prop :=
  v.1 = false ∧ ∃ t, accepts A t = true ∧ accepts B t = false.

End Invariant.

(** Modelled from the spec: the index views of a preorder [R] on the states
    below [n] (the class that builds them is not among the sources), "for
    each state [s], the set of states related upward to [s]
    ([ind[s] = {t : s R t}]) and downward ([inv[s] = {t : t R s}])". *)
Definition ind_rows (R : nat → nat → bool) (n : nat) : list (list nat) :=
  (λ s, List.filter (λ t, R s t) (seq 0 n)) <$> seq 0 n.

Definition inv_rows (R : nat → nat → bool) (n : nat) : list (list nat) :=
  (λ s, List.filter (λ t, R t s) (seq 0 n)) <$> seq 0 n.

(** C1 for the upward check under a preorder [R], as the specification
    words it: the verdict is the language inclusion. *)
Definition upward_decides_inclusion_under (addr_lt : list nat → list nat → bool)
    (R : nat → nat → bool) (smaller bigger : Aut) (symbols slots states : nat) : Prop :=
  ∃ fuel verdict description,
    InclUpward addr_lt smaller bigger (ind_rows R states) (inv_rows R states)
      symbols slots states fuel = Ok (verdict, description)
    ∧ (verdict = true ↔ included smaller bigger).

(** [R] is an upward simulation on an automaton: a final state is only
    below final states, and a transition with [p] in a slot has, for every
    [q] above [p], a counterpart with [q] in that slot whose parent is above
    its own.  Every context that accepts from [p] then accepts from [q]. *)
Definition climbs (R : nat → nat → bool) (a : Aut) : Prop :=
  (∀ p q, R p q = true → p ∈ finalStates a → q ∈ finalStates a)
  ∧ ∀ tr i p q, tr ∈ transitions a → children tr !! i = Some p → R p q = true →
      ∃ tr', tr' ∈ transitions a ∧ symbol tr' = symbol tr
        ∧ children tr' = <[i := q]> (children tr) ∧ R (state tr) (state tr') = true.

(** A preorder compatible with the two automata: reflexive, transitive,
    and an upward simulation on each of them. *)
Definition compatible (R : nat → nat → bool) (smaller bigger : Aut) : Prop :=
  (∀ s, R s s = true)
  ∧ (∀ s t u, R s t = true → R t u = true → R s u = true)
  ∧ climbs R smaller ∧ climbs R bigger.

End UpSpec.

(** ** The simulation engine (OLRT partition refinement) *)

Module Sim.
Import Counter Up.

(** Modelled from the spec: [ExplicitLTS] (vata/explicit_lts.hh is not among
    the sources), "an LTS [(Q, Σ, δ)]": the states and the labels are the
    numbers below [states] and [labels], and [delta] lists the transitions
    (source, label, target).  [pre(a)[r]] and [post(a)[q]] are the
    [a]-predecessors of [r] and the [a]-successors of [q], one entry per
    transition; [bwLabels(r)] is the set of the labels of the transitions
    into [r]. *)
Record ExplicitLTS := LTS {
  states : nat;
  labels : nat;
  delta : list (nat * nat * nat)
}.

(** Modelled from the spec: [pre(a)[r]], the [a]-predecessors of [r]. *)
Definition pre (lts : ExplicitLTS) (a r : nat) : list nat :=
  omap (λ '(q, a', r'), if bool_decide (a' = a ∧ r' = r) then Some q else None) (delta lts).

(** Modelled from the spec: [post(a)[q]], the [a]-successors of [q]. *)
Definition post (lts : ExplicitLTS) (a q : nat) : list nat :=
  omap (λ '(q', a', r), if bool_decide (a' = a ∧ q' = q) then Some r else None) (delta lts).

(** Modelled from the spec: [bwLabels(r)], the labels under which [r] has
    a predecessor. *)
Definition bwLabels (lts : ExplicitLTS) (r : nat) : list nat :=
  remove_dups
    (omap (λ '(q, a, r'), if bool_decide (r' = r) then Some a else None) (delta lts)).

(** Modelled from the spec: [SmartSet] (vata/util/smart_set.hh is not among
    the sources), a set of numbers that counts how often each of them was
    added; with it the inset of a block is kept as "the labels [a] such that
    some state in the block has an [a]-predecessor" while states move between
    blocks.  [removeStrict] takes one occurrence away (which has to be
    there), [remove] all of them, [assignFlat] copies the elements with one
    occurrence each; the elements are walked through in ascending order. *)
Abbreviation SmartSet := (gmap nat nat).

Definition ss_add (s : SmartSet) (x : nat) : SmartSet :=
  <[x := S (default 0%nat (s !! x))]> s.

Definition ss_removeStrict (s : SmartSet) (x : nat) : result SmartSet :=
  match s !! x with
  | Some (S (S n)) => Ok (<[x := S n]> s)
  | Some _ => Ok (delete x s)
  | None => Abort
  end.

Definition ss_remove (s : SmartSet) (x : nat) : SmartSet := delete x s.

Definition ss_contains (s : SmartSet) (x : nat) : bool := bool_decide (is_Some (s !! x)).

Definition ss_elements (s : SmartSet) : list nat := merge_sort le (elements (dom s)).

Definition ss_assignFlat (s : SmartSet) : SmartSet := (λ _, 1%nat) <$> s.

(** Modelled from the spec: [BinaryRelation] (vata/util/binary_relation.hh
    is not among the sources), a relation on the indices below its size,
    "stored as a bitset"; "index [(i,j)] is [true] iff state [i] is simulated
    by state [j]".  [split(i, reflexive)], which the specification does not
    describe, is taken to add one index, related to the others as [i] is and
    to itself as [reflexive] says. *)
Record BinaryRelation := Rel {
  rel_size : nat;
  rel_data : gset (nat * nat)
}.

Definition rel_get (r : BinaryRelation) (i j : nat) : bool :=
  bool_decide ((i, j) ∈ rel_data r).

Definition rel_set (r : BinaryRelation) (i j : nat) (b : bool) : BinaryRelation :=
  Rel (rel_size r) (if b then {[(i, j)]} ∪ rel_data r else rel_data r ∖ {[(i, j)]}).

Definition rel_resize (r : BinaryRelation) (n : nat) : BinaryRelation :=
  Rel n (filter (λ p, (p.1 < n)%nat ∧ (p.2 < n)%nat) (rel_data r)).

Definition rel_split (r : BinaryRelation) (index : nat) (reflexive : bool)
    : BinaryRelation * nat :=
  let n := rel_size r in
  let row := set_map (λ p : nat * nat, (n, p.2))
               (filter (λ p : nat * nat, p.1 = index) (rel_data r)) in
  let col := set_map (λ p : nat * nat, (p.1, n))
               (filter (λ p : nat * nat, p.2 = index) (rel_data r)) in
  (Rel (S n) (rel_data r ∪ row ∪ col ∪ (if reflexive then {[(n, n)]} else ∅)), n).

(** Modelled from the spec: [RemoveList], a [SharedList] of vectors of
    states (vata/util/shared_list.hh is not among the sources): the
    "per-label remove lists" of a block, of which the clones of a block get
    "copies".  A list is represented by the states in it; the vectors behind
    it are not counter rows, and giving them back to the allocator is left
    out. *)
Abbreviation RemoveList := (list nat).

(** A ring of [StateListElem]s is represented by the list of the states in
    it, read from the element the block points to along [next_]; the null
    pointer is the empty list.  [index_] is the state itself, and [block_]
    is kept in the algorithm's state. *)
Record OLRTBlock := Block {
  _index : nat;
  _states : list nat;
  _remove : list (option RemoveList);
  _counter : list (option Ptr);
  _inset : SmartSet;
  _tmp : list nat
}.

Definition set_rings (b : OLRTBlock) (s t : list nat) : OLRTBlock :=
  Block (_index b) s (_remove b) (_counter b) (_inset b) t.

Definition set_remove (b : OLRTBlock) (r : list (option RemoveList)) : OLRTBlock :=
  Block (_index b) (_states b) r (_counter b) (_inset b) (_tmp b).

Definition set_counter (b : OLRTBlock) (c : list (option Ptr)) : OLRTBlock :=
  Block (_index b) (_states b) (_remove b) c (_inset b) (_tmp b).

Definition set_inset (b : OLRTBlock) (i : SmartSet) : OLRTBlock :=
  Block (_index b) (_states b) (_remove b) (_counter b) i (_tmp b).

(** Where [q] sits in a ring: the states before it and the states after. *)
Fixpoint split_ring (q : nat) (l : list nat) : option (list nat * list nat) :=
  match l with
  | [] => None
  | x :: l' =>
      if decide (x = q) then Some ([], l')
      else '(before, after) ← split_ring q l'; Some (x :: before, after)
  end.

(** [StateListElem::move]: the element leaves the ring [src], which from
    then on starts at the element that followed it, and enters [dst] before
    the element [dst] points to, that is, at the end.  The element is in
    the ring it leaves. *)
Definition move (q : nat) (src dst : list nat) : result (list nat * list nat) :=
  _ ←ʳ require (bool_decide (src ≠ []));
  '(before, after) ←ʳ of_option (split_ring q src);
  Ok (after ++ before, dst ++ [q]).

Definition moveToTmp (b : OLRTBlock) (q : nat) : result OLRTBlock :=
  '(s, t) ←ʳ move q (_states b) (_tmp b);
  Ok (set_rings b s t).

Definition checkEmpty (b : OLRTBlock) : bool * OLRTBlock :=
  match _states b with
  | [] => (true, set_rings b (_tmp b) [])
  | _ => (false, b)
  end.

(** The algorithm's state.  A pointer to a block is the position of the
    block in [_partition] (blocks are only ever pushed to its back); [block_]
    holds [_index[q].block_] for every state [q]; [_queue] is kept with its
    back first.  The counter rows live in [heap_]. *)
Record OLRTAlgorithm := Alg {
  heap_ : Heap;
  vectorAllocator_ : VectorAllocator;
  _partition : list OLRTBlock;
  _relation : BinaryRelation;
  block_ : list nat;
  _queue : list (nat * nat);
  _delta1 : list SmartSet;
  _key : list Z;
  _range : list Z
}.

Definition set_partition (alg : OLRTAlgorithm) (p : list OLRTBlock) : OLRTAlgorithm :=
  Alg (heap_ alg) (vectorAllocator_ alg) p (_relation alg) (block_ alg) (_queue alg)
    (_delta1 alg) (_key alg) (_range alg).

Definition set_relation (alg : OLRTAlgorithm) (r : BinaryRelation) : OLRTAlgorithm :=
  Alg (heap_ alg) (vectorAllocator_ alg) (_partition alg) r (block_ alg) (_queue alg)
    (_delta1 alg) (_key alg) (_range alg).

Definition set_block_ (alg : OLRTAlgorithm) (b : list nat) : OLRTAlgorithm :=
  Alg (heap_ alg) (vectorAllocator_ alg) (_partition alg) (_relation alg) b (_queue alg)
    (_delta1 alg) (_key alg) (_range alg).

Definition set_queue (alg : OLRTAlgorithm) (q : list (nat * nat)) : OLRTAlgorithm :=
  Alg (heap_ alg) (vectorAllocator_ alg) (_partition alg) (_relation alg) (block_ alg) q
    (_delta1 alg) (_key alg) (_range alg).

Definition set_heap (alg : OLRTAlgorithm) (h : Heap) (a : VectorAllocator) : OLRTAlgorithm :=
  Alg h a (_partition alg) (_relation alg) (block_ alg) (_queue alg)
    (_delta1 alg) (_key alg) (_range alg).

Definition set_delta (alg : OLRTAlgorithm) (d1 : list SmartSet) (key range : list Z)
    : OLRTAlgorithm :=
  Alg (heap_ alg) (vectorAllocator_ alg) (_partition alg) (_relation alg) (block_ alg)
    (_queue alg) d1 key range.

Definition get_block (alg : OLRTAlgorithm) (block : nat) : result OLRTBlock :=
  of_option (_partition alg !! block).

Definition put_block (alg : OLRTAlgorithm) (block : nat) (b : OLRTBlock) : OLRTAlgorithm :=
  set_partition alg (<[block := b]> (_partition alg)).

(** [v[i].push_back(x)]. *)
Definition push_at (i x : nat) (v : list (list nat)) : result (list (list nat)) :=
  l ←ʳ of_option (v !! i);
  Ok (<[i := l ++ [x]]> v).

Section OLRT.
Variable lts : ExplicitLTS.

(** The counter of a block: [key_], [states_] and [range_] are references
    to the algorithm's vectors and to the number of states of the LTS, the
    rows are the block's own. *)
Definition counter (alg : OLRTAlgorithm) (b : OLRTBlock) : SharedCounter :=
  Cnt (_key alg) (states lts) (_range alg) (_counter b).

(** [RemoveList::append] makes the list when there is none, which is when
    the pair is pushed on the queue. *)
Definition enqueueToRemove (alg : OLRTAlgorithm) (block label state : nat)
    : result OLRTAlgorithm :=
  b ←ʳ get_block alg block;
  r ←ʳ of_option (_remove b !! label);
  let alg1 :=
    put_block alg block
      (set_remove b (<[label := Some (default [] r ++ [state])]> (_remove b))) in
  Ok (match r with
      | None => set_queue alg1 ((block, label) :: _queue alg1)
      | Some _ => alg1
      end).

(** One step of the walks that collect blocks once each: [blockMask] is
    the list of the indices seen. *)
Definition collect (block : nat) (b : OLRTBlock) (acc : list nat * list nat)
    : list nat * list nat :=
  let '(blocks, blockMask) := acc in
  if bool_decide (_index b ∈ blockMask) then acc
  else (blocks ++ [block], _index b :: blockMask).

Definition buildPre (alg : OLRTAlgorithm) (states : list nat) (label : nat)
    : result (list nat) :=
  _ ←ʳ require (bool_decide (states ≠ []));
  acc ←ʳ rfold (λ acc q,
                  block ←ʳ of_option (block_ alg !! q);
                  b ←ʳ get_block alg block;
                  _ ←ʳ require (_index b <? length (_partition alg))%nat;
                  Ok (collect block b acc))
               ([], []) (states ≫= pre lts label);
  Ok acc.1.

Definition internalSplit (alg : OLRTAlgorithm) (remove : list nat)
    : result (OLRTAlgorithm * list nat) :=
  r ←ʳ rfold (λ '(alg, acc) q,
                _ ←ʳ require (q <? length (block_ alg))%nat;
                block ←ʳ of_option (block_ alg !! q);
                b ←ʳ get_block alg block;
                b' ←ʳ moveToTmp b q;
                _ ←ʳ require (_index b <? length (_partition alg))%nat;
                Ok (put_block alg block b', collect block b acc))
             (alg, ([], [])) remove;
  Ok (r.1, r.2.1).

(** [_partition.push_back(new OLRTBlock(lts, parent, index))]: the second
    constructor, and the push of the block it makes. *)
Definition pushNewBlock (alg : OLRTAlgorithm) (parent index : nat) : result OLRTAlgorithm :=
  p ←ʳ get_block alg parent;
  _ ←ʳ require (bool_decide (_tmp p ≠ []));
  let this := length (_partition alg) in
  '(parentInset, inset) ←ʳ
    rfold (λ '(parentInset, inset) a,
             parentInset' ←ʳ ss_removeStrict parentInset a;
             Ok (parentInset', ss_add inset a))
          (_inset p, ∅) (_tmp p ≫= bwLabels lts);
  let new :=
    Block index (_tmp p) (replicate (labels lts) None)
      (replicate (length (_counter p)) None) inset [] in
  let alg1 := put_block alg parent (set_inset (set_rings p (_states p) []) parentInset) in
  Ok (set_block_ (set_partition alg1 (_partition alg1 ++ [new]))
        (foldr (λ q, <[q := this]>) (block_ alg1) (_tmp p))).

Definition fastSplit (alg : OLRTAlgorithm) (remove : list nat) : result OLRTAlgorithm :=
  '(alg, modifiedBlocks) ←ʳ internalSplit alg remove;
  rfold (λ alg block,
           b ←ʳ get_block alg block;
           let b' := (checkEmpty b).2 in
           let alg := put_block alg block b' in
           if bool_decide (_tmp b' = []) then Ok alg
           else
             let '(relation, newIndex) := rel_split (_relation alg) (_index b') true in
             pushNewBlock (set_relation alg relation) block newIndex)
        alg modifiedBlocks.

Definition split (alg : OLRTAlgorithm) (remove : list nat)
    : result (OLRTAlgorithm * list nat) :=
  '(alg, modifiedBlocks) ←ʳ internalSplit alg remove;
  rfold (λ '(alg, removeList) block,
           b ←ʳ get_block alg block;
           let '(empty, b') := checkEmpty b in
           let alg := put_block alg block b' in
           if empty then Ok (alg, removeList ++ [block])
           else
             _ ←ʳ require (bool_decide (_tmp b' ≠ []));
             let '(relation, newIndex) := rel_split (_relation alg) (_index b') true in
             let newBlock := length (_partition alg) in
             alg ←ʳ pushNewBlock (set_relation alg relation) block newIndex;
             new ←ʳ get_block alg newBlock;
             alg ←ʳ rfold (λ alg a,
                             new ←ʳ get_block alg newBlock;
                             b ←ʳ get_block alg block;
                             '(c, h) ←ʳ of_option
                               (copyRow (counter alg new) (heap_ alg) a (counter alg b));
                             let new := set_counter new (data_ c) in
                             let alg := set_heap alg h (vectorAllocator_ alg) in
                             r ←ʳ of_option (_remove b !! a);
                             match r with
                             | None => Ok (put_block alg newBlock new)
                             | Some l =>
                                 Ok (put_block
                                       (set_queue alg ((newBlock, a) :: _queue alg))
                                       newBlock
                                       (set_remove new (<[a := Some l]> (_remove new))))
                             end)
                          alg (ss_elements (_inset new));
             Ok (alg, removeList ++ [newBlock]))
        (alg, []) modifiedBlocks.

(** The loop of [makeBlock]: a state of the new block leaves the ring of
    [block] for its [tmp] ring. *)
Definition makeBlock_move (block : nat) (alg : OLRTAlgorithm) (q : nat)
    : result OLRTAlgorithm :=
  elem_block ←ʳ of_option (block_ alg !! q);
  _ ←ʳ require (block =? elem_block)%nat;
  b ←ʳ get_block alg block;
  _ ←ʳ require (bool_decide (_states b ≠ []));
  b' ←ʳ moveToTmp b q;
  Ok (put_block alg block b').

Definition makeBlock (alg : OLRTAlgorithm) (states : list nat) (blockIndex : nat)
    : result OLRTAlgorithm :=
  front ←ʳ of_option (head states);
  block ←ʳ of_option (block_ alg !! front);
  alg ←ʳ rfold (makeBlock_move block) alg states;
  b ←ʳ get_block alg block;
  _ ←ʳ require (bool_decide (_states b ≠ []));
  _ ←ʳ require (bool_decide (_tmp b ≠ []));
  pushNewBlock alg block blockIndex.

(** The innermost loop of [processRemove]: the counter of [b1] for a
    predecessor [pre2] of a state of [b2]. *)
Definition decrement (b1 a : nat) (alg : OLRTAlgorithm) (pre2 : nat) : result OLRTAlgorithm :=
  blk1 ←ʳ get_block alg b1;
  '(n, c, h, va) ←ʳ
    of_option (decr (counter alg blk1) (heap_ alg) (vectorAllocator_ alg) a pre2);
  let alg := put_block (set_heap alg h va) b1 (set_counter blk1 (data_ c)) in
  if n =? 0 then enqueueToRemove alg b1 a pre2 else Ok alg.

Definition processRemove (alg : OLRTAlgorithm) (block label : nat) : result OLRTAlgorithm :=
  b ←ʳ get_block alg block;
  r ←ʳ of_option (_remove b !! label);
  let alg := put_block alg block (set_remove b (<[label := None]> (_remove b))) in
  remove ←ʳ of_option r;
  preList ←ʳ buildPre alg (_states b) label;
  '(alg, removeList) ←ʳ split alg remove;
  rfold (λ alg b1,
    rfold (λ alg b2,
      blk1 ←ʳ get_block alg b1;
      blk2 ←ʳ get_block alg b2;
      _ ←ʳ require (negb (_index blk1 =? _index blk2)%nat);
      if negb (rel_get (_relation alg) (_index blk1) (_index blk2)) then Ok alg
      else
        let alg :=
          set_relation alg (rel_set (_relation alg) (_index blk1) (_index blk2) false) in
        rfold (λ alg a,
          blk1 ←ʳ get_block alg b1;
          if negb (ss_contains (_inset blk1) a) then Ok alg
          else
            _ ←ʳ require (bool_decide (_states blk2 ≠ []));
            rfold (decrement b1 a) alg (_states blk2 ≫= pre lts a))
          alg (ss_elements (_inset blk2)))
      alg removeList)
    alg preList.

(** [isPartition]: no state occurs twice in the classes. *)
Definition isPartition (part : list (list nat)) (states : nat) : result bool :=
  r ←ʳ rfold (λ '(mask, ok) q,
                if ok : bool then
                  seen ←ʳ of_option (mask !! q);
                  if seen : bool then Ok (mask, false) else Ok (<[q := true]> mask, true)
                else Ok (mask, ok))
             (replicate states false, true) (concat part);
  Ok r.2.

Definition isConsistent (alg : OLRTAlgorithm) : bool :=
  bool_decide (length (_partition alg) = rel_size (_relation alg))
  && forallb (λ i, rel_get (_relation alg) i i) (seq 0 (length (_partition alg))).

(** Modelled from the spec: [ExplicitLTS::buildDelta], "build [δ] and its
    reverse": [delta1[a]] holds the states with an [a]-successor, once per
    [a]-transition from them.  ([delta[a]], the states with an
    [a]-predecessor, is not read by the algorithm.) *)
Definition buildDelta : list SmartSet :=
  (λ a, foldl ss_add ∅
          (omap (λ '(q, a', r), if bool_decide (a' = a) then Some q else None) (delta lts)))
    <$> seq 0 (labels lts).

(** The constructor: one block, with all the states in a ring. *)
Definition make : result OLRTAlgorithm :=
  _ ←ʳ require (0 <? states lts)%nat;
  let block :=
    Block 0 (seq 0 (states lts)) (replicate (labels lts) None)
      (replicate (labels lts) None)
      (foldl ss_add ∅ (seq 0 (states lts) ≫= bwLabels lts)) [] in
  Ok (Alg ∅ (Alloc []) [block] (Rel 0 ∅) (replicate (states lts) 0%nat) [] [] [] []).

(** [init], in the order of the source: the blocks of the partition; the
    relation; [_delta1], [_key] and [_range]; the split by the labels the
    states have successors under; the pruning of the relation; and the
    counters and the first remove lists. *)
Definition init_keys (delta1 : list SmartSet) : result (list Z * list Z) :=
  rfold (λ '(key, range) a,
           d ←ʳ of_option (delta1 !! a);
           _ ←ʳ require (a <? length range)%nat;
           let range := <[a := Z.of_nat (size d)]> range in
           key ←ʳ rfold (λ key '(x, q),
                           _ ←ʳ require (a * states lts + q <? length key)%nat;
                           Ok (<[(a * states lts + q)%nat := Z.of_nat x]> key))
                        key (imap pair (ss_elements d));
           Ok (key, range))
        (replicate (labels lts * states lts) (wrap64 (-1)), replicate (labels lts) 0)
        (seq 0 (labels lts)).

Definition init_pre (alg : OLRTAlgorithm) : result (list (list nat) * list (list nat)) :=
  rfold (λ acc block,
           _ ←ʳ require (bool_decide (_states block ≠ []));
           rfold (λ acc q,
                    rfold (λ '(pre, noPre) a,
                             d ←ʳ of_option (_delta1 alg !! a);
                             if ss_contains d q
                             then pre ←ʳ push_at (_index block) a pre; Ok (pre, noPre)
                             else noPre ←ʳ push_at a (_index block) noPre; Ok (pre, noPre))
                          acc (seq 0 (labels lts)))
                 acc (_states block))
        (replicate (length (_partition alg)) [], replicate (labels lts) [])
        (_partition alg).

Definition init_prune (alg : OLRTAlgorithm) (pre noPre : list (list nat))
    : result OLRTAlgorithm :=
  rfold (λ alg b1,
           as_ ←ʳ of_option (pre !! b1);
           rfold (λ alg a,
                    b2s ←ʳ of_option (noPre !! a);
                    rfold (λ alg b2,
                             _ ←ʳ require (negb (b1 =? b2)%nat);
                             Ok (set_relation alg (rel_set (_relation alg) b1 b2 false)))
                          alg b2s)
                 alg as_)
        alg (seq 0 (length (_partition alg))).

(** The counters and the first remove list of the block at position [i]
    for the label [a]. *)
Definition init_counter (i a : nat) (alg : OLRTAlgorithm) : result OLRTAlgorithm :=
  d ←ʳ of_option (_delta1 alg !! a);
  bi ←ʳ get_block alg i;
  alg ←ʳ rfold (λ alg q,
                  rfold (λ alg r,
                           rb ←ʳ of_option (block_ alg !! r);
                           rblock ←ʳ get_block alg rb;
                           if rel_get (_relation alg) (_index bi) (_index rblock)
                           then
                             b ←ʳ get_block alg i;
                             '(c, h, va) ←ʳ
                               of_option (incr (counter alg b) (heap_ alg)
                                            (vectorAllocator_ alg) a q);
                             Ok (put_block (set_heap alg h va) i (set_counter b (data_ c)))
                           else Ok alg)
                        alg (post lts a q))
               alg (ss_elements d);
  s ←ʳ rfold (λ s b2,
                if negb (rel_get (_relation alg) (_index bi) (_index b2)) then Ok s
                else
                  _ ←ʳ require (bool_decide (_states b2 ≠ []));
                  Ok (foldl ss_remove s (_states b2 ≫= pre lts a)))
             (ss_assignFlat d) (_partition alg);
  if bool_decide (s = ∅) then Ok alg
  else
    b ←ʳ get_block alg i;
    _ ←ʳ require (a <? length (_remove b))%nat;
    Ok (set_queue
          (put_block alg i (set_remove b (<[a := Some (ss_elements s)]> (_remove b))))
          ((i, a) :: _queue alg)).

Definition init (alg : OLRTAlgorithm) (partition : list (list nat))
    (relation : BinaryRelation) : result OLRTAlgorithm :=
  ok ←ʳ isPartition partition (states lts);
  _ ←ʳ require ok;
  alg ←ʳ rfold (λ alg '(i, cls), makeBlock alg cls i) alg (drop 1 (imap pair partition));
  let alg := set_relation alg relation in
  _ ←ʳ require (isConsistent alg);
  let delta1 := buildDelta in
  '(key, range) ←ʳ init_keys delta1;
  let alg := set_delta alg delta1 key range in
  alg ←ʳ rfold (λ alg a, d ←ʳ of_option (_delta1 alg !! a); fastSplit alg (ss_elements d))
               alg (seq 0 (labels lts));
  '(pre, noPre) ←ʳ init_pre alg;
  alg ←ʳ init_prune alg pre noPre;
  rfold (λ alg i,
           b ←ʳ get_block alg i;
           rfold (λ alg a, init_counter i a alg) alg (ss_elements (_inset b)))
        alg (reverse (seq 0 (length (_partition alg)))).

(** [run]: the queue is a stack. *)
Fixpoint run (fuel : nat) (alg : OLRTAlgorithm) : result OLRTAlgorithm :=
  match _queue alg with
  | [] => Ok alg
  | (block, label) :: rest =>
      match fuel with
      | O => Timeout
      | S fuel' =>
          alg' ←ʳ processRemove (set_queue alg rest) block label;
          run fuel' alg'
      end
  end.

Definition buildResult (alg : OLRTAlgorithm) (size : nat) : result BinaryRelation :=
  rfold (λ result i,
           bi ←ʳ of_option (block_ alg !! i);
           blocki ←ʳ get_block alg bi;
           rfold (λ result j,
                    bj ←ʳ of_option (block_ alg !! j);
                    blockj ←ʳ get_block alg bj;
                    Ok (rel_set result i j
                          (rel_get (_relation alg) (_index blocki) (_index blockj))))
                 result (seq 0 size))
        (rel_resize (Rel 0 ∅) size) (seq 0 size).

Definition computeSimulation (fuel : nat) (partition : list (list nat))
    (relation : BinaryRelation) (outputSize : nat) : result BinaryRelation :=
  if (states lts =? 0)%nat then Ok (Rel 0 ∅)
  else
    alg ←ʳ make;
    alg ←ʳ init alg partition relation;
    alg ←ʳ run fuel alg;
    buildResult alg outputSize.

End OLRT.

(** What C6 is stated with: a true partition of the states below [n], and
    reflexivity and transitivity of a relation on the indices below [n]. *)
Definition true_partition (n : nat) (partition : list (list nat)) : Prop :=
  concat partition ≡ₚ seq 0 n ∧ Forall (λ cls, cls ≠ []) partition.

Definition reflexive_on (n : nat) (r : BinaryRelation) : Prop :=
  ∀ i, (i < n)%nat → rel_get r i i = true.

Definition transitive_on (n : nat) (r : BinaryRelation) : Prop :=
  ∀ i j k, (i < n)%nat → (j < n)%nat → (k < n)%nat →
    rel_get r i j = true → rel_get r j k = true → rel_get r i k = true.

(** C6 as the specification words it, for one input: [computeSimulation]
    returns a relation that is reflexive and transitive on the output
    range. *)
Definition returns_preorder (lts : ExplicitLTS) (partition : list (list nat))
    (relation : BinaryRelation) (outputSize : nat) : Prop :=
  ∃ fuel result,
    computeSimulation lts fuel partition relation outputSize = Ok result
    ∧ reflexive_on outputSize result ∧ transitive_on outputSize result.

End Sim.

(** ** Concrete automata and states used in examples *)

Module Examples.
Import TreeAut Down.

Definition leaf (sym q : nat) : Transition := MkTrans sym [] q.

(** A freshly constructed functor and the shared state of a fresh run. *)
Definition top : DownwardInclusionFunctor := MkFunctor false true ∅.
Definition empty_shared : Shared := MkShared [] ∅.

(** Symbols: [a] is 0 (a leaf), [s] is 1 (unary), [b] is 2 (a leaf).
    The smaller automaton: [a → 0], [s(0) → 0]; the bigger one:
    [s(1) → 1], [b → 1], [a → 2]. *)
Definition loop_small : Aut := MkAut [leaf 0 0; MkTrans 1 [0%nat] 0] {[0%nat]}.
Definition loop_big : Aut :=
  MkAut [MkTrans 1 [1%nat] 1; leaf 2 1; leaf 0 2] {[1%nat; 2%nat]}.

(** A total order on macro-states, standing in for the order of their
    addresses: shorter prefixes first, then entry by entry. *)
Fixpoint set_lt (x y : list nat) : bool :=
  match x, y with
  | [], _ :: _ => true
  | a :: x', b :: y' => (a <? b)%nat || ((a =? b)%nat && set_lt x' y')
  | _, _ => false
  end.

(** The smaller automaton: [a → 0]; the bigger one: [b → 1], [b → 2]. *)
Definition leaf_small : Aut := MkAut [leaf 0 0] {[0%nat]}.
Definition leaf_big : Aut := MkAut [leaf 2 1; leaf 2 2] {[1%nat; 2%nat]}.

(** The smaller automaton: [a → 0], [s(0) → 1], no final state, so that its
    language is empty and state [1] is useless; the bigger one: [a → 2],
    with [2] final. *)
Definition useless_small : Aut := MkAut [leaf 0 0; MkTrans 1 [0%nat] 1] ∅.
Definition useless_big : Aut := MkAut [leaf 0 2] {[2%nat]}.

(** Symbols: [a] is 0 and [b] is 1 (leaves), [g] is 2 (unary).  The smaller
    automaton: [a → 0], [b → 1], [g(0) → 2], [g(1) → 2], with [2] final, so
    that it accepts [g(a)] and [g(b)]; the bigger one: [a → 3], [b → 3],
    [b → 4], [g(4) → 5], with [5] final, which accepts [g(b)] only. *)
Definition sim_small : Aut :=
  MkAut [leaf 0 0; leaf 1 1; MkTrans 2 [0%nat] 2; MkTrans 2 [1%nat] 2] {[2%nat]}.
Definition sim_big : Aut :=
  MkAut [leaf 0 3; leaf 1 3; leaf 1 4; MkTrans 2 [4%nat] 5] {[5%nat]}.

(** The identity together with [0 ≤ 1]. *)
Definition zero_below_one (s t : nat) : bool :=
  bool_decide (s = t) || (bool_decide (s = 0%nat) && bool_decide (t = 1%nat)).

End Examples.

(** ** Choice and ChoiceVector (explicit_tree_incl_up.cc:144-246) *)

Module ChoiceVector.
Import Antichain Up.

(** A [Choice] walks through one list of macro-states; the iterator
    [current_] is kept as its distance from [begin()]. *)
Record Choice := MkChoice {
  biggerList_ : list BiggerType;
  current_ : nat
}.

(** [Choice::init]: [false] on a null pointer. *)
Definition init (biggerList : option (list BiggerType)) : option Choice :=
  l ← biggerList; Some (MkChoice l 0).

(** [Choice::next]: [++current_ != biggerList_->end()], or back to
    [begin()]. *)
Definition next (c : Choice) : Choice * bool :=
  if bool_decide (S (current_ c) ≠ length (biggerList_ c))
  then (MkChoice (biggerList_ c) (S (current_ c)), true)
  else (MkChoice (biggerList_ c) 0, false).

(** [Choice::get]; [None] when the iterator cannot be dereferenced. *)
Definition get (c : Choice) : option BiggerType := biggerList_ c !! current_ c.

(** [ChoiceVector::build]: the slot [index] walks through the one-element
    list [fixed_], every other slot through what [processed_] holds for its
    child; [None] stands for [return false], after which [state_] is not
    read before the next [build]. *)
Definition build (processed : Antichain2C StateSet) (fixed : BiggerType)
    (children : list nat) (index : nat) : result (option (list Choice)) :=
  _ ←ʳ require (index <? length children)%nat;
  Ok (mapM (λ '(i, child),
              if (i =? index)%nat then Some (MkChoice [fixed] 0)
              else init (lookup2 processed child))
           (imap pair children)).

(** [ChoiceVector::next]: the first slot that can advance does so; the
    slots before it have gone back to their first macro-state. *)
Fixpoint next_vector (state_ : list Choice) : list Choice * bool :=
  match state_ with
  | [] => ([], false)
  | choice :: rest =>
      let '(choice', more) := next choice in
      if more then (choice' :: rest, true)
      else let '(rest', more') := next_vector rest in (choice' :: rest', more')
  end.

(** [choiceVector(0)], ..., [choiceVector(size() - 1)]. *)
Definition current (state_ : list Choice) : option (list BiggerType) :=
  mapM get state_.

(** [do { ... } while (choiceVector.next())]: the choices the body of the
    loop sees, in order, and the vector the loop leaves behind. *)
Fixpoint visited (fuel : nat) (state_ : list Choice)
    : option (list (list BiggerType) * list Choice) :=
  match fuel with
  | O => None
  | S fuel' =>
      choice ← current state_;
      let '(state', more) := next_vector state_ in
      if more then
        '(rest, final) ← visited fuel' state';
        Some (choice :: rest, final)
      else Some ([choice], state')
  end.

(** The vector right after [build]: every slot at its first macro-state. *)
Definition started (lists : list (list BiggerType)) : list Choice :=
  (λ l, MkChoice l 0) <$> lists.

End ChoiceVector.

(** ** Consistency of a counter row (explicit_lts_sim.cc:85-166) *)

Module CounterInv.
Import Counter.

(** The sum of the per-slot counts of a row. *)
Definition slots_total (slots : list Z) : Z := foldr Z.add 0 slots.

(** A row is consistent when its master field (index 1) is the sum of its
    per-slot counts (indices 2 and up), which are not negative, and the sum
    fits a [size_t]. *)
Definition row_ok (v : list Z) : bool :=
  match v with
  | _ :: master :: slots =>
      (master =? slots_total slots) && forallb (λ z, 0 <=? z) slots && (master <? 2 ^ 64)
  | _ => false
  end.

End CounterInv.

(** ** What the simulation engine keeps invariant *)

Module SimSpec.
Import Counter Up Sim.
Local Open Scope nat_scope.

(** The states of a block: those in its ring and those set aside in its
    [tmp] ring. *)
Definition rings (b : OLRTBlock) : list nat := _states b ++ _tmp b.

(** The bits of a relation lie within its size. *)
Definition within_size (r : BinaryRelation) : Prop :=
  ∀ a b, rel_get r a b = true → a < rel_size r ∧ b < rel_size r.

(** How the blocks, the rings and [block_] fit together: every state of a
    block points back to the block, no state sits twice in the rings of a
    block, and [block_] points into the partition. *)
Record Struct (alg : OLRTAlgorithm) : Prop := MkStruct {
  st_block : ∀ q b, block_ alg !! q = Some b → b < length (_partition alg);
  st_rings : ∀ b blk q, _partition alg !! b = Some blk → q ∈ rings blk →
    block_ alg !! q = Some b;
  st_nodup : ∀ b blk, _partition alg !! b = Some blk → NoDup (rings blk)
}.

Section Invariant.
(** The relation given to [init], and the class each state started in. *)
Variable R0 : BinaryRelation.
Variable cls : nat → nat.

(** [orig] sends the index of a block to the class the block is a part of.
    The relation on the blocks relates two indices only if the given
    relation relates their classes, it stays within its size and is
    reflexive on the indices of the blocks, and the block of a state is a
    part of the class of the state. *)
Record Inv (orig : nat → nat) (alg : OLRTAlgorithm) : Prop := MkInv {
  inv_struct : Struct alg;
  inv_refines : ∀ a b, rel_get (_relation alg) a b = true →
    rel_get R0 (orig a) (orig b) = true;
  inv_bounded : within_size (_relation alg);
  inv_reflexive : ∀ b blk, _partition alg !! b = Some blk →
    rel_get (_relation alg) (_index blk) (_index blk) = true;
  inv_class : ∀ q b blk, block_ alg !! q = Some b → _partition alg !! b = Some blk →
    orig (_index blk) = cls q
}.

Definition Good (alg : OLRTAlgorithm) : Prop := ∃ orig, Inv orig alg.

End Invariant.

(** The state of [init] after the classes [done] (those after the first)
    have been made into blocks: the block at a position has the position for
    its index and an empty [tmp] ring, the states of a class point to the
    block made for it, and the other states to the first block. *)
Record Made0 (lts : ExplicitLTS) (done : list (list nat)) (alg : OLRTAlgorithm) : Prop :=
  MkMade0 {
  m_struct : Struct alg;
  m_length : length (_partition alg) = S (length done);
  m_states : length (block_ alg) = states lts;
  m_index : ∀ b blk, _partition alg !! b = Some blk → _index blk = b ∧ _tmp blk = [];
  m_class : ∀ j c q, done !! j = Some c → q ∈ c → block_ alg !! q = Some (S j);
  m_rest : ∀ q, q < states lts → q ∉ concat done → block_ alg !! q = Some 0
}.

(** The result relates two states only if the given relation relates the
    classes they were given in. *)
Definition refines_initial (partition : list (list nat)) (R0 : BinaryRelation)
    (size : nat) (result : BinaryRelation) : Prop :=
  ∀ i j ci cj c d, i < size → j < size →
    partition !! ci = Some c → i ∈ c → partition !! cj = Some d → j ∈ d →
    rel_get result i j = true → rel_get R0 ci cj = true.

End SimSpec.

(* ===================================================================== *)
(** * Part II: theorems                                                   *)
(* ===================================================================== *)

Module ChoiceFacts.
Import Choice.

Lemma digits_length k n m : length (digits k n m) = k.
Proof. revert m; induction k; intros; simpl; auto. Qed.

Lemma digits_zero k n : 0 < n → digits k n 0 = replicate k 0.
Proof.
  intros Hn. induction k; simpl; auto.
  rewrite Z.mod_0_l, Z.div_0_l by lia. by rewrite IHk.
Qed.

Lemma digits_top k n : 0 < n → digits k n (n ^ Z.of_nat k - 1) = replicate k (n - 1).
Proof.
  intros Hn. induction k as [|k IH]; [done|].
  cbn [digits replicate]. rewrite Nat2Z.inj_succ, Z.pow_succ_r by lia.
  set (p := n ^ Z.of_nat k) in *.
  assert (0 < p) by (apply Z.pow_pos_nonneg; lia).
  replace (n * p - 1) with (n - 1 + (p - 1) * n) by lia.
  rewrite Z_mod_plus_full, Z_div_plus_full by lia.
  rewrite Z.mod_small, Z.div_small by lia. rewrite Z.add_0_l. by rewrite IH.
Qed.

Lemma digits_is_choice k n m : 0 < n → is_choice k n (digits k n m).
Proof.
  intros Hn. split; [apply digits_length|].
  revert m; induction k; intros; simpl; constructor; auto.
  apply Z.mod_pos_bound; lia.
Qed.

Lemma is_choice_digits k n v :
  0 < n → is_choice k n v → ∃ m, 0 ≤ m < n ^ Z.of_nat k ∧ v = digits k n m.
Proof.
  intros Hn [Hl Hv]. revert k Hl. induction Hv as [|d v Hd _ IH]; intros k Hl.
  - subst k. exists 0. simpl. split; [lia|done].
  - destruct k as [|k]; [done|]. injection Hl as Hl.
    destruct (IH k Hl) as (m & Hm & ->).
    exists (d + m * n). rewrite Nat2Z.inj_succ, Z.pow_succ_r by lia. split; [nia|].
    simpl. rewrite Z_mod_plus_full, Z_div_plus_full by lia.
    rewrite Z.mod_small, Z.div_small by lia. by rewrite Z.add_0_l.
Qed.

Lemma digits_colex k n m m' :
  0 < n → 0 ≤ m → m < m' → m' < n ^ Z.of_nat k →
  colex_lt (digits k n m) (digits k n m').
Proof.
  intros Hn. revert m m'. induction k as [|k IH]; intros m m' H0 Hlt Hm'.
  - simpl in Hm'. lia.
  - rewrite Nat2Z.inj_succ, Z.pow_succ_r in Hm' by lia. simpl.
    assert (m / n ≤ m' / n) by (apply Z.div_le_mono; lia).
    destruct (decide (m / n = m' / n)) as [Heq|Hne].
    + right. rewrite Heq. split; [done|].
      pose proof (Z.div_mod m n ltac:(lia)). pose proof (Z.div_mod m' n ltac:(lia)). nia.
    + left. apply IH; [apply Z.div_pos; lia|lia|].
      apply Z.div_lt_upper_bound; lia.
Qed.

Lemma colex_lt_irrefl u : ¬ colex_lt u u.
Proof. induction u; simpl; [tauto|]. intros [?|[_ ?]]; [auto|lia]. Qed.

(** One step of the counter: the successor, or the wrap back to zero. *)
Lemma advance_digits k n m :
  0 < n < 2 ^ 32 → 0 ≤ m < n ^ Z.of_nat k →
  advance n (digits k n m) =
    if decide (m + 1 < n ^ Z.of_nat k) then (digits k n (m + 1), false)
    else (replicate k 0, true).
Proof.
  intros Hn. revert m. induction k as [|k IH]; intros m Hm.
  - simpl in *. case_decide; [lia|done].
  - rewrite Nat2Z.inj_succ, Z.pow_succ_r in * by lia.
    set (p := n ^ Z.of_nat k) in *.
    cbn [digits advance]. unfold wrap32.
    pose proof (Z.mod_pos_bound m n ltac:(lia)) as Hmod.
    pose proof (Z.div_mod m n ltac:(lia)) as Hdm.
    rewrite (Z.mod_small (m mod n + 1)) by lia.
    assert (0 ≤ m / n < p) as Hq.
    { split; [apply Z.div_pos; lia|apply Z.div_lt_upper_bound; lia]. }
    destruct (Z.eqb_spec (m mod n + 1) n) as [Hc|Hc].
    + rewrite (IH _ Hq).
      assert (m + 1 = 0 + (m / n + 1) * n) as Hs by lia.
      assert ((m + 1) mod n = 0) as Hm0
        by (rewrite Hs, Z_mod_plus_full; apply Z.mod_0_l; lia).
      assert ((m + 1) / n = m / n + 1) as Hd0
        by (rewrite Hs, Z_div_plus_full by lia; rewrite Z.div_0_l by lia; lia).
      repeat case_decide; try nia.
      * by rewrite Hm0, Hd0.
      * done.
    + assert (m + 1 = (m mod n + 1) + (m / n) * n) as Hs by lia.
      assert ((m + 1) mod n = m mod n + 1) as Hm0
        by (rewrite Hs, Z_mod_plus_full; apply Z.mod_small; lia).
      assert ((m + 1) / n = m / n) as Hd0
        by (rewrite Hs, Z_div_plus_full by lia; rewrite Z.div_small by lia; lia).
      case_decide; [|nia]. by rewrite Hm0, Hd0.
Qed.

Lemma produced_fuel_indep f1 f2 g l1 l2 :
  produced f1 g = Some l1 → produced f2 g = Some l2 → l1 = l2.
Proof.
  revert f2 g l1 l2. induction f1 as [|f1 IH]; intros [|f2] g l1 l2; simpl;
    destruct (IsLast g); try congruence.
  destruct (GetNext g) as [[cf g']|]; [|done].
  destruct (produced f1 g') as [r1|] eqn:E1; [|done].
  destruct (produced f2 g') as [r2|] eqn:E2; [|done].
  simpl. intros [= <-] [= <-]. f_equal. eauto.
Qed.

Lemma GetNext_eq cf n c :
  c ≠ 0 → cf ≠ [] →
  GetNext (Gen cf n c) =
    Some (fst (advance n cf),
          Gen (fst (advance n cf)) n (if snd (advance n cf) then c - 1 else c)).
Proof.
  intros Hc Hcf. unfold GetNext, IsLast. cbn [lastCnt_ currentCf_ range_].
  destruct (Z.eqb_spec c 0) as [|_]; [done|].
  destruct cf; [done|]. by destruct (advance n (z :: cf)).
Qed.

Lemma digits_nonempty k n m : (1 ≤ k)%nat → digits k n m ≠ [].
Proof. destruct k; [lia|done]. Qed.

(** From the [m]-th vector on, the loop yields the vectors [m+1], [m+2],
    ... up to the last one, and then the wrapped all-zero vector. *)
Lemma produced_from k n m fuel :
  (1 ≤ k)%nat → 0 < n < 2 ^ 32 → 0 ≤ m < n ^ Z.of_nat k →
  (Z.to_nat (n ^ Z.of_nat k - m) ≤ fuel)%nat →
  produced fuel (Gen (digits k n m) n 1) =
    Some ((digits k n <$> seqZ (m + 1) (n ^ Z.of_nat k - 1 - m)) ++ [replicate k 0]).
Proof.
  intros Hk Hn. revert m. induction fuel as [|fuel IH]; intros m Hm Hf; [lia|].
  cbn [produced]. unfold IsLast at 1. cbn [lastCnt_ Z.eqb].
  rewrite GetNext_eq by (done || by apply digits_nonempty).
  rewrite advance_digits by done.
  case_decide as Hlt; cbn [fst snd].
  - rewrite IH by lia.
    rewrite (seqZ_cons (m + 1)) by lia. cbn [fmap option_fmap option_map list_fmap app].
    replace (Z.succ (m + 1)) with (m + 1 + 1) by lia.
    by replace (Z.pred (n ^ Z.of_nat k - 1 - m)) with (n ^ Z.of_nat k - 1 - (m + 1)) by lia.
  - replace (n ^ Z.of_nat k - 1 - m) with 0 by lia.
    destruct fuel; reflexivity.
Qed.

(** The whole run of the loop, written out: the [n^k] vectors of the
    counter from zero upward, then the all-zero vector a second time. *)
Lemma produced_make k n fuel :
  (1 ≤ k)%nat → 0 < n < 2 ^ 32 → (Z.to_nat (n ^ Z.of_nat k) + 1 ≤ fuel)%nat →
  produced fuel (make k n) =
    Some ((digits k n <$> seqZ 0 (n ^ Z.of_nat k)) ++ [replicate k 0]).
Proof.
  intros Hk Hn Hf.
  assert (0 < n ^ Z.of_nat k) as Hp by (apply Z.pow_pos_nonneg; lia).
  destruct fuel as [|fuel]; [lia|].
  unfold make. destruct (Z.eqb_spec n 0) as [|_]; [lia|].
  unfold wrap32. rewrite Z.mod_small by lia.
  rewrite <- digits_top by lia.
  cbn [produced]. unfold IsLast at 1. cbn [lastCnt_ Z.eqb].
  rewrite GetNext_eq by (done || by apply digits_nonempty).
  rewrite advance_digits by lia.
  case_decide; [lia|]. cbn [fst snd]. change (2 - 1) with 1.
  rewrite <- (digits_zero k n) at 1 2 by lia.
  rewrite produced_from by lia.
  rewrite (seqZ_cons 0) by lia. cbn [fmap option_fmap option_map list_fmap app].
  rewrite (digits_zero k n) by lia.
  replace (Z.succ 0) with (0 + 1) by lia.
  by replace (Z.pred (n ^ Z.of_nat k)) with (n ^ Z.of_nat k - 1 - 0) by lia.
Qed.

Lemma digits_sorted k n a len :
  0 < n → 0 ≤ a → a + len ≤ n ^ Z.of_nat k →
  StronglySorted colex_lt (digits k n <$> seqZ a len).
Proof.
  intros Hn. destruct (decide (0 ≤ len)) as [Hl|Hl].
  2:{ unfold seqZ. replace (Z.to_nat len) with O by lia. constructor. }
  revert a. pattern len. apply natlike_ind; [| |done].
  - intros; constructor.
  - clear len Hl. intros len Hl IH a Ha Hb.
    rewrite seqZ_cons by lia. rewrite fmap_cons. constructor.
    + rewrite Z.pred_succ. apply IH; lia.
    + rewrite Z.pred_succ. apply Forall_fmap, Forall_forall. intros x Hx.
      apply elem_of_seqZ in Hx. apply digits_colex; lia.
Qed.

Lemma colex_sorted_NoDup l : StronglySorted colex_lt l → NoDup l.
Proof.
  induction 1 as [|x l _ IH Hx]; constructor; auto.
  intros Hin. rewrite Forall_forall in Hx. exact (colex_lt_irrefl _ (Hx _ Hin)).
Qed.

(** C8, as the specification states it, fails for length 2 and range 2:
    the loop yields (0,0), (1,0), (0,1), (1,1), (0,0), which is neither
    lexicographically ordered nor free of repetitions. *)
Lemma choice_generator_not_once_lex : ¬ enumerates_once_lex 2 2.
Proof.
  intros (fuel & l & Hp & _ & _ & Hs).
  assert (produced 5 (make 2 2) = Some [[0;0];[1;0];[0;1];[1;1];[0;0]]) as H5
    by (vm_compute; reflexivity).
  rewrite (produced_fuel_indep _ _ _ _ _ Hp H5) in Hs.
  apply StronglySorted_inv in Hs as [Hs _].
  apply StronglySorted_inv in Hs as [_ Hs].
  apply Forall_inv in Hs. simpl in Hs. lia.
Qed.

(** C8 (amended): for length [k ≥ 1] and range [1 ≤ n < 2^32], the loop
    [while (!IsLast()) GetNext()] terminates, and the first [n^k] choice
    functions it yields are exactly the vectors of length [k] with entries
    in [[0, n)], each once, in the order of a little-endian counter (entry 0
    varies fastest: lexicographic when read from the last entry to the
    first). *)
Theorem choice_generator_enumeration (k : nat) (n : Z) (fuel : nat) :
  (1 ≤ k)%nat → 1 ≤ n < 2 ^ 32 → (Z.to_nat (n ^ Z.of_nat k) + 1 ≤ fuel)%nat →
  ∃ l rest, produced fuel (make k n) = Some (l ++ rest)
    ∧ Z.of_nat (length l) = n ^ Z.of_nat k
    ∧ (∀ v, v ∈ l ↔ is_choice k n v)
    ∧ NoDup l
    ∧ StronglySorted colex_lt l.
Proof.
  intros Hk Hn Hf.
  assert (0 < n ^ Z.of_nat k) as Hp by (apply Z.pow_pos_nonneg; lia).
  assert (StronglySorted colex_lt (digits k n <$> seqZ 0 (n ^ Z.of_nat k))) as Hs
    by (apply digits_sorted; lia).
  exists (digits k n <$> seqZ 0 (n ^ Z.of_nat k)), [replicate k 0].
  split; [apply produced_make; lia|].
  split; [rewrite length_fmap, length_seqZ; lia|].
  split; [|split; [by apply colex_sorted_NoDup|done]].
  intros v. rewrite list_elem_of_fmap. split.
  - intros (m & -> & _). apply digits_is_choice; lia.
  - intros Hv. destruct (is_choice_digits k n v) as (m & Hm & ->); [lia|done|].
    exists m. split; [done|]. apply elem_of_seqZ. lia.
Qed.

Lemma choice_generator_enumeration_witness :
  ∃ l rest, produced 5 (make 2 2) = Some (l ++ rest)
    ∧ Z.of_nat (length l) = 2 ^ Z.of_nat 2
    ∧ (∀ v, v ∈ l ↔ is_choice 2 2 v)
    ∧ NoDup l
    ∧ StronglySorted colex_lt l.
Proof.
  apply (choice_generator_enumeration 2 2 5); [lia | lia | vm_compute; lia].
Defined.

(** What follows the [n^k] vectors: the all-zero vector once more, after
    which [IsLast] holds. *)
Lemma choice_generator_tail k n fuel :
  (1 ≤ k)%nat → 1 ≤ n < 2 ^ 32 → (Z.to_nat (n ^ Z.of_nat k) + 1 ≤ fuel)%nat →
  ∃ l, produced fuel (make k n) = Some (l ++ [replicate k 0])
    ∧ Z.of_nat (length l) = n ^ Z.of_nat k.
Proof.
  intros Hk Hn Hf. assert (0 < n ^ Z.of_nat k) by (apply Z.pow_pos_nonneg; lia).
  eexists. split; [apply produced_make; lia|].
  rewrite length_fmap, length_seqZ; lia.
Qed.

End ChoiceFacts.

(** Case analysis on the outcome bound first in a hypothesis [rbind m k = Ok _]. *)
Ltac rstep H :=
  match type of H with
  | rbind ?m _ = Ok _ =>
      let E := fresh "E" in
      destruct m eqn:E; cbn [rbind] in H; [|discriminate H..]
  end.

Module DownFacts.
Import Antichain Down.

Section Functor.
Variable preorder_get : nat → nat → bool.
Variable preorderSmaller_ preorderBigger_ : nat → list nat.
Variable down_symbols : nat → StateSet → list (StateTupleSet * StateTupleSet).

Abbreviation expand := (expand preorder_get preorderSmaller_ preorderBigger_ down_symbols).
Abbreviation isInWorkset := (isInWorkset preorder_get).
Abbreviation lifted := (lifted preorder_get).
Abbreviation filtered := (filtered preorder_get preorderSmaller_ preorderBigger_).

(** *** The comparers and the workset filter *)

Lemma SetComparerSmaller_spec lhs rhs :
  SetComparerSmaller preorder_get lhs rhs = true ↔ lifted rhs lhs.
Proof.
  unfold SetComparerSmaller, lifted. rewrite forallb_forall. split.
  - intros H x Hx. apply list_elem_of_In in Hx. apply H in Hx.
    apply existsb_exists in Hx as (y & Hy & Hxy). exists y.
    by rewrite list_elem_of_In.
  - intros H x Hx. apply list_elem_of_In in Hx. destruct (H x Hx) as (y & Hy & Hxy).
    apply existsb_exists. exists y. by rewrite <- list_elem_of_In.
Qed.

(** What the workset filter tests: some entry [(p', S')] with [p R p'] and
    every state of [S] dominated by a state of [S']. *)
Lemma isInWorkset_spec sh p Q :
  isInWorkset sh (p, Q) = true ↔
  ∃ p' Q', (p', Q') ∈ workset_ sh ∧ preorder_get p p' = true ∧ lifted Q Q'.
Proof.
  unfold isInWorkset. rewrite existsb_exists. split.
  - intros ([p' Q'] & Hin & Hb). apply andb_true_iff in Hb as [H1 H2].
    exists p', Q'. rewrite list_elem_of_In. by rewrite <- SetComparerSmaller_spec.
  - intros (p' & Q' & Hin & H1 & H2). exists (p', Q').
    rewrite <- list_elem_of_In. split; [done|]. apply andb_true_iff.
    by rewrite SetComparerSmaller_spec.
Qed.

Lemma expand_in_workset fuel f sh p Q :
  isInWorkset sh (p, Q) = true → expand (S fuel) f sh p Q = Ok (true, f, sh).
Proof. intros H. cbn [Down.expand]. by rewrite H. Qed.

(** *** The workset is restored *)

Section Call.
Variable e : DownwardInclusionFunctor → Shared → nat → StateSet →
             result (bool * DownwardInclusionFunctor * Shared).
Hypothesis He : keeps_workset e.

Lemma covers_keeps positions : ∀ f sh l r b f' sh',
  covers e f sh l r positions = Ok (b, f', sh') → workset_ sh' = workset_ sh.
Proof.
  induction positions as [|i rest IH]; intros f sh l r b f' sh' H; cbn [covers] in H.
  - by injection H as <- <- <-.
  - rstep H. rstep H. rstep H. destruct a1 as [[b1 f1] sh1].
    apply He in E1. destruct b1.
    + apply IH in H. congruence.
    + injection H as <- <- <-. done.
Qed.

Lemma find_bigger_keeps lhsTuple arity rhs : ∀ f sh b f' sh',
  find_bigger e f sh lhsTuple arity rhs = Ok (b, f', sh') → workset_ sh' = workset_ sh.
Proof.
  induction rhs as [|r rest IH]; intros f sh b f' sh' H; cbn [find_bigger] in H.
  - by injection H as <- <- <-.
  - rstep H. destruct a as [[b1 f1] sh1]. apply covers_keeps in E. destruct b1.
    + injection H as <- <- <-. done.
    + apply IH in H. congruence.
Qed.

Lemma try_positions_keeps lhsTuple rhsVector arity cf positions : ∀ f sh b f' sh',
  try_positions e f sh lhsTuple rhsVector arity cf positions = Ok (b, f', sh') →
  workset_ sh' = workset_ sh.
Proof.
  induction positions as [|i rest IH]; intros f sh b f' sh' H; cbn [try_positions] in H.
  - by injection H as <- <- <-.
  - rstep H. destruct a as [|x set]; [by apply IH in H|].
    rstep H. rstep H. destruct a0 as [[b1 f1] sh1]. apply He in E1. destruct b1.
    + injection H as <- <- <-. done.
    + apply IH in H. congruence.
Qed.

Lemma choice_loop_keeps fuel lhsTuple rhsVector arity : ∀ cfGen f sh b f' sh',
  choice_loop e fuel f sh lhsTuple rhsVector arity cfGen = Ok (b, f', sh') →
  workset_ sh' = workset_ sh.
Proof.
  induction fuel as [|fuel IH]; intros cfGen f sh b f' sh' H; cbn [choice_loop] in H;
    destruct (Choice.IsLast cfGen); try (by injection H as <- <- <-); [done|].
  rstep H. destruct a as [cf cfGen']. rstep H. destruct a as [[b1 f1] sh1].
  apply try_positions_keeps in E0. destruct b1.
  - apply IH in H. congruence.
  - injection H as <- <- <-. done.
Qed.

Lemma for_lhs_keeps fuel arity rhs lhs : ∀ f sh f' sh',
  for_lhs e fuel f sh arity rhs lhs = Ok (f', sh') → workset_ sh' = workset_ sh.
Proof.
  induction lhs as [|l rest IH]; intros f sh f' sh' H; cbn [for_lhs] in H.
  - by injection H as <- <-.
  - rstep H. rstep H. destruct a0 as [[b1 f1] sh1]. apply find_bigger_keeps in E0.
    destruct b1; [apply IH in H; congruence|].
    rstep H. destruct a0 as [[b2 f2] sh2]. apply choice_loop_keeps in E1.
    destruct b2; [apply IH in H; congruence|].
    injection H as <- <-. congruence.
Qed.

Lemma call_keeps fuel f sh lhs rhs f' sh' :
  call e fuel f sh lhs rhs = Ok (f', sh') → workset_ sh' = workset_ sh.
Proof.
  unfold call. intros H. destruct lhs as [|first lhs']; [by injection H as <- <-|].
  destruct (length first =? 0)%nat.
  - rstep H. destruct rhs as [|r rhs']; [by injection H as <- <-|].
    rstep H. rstep H. by injection H as <- <-.
  - destruct rhs as [|r rhs']; [by injection H as <- <-|].
    by apply for_lhs_keeps in H.
Qed.

Lemma foreach_keeps fuel symbols : ∀ f sh f' sh',
  foreach e fuel f sh symbols = Ok (f', sh') → workset_ sh' = workset_ sh.
Proof.
  induction symbols as [|[lhs rhs] rest IH]; intros f sh f' sh' H; cbn [foreach] in H.
  - by injection H as <- <-.
  - rstep H. destruct a as [f1 sh1]. apply call_keeps in E.
    destruct (IsProcessingStopped f1).
    + injection H as <- <-. done.
    + apply IH in H. congruence.
Qed.

End Call.

Lemma erase_first_head p Q ws : erase_first p Q ((p, Q) :: ws) = Some ws.
Proof. cbn [erase_first]. by rewrite !bool_decide_eq_true_2. Qed.

Lemma expand_keeps fuel : keeps_workset (expand fuel).
Proof.
  induction fuel as [|fuel IH]; intros f sh p Q b f' sh' H; [done|].
  cbn [Down.expand] in H.
  repeat (match type of H with (if ?c then _ else _) = _ =>
            destruct c; [by injection H as <- <- <-|] end).
  rstep H. destruct a as [inner sh2]. apply (foreach_keeps _ IH) in E.
  cbn [workset_ set_workset] in E. rewrite E, erase_first_head in H.
  cbn [of_option rbind] in H.
  destruct (InclusionHolds inner); by injection H as <- <- <-.
Qed.

(** C10: a call of [expand] that returns leaves the workset as it found it.
    When a filter fires, nothing at all is changed; otherwise the traversal
    runs on the workset with the pair added, and the erase loop then removes
    one entry for the pair, which gives back the workset of before. *)
Theorem expand_restores_workset fuel f sh p Q b f' sh' :
  expand fuel f sh p Q = Ok (b, f', sh') →
  workset_ sh' = workset_ sh
  ∧ (filtered f sh (p, Q) = true → f' = f ∧ sh' = sh)
  ∧ (filtered f sh (p, Q) = false →
       ∃ fuel' inner sh2,
         fuel = S fuel'
         ∧ foreach (expand fuel') fuel' (copy f)
             (set_workset sh ((p, Q) :: workset_ sh)) (down_symbols p Q)
           = Ok (inner, sh2)
         ∧ workset_ sh2 = (p, Q) :: workset_ sh
         ∧ erase_first p Q (workset_ sh2) = Some (workset_ sh')).
Proof.
  intros H. split; [by eapply expand_keeps|].
  destruct fuel as [|fuel]; [done|]. cbn [Down.expand] in H. unfold filtered.
  repeat (match type of H with (if ?c then _ else _) = _ =>
            destruct c eqn:?;
            [injection H as <- <- <-; cbn [orb]; rewrite ?orb_true_r; by split|] end).
  cbn [orb]. split; [done|]. intros _.
  rstep H. destruct a as [inner sh2]. exists fuel, inner, sh2.
  pose proof (foreach_keeps _ (expand_keeps fuel) _ _ _ _ _ _ E) as Hws.
  cbn [workset_ set_workset] in Hws.
  rewrite Hws, erase_first_head in H. cbn [of_option rbind] in H.
  rewrite Hws, erase_first_head.
  destruct (InclusionHolds inner); by injection H as <- <- <-.
Qed.

(** C7: on a nullary transition of the smaller side the functor looks at
    the bigger side's tuple set only: an empty set refutes
    ([inclusionHolds_] becomes false, processing stops), a non-empty one
    leaves the functor, and with it the verdict, as it was. *)
Theorem call_nullary e fuel f sh rhs :
  rhs = [] ∨ rhs = [[]] →
  ∃ f', call e fuel f sh [[]] rhs = Ok (f', sh)
    ∧ (rhs = [] → InclusionHolds f' = false ∧ IsProcessingStopped f' = true)
    ∧ (rhs ≠ [] → f' = f).
Proof.
  intros [->| ->]; cbn; eexists; (split; [done|]); split; done.
Qed.

End Functor.

(** *** Concrete runs *)

Import TreeAut Examples.

Abbreviation expand_id smaller bigger :=
  (expand id_get id_index id_index (down_symbols smaller bigger)).

Lemma expand_restores_workset_witness :
  workset_ (MkShared [(0%nat, [1%nat])] ∅) = workset_ (MkShared [(0%nat, [1%nat])] ∅)
  ∧ (filtered id_get id_index id_index top (MkShared [(0%nat, [1%nat])] ∅)
       (0%nat, [1%nat; 2%nat]) = true →
     processFoundInclusion id_get id_index top 0 [1%nat; 2%nat] = top
     ∧ MkShared [(0%nat, [1%nat])] ∅ = MkShared [(0%nat, [1%nat])] ∅)
  ∧ (filtered id_get id_index id_index top (MkShared [(0%nat, [1%nat])] ∅)
       (0%nat, [1%nat; 2%nat]) = false →
       ∃ fuel' inner sh2,
         3%nat = S fuel'
         ∧ foreach (expand_id loop_small loop_big fuel') fuel' (copy top)
             (set_workset (MkShared [(0%nat, [1%nat])] ∅)
                ((0%nat, [1%nat; 2%nat]) :: workset_ (MkShared [(0%nat, [1%nat])] ∅)))
             (down_symbols loop_small loop_big 0 [1%nat; 2%nat])
           = Ok (inner, sh2)
         ∧ workset_ sh2 = (0%nat, [1%nat; 2%nat]) :: workset_ (MkShared [(0%nat, [1%nat])] ∅)
         ∧ erase_first 0 [1%nat; 2%nat] (workset_ sh2)
           = Some (workset_ (MkShared [(0%nat, [1%nat])] ∅))).
Proof.
  apply (expand_restores_workset id_get id_index id_index
           (down_symbols loop_small loop_big) 3 top (MkShared [(0%nat, [1%nat])] ∅)
           0%nat [1%nat; 2%nat] true
           (processFoundInclusion id_get id_index top 0 [1%nat; 2%nat])
           (MkShared [(0%nat, [1%nat])] ∅)).
  vm_compute. reflexivity.
Defined.

Lemma call_nullary_witness :
  ∃ f', call (λ _ _ _ _, Timeout) 0 top empty_shared [[]] [] = Ok (f', empty_shared)
    ∧ (@nil (list nat) = [] → InclusionHolds f' = false ∧ IsProcessingStopped f' = true)
    ∧ (@nil (list nat) ≠ [] → f' = top).
Proof.
  apply (call_nullary (λ _ _ _ _, Timeout) 0 top empty_shared []). left; reflexivity.
Defined.

(** C3 at a concrete input.  The workset holds [(0, {1})]; the pair
    [(0, {1,2})] satisfies the premise of the claim under the identity
    preorder ([0 R 0], and [{1} ⊑ {1,2}]).  The filter does not fire:
    [expand] goes on to the traversal and, the smaller state having a leaf
    that neither bigger state has, returns [false]. *)
Lemma workset_filter_misses_subsumed_pair :
  (∃ p' Q', (p', Q') ∈ workset_ (MkShared [(0%nat, [1%nat])] ∅)
            ∧ id_get 0 p' = true ∧ lifted id_get Q' [1%nat; 2%nat])
  ∧ isInWorkset id_get (MkShared [(0%nat, [1%nat])] ∅) (0%nat, [1%nat; 2%nat]) = false
  ∧ expand_id leaf_small leaf_big 2 top (MkShared [(0%nat, [1%nat])] ∅) 0 [1%nat; 2%nat]
    = Ok (false, top,
          processFoundNoninclusion id_get id_index (MkShared [(0%nat, [1%nat])] ∅)
            0 [1%nat; 2%nat]).
Proof.
  split; [|split].
  - exists 0%nat, [1%nat]. split; [set_solver|]. split; [done|].
    intros x Hx. exists x. split; [set_solver|]. unfold id_get. by apply bool_decide_eq_true_2.
  - vm_compute; reflexivity.
  - vm_compute; reflexivity.
Qed.

(** The test the filter does make, [S ⊑ S'], lets it fire where the pair is
    not subsumed: from the empty workset, [expand(0, {1,2})] on the looping
    automata inserts [(0, {1,2})], meets [(0, {1})] below it, takes that pair
    for covered and returns [true]; yet the tree [s(a)] is accepted from [0]
    in the smaller automaton and from neither [1] nor [2] in the bigger. *)
Lemma workset_filter_fires_on_smaller_set :
  expand_id loop_small loop_big 2 top empty_shared 0 [1%nat; 2%nat]
    = Ok (true, processFoundInclusion id_get id_index top 0 [1%nat; 2%nat], empty_shared)
  ∧ accepts_from loop_small [0%nat] (Node 1 [Node 0 []]) = true
  ∧ accepts_from loop_big [1%nat; 2%nat] (Node 1 [Node 0 []]) = false.
Proof. repeat split; vm_compute; reflexivity. Qed.

End DownFacts.

Module UpFacts.
Import Antichain TreeAut Up.

(** *** The loop combinators *)

Lemma ffold_return {A B : Type} (P : bool * string → Prop)
    (f : A → B → result (flow A)) (l : list B) :
  (∀ a x v, x ∈ l → f a x = Ok (Return v) → P v) →
  ∀ a v, ffold f a l = Ok (Return v) → P v.
Proof.
  induction l as [|x l IH]; intros Hf a v H; cbn [ffold] in H; [done|].
  rstep H. destruct a0 as [v'|a'].
  - injection H as ->. eapply Hf; [|done]. constructor.
  - eapply IH; [|done]. intros a1 y w Hy. apply Hf. by constructor.
Qed.

(** A loop whose body neither aborts nor times out returns, and one that
    meets an element on which the body always exits exits. *)
Lemma ffold_total {A B : Type} (f : A → B → result (flow A)) (l : list B) :
  (∀ a x, x ∈ l → ∃ r, f a x = Ok r) → ∀ a, ∃ r, ffold f a l = Ok r.
Proof.
  induction l as [|x l IH]; intros Hf a; cbn [ffold]; [by eexists|].
  destruct (Hf a x) as [[v|a'] ->]; [constructor|by eexists|]. cbn [rbind].
  apply IH. intros a1 y Hy. apply Hf. by constructor.
Qed.

Lemma ffold_exits {A B : Type} (f : A → B → result (flow A)) (l : list B) (x : B) :
  (∀ a y, y ∈ l → ∃ r, f a y = Ok r) →
  x ∈ l → (∀ a, ∃ v, f a x = Ok (Return v)) →
  ∀ a, ∃ v, ffold f a l = Ok (Return v).
Proof.
  induction l as [|y l IH]; intros Hf Hx Hex a; [by apply elem_of_nil in Hx|].
  cbn [ffold]. destruct (Hf a y) as [[v|a'] Hr]; [constructor| |]; rewrite Hr; cbn [rbind].
  - by eexists.
  - apply elem_of_cons in Hx as [->|Hx].
    + destruct (Hex a) as [v Hv]. congruence.
    + apply IH; [|done..]. intros a1 z Hz. apply Hf. by constructor.
Qed.

Lemma rfold_total {A B : Type} (f : A → B → result A) (l : list B) :
  (∀ a x, x ∈ l → ∃ r, f a x = Ok r) → ∀ a, ∃ r, rfold f a l = Ok r.
Proof.
  induction l as [|x l IH]; intros Hf a; cbn [rfold]; [by eexists|].
  destruct (Hf a x) as [a' ->]; [constructor|]. cbn [rbind].
  apply IH. intros a1 y Hy. apply Hf. by constructor.
Qed.

Lemma rfold_invariant {A B : Type} (I : A → Prop) (f : A → B → result A) (l : list B) :
  (∀ a x a', x ∈ l → I a → f a x = Ok a' → I a') →
  ∀ a a', I a → rfold f a l = Ok a' → I a'.
Proof.
  induction l as [|x l IH]; intros Hf a a' Ha H; cbn [rfold] in H.
  - by injection H as <-.
  - rstep H. eapply IH; [| |done].
    + intros a1 y a2 Hy. apply Hf. by constructor.
    + eapply Hf; [|done..]. constructor.
Qed.

(** *** The [Antichain1C] workspace *)

Lemma elem_of_refine1 post down x :
  x ∈ refine1 post down ↔ x ∈ post ∧ x ∉ down.
Proof.
  unfold refine1. rewrite (list_elem_of_In (List.filter _ _) x), filter_In.
  rewrite <- list_elem_of_In, negb_true_iff, bool_decide_eq_false. done.
Qed.

Lemma elem_of_insert1 post s x : x ∈ insert1 post s ↔ x ∈ post ∨ x = s.
Proof.
  unfold insert1. case_bool_decide as Hs.
  - split; [by left|]. intros [?| ->]; done.
  - rewrite elem_of_app, list_elem_of_singleton. done.
Qed.

Ltac rsteps H := repeat rstep H.

Section CheckInternal.
Variable addr_lt : StateSet → StateSet → bool.
Variable smallerLeaves : list TransitionList.
Variable smallerIndex : list (list (list TransitionList)).
Variable smallerFinalStates : gset nat.
Variable biggerLeaves : list TransitionList.
Variable biggerIndex : list (list (list TransitionList)).
Variable biggerFinalStates : gset nat.
Variable ind inv : list (list nat).

Abbreviation fold_post := (fold_post biggerFinalStates ind inv).
Abbreviation add_processed := (add_processed addr_lt ind inv).
Abbreviation seed_leaf := (seed_leaf addr_lt smallerFinalStates ind inv).
Abbreviation seed_symbol :=
  (seed_symbol addr_lt smallerLeaves smallerFinalStates biggerLeaves biggerFinalStates ind inv).
Abbreviation post_of := (post_of biggerIndex biggerFinalStates ind inv).
Abbreviation choice_step :=
  (choice_step smallerFinalStates biggerIndex biggerFinalStates ind inv).
Abbreviation process_transition :=
  (process_transition addr_lt smallerFinalStates biggerIndex biggerFinalStates ind inv).
Abbreviation process_pair :=
  (process_pair addr_lt smallerIndex smallerFinalStates biggerIndex biggerFinalStates ind inv).
Abbreviation main_loop :=
  (main_loop addr_lt smallerIndex smallerFinalStates biggerIndex biggerFinalStates ind inv).
Abbreviation checkInternal :=
  (checkInternal addr_lt smallerLeaves smallerIndex smallerFinalStates
     biggerLeaves biggerIndex biggerFinalStates ind inv).

(** *** Verdicts and their descriptions *)

Lemma refuted_inv {A : Type} r (v : bool * string) :
  @refuted A r = Ok (Return v) → v = (false, ("Inclusion refuted! Reason: " +:+ r)%string).
Proof. by intros [= <-]. Qed.

Lemma refutation_described r v : r ∈ reasons → refutation r v → described v.
Proof. intros Hr ->. unfold described; cbn. eauto. Qed.

Lemma seed_leaf_return tmp acc st t v :
  seed_leaf tmp acc st t = Ok (Return v) → refutation "leaves not covered" v.
Proof.
  unfold Up.seed_leaf. intros H.
  destruct (negb acc && _); [by apply refuted_inv in H|].
  rsteps H. destruct (checkIntersection _ _); [done|].
  unfold rmap in H. by rstep H.
Qed.

Lemma seed_symbol_return st symbol v :
  seed_symbol st symbol = Ok (Return v) → refutation "leaves not covered" v.
Proof.
  unfold Up.seed_symbol. intros H. rsteps H. destruct a1 as [post acc].
  revert H. apply ffold_return. intros ? ? ? _. apply seed_leaf_return.
Qed.

Lemma choice_step_return symbol t temporary choice v :
  choice_step symbol t temporary choice = Ok (Return v) →
  refutation "smaller accepts, bigger does not" v.
Proof.
  unfold Up.choice_step. intros H. rstep H. destruct a as [post acc].
  destruct (bool_decide (post = []) || _); [by apply refuted_inv in H|].
  rsteps H. destruct (checkIntersection _ _); [done|].
  destruct (contains2 _ _ _ _); [done|]. by rsteps H.
Qed.

Lemma process_transition_return symbol j Q st t v :
  process_transition symbol j Q st t = Ok (Return v) →
  refutation "smaller accepts, bigger does not" v.
Proof.
  unfold Up.process_transition. intros H. rstep H.
  destruct (build _ _ _ _) as [lists|]; [|done].
  rstep H. destruct a0 as [w|temporary].
  - injection H as ->. revert E0. apply ffold_return.
    intros ? ? ? _. apply choice_step_return.
  - unfold rmap in H. by rstep H.
Qed.

Lemma process_pair_return q Q st v :
  process_pair q Q st = Ok (Return v) →
  refutation "smaller accepts, bigger does not" v.
Proof.
  unfold Up.process_pair. intros H. rsteps H. revert H.
  apply ffold_return. intros ? [symbol slots] ? _.
  apply ffold_return. intros ? [j ts] ? _.
  apply ffold_return. intros ? t ? _. apply process_transition_return.
Qed.

Lemma main_loop_described fuel : ∀ st v, main_loop fuel st = Ok v → described v.
Proof.
  induction fuel as [|fuel IH]; intros st v H; cbn [Up.main_loop] in H;
    destruct (next st) as [|[q Q] rest]; try (by injection H as <-); [done|].
  rstep H. destruct a as [w|st'].
  - injection H as ->. apply process_pair_return in E.
    eapply refutation_described; [|done]. unfold reasons; set_solver.
  - by eapply IH.
Qed.

(** C5: a verdict [false] comes with one of the three refutation reasons, a
    verdict [true] with none of them; either way the call has returned, not
    stopped at an error. *)
Theorem checkInternal_described fuel verdict description :
  checkInternal fuel = Ok (verdict, description) →
  if verdict then description = "Inclusion proved!"%string
  else ∃ r, r ∈ reasons ∧ description = ("Inclusion refuted! Reason: " +:+ r)%string.
Proof.
  unfold Up.checkInternal. intros H.
  destruct (length biggerLeaves <? length smallerLeaves)%nat.
  - injection H as <- <-. exists "leaves set sizes incompatible"%string.
    split; [unfold reasons; set_solver|done].
  - rstep H. destruct a as [w|st].
    + injection H as ->.
      assert (refutation "leaves not covered" (verdict, description)) as Hr.
      { revert E. apply ffold_return. intros ? ? ? _. apply seed_symbol_return. }
      change (described (verdict, description)).
      apply (refutation_described "leaves not covered"); [|done].
      unfold reasons; set_solver.
    + apply (main_loop_described _ _ _ H : described (verdict, description)).
Qed.

(** *** Leaf seeding *)

Abbreviation leaves_in_range := (leaves_in_range smallerLeaves biggerLeaves ind inv).

Lemma require_lt (i n : nat) : (i < n)%nat → require (i <? n)%nat = Ok ().
Proof. intros H. by apply Nat.ltb_lt in H as ->. Qed.

Lemma of_option_lookup {A : Type} (l : list A) (i : nat) :
  (i < length l)%nat → ∃ x, l !! i = Some x ∧ of_option (l !! i) = Ok x.
Proof. intros H. destruct (lookup_lt_is_Some_2 l i H) as [x Hx]. exists x. by rewrite Hx. Qed.

Lemma of_option_Ok {A : Type} (o : option A) (x : A) : of_option o = Ok x → o = Some x.
Proof. destruct o; [by intros [= ->]|done]. Qed.

Lemma add_processed_total st p up Q :
  (p < length inv)%nat → ∃ st', add_processed st p up Q = Ok st'.
Proof.
  intros Hp. unfold Up.add_processed. destruct (contains2 _ _ _ _); [by eexists|].
  rewrite require_lt by done. cbn [rbind].
  destruct (of_option_lookup inv p Hp) as (down & _ & ->). cbn [rbind].
  destruct (refine2 _ _ _ _). by eexists.
Qed.

Lemma fold_post_total acc s :
  (s < length ind)%nat → (s < length inv)%nat → ∃ r, fold_post acc s = Ok r.
Proof.
  intros Hi Hv. unfold Up.fold_post. destruct acc as [post accepting].
  rewrite require_lt by done. cbn [rbind].
  destruct (of_option_lookup ind s Hi) as (up & _ & ->). cbn [rbind].
  destruct (contains1 _ _); [by eexists|].
  rewrite require_lt by done. cbn [rbind].
  destruct (of_option_lookup inv s Hv) as (down & _ & ->). cbn [rbind]. by eexists.
Qed.

Lemma seed_leaf_total tmp acc st t :
  (state t < length ind)%nat → (state t < length inv)%nat →
  ∃ r, seed_leaf tmp acc st t = Ok r.
Proof.
  intros Hi Hv. unfold Up.seed_leaf. destruct (negb acc && _); [by eexists|].
  rewrite require_lt by done. cbn [rbind].
  destruct (of_option_lookup ind _ Hi) as (up & _ & ->). cbn [rbind].
  destruct (checkIntersection _ _); [by eexists|].
  destruct (add_processed_total st (state t) up tmp Hv) as [st' ->]. by eexists.
Qed.

Lemma seed_symbol_total st symbol :
  leaves_in_range → (length smallerLeaves ≤ length biggerLeaves)%nat →
  (symbol < length smallerLeaves)%nat → ∃ r, seed_symbol st symbol = Ok r.
Proof.
  intros [Hb Hs] Hle Hsym. unfold Up.seed_symbol.
  destruct (of_option_lookup biggerLeaves symbol ltac:(lia)) as (bts & Hbts & ->).
  destruct (of_option_lookup smallerLeaves symbol Hsym) as (sts & Hsts & ->).
  cbn [rbind]. apply list_elem_of_lookup_2 in Hbts, Hsts.
  match goal with |- context [rfold ?f ?a0 bts] =>
    assert (∃ r, rfold f a0 bts = Ok r) as [[post acc] ->] end.
  { apply rfold_total. intros a x Hx. destruct (Hb _ _ Hbts Hx) as (-> & Hi & Hv).
    rewrite bool_decide_eq_true_2 by done. cbn [require rbind].
    by apply fold_post_total. }
  cbn [rbind]. apply ffold_total. intros a x Hx.
  destruct (Hs _ _ Hsts Hx). by apply seed_leaf_total.
Qed.

(** C4 (amended): when the bigger automaton has no transition under a leaf
    symbol and the smaller one has, under that symbol, a transition into a
    state that is final in the smaller automaton, the check returns [false]
    out of the leaf seeding, whatever the fuel. *)
Theorem leaf_seeding_refutes fuel symbol ts t :
  leaves_in_range →
  smallerLeaves !! symbol = Some ts → t ∈ ts →
  state t ∈ smallerFinalStates →
  biggerLeaves !! symbol = None ∨ biggerLeaves !! symbol = Some [] →
  ∃ r, r ∈ ["leaves not covered"; "leaves set sizes incompatible"]%string
       ∧ checkInternal fuel = Ok (false, ("Inclusion refuted! Reason: " +:+ r)%string).
Proof.
  intros Hwf Hts Ht Hfin Hbig. unfold Up.checkInternal.
  destruct (Nat.ltb_spec (length biggerLeaves) (length smallerLeaves)) as [|Hle].
  { exists "leaves set sizes incompatible"%string. split; [set_solver|done]. }
  assert (symbol < length smallerLeaves)%nat as Hsym by (by eapply lookup_lt_Some).
  destruct Hbig as [Hnone|Hnil]; [apply lookup_ge_None in Hnone; lia|].
  exists "leaves not covered"%string. split; [set_solver|].
  match goal with |- context [ffold ?f ?a0 ?l] =>
    assert (∃ v, ffold f a0 l = Ok (Return v)) as [v Hv] end.
  { apply ffold_exits with (x := symbol).
  - intros a y Hy. apply elem_of_seq in Hy. apply seed_symbol_total; [done|lia|lia].
  - apply elem_of_seq. lia.
  - intros a. unfold Up.seed_symbol. rewrite Hnil, Hts. cbn [of_option rbind rfold].
    apply ffold_exits with (x := t); [|done|].
    + intros a' y Hy. destruct Hwf as [_ Hs].
      destruct (Hs ts y) as [? ?]; [by eapply list_elem_of_lookup_2|done|].
      by apply seed_leaf_total.
    + intros a'. unfold Up.seed_leaf. rewrite bool_decide_eq_true_2 by done.
      by eexists. }
  rewrite Hv. cbn [rbind]. f_equal. change (refutation "leaves not covered" v).
  revert Hv. apply (ffold_return (refutation "leaves not covered")).
  intros ? ? ? _. apply seed_symbol_return.
Qed.

(** *** The refutation test of the inductive step *)

Abbreviation finals_upward_closed := (finals_upward_closed biggerFinalStates inv).

Lemma fold_post_accepting states :
  finals_upward_closed → ∀ st st',
  (st.2 = true ↔ ∃ s, s ∈ st.1 ∧ s ∈ biggerFinalStates) →
  rfold fold_post st states = Ok st' →
  (st'.2 = true ↔ ∃ s, s ∈ st'.1 ∧ s ∈ biggerFinalStates).
Proof.
  intros Hup st st'.
  apply (rfold_invariant (λ st, st.2 = true ↔ ∃ s, s ∈ st.1 ∧ s ∈ biggerFinalStates)).
  clear st st'. intros [post acc] s [post' acc'] _ HI H. cbn [fst snd] in *.
  unfold Up.fold_post in H. rsteps H.
  destruct (contains1 _ _); [by injection H as <- <-|].
  rsteps H. injection H as <- <-.
  rewrite orb_true_iff, bool_decide_eq_true, HI. split.
  - intros [(x & Hx & Hfin)|Hfin].
    + destruct (decide (x ∈ a2)) as [Hin|Hout].
      * exists s. rewrite elem_of_insert1. split; [by right|].
        apply of_option_Ok in E2. by eapply Hup.
      * exists x. rewrite elem_of_insert1, elem_of_refine1. by split; [left|].
    + exists s. rewrite elem_of_insert1. by split; [right|].
  - intros (x & Hx & Hfin). apply elem_of_insert1 in Hx as [Hx| ->]; [|by right].
    apply elem_of_refine1 in Hx as [Hx _]. left. by exists x.
Qed.

(** C2 (amended): the step refutes exactly when the post macro-state [Q'] is
    empty, whether or not [p] is final, or when [p] is final in the smaller
    automaton and no state of [Q'] is final in the bigger one; a refutation
    carries the reason "smaller accepts, bigger does not". *)
Theorem choice_step_refutes_iff symbol t temporary choice post isBiggerAccepting :
  finals_upward_closed →
  post_of symbol choice = Ok (post, isBiggerAccepting) →
  ((∃ v, choice_step symbol t temporary choice = Ok (Return v))
   ↔ post = []
     ∨ (state t ∈ smallerFinalStates ∧ ∀ s, s ∈ post → s ∉ biggerFinalStates))
  ∧ (∀ v, choice_step symbol t temporary choice = Ok (Return v) →
       v = (false, "Inclusion refuted! Reason: smaller accepts, bigger does not"%string)).
Proof.
  intros Hup Hpost.
  assert (isBiggerAccepting = true ↔ ∃ s, s ∈ post ∧ s ∈ biggerFinalStates) as Hacc.
  { eapply (fold_post_accepting _ Hup ([], false) (post, isBiggerAccepting));
      [|exact Hpost].
    cbn. split; [done|]. intros (s & Hs & _). by apply elem_of_nil in Hs. }
  split; [|intros v; apply choice_step_return].
  unfold Up.choice_step. rewrite Hpost. cbn [rbind].
  destruct (bool_decide (post = []) || _) eqn:Hc.
  - split; [intros _|intros _; by eexists].
    apply orb_true_iff in Hc as [Hc|Hc]; [left; by apply bool_decide_eq_true in Hc|].
    apply andb_true_iff in Hc as [Hn Hp]. right.
    split; [by apply bool_decide_eq_true in Hp|].
    intros s Hs Hfin. apply negb_true_iff in Hn.
    assert (isBiggerAccepting = true) by (apply Hacc; eauto). congruence.
  - apply orb_false_iff in Hc as [Hne Hc]. apply bool_decide_eq_false in Hne.
    split.
    + intros [v H]. exfalso. rsteps H. destruct (checkIntersection _ _); [done|].
      destruct (contains2 _ _ _ _); [done|]. by rsteps H.
    + intros [?|[Hp Hnofin]]; [done|]. exfalso.
      rewrite (bool_decide_eq_true_2 _ Hp), andb_true_r in Hc.
      apply negb_false_iff in Hc. apply Hacc in Hc as (s & Hs & Hfin).
      by eapply Hnofin.
Qed.

End CheckInternal.

(** *** Concrete runs *)

Import Examples.

(** C5 at the specification's scenario S2: the one-state automaton with
    [a → q0], [q0] final, against an automaton without [a]-transitions. *)
Lemma checkInternal_described_witness :
  ∃ r, r ∈ reasons
    ∧ ("Inclusion refuted! Reason: leaves not covered"
       = "Inclusion refuted! Reason: " +:+ r)%string.
Proof.
  apply (checkInternal_described set_lt [[leaf 0 0]] [[]] {[0%nat]} [[]] [] ∅
           [[0%nat]] [[0%nat]] 0 false "Inclusion refuted! Reason: leaves not covered").
  vm_compute. reflexivity.
Defined.

(** C4, as the specification states it, fails: the smaller automaton has the
    leaf transition [a → 0] into a state that is not final, the bigger one
    has no [a]-transition, and the check returns [true]. *)
Lemma uncovered_leaf_not_refuted :
  ¬ uncovered_leaf_refutes set_lt [[leaf 0 0]] [[]] ∅ [[]] [] ∅ [[0%nat]] [[0%nat]].
Proof.
  intros H.
  destruct (H 1%nat 0%nat [leaf 0 0] eq_refl ltac:(done) (or_intror eq_refl)) as [d Hd].
  vm_compute in Hd. discriminate Hd.
Qed.

Lemma leaf_seeding_refutes_witness :
  ∃ r, r ∈ ["leaves not covered"; "leaves set sizes incompatible"]%string
    ∧ checkInternal set_lt [[leaf 0 0]] [[]] {[0%nat]} [[]] [] ∅ [[0%nat]] [[0%nat]] 0
      = Ok (false, ("Inclusion refuted! Reason: " +:+ r)%string).
Proof.
  apply (leaf_seeding_refutes set_lt [[leaf 0 0]] [[]] {[0%nat]} [[]] [] ∅
           [[0%nat]] [[0%nat]] 0 0 [leaf 0 0] (leaf 0 0)).
  - split; intros ts t Hts Ht.
    + apply list_elem_of_singleton in Hts as ->. by apply elem_of_nil in Ht.
    + apply list_elem_of_singleton in Hts as ->.
      apply list_elem_of_singleton in Ht as ->. simpl. lia.
  - reflexivity.
  - apply list_elem_of_singleton. reflexivity.
  - apply elem_of_singleton. reflexivity.
  - right. reflexivity.
Defined.

(** C2, as the specification states it, fails: with no transition of the
    bigger automaton to combine, [Q'] is empty, and the step refutes although
    the parent [0] of the smaller transition is not final. *)
Lemma empty_post_refutes_nonfinal :
  ¬ refutes_as_specified ∅ [] ∅ [[0%nat]] [[0%nat]] 1
      (MkTrans 1 [0%nat] 0) ∅ [[0%nat]].
Proof.
  intros H. specialize (H [] false eq_refl) as [H _].
  destruct H as [[_ Hf]|[_ Hf]]; [by eexists|set_solver..].
Qed.

Lemma choice_step_refutes_iff_witness :
  ((∃ v, choice_step ∅ [] ∅ [[0%nat]] [[0%nat]] 1 (MkTrans 1 [0%nat] 0) ∅ [[0%nat]]
         = Ok (Return v))
   ↔ @nil nat = []
     ∨ (state (MkTrans 1 [0%nat] 0) ∈ (∅ : gset nat)
        ∧ ∀ s, s ∈ @nil nat → s ∉ (∅ : gset nat)))
  ∧ (∀ v, choice_step ∅ [] ∅ [[0%nat]] [[0%nat]] 1 (MkTrans 1 [0%nat] 0) ∅ [[0%nat]]
          = Ok (Return v) →
       v = (false, "Inclusion refuted! Reason: smaller accepts, bigger does not"%string)).
Proof.
  apply (choice_step_refutes_iff ∅ [] ∅ [[0%nat]] [[0%nat]] 1 (MkTrans 1 [0%nat] 0) ∅
           [[0%nat]] [] false).
  - intros s down x Hs Hx Hfin. by apply not_elem_of_empty in Hfin.
  - reflexivity.
Defined.

End UpFacts.

(** ** Correctness of the upward check under the identity preorder *)

Module UpCorrect.
Import Antichain TreeAut Up UpSpec UpFacts.

(** *** The keyed antichain *)

Section Antichain2C.
Context {T : Type}.
Implicit Types (ac : gmap nat (list T)) (cmp : T → T → bool).

Lemma stored_insert2 ac k v k' :
  stored (insert2 ac k v) k' = if decide (k = k') then stored ac k ++ [v] else stored ac k'.
Proof.
  unfold insert2, stored at 1. case_decide as Hk.
  - subst. by rewrite lookup_insert_eq.
  - by rewrite lookup_insert_ne.
Qed.

Lemma elem_of_stored_insert2 ac k v k' v' :
  v' ∈ stored (insert2 ac k v) k' ↔ v' ∈ stored ac k' ∨ (k' = k ∧ v' = v).
Proof.
  rewrite stored_insert2. case_decide as Hk.
  - subst. rewrite elem_of_app, list_elem_of_singleton. naive_solver.
  - naive_solver.
Qed.

Lemma contains2_true ac K v cmp :
  contains2 ac K v cmp = true ↔
  ∃ k v', k ∈ K ∧ v' ∈ stored ac k ∧ cmp v' v = true.
Proof.
  unfold contains2. rewrite existsb_exists. split.
  - intros (k & Hk & H). apply existsb_exists in H as (v' & Hv' & H).
    exists k, v'. by rewrite !list_elem_of_In.
  - intros (k & v' & Hk & Hv' & H). exists k. rewrite <- list_elem_of_In.
    split; [done|]. apply existsb_exists. exists v'. by rewrite <- list_elem_of_In.
Qed.

Lemma filter_all {A : Type} (f : A → bool) (l : list A) :
  (∀ x, x ∈ l → f x = true) → List.filter f l = l.
Proof.
  induction l as [|x l IH]; intros H; [done|]. cbn.
  rewrite (H x) by constructor. f_equal. apply IH. intros y Hy. apply H. by constructor.
Qed.

Lemma filter_none {A : Type} (f : A → bool) (l : list A) :
  (∀ x, x ∈ l → f x = false) → List.filter f l = [].
Proof.
  induction l as [|x l IH]; intros H; [done|]. cbn.
  rewrite (H x) by constructor. apply IH. intros y Hy. apply H. by constructor.
Qed.

Lemma refine_key_idle v cmp ac erased k :
  (∀ v', v' ∈ stored ac k → cmp v v' = false) →
  ∃ ac', refine_key v cmp (ac, erased) k = (ac', erased)
         ∧ ∀ k', stored ac' k' = stored ac k'.
Proof.
  intros H. unfold refine_key.
  rewrite (filter_none (λ v', cmp v v')) by done.
  rewrite (filter_all (λ v', negb (cmp v v')))
    by (intros v' Hv'; by rewrite (H v' Hv')).
  rewrite app_nil_r. eexists. split; [done|]. intros k'.
  destruct (stored ac k) as [|x l] eqn:Hs.
  - unfold stored at 1. destruct (decide (k = k')) as [<-|Hne].
    + by rewrite lookup_delete_eq, Hs.
    + by rewrite lookup_delete_ne.
  - unfold stored at 1. destruct (decide (k = k')) as [<-|Hne].
    + by rewrite lookup_insert_eq, Hs.
    + by rewrite lookup_insert_ne.
Qed.

(** [refine] leaves the antichain alone when the new value dominates
    nothing under the given keys. *)
Lemma refine2_idle ac K v cmp :
  (∀ k v', k ∈ K → v' ∈ stored ac k → cmp v v' = false) →
  ∃ ac', refine2 ac K v cmp = (ac', []) ∧ ∀ k', stored ac' k' = stored ac k'.
Proof.
  unfold refine2. generalize (@nil (nat * T)) as erased.
  revert ac. induction K as [|k K IH]; intros ac erased H; cbn [fold_left].
  - by eexists.
  - destruct (refine_key_idle v cmp ac erased k) as (ac1 & -> & H1).
    { intros v' Hv'. apply (H k); [constructor|done]. }
    destruct (IH ac1 erased) as (ac2 & -> & H2).
    { intros k' v' Hk' Hv'. rewrite H1 in Hv'. apply (H k'); [by constructor|done]. }
    eexists. split; [done|]. intros k'. by rewrite H2, H1.
Qed.

End Antichain2C.

(** *** Comparison of macro-states under the identity preorder *)

Lemma checkIntersection_sound s1 s2 :
  checkIntersection s1 s2 = true → ∃ x, x ∈ s1 ∧ x ∈ s2.
Proof.
  revert s2. induction s1 as [|x s1 IH]; intros s2; [done|].
  induction s2 as [|y s2 IH2]; [done|].
  change (checkIntersection (x :: s1) (y :: s2))
    with (if (x <? y)%nat then checkIntersection s1 (y :: s2)
          else if (y <? x)%nat then checkIntersection (x :: s1) s2 else true).
  destruct (Nat.ltb_spec x y).
  - intros H'. destruct (IH _ H') as (z & ? & ?). exists z. split; [by constructor|done].
  - destruct (Nat.ltb_spec y x).
    + intros H'. destruct (IH2 H') as (z & ? & ?). exists z. split; [done|by constructor].
    + intros _. assert (x = y) as -> by lia. exists y. split; constructor.
Qed.

Lemma id_rows_lookup n s : id_rows n !! s = if decide (s < n)%nat then Some [s] else None.
Proof.
  unfold id_rows. rewrite list_lookup_fmap. case_decide.
  - by rewrite lookup_seq_lt.
  - by rewrite lookup_seq_ge by lia.
Qed.

Lemma id_rows_length n : length (id_rows n) = n.
Proof. unfold id_rows. by rewrite length_fmap, length_seq. Qed.

Lemma lte_id_sound n x y : lte (id_rows n) x y = true → x ⊆ y.
Proof.
  unfold lte. case_decide as Heq; [by intros _; subst|].
  unfold noncachedLte. rewrite forallb_forall. intros H s Hs.
  apply list_elem_of_In, H, checkIntersection_sound in Hs as (z & Hz & Hzy).
  rewrite id_rows_lookup in Hz. case_decide; cbn in Hz.
  - by apply list_elem_of_singleton in Hz as ->.
  - by apply elem_of_nil in Hz.
Qed.

Lemma lte_refl ind x : lte ind x x = true.
Proof. unfold lte. by rewrite decide_True. Qed.

(** *** The pending set *)

Section Next.
Variable addr_lt : list nat → list nat → bool.
Hypothesis Htotal : total addr_lt.

Lemma less_total e x : e ≠ x → less addr_lt e x = true ∨ less addr_lt x e = true.
Proof.
  destruct e as [p Q], x as [p' Q']. intros Hne. unfold less. cbn [fst snd].
  destruct (Nat.ltb_spec (length Q) (length Q')); [by left|].
  destruct (Nat.ltb_spec (length Q') (length Q)); [by right|].
  destruct (Nat.ltb_spec p p'); [by left|].
  destruct (Nat.ltb_spec p' p); [by right|].
  assert (p = p') as -> by lia. apply Htotal. congruence.
Qed.

Lemma elem_of_next_insert e l x : x ∈ next_insert addr_lt e l ↔ x = e ∨ x ∈ l.
Proof.
  induction l as [|y l IH]; cbn.
  - rewrite list_elem_of_singleton, elem_of_nil. tauto.
  - destruct (less addr_lt e y) eqn:H1; [by rewrite elem_of_cons|].
    destruct (less addr_lt y e) eqn:H2.
    + rewrite !elem_of_cons, IH. tauto.
    + destruct (decide (e = y)) as [->|Hne].
      * rewrite elem_of_cons. tauto.
      * destruct (less_total e y Hne); congruence.
Qed.

Lemma NoDup_next_insert e l : NoDup l → e ∉ l → NoDup (next_insert addr_lt e l).
Proof.
  induction 1 as [|y l Hy Hnd IH]; intros He; cbn.
  - apply NoDup_singleton.
  - apply not_elem_of_cons in He as [Hne He].
    destruct (less addr_lt e y); [constructor; [|by constructor]; set_solver|].
    destruct (less addr_lt y e); [|by constructor].
    constructor; [|by apply IH]. rewrite elem_of_next_insert. naive_solver.
Qed.

End Next.

(** *** Trees, runs and contexts *)

Lemma tree_induction (P : tree → Prop) :
  (∀ f kids, Forall P kids → P (Node f kids)) → ∀ t, P t.
Proof.
  intros H. fix IH 1. intros [f kids]. apply H.
  induction kids as [|t kids IHkids]; constructor; [apply IH|apply IHkids].
Qed.

Lemma fits_Forall2 cs rs : fits cs rs = true ↔ Forall2 (λ c r, c ∈ r) cs rs.
Proof.
  revert rs. induction cs as [|c cs IH]; intros [|r rs]; cbn [fits].
  - split; [constructor|done].
  - split; [done|inversion 1].
  - split; [done|inversion 1].
  - rewrite andb_true_iff, bool_decide_eq_true, IH. split.
    + intros [? ?]. by constructor.
    + by inversion 1.
Qed.

Lemma elem_of_Post b sym Qs s :
  s ∈ Post b sym Qs ↔
  ∃ tr, tr ∈ transitions b ∧ symbol tr = sym ∧ state tr = s
        ∧ Forall2 (λ c r, c ∈ r) (children tr) Qs.
Proof.
  unfold Post. rewrite list_elem_of_In, in_map_iff. split.
  - intros (tr & <- & Hin). apply filter_In in Hin as [Hin Hb].
    apply andb_true_iff in Hb as [Hs Hf]. apply bool_decide_eq_true in Hs.
    exists tr. by rewrite list_elem_of_In, <- fits_Forall2.
  - intros (tr & Hin & Hs & <- & Hf). exists tr. split; [done|].
    apply filter_In. rewrite <- list_elem_of_In. split; [done|].
    apply andb_true_iff. by rewrite bool_decide_eq_true, fits_Forall2.
Qed.

Lemma reach_Post a f kids : reach a (Node f kids) = Post a f (map (reach a) kids).
Proof. reflexivity. Qed.

Lemma Post_mono b sym Qs Qs' :
  Forall2 (λ Q Q', Q ⊆ Q') Qs Qs' → Post b sym Qs ⊆ Post b sym Qs'.
Proof.
  intros H s. rewrite !elem_of_Post. intros (tr & ? & ? & ? & Hf).
  exists tr. repeat split; try done.
  clear -H Hf. revert Qs' H. induction Hf; intros Qs' HQ; inversion HQ; subst;
    constructor; auto.
Qed.

Lemma accepts_true a t :
  accepts a t = true ↔ ∃ q, q ∈ reach a t ∧ q ∈ finalStates a.
Proof.
  unfold accepts. rewrite existsb_exists. split.
  - intros (q & Hq & Hf). exists q. apply list_elem_of_In in Hq.
    by apply bool_decide_eq_true in Hf.
  - intros (q & Hq & Hf). exists q. apply list_elem_of_In in Hq.
    by rewrite bool_decide_eq_true.
Qed.

Lemma fits_empty cs rs : [] ∈ rs → fits cs rs = false.
Proof.
  intros H. apply not_true_is_false. rewrite fits_Forall2. intros HF.
  revert H. induction HF as [|c r cs rs Hc _ IH]; intros H.
  - by apply elem_of_nil in H.
  - apply elem_of_cons in H as [<-|H]; [by apply elem_of_nil in Hc|auto].
Qed.

(** A subtree on which the automaton has no run leaves it without a run on
    the whole tree. *)
Lemma reach_plug_empty a c t : reach a t = [] → c ≠ Hole → reach a (plug c t) = [].
Proof.
  intros Ht. induction c as [|f before c IH after]; intros Hc; [done|].
  cbn [plug]. rewrite reach_Post. unfold Post.
  rewrite filter_none; [done|]. intros tr _.
  apply andb_false_iff. right. apply fits_empty.
  rewrite map_app. cbn [map]. apply elem_of_app. right.
  destruct c; [cbn [plug]; rewrite Ht; constructor|].
  rewrite IH by done. constructor.
Qed.

(** *** The post image under the identity preorder *)

Lemma NoDup_refine1 post down : NoDup post → NoDup (refine1 post down).
Proof. unfold refine1. rewrite !NoDup_ListNoDup. apply List.NoDup_filter. Qed.

Lemma NoDup_insert1 post s : NoDup post → NoDup (insert1 post s).
Proof.
  intros H. unfold insert1. case_bool_decide as Hs; [done|].
  apply NoDup_app. split; [done|]. split; [|apply NoDup_singleton].
  intros x Hx Hx'. by apply list_elem_of_singleton in Hx' as ->.
Qed.

Lemma finals_upward_closed_id finals n : finals_upward_closed finals (id_rows n).
Proof.
  intros s down x Hs Hx Hfin. rewrite id_rows_lookup in Hs.
  case_decide; [|done]. injection Hs as <-. by apply list_elem_of_singleton in Hx as <-.
Qed.

Section Post.
Variable finals : gset nat.
Variable n : nat.

Abbreviation fold_post_id := (fold_post finals (id_rows n) (id_rows n)).

Lemma fold_post_id_step post acc s :
  (s < n)%nat → NoDup post →
  ∃ post' acc', fold_post_id (post, acc) s = Ok (post', acc')
    ∧ (∀ x, x ∈ post' ↔ x ∈ post ∨ x = s) ∧ NoDup post'.
Proof.
  intros Hs Hnd. unfold fold_post. rewrite id_rows_length, require_lt by done.
  cbn [rbind]. rewrite id_rows_lookup, decide_True by done. cbn [of_option rbind].
  destruct (contains1 post [s]) eqn:Hc.
  - eexists _, _. split; [done|]. split; [|done].
    unfold contains1 in Hc. apply existsb_exists in Hc as (x & Hx & Hxs).
    apply bool_decide_eq_true, list_elem_of_singleton in Hxs as ->.
    apply list_elem_of_In in Hx. intros y. naive_solver.
  - eexists _, _. split; [done|]. split.
    + intros x. rewrite elem_of_insert1, elem_of_refine1, list_elem_of_singleton.
      destruct (decide (x = s)); naive_solver.
    + by apply NoDup_insert1, NoDup_refine1.
Qed.

Lemma fold_post_id_run ss : ∀ post acc,
  Forall (λ s, (s < n)%nat) ss → NoDup post →
  ∃ post' acc', rfold fold_post_id (post, acc) ss = Ok (post', acc')
    ∧ (∀ x, x ∈ post' ↔ x ∈ post ∨ x ∈ ss) ∧ NoDup post'.
Proof.
  induction ss as [|s ss IH]; intros post acc Hss Hnd; cbn [rfold].
  - eexists _, _. split; [done|]. split; [|done]. intros x. rewrite elem_of_nil. tauto.
  - inversion Hss as [|? ? Hs Hss']; subst.
    destruct (fold_post_id_step post acc s Hs Hnd) as (post1 & acc1 & -> & H1 & Hnd1).
    cbn [rbind].
    destruct (IH post1 acc1 Hss' Hnd1) as (post2 & acc2 & Hr2 & H2 & Hnd2).
    exists post2, acc2. split; [exact Hr2|]. split; [|done].
    intros x. rewrite H2, H1, elem_of_cons. tauto.
Qed.

(** Folding states through [post]: the states themselves, without
    repetition, and whether one of them is final. *)
Lemma fold_post_id_spec ss :
  Forall (λ s, (s < n)%nat) ss →
  ∃ post acc, rfold fold_post_id ([], false) ss = Ok (post, acc)
    ∧ (∀ x, x ∈ post ↔ x ∈ ss) ∧ NoDup post
    ∧ (acc = true ↔ ∃ s, s ∈ post ∧ s ∈ finals).
Proof.
  intros Hss.
  destruct (fold_post_id_run ss [] false Hss (NoDup_nil_2)) as (post & acc & Hr & Hin & Hnd).
  exists post, acc. split; [done|]. split.
  { intros x. rewrite Hin, elem_of_nil. tauto. }
  split; [done|].
  apply (fold_post_accepting finals (id_rows n) (id_rows n) ss
           (finals_upward_closed_id finals n) ([], false) (post, acc)); [|done].
  cbn. split; [done|]. intros (s & Hs & _). by apply elem_of_nil in Hs.
Qed.

End Post.

(** The sorted macro-state made of a post image. *)
Lemma StronglySorted_le_lt l : StronglySorted le l → NoDup l → StronglySorted lt l.
Proof.
  induction 1 as [|x l Hs IH Hx]; intros Hnd; constructor.
  - apply IH. by apply NoDup_cons in Hnd as [_ ?].
  - apply NoDup_cons in Hnd as [Hnot _]. rewrite Forall_forall in *.
    intros y Hy. specialize (Hx y Hy). assert (x ≠ y) by (by intros ->). lia.
Qed.

Lemma sorted_post post :
  NoDup post →
  StronglySorted lt (merge_sort le post) ∧ ∀ x, x ∈ merge_sort le post ↔ x ∈ post.
Proof.
  intros Hnd. split.
  - apply StronglySorted_le_lt.
    + apply StronglySorted_merge_sort; apply _.
    + by rewrite merge_sort_Permutation.
  - intros x. by rewrite merge_sort_Permutation.
Qed.

(** *** Loops with an invariant *)

Section Loops.
Context {S X : Type}.
Variable I : S → Prop.
Variable R : S → S → Prop.
Variable D : X → S → Prop.
Variable Ret : bool * string → Prop.
Hypothesis R_refl : ∀ a, R a a.
Hypothesis R_trans : ∀ a b c, R a b → R b c → R a c.
Hypothesis D_mono : ∀ x a a', D x a → R a a' → D x a'.

(** A loop with early exit: it exits with a value that satisfies [Ret], or
    runs through, keeps [I], moves the state along [R] and has done [D] for
    every element. *)
Lemma ffold_spec (f : S → X → result (flow S)) (l : list X) :
  (∀ a x, x ∈ l → I a →
     (∃ v, f a x = Ok (Return v) ∧ Ret v)
     ∨ (∃ a', f a x = Ok (Next a') ∧ I a' ∧ R a a' ∧ D x a')) →
  ∀ a, I a →
    (∃ v, ffold f a l = Ok (Return v) ∧ Ret v)
    ∨ (∃ a', ffold f a l = Ok (Next a') ∧ I a' ∧ R a a' ∧ ∀ x, x ∈ l → D x a').
Proof.
  induction l as [|x l IH]; intros Hf a Ha; cbn [ffold].
  - right. exists a. repeat split; [done..|]. intros x Hx. by apply elem_of_nil in Hx.
  - destruct (Hf a x) as [(v & -> & Hv)|(a1 & -> & Ha1 & HR1 & HD1)];
      [constructor|done| |]; cbn [rbind].
    + left. by exists v.
    + destruct (IH (λ a y Hy, Hf a y (list_elem_of_further _ _ _ Hy)) a1 Ha1)
        as [(v & -> & Hv)|(a2 & -> & Ha2 & HR2 & HD2)].
      * left. by exists v.
      * right. exists a2. repeat split; [done|by eapply R_trans|].
        intros y Hy. apply elem_of_cons in Hy as [->|Hy]; [by eapply D_mono|by apply HD2].
Qed.

Lemma rfold_spec (f : S → X → result S) (l : list X) :
  (∀ a x, x ∈ l → I a → ∃ a', f a x = Ok a' ∧ I a' ∧ R a a' ∧ D x a') →
  ∀ a, I a →
    ∃ a', rfold f a l = Ok a' ∧ I a' ∧ R a a' ∧ ∀ x, x ∈ l → D x a'.
Proof.
  induction l as [|x l IH]; intros Hf a Ha; cbn [rfold].
  - exists a. repeat split; [done..|]. intros x Hx. by apply elem_of_nil in Hx.
  - destruct (Hf a x) as (a1 & -> & Ha1 & HR1 & HD1); [constructor|done|]. cbn [rbind].
    destruct (IH (λ a y Hy, Hf a y (list_elem_of_further _ _ _ Hy)) a1 Ha1)
      as (a2 & -> & Ha2 & HR2 & HD2).
    exists a2. repeat split; [done|by eapply R_trans|].
    intros y Hy. apply elem_of_cons in Hy as [->|Hy]; [by eapply D_mono|by apply HD2].
Qed.

End Loops.

(** *** The indexed views *)

Lemma elem_of_with_child a sym slot child tr :
  tr ∈ with_child a sym slot child ↔
  tr ∈ transitions a ∧ symbol tr = sym ∧ children tr !! slot = Some child.
Proof.
  unfold with_child. rewrite (list_elem_of_In (List.filter _ _)), filter_In.
  rewrite <- list_elem_of_In, andb_true_iff, !bool_decide_eq_true. tauto.
Qed.

Lemma elem_of_concat {X : Type} (ls : list (list X)) (x : X) :
  x ∈ concat ls ↔ ∃ l, l ∈ ls ∧ x ∈ l.
Proof.
  rewrite list_elem_of_In, in_concat. split; intros (l & H1 & H2); exists l;
    by rewrite ?list_elem_of_In in *.
Qed.

Lemma elem_of_map {X Y : Type} (f : X → Y) (l : list X) (y : Y) :
  y ∈ map f l ↔ ∃ x, y = f x ∧ x ∈ l.
Proof.
  rewrite list_elem_of_In, in_map_iff. split; intros (x & H1 & H2); exists x;
    by rewrite ?list_elem_of_In in *.
Qed.

Lemma fold_intersection (E : nat → list nat → list Transition) tr rest :
  ∀ (g : nat → nat) d0,
  tr ∈ fold_left (λ d '(k, Qk), intersectionByLookup d (E (S k) Qk))
         (imap (λ i Q, (g i, Q)) rest) d0
  ↔ tr ∈ d0 ∧ ∀ i Q, rest !! i = Some Q → tr ∈ E (S (g i)) Q.
Proof.
  induction rest as [|Q0 rest IH]; intros g d0; cbn [imap fold_left].
  - split; [intros H; split; [done|]; by intros i Q|tauto].
  - rewrite (IH (g ∘ S)). unfold intersectionByLookup at 1.
    rewrite (list_elem_of_In (List.filter _ _)), filter_In, <- list_elem_of_In.
    rewrite bool_decide_eq_true. split.
    + intros [[H0 H1] H2]. split; [done|]. intros [|i] Q HQ.
      * by injection HQ as <-.
      * by apply H2.
    + intros [H0 H1]. split; [split; [done|]|].
      * by apply (H1 0%nat).
      * intros i Q HQ. by apply (H1 (S i)).
Qed.

Section Correct.
Variable addr_lt : list nat → list nat → bool.
Variable A B : Aut.
Variable symbols slots states : nat.
Hypothesis Htotal : total addr_lt.
Hypothesis HA : in_range A symbols slots states.
Hypothesis HB : in_range B symbols slots states.
Hypothesis Hrank : same_rank A B.
Hypothesis Hdisj : disjoint_states A B.
Hypothesis Htrim : no_useless_states A.

Abbreviation rows := (id_rows states).
Abbreviation bigger_index := (up_index B symbols slots states).
Abbreviation smaller_index := (child_index A symbols slots states).

Lemma elem_of_evalTransitions sym i Q tr :
  (sym < symbols)%nat → (i < slots)%nat →
  tr ∈ evalTransitions bigger_index sym i Q ↔
  tr ∈ transitions B ∧ symbol tr = sym ∧ ∃ s, s ∈ Q ∧ children tr !! i = Some s.
Proof.
  intros Hsym Hi. unfold evalTransitions, up_index.
  rewrite list_lookup_fmap, lookup_seq_lt by done. cbn [fmap option_fmap option_map].
  rewrite list_lookup_fmap, lookup_seq_lt by done. cbn [fmap option_fmap option_map].
  rewrite elem_of_remove_dups, elem_of_concat. split.
  - intros (l & Hl & Htr). apply elem_of_map in Hl as (s & -> & Hs).
    rewrite list_lookup_fmap in Htr.
    destruct (decide (s < states)%nat) as [Hlt|Hge].
    + rewrite lookup_seq_lt in Htr by done. cbn in Htr.
      apply elem_of_with_child in Htr as (? & ? & ?). eauto.
    + rewrite lookup_seq_ge in Htr by lia. by apply elem_of_nil in Htr.
  - intros (Hin & Hs & s & HsQ & Hc).
    exists (with_child B sym i s). split; [|by apply elem_of_with_child].
    apply elem_of_map. exists s. split; [|done].
    destruct (HB tr Hin) as (_ & _ & _ & Hch). rewrite Forall_forall in Hch.
    assert (s < states)%nat by (apply Hch; by eapply list_elem_of_lookup_2).
    by rewrite list_lookup_fmap, lookup_seq_lt.
Qed.

(** The bigger transitions a choice vector selects, against the subset
    construction: for the children of a transition of the smaller automaton,
    the parents of the selected transitions are the post image. *)
Lemma big_set_Post trA choice s :
  trA ∈ transitions A → children trA ≠ [] → length choice = length (children trA) →
  s ∈ map state (big_set bigger_index (symbol trA) choice) ↔ s ∈ Post B (symbol trA) choice.
Proof.
  intros HtrA Hne Hlen. destruct (HA trA HtrA) as (Hsym & Hsl & _ & _).
  destruct choice as [|Q0 rest]; [by destruct (children trA)|].
  rewrite elem_of_map, elem_of_Post. unfold big_set.
  assert (∀ tr, tr ∈ fold_left
            (λ d '(k, Qk), intersectionByLookup d
               (evalTransitions bigger_index (symbol trA) (S k) Qk))
            (imap pair rest) (evalTransitions bigger_index (symbol trA) 0 Q0)
          ↔ tr ∈ transitions B ∧ symbol tr = symbol trA
            ∧ Forall2 (λ c r, c ∈ r) (children tr) (Q0 :: rest)) as Hspec.
  { intros tr.
    rewrite (fold_intersection (evalTransitions bigger_index (symbol trA)) tr rest id).
    cbn [id]. rewrite elem_of_evalTransitions by (done || cbn in Hlen; lia).
    split.
    - intros [(Hin & Hs & s0 & Hs0 & Hc0) Hrest]. split; [done|]. split; [done|].
      apply Forall2_same_length_lookup. split.
      { rewrite (Hrank trA tr HtrA Hin) in Hlen by done. done. }
      intros [|i] c Q Hc HQ; cbn in Hc, HQ.
      + by simplify_eq.
      + apply Hrest in HQ. apply elem_of_evalTransitions in HQ as (_ & _ & s1 & ? & Hc1).
        * cbn in Hc1. by simplify_eq.
        * done.
        * apply lookup_lt_Some in Hc. rewrite <- (Hrank trA tr HtrA Hin) in Hc by done.
          cbn in Hlen. lia.
    - intros (Hin & Hs & HF). apply Forall2_same_length_lookup in HF as [Hl HF].
      assert (∀ i Q, (Q0 :: rest) !! i = Some Q →
                ∃ c, children tr !! i = Some c ∧ c ∈ Q) as Hget.
      { intros i Q HQ. destruct (lookup_lt_is_Some_2 (children tr) i) as [c Hc].
        - rewrite Hl. by eapply lookup_lt_Some.
        - exists c. split; [done|]. by eapply HF. }
      split.
      + split; [done|]. split; [done|].
        destruct (Hget 0%nat Q0 eq_refl) as (c & ? & ?). eauto.
      + intros i Q HQ. apply elem_of_evalTransitions; [done| |].
        * apply lookup_lt_Some in HQ. cbn in Hlen. lia.
        * split; [done|]. split; [done|].
          destruct (Hget (S i) Q HQ) as (c & ? & ?). eauto. }
  split.
  - intros (tr & -> & Htr). apply Hspec in Htr as (? & ? & ?). by exists tr.
  - intros (tr & ? & ? & <- & ?). exists tr. split; [done|]. by apply Hspec.
Qed.

(** *** Covering and growth *)

Abbreviation good := (good A B).
Abbreviation Pre := (Pre A B).
Abbreviation justified := (justified A B).

Lemma grows_refl (ac : gmap nat (list (list nat))) : grows ac ac.
Proof. by intros p Q. Qed.

Lemma grows_trans (ac1 ac2 ac3 : gmap nat (list (list nat))) :
  grows ac1 ac2 → grows ac2 ac3 → grows ac1 ac3.
Proof. intros H1 H2 p Q H. by apply H2, H1. Qed.

Lemma covered_grows ac ac' p Q : covered ac p Q → grows ac ac' → covered ac' p Q.
Proof. intros (Q' & H1 & H2) Hg. exists Q'. split; [by apply Hg|done]. Qed.

Lemma covered_subseteq ac p Q Q2 : covered ac p Q → Q ⊆ Q2 → covered ac p Q2.
Proof. intros (Q' & H1 & H2) Hs. exists Q'. split; [done|]. by etrans. Qed.

Lemma covered_trans ac ac' p Q :
  covered ac p Q → (∀ Q', Q' ∈ stored ac p → covered ac' p Q') → covered ac' p Q.
Proof. intros (Q' & H1 & H2) H. eapply covered_subseteq; [by apply H|done]. Qed.

Lemma good_lt p Q : good p Q → (p < states)%nat.
Proof. intros (_ & _ & (tr & Htr & <-) & _). by destruct (HA tr Htr) as (_ & _ & ? & _). Qed.

Lemma good_not_bigger p Q tr : good p Q → tr ∈ transitions B → state tr ≠ p.
Proof. intros (_ & _ & (trA & HtrA & <-) & _) Htr Heq. by eapply Hdisj. Qed.

Lemma rows_lookup p : (p < states)%nat → of_option (rows !! p) = Ok [p].
Proof. intros Hp. by rewrite id_rows_lookup, decide_True. Qed.

(** [processed.contains], [refine], [insert] and [next.insert] for a good
    pair: afterwards the pair is covered, and the state has only grown. *)
Lemma add_processed_spec st popped p Q :
  Pre st popped → good p Q →
  ∃ st', add_processed addr_lt rows rows st p [p] Q = Ok st'
    ∧ Pre st' popped
    ∧ grows (processed st) (processed st')
    ∧ covered (processed st') p Q.
Proof.
  intros HP Hg. pose proof (good_lt p Q Hg) as Hp. unfold add_processed.
  destruct (contains2 (processed st) [p] Q (lte rows)) eqn:Hc.
  - exists st. split; [done|]. split; [done|]. split; [apply grows_refl|].
    apply contains2_true in Hc as (k & Q' & Hk & HQ' & Hl).
    apply list_elem_of_singleton in Hk as ->. exists Q'. split; [done|].
    by eapply lte_id_sound.
  - assert (∀ Q', Q' ∈ stored (processed st) p → lte rows Q' Q = false) as Hno.
    { intros Q' HQ'. destruct (lte rows Q' Q) eqn:E; [|done].
      rewrite <- Hc. symmetry. apply contains2_true. exists p, Q'.
      split; [by apply list_elem_of_singleton|done]. }
    assert (Q ∉ stored (processed st) p) as Hnew.
    { intros HQ. specialize (Hno Q HQ). by rewrite lte_refl in Hno. }
    rewrite id_rows_length, require_lt by done. cbn [rbind].
    rewrite rows_lookup by done. cbn [rbind].
    destruct (refine2_idle (processed st) [p] Q (gte rows)) as (ac' & -> & Hac').
    { intros k Q' Hk HQ'. apply list_elem_of_singleton in Hk as ->. by apply Hno. }
    cbn [fold_left]. eexists. split; [done|].
    assert ((p, Q) ∉ next st) as Hnext.
    { intros Hin. by apply (pre_next _ _ _ _ HP) in Hin. }
    split; [|split].
    + constructor; cbn [processed next].
      * intros p' Q' H. apply elem_of_stored_insert2 in H as [H|[-> ->]]; [|done].
        rewrite Hac' in H. by apply (pre_good _ _ _ _ HP).
      * intros p' Q' H. apply elem_of_stored_insert2. rewrite Hac'.
        apply (elem_of_next_insert _ Htotal) in H as [[= -> ->]|H]; [by right|].
        left. by apply (pre_next _ _ _ _ HP).
      * apply NoDup_next_insert; [done|by apply (pre_next_nodup _ _ _ _ HP)|done].
      * intros p' Q' H. destruct (pre_popped _ _ _ _ HP p' Q' H) as [H1 H2].
        split; [apply elem_of_stored_insert2; rewrite Hac'; by left|].
        rewrite (elem_of_next_insert _ Htotal). intros [[= -> ->]|?]; done.
      * by apply (pre_nodup _ _ _ _ HP).
      * intros p' Q' H. rewrite (elem_of_next_insert _ Htotal).
        apply elem_of_stored_insert2 in H as [H|[-> ->]]; [|right; by left].
        rewrite Hac' in H. destruct (pre_split _ _ _ _ HP p' Q' H); [by left|right; by right].
    + intros p' Q' H. cbn [processed]. apply elem_of_stored_insert2. rewrite Hac'. by left.
    + exists Q. cbn [processed]. split; [|done]. apply elem_of_stored_insert2. by right.
Qed.

(** *** Leaf seeding *)

Lemma Post_nil b sym s :
  s ∈ Post b sym [] ↔
  ∃ tr, tr ∈ transitions b ∧ symbol tr = sym ∧ children tr = [] ∧ state tr = s.
Proof.
  rewrite elem_of_Post. split.
  - intros (tr & ? & ? & ? & HF). exists tr. by inversion HF.
  - intros (tr & ? & ? & Hc & ?). exists tr. rewrite Hc. repeat split; [done..|constructor].
Qed.

Lemma leaves_lookup a sym :
  (sym < symbols)%nat →
  ∃ l, leaves a symbols !! sym = Some l
    ∧ ∀ tr, tr ∈ l ↔ tr ∈ transitions a ∧ symbol tr = sym ∧ children tr = [].
Proof.
  intros Hsym. unfold leaves. rewrite list_lookup_fmap, lookup_seq_lt by done.
  eexists. split; [done|]. intros tr. cbn.
  rewrite (list_elem_of_In (List.filter _ _)), filter_In, <- list_elem_of_In.
  rewrite andb_true_iff, !bool_decide_eq_true. tauto.
Qed.

Lemma rfold_leaf_post (f : Antichain1C * bool → nat → result (Antichain1C * bool))
    (l : list Transition) :
  (∀ tr, tr ∈ l → children tr = []) → ∀ a,
  rfold (λ acc transition,
           _ ←ʳ require (bool_decide (children transition = []));
           f acc (state transition)) a l
  = rfold f a (map state l).
Proof.
  induction l as [|tr l IH]; intros Hl a; [done|]. cbn [rfold map].
  rewrite bool_decide_eq_true_2 by (apply Hl; constructor). cbn [require rbind].
  destruct (f a (state tr)); cbn [rbind]; [|done..].
  apply IH. intros tr' Htr'. apply Hl. by constructor.
Qed.

Lemma seed_leaf_spec sym tmp acc st trA :
  (∀ s, s ∈ tmp ↔ s ∈ Post B sym []) → StronglySorted lt tmp →
  (acc = true ↔ ∃ s, s ∈ tmp ∧ s ∈ finalStates B) →
  trA ∈ transitions A → symbol trA = sym → children trA = [] →
  Pre st [] →
  (∃ v, seed_leaf addr_lt (finalStates A) rows rows tmp acc st trA = Ok (Return v)
        ∧ justified v)
  ∨ (∃ st', seed_leaf addr_lt (finalStates A) rows rows tmp acc st trA = Ok (Next st')
        ∧ Pre st' [] ∧ grows (processed st) (processed st')
        ∧ covered (processed st') (state trA) (Post B sym [])).
Proof.
  intros Htmp Hsorted Hacc HtrA Hsym Hch HP.
  assert (state trA ∈ reach A (Node sym [])) as HreachA.
  { rewrite reach_Post. apply Post_nil. by exists trA. }
  assert (∀ s, s ∈ tmp ↔ s ∈ reach B (Node sym [])) as HreachB
    by (intros s; by rewrite reach_Post).
  unfold seed_leaf. destruct (negb acc && _) eqn:Hr.
  - left. eexists. split; [done|]. split; [done|].
    apply andb_true_iff in Hr as [Hna Hfin]. apply bool_decide_eq_true in Hfin.
    exists (Node sym []). split.
    + apply accepts_true. by exists (state trA).
    + apply not_true_is_false. intros (q & Hq & Hqf)%accepts_true.
      apply negb_true_iff in Hna. apply HreachB in Hq.
      assert (acc = true) by (apply Hacc; eauto). congruence.
  - right.
    assert (good (state trA) tmp) as Hgood.
    { split; [by exists (Node sym [])|]. split; [done|]. split; [by exists trA|].
      intros Hfin. apply Hacc. rewrite (bool_decide_eq_true_2 _ Hfin), andb_true_r in Hr.
      by apply negb_false_iff in Hr. }
    pose proof (good_lt _ _ Hgood) as Hp.
    rewrite id_rows_length, require_lt by done. cbn [rbind].
    rewrite rows_lookup by done. cbn [rbind].
    destruct (checkIntersection [state trA] tmp) eqn:Hci.
    { exfalso. apply checkIntersection_sound in Hci as (x & Hx & Hxt).
      apply list_elem_of_singleton in Hx as ->. apply Htmp, Post_nil in Hxt as (trB & ? & _ & _ & ?).
      by eapply good_not_bigger. }
    destruct (add_processed_spec st [] _ _ HP Hgood) as (st' & -> & HP' & Hg & Hc).
    exists st'. split; [done|]. split; [done|]. split; [done|].
    eapply covered_subseteq; [done|]. intros s. apply Htmp.
Qed.

Lemma seed_symbol_spec sym st :
  (sym < symbols)%nat → Pre st [] →
  (∃ v, seed_symbol addr_lt (leaves A symbols) (finalStates A) (leaves B symbols)
          (finalStates B) rows rows st sym = Ok (Return v) ∧ justified v)
  ∨ (∃ st', seed_symbol addr_lt (leaves A symbols) (finalStates A) (leaves B symbols)
          (finalStates B) rows rows st sym = Ok (Next st')
        ∧ Pre st' [] ∧ grows (processed st) (processed st')
        ∧ ∀ trA, trA ∈ transitions A → symbol trA = sym → children trA = [] →
            covered (processed st') (state trA) (Post B sym [])).
Proof.
  intros Hsym HP. unfold seed_symbol.
  destruct (leaves_lookup B sym Hsym) as (bts & -> & Hbts).
  destruct (leaves_lookup A sym Hsym) as (sts & -> & Hsts). cbn [of_option rbind].
  rewrite rfold_leaf_post by (intros tr Htr; by apply Hbts in Htr as (_ & _ & ?)).
  destruct (fold_post_id_spec (finalStates B) states (map state bts))
    as (post & acc & -> & Hpost & Hnd & Hacc).
  { apply Forall_forall. intros s (tr & -> & Htr)%elem_of_map.
    apply Hbts in Htr as (Htr & _). by destruct (HB tr Htr) as (_ & _ & ? & _). }
  cbn [rbind]. destruct (sorted_post post Hnd) as [Hsorted Htmp].
  assert (∀ s, s ∈ merge_sort le post ↔ s ∈ Post B sym []) as Htmp'.
  { intros s. rewrite Htmp, Hpost, elem_of_map, Post_nil. split.
    - intros (tr & -> & Htr). apply Hbts in Htr as (? & ? & ?). by exists tr.
    - intros (tr & ? & ? & ? & <-). exists tr. split; [done|]. by apply Hbts. }
  assert (acc = true ↔ ∃ s, s ∈ merge_sort le post ∧ s ∈ finalStates B) as Hacc'.
  { rewrite Hacc. split; intros (s & ? & ?); exists s; by rewrite ?Htmp in *. }
  destruct (ffold_spec (λ st, Pre st [])
              (λ st st', grows (processed st) (processed st'))
              (λ trA st', covered (processed st') (state trA) (Post B sym []))
              justified
              (λ a, grows_refl _) (λ a b c, grows_trans _ _ _)
              (λ x a a' H1 H2, covered_grows _ _ _ _ H1 H2)
              (seed_leaf addr_lt (finalStates A) rows rows (merge_sort le post) acc) sts)
    with (a := st) as [H|(st' & Hr & HP' & Hg & HD)]; [|done|by left|].
  - intros a trA HtrA Ha. apply Hsts in HtrA as (? & ? & ?).
    by apply seed_leaf_spec.
  - right. exists st'. split; [done|]. split; [done|]. split; [done|].
    intros trA ? ? ?. apply HD. by apply Hsts.
Qed.

(** *** One choice of macro-states for a transition *)

Lemma Forall2_map_r {X Y Z : Type} (P : X → Z → Prop) (f : Y → Z) l k :
  Forall2 P l (map f k) ↔ Forall2 (λ x y, P x (f y)) l k.
Proof.
  revert k. induction l as [|x l IH]; intros [|y k]; cbn [map];
    (split; inversion 1; subst; constructor; try done; by apply IH).
Qed.

Lemma choice_trees cs Qs :
  Forall2 good cs Qs →
  ∃ ts, Forall2 (λ c t, c ∈ reach A t) cs ts
      ∧ Forall2 (λ Q t, ∀ s, s ∈ Q ↔ s ∈ reach B t) Qs ts.
Proof.
  induction 1 as [|c Q cs Qs Hg _ (ts & H1 & H2)]; [by exists []|].
  destruct Hg as ((t & ? & ?) & _). exists (t :: ts). split; by constructor.
Qed.

Lemma choice_reach trA Qs ts :
  trA ∈ transitions A →
  Forall2 (λ c t, c ∈ reach A t) (children trA) ts →
  Forall2 (λ Q t, ∀ s, s ∈ Q ↔ s ∈ reach B t) Qs ts →
  state trA ∈ reach A (Node (symbol trA) ts)
  ∧ ∀ s, s ∈ Post B (symbol trA) Qs ↔ s ∈ reach B (Node (symbol trA) ts).
Proof.
  intros HtrA H1 H2. rewrite !reach_Post. split.
  - apply elem_of_Post. exists trA. repeat split; [done|]. by apply Forall2_map_r.
  - intros s. split; apply Post_mono.
    + apply Forall2_map_r. eapply Forall2_impl; [done|]. intros Q t H x. apply H.
    + apply Forall2_flip, Forall2_map_r. eapply Forall2_impl; [done|].
      intros Q t H x. apply H.
Qed.

Lemma reach_nil a t : (∀ s, s ∉ reach a t) → reach a t = [].
Proof. destruct (reach a t) as [|x l]; [done|]. intros H. destruct (H x). constructor. Qed.

Lemma accepts_plug_empty a c t : reach a t = [] → accepts a (plug c t) = false.
Proof.
  intros Ht. unfold accepts. destruct c as [|f before c after].
  - cbn [plug]. by rewrite Ht.
  - by rewrite reach_plug_empty.
Qed.

Lemma choice_step_spec trA temporary choice :
  trA ∈ transitions A → children trA ≠ [] →
  Forall2 good (children trA) choice →
  temporary_good A B (state trA) temporary →
  (∃ v, choice_step (finalStates A) bigger_index (finalStates B) rows rows
          (symbol trA) trA temporary choice = Ok (Return v) ∧ justified v)
  ∨ (∃ temporary',
        choice_step (finalStates A) bigger_index (finalStates B) rows rows
          (symbol trA) trA temporary choice = Ok (Next temporary')
        ∧ temporary_good A B (state trA) temporary'
        ∧ grows temporary temporary'
        ∧ covered temporary' (state trA) (Post B (symbol trA) choice)).
Proof.
  intros HtrA Hne Hch Htemp.
  destruct (choice_trees _ _ Hch) as (ts & Hts1 & Hts2).
  destruct (choice_reach trA choice ts HtrA Hts1 Hts2) as [HreachA HreachB].
  set (t := Node (symbol trA) ts) in *.
  unfold choice_step, post_of.
  destruct (fold_post_id_spec (finalStates B) states
              (map state (big_set bigger_index (symbol trA) choice)))
    as (post & acc & -> & Hpost & Hnd & Hacc).
  { apply Forall_forall. intros s Hs.
    apply big_set_Post in Hs; [|done..|by apply Forall2_length in Hch].
    apply elem_of_Post in Hs as (tr & Htr & _ & <- & _).
    by destruct (HB tr Htr) as (_ & _ & ? & _). }
  cbn [rbind].
  assert (∀ s, s ∈ post ↔ s ∈ reach B t) as Hpost'.
  { intros s. rewrite Hpost, <- HreachB.
    apply big_set_Post; [done..|by apply Forall2_length in Hch]. }
  destruct (bool_decide (post = []) || _) eqn:Hr.
  - left. eexists. split; [done|]. split; [done|].
    apply orb_true_iff in Hr as [Hr|Hr].
    + apply bool_decide_eq_true in Hr. subst post.
      destruct (Htrim trA HtrA) as [c Hc]. exists (plug c t). split; [by apply Hc|].
      apply accepts_plug_empty, reach_nil. intros s Hs. apply Hpost' in Hs.
      by apply elem_of_nil in Hs.
    + apply andb_true_iff in Hr as [Hna Hfin]. apply bool_decide_eq_true in Hfin.
      exists t. split; [apply accepts_true; by exists (state trA)|].
      apply not_true_is_false. intros (q & Hq & Hqf)%accepts_true.
      apply negb_true_iff in Hna. apply Hpost' in Hq.
      assert (acc = true) by (apply Hacc; eauto). congruence.
  - right. apply orb_false_iff in Hr as [Hne' Hr]. apply bool_decide_eq_false in Hne'.
    destruct (sorted_post post Hnd) as [Hsorted Htmp].
    set (tmp := merge_sort le post) in *.
    assert (good (state trA) tmp) as Hgood.
    { split; [exists t; split; [done|]; intros s; by rewrite Htmp|].
      split; [done|]. split; [by exists trA|].
      intros Hfin. rewrite (bool_decide_eq_true_2 _ Hfin), andb_true_r in Hr.
      apply negb_false_iff, Hacc in Hr as (s & ? & ?). exists s. by rewrite Htmp. }
    assert (tmp ⊆ Post B (symbol trA) choice) as Hsub.
    { intros s. rewrite Htmp, Hpost', HreachB. done. }
    pose proof (good_lt _ _ Hgood) as Hp.
    rewrite id_rows_length, require_lt by done. cbn [rbind].
    rewrite rows_lookup by done. cbn [rbind].
    destruct (checkIntersection [state trA] tmp) eqn:Hci.
    { exfalso. apply checkIntersection_sound in Hci as (x & Hx & Hxt).
      apply list_elem_of_singleton in Hx as ->.
      apply Hsub, elem_of_Post in Hxt as (trB & ? & _ & ? & _).
      by eapply good_not_bigger. }
    destruct (contains2 temporary [state trA] tmp (lte rows)) eqn:Hc.
    + exists temporary. split; [done|]. split; [done|]. split; [apply grows_refl|].
      apply contains2_true in Hc as (k & Q' & Hk & HQ' & Hl).
      apply list_elem_of_singleton in Hk as ->. exists Q'. split; [done|].
      etrans; [by eapply lte_id_sound|done].
    + destruct (refine2_idle temporary [state trA] tmp (gte rows)) as (ac' & Hrf & Hac').
      { intros k Q' Hk HQ'. apply list_elem_of_singleton in Hk as ->.
        unfold gte. destruct (lte rows Q' tmp) eqn:E; [|done].
        rewrite <- Hc. symmetry. apply contains2_true. exists (state trA), Q'.
        split; [by apply list_elem_of_singleton|done]. }
      rewrite Hrf. cbn [fst]. eexists. split; [done|]. split; [|split].
      * intros p' Q' H. apply elem_of_stored_insert2 in H as [H|[-> ->]]; [|done].
        rewrite Hac' in H. by apply Htemp.
      * intros p' Q' H. apply elem_of_stored_insert2. rewrite Hac'. by left.
      * exists tmp. split; [|done]. apply elem_of_stored_insert2. by right.
Qed.

(** *** Promotion of [temporary], and one transition *)

Lemma elem_of_flatten (m : gmap nat (list (list nat))) p Q :
  (p, Q) ∈ (map_to_list m ≫= λ '(p, biggers), pair p <$> biggers) ↔ Q ∈ stored m p.
Proof.
  rewrite list_elem_of_bind. unfold stored. split.
  - intros ([p' Qs] & H1 & H2). apply list_elem_of_fmap in H1 as (Q' & [= -> ->] & HQ').
    apply elem_of_map_to_list in H2. by rewrite H2.
  - destruct (m !! p) as [Qs|] eqn:E; cbn; [|by intros ?%elem_of_nil].
    intros HQ. exists (p, Qs). split; [|by apply elem_of_map_to_list].
    apply list_elem_of_fmap. by exists Q.
Qed.

Lemma promote_spec st popped p temporary :
  Pre st popped → temporary_good A B p temporary →
  ∃ st', promote addr_lt rows rows st temporary = Ok st'
    ∧ Pre st' popped ∧ grows (processed st) (processed st')
    ∧ ∀ Q, Q ∈ stored temporary p → covered (processed st') p Q.
Proof.
  intros HP Htemp. unfold promote.
  match goal with |- ∃ st', rfold ?f st ?l = Ok st' ∧ _ =>
    destruct (rfold_spec (λ st, Pre st popped)
                (λ st st', grows (processed st) (processed st'))
                (λ (x : nat * list nat) st, covered (processed st) x.1 x.2)
                (λ a, grows_refl _) (λ a b c, grows_trans _ _ _)
                (λ x a a', covered_grows _ _ x.1 x.2) f l) with (a := st)
      as (st' & Hr & HP' & Hg & HD)
  end.
  - intros a [p' Q'] Hx Ha. apply elem_of_flatten in Hx.
    destruct (Htemp p' Q' Hx) as [-> Hgood]. pose proof (good_lt _ _ Hgood).
    rewrite id_rows_length, require_lt by done. cbn [rbind].
    rewrite rows_lookup by done. cbn [rbind]. by apply add_processed_spec.
  - done.
  - exists st'. split; [done|]. split; [done|]. split; [done|].
    intros Q HQ. apply (HD (p, Q)). by apply elem_of_flatten.
Qed.

Lemma elem_of_product {X : Type} (ls : list (list X)) :
  ∀ c, c ∈ product ls ↔ Forall2 (λ x l, x ∈ l) c ls.
Proof.
  induction ls as [|l ls IH]; intros c; cbn [product].
  - rewrite list_elem_of_singleton. split; [by intros ->|by inversion 1].
  - rewrite list_elem_of_bind. split.
    + intros (r & Hc & Hr). apply list_elem_of_bind in Hc as (x & Hc & Hx).
      apply list_elem_of_singleton in Hc as ->. constructor; [done|by apply IH].
    + inversion 1 as [|x ? r ? Hx Hr]; subst. exists r. split; [|by apply IH].
      apply list_elem_of_bind. exists x. split; [by apply list_elem_of_singleton|done].
Qed.

Lemma mapM_None_inv {X Y : Type} (f : X → option Y) (l : list X) :
  mapM f l = None → ∃ x, x ∈ l ∧ f x = None.
Proof.
  induction l as [|a l IH]; cbn; [done|].
  destruct (f a) eqn:E; cbn; [|intros _; exists a; split; [constructor|done]].
  destruct (mapM f l) eqn:E2; cbn; [done|]. intros _.
  destruct IH as (x & ? & ?); [done|]. exists x. split; [by constructor|done].
Qed.

(** The choices [ChoiceVector] walks through: the fixed macro-state at the
    slot of the popped state, a stored macro-state of the child elsewhere. *)
Lemma build_Some (ac : gmap nat (list (list nat))) Q cs j lists :
  build ac Q cs j = Some lists →
  ∀ choice, choice ∈ product lists ↔
    length choice = length cs
    ∧ ∀ i c Q', cs !! i = Some c → choice !! i = Some Q' →
        if (i =? j)%nat then Q' = Q else Q' ∈ stored ac c.
Proof.
  intros Hb choice. unfold build in Hb. apply mapM_Some in Hb.
  apply Forall2_same_length_lookup in Hb as [Hlen Hb]. rewrite length_imap in Hlen.
  rewrite elem_of_product, Forall2_same_length_lookup. split.
  - intros [Hl H]. split; [lia|]. intros i c Q' Hc HQ'.
    destruct (lookup_lt_is_Some_2 lists i) as [l Hl'].
    { rewrite <- Hlen. by eapply lookup_lt_Some. }
    specialize (Hb i (i, c) l). rewrite list_lookup_imap, Hc in Hb.
    specialize (Hb eq_refl Hl'). cbn in Hb. specialize (H i Q' l HQ' Hl').
    destruct (i =? j)%nat.
    + injection Hb as <-. by apply list_elem_of_singleton in H.
    + unfold lookup2 in Hb. destruct (stored ac c) eqn:E; [done|]. by injection Hb as <-.
  - intros [Hl H]. split; [lia|]. intros i Q' l HQ' Hl'.
    destruct (lookup_lt_is_Some_2 cs i) as [c Hc].
    { rewrite <- Hl. by eapply lookup_lt_Some. }
    specialize (Hb i (i, c) l). rewrite list_lookup_imap, Hc in Hb.
    specialize (Hb eq_refl Hl'). cbn in Hb. specialize (H i c Q' Hc HQ').
    destruct (i =? j)%nat.
    + injection Hb as <-. by apply list_elem_of_singleton.
    + unfold lookup2 in Hb. destruct (stored ac c) eqn:E; [done|]. by injection Hb as <-.
Qed.

Lemma build_None (ac : gmap nat (list (list nat))) Q cs j :
  build ac Q cs j = None → ∃ i c, cs !! i = Some c ∧ stored ac c = [].
Proof.
  intros Hb. apply mapM_None_inv in Hb as ([i c] & Hin & Hn).
  apply elem_of_lookup_imap in Hin as (i' & c' & [= -> ->] & Hc).
  exists i', c'. split; [done|]. destruct (i' =? j)%nat; [done|].
  unfold lookup2 in Hn. by destruct (stored ac c').
Qed.

Lemma temporary_good_empty p : temporary_good A B p ∅.
Proof.
  intros p' Q' H. unfold stored in H. rewrite lookup_empty in H.
  by apply elem_of_nil in H.
Qed.

Lemma process_transition_spec st popped q Q j trA :
  Pre st popped → (q, Q) ∈ popped →
  trA ∈ transitions A → children trA !! j = Some q →
  (∃ v, process_transition addr_lt (finalStates A) bigger_index (finalStates B) rows rows
          (symbol trA) j Q st trA = Ok (Return v) ∧ justified v)
  ∨ (∃ st', process_transition addr_lt (finalStates A) bigger_index (finalStates B)
              rows rows (symbol trA) j Q st trA = Ok (Next st')
        ∧ Pre st' popped ∧ grows (processed st) (processed st')
        ∧ closed_at B popped Q trA j (processed st')).
Proof.
  intros HP Hq HtrA Hj. unfold process_transition.
  rewrite require_lt by (by eapply lookup_lt_Some). cbn [rbind].
  assert (children trA ≠ []) as Hne by (intros E; by rewrite E in Hj).
  destruct (build (processed st) Q (children trA) j) as [lists|] eqn:Hb.
  - pose proof (build_Some _ _ _ _ _ Hb) as Hprod.
    match goal with |- context [ffold ?f ?e ?l] =>
      destruct (ffold_spec (S := Antichain2C BiggerType)
                 (temporary_good A B (state trA)) grows
                 (λ choice temp, covered temp (state trA) (Post B (symbol trA) choice))
                 justified grows_refl grows_trans
                 (λ x a a', covered_grows a a' _ _) f l) with (a := e)
        as [(v & Hr & Hv)|(temp & Hr & Htemp & _ & HD)]
    end.
    + intros temp choice Hc Htemp. apply choice_step_spec; [done..| |done].
      apply Hprod in Hc as [Hlen Hc]. apply Forall2_same_length_lookup. split; [done|].
      intros i c Q' Hci HQ'. specialize (Hc i c Q' Hci HQ').
      destruct (Nat.eqb_spec i j) as [->|Hne'].
      * subst Q'. assert (c = q) as -> by congruence.
        apply (pre_good _ _ _ _ HP). by apply (pre_popped _ _ _ _ HP).
      * by apply (pre_good _ _ _ _ HP).
    + apply temporary_good_empty.
    + left. rewrite Hr. cbn [rbind]. by exists v.
    + rewrite Hr. cbn [rbind]. right.
      destruct (promote_spec st popped _ temp HP Htemp) as (st' & -> & HP' & Hg & Hcov).
      exists st'. split; [done|]. split; [done|]. split; [done|].
      intros Qs Hch HQ. eapply covered_trans; [apply (HD Qs)|done].
      apply Hprod. split; [symmetry; by eapply Forall2_length|].
      intros i c Q' Hci HQ'. destruct (Nat.eqb_spec i j) as [->|Hne'].
      * congruence.
      * pose proof (Forall2_lookup_lr _ _ _ _ _ _ Hch Hci HQ') as Hin.
        by apply (pre_popped _ _ _ _ HP) in Hin as [Hin _].
  - right. exists st. split; [done|]. split; [done|]. split; [apply grows_refl|].
    intros Qs Hch HQ. exfalso. apply build_None in Hb as (i & c & Hc & He).
    destruct (Forall2_lookup_l _ _ _ i c Hch Hc) as (Q' & _ & Hin).
    apply (pre_popped _ _ _ _ HP) in Hin as [Hin _]. rewrite He in Hin.
    by apply elem_of_nil in Hin.
Qed.

(** *** One popped pair *)

Lemma closed_at_grows popped Q tr j ac ac' :
  closed_at B popped Q tr j ac → grows ac ac' → closed_at B popped Q tr j ac'.
Proof. intros H Hg Qs H1 H2. eapply covered_grows; [by apply H|done]. Qed.

Lemma smaller_index_lookup q :
  (q < states)%nat →
  smaller_index !! q
  = Some ((λ sym, (λ slot, with_child A sym slot q) <$> seq 0 slots) <$> seq 0 symbols).
Proof. intros Hq. unfold child_index. by rewrite list_lookup_fmap, lookup_seq_lt. Qed.

Lemma process_slot_spec st popped q Q sym j :
  Pre st popped → (q, Q) ∈ popped →
  (∃ v, ffold (process_transition addr_lt (finalStates A) bigger_index (finalStates B)
                 rows rows sym j Q) st (with_child A sym j q) = Ok (Return v)
        ∧ justified v)
  ∨ (∃ st', ffold (process_transition addr_lt (finalStates A) bigger_index (finalStates B)
                     rows rows sym j Q) st (with_child A sym j q) = Ok (Next st')
        ∧ Pre st' popped ∧ grows (processed st) (processed st')
        ∧ ∀ tr, tr ∈ with_child A sym j q → closed_at B popped Q tr j (processed st')).
Proof.
  intros HP Hq.
  apply (ffold_spec (λ st, Pre st popped) (λ st st', grows (processed st) (processed st'))
           (λ tr st', closed_at B popped Q tr j (processed st')) justified
           (λ a, grows_refl _) (λ a b c, grows_trans _ _ _)
           (λ x a a' HD HR, closed_at_grows _ _ _ _ _ _ HD HR)); [|done].
  intros a tr Htr Ha. apply elem_of_with_child in Htr as (Htr & <- & Hc).
  by apply (process_transition_spec a popped q).
Qed.

Lemma process_symbol_spec st popped q Q sym :
  Pre st popped → (q, Q) ∈ popped →
  (∃ v, ffold (λ st '(j, smallerTransitions),
                 ffold (process_transition addr_lt (finalStates A) bigger_index
                          (finalStates B) rows rows sym j Q) st smallerTransitions)
          st (imap pair ((λ slot, with_child A sym slot q) <$> seq 0 slots))
        = Ok (Return v) ∧ justified v)
  ∨ (∃ st', ffold (λ st '(j, smallerTransitions),
                     ffold (process_transition addr_lt (finalStates A) bigger_index
                              (finalStates B) rows rows sym j Q) st smallerTransitions)
              st (imap pair ((λ slot, with_child A sym slot q) <$> seq 0 slots))
            = Ok (Next st')
        ∧ Pre st' popped ∧ grows (processed st) (processed st')
        ∧ ∀ j tr, (j < slots)%nat → tr ∈ with_child A sym j q →
            closed_at B popped Q tr j (processed st')).
Proof.
  intros HP Hq.
  match goal with |- (∃ v, ffold ?f ?s0 ?l = _ ∧ _) ∨ _ =>
    destruct (ffold_spec (λ st, Pre st popped)
                (λ st st', grows (processed st) (processed st'))
                (λ (x : nat * list Transition) st',
                   ∀ tr, tr ∈ x.2 → closed_at B popped Q tr x.1 (processed st'))
                justified
                (λ a, grows_refl _) (λ a b c, grows_trans _ _ _)
                (λ x a a' HD HR tr Htr, closed_at_grows _ _ _ _ _ _ (HD tr Htr) HR)
                f l) with (a := s0)
      as [(v & Hr & Hv)|(st' & Hr & HP' & Hg & HD)]
  end.
  - intros a [j trs] Hx Ha. apply elem_of_lookup_imap in Hx as (j' & y & [= -> ->] & Hy).
    rewrite list_lookup_fmap in Hy.
    destruct (decide (j' < slots)%nat); [|by rewrite lookup_seq_ge in Hy by lia].
    rewrite lookup_seq_lt in Hy by done. cbn in Hy. injection Hy as <-.
    by apply process_slot_spec.
  - done.
  - left. by exists v.
  - right. exists st'. split; [done|]. split; [done|]. split; [done|].
    intros j tr Hj Htr. apply (HD (j, with_child A sym j q)); [|done].
    apply elem_of_lookup_imap. exists j, (with_child A sym j q). split; [done|].
    by rewrite list_lookup_fmap, lookup_seq_lt.
Qed.

(** Everything done for a popped pair [(q, Q)]: a justified refutation, or
    every transition with [q] among its children is covered for the choices
    that take [Q] at the slot of [q]. *)
Lemma process_pair_spec st popped q Q :
  Pre st popped → (q, Q) ∈ popped →
  (∃ v, process_pair addr_lt smaller_index (finalStates A) bigger_index (finalStates B)
          rows rows q Q st = Ok (Return v) ∧ justified v)
  ∨ (∃ st', process_pair addr_lt smaller_index (finalStates A) bigger_index (finalStates B)
              rows rows q Q st = Ok (Next st')
        ∧ Pre st' popped ∧ grows (processed st) (processed st')
        ∧ ∀ tr j, tr ∈ transitions A → children tr !! j = Some q →
            closed_at B popped Q tr j (processed st')).
Proof.
  intros HP Hq.
  assert (q < states)%nat as Hlt.
  { destruct (pre_popped _ _ _ _ HP q Q Hq) as [Hs _].
    eapply good_lt, (pre_good _ _ _ _ HP), Hs. }
  unfold process_pair. rewrite id_rows_length, require_lt by done. cbn [rbind].
  rewrite smaller_index_lookup by done. cbn [of_option rbind].
  match goal with |- (∃ v, ffold ?f ?s0 ?l = _ ∧ _) ∨ _ =>
    destruct (ffold_spec (λ st, Pre st popped)
                (λ st st', grows (processed st) (processed st'))
                (λ (x : nat * list (list Transition)) st',
                   ∀ j tr, (j < slots)%nat → tr ∈ with_child A x.1 j q →
                     closed_at B popped Q tr j (processed st'))
                justified
                (λ a, grows_refl _) (λ a b c, grows_trans _ _ _)
                (λ x a a' HD HR j tr Hj Htr,
                   closed_at_grows _ _ _ _ _ _ (HD j tr Hj Htr) HR)
                f l) with (a := s0)
      as [(v & Hr & Hv)|(st' & Hr & HP' & Hg & HD)]
  end.
  - intros a [sym slotsL] Hx Ha.
    apply elem_of_lookup_imap in Hx as (sym' & y & [= -> ->] & Hy).
    rewrite list_lookup_fmap in Hy.
    destruct (decide (sym' < symbols)%nat); [|by rewrite lookup_seq_ge in Hy by lia].
    rewrite lookup_seq_lt in Hy by done. cbn in Hy. injection Hy as <-.
    by apply process_symbol_spec.
  - done.
  - left. by exists v.
  - right. exists st'. split; [done|]. split; [done|]. split; [done|].
    intros tr j Htr Hc. destruct (HA tr Htr) as (Hsym & Hsl & _ & _).
    assert (j < slots)%nat as Hj by (apply lookup_lt_Some in Hc; lia).
    apply (HD (symbol tr, (λ slot, with_child A (symbol tr) slot q) <$> seq 0 slots));
      [|done|by apply elem_of_with_child].
    apply elem_of_lookup_imap. eexists (symbol tr), _. split; [done|].
    by rewrite list_lookup_fmap, lookup_seq_lt.
Qed.

(** *** The pairs the loop can pop are finitely many *)

Lemma sorted_in_powerlist n : ∀ k Q,
  StronglySorted lt Q → Forall (λ x, (k ≤ x < k + n)%nat) Q → Q ∈ powerlist (seq k n).
Proof.
  induction n as [|n IH]; intros k Q Hs HF; cbn [seq powerlist].
  - destruct Q as [|x Q]; [constructor|]. inversion HF; lia.
  - apply elem_of_app. destruct Q as [|x Q].
    + left. apply IH; constructor.
    + inversion Hs as [|? ? Hs' Hx]; subst. inversion HF as [|? ? Hx' HF']; subst.
      rewrite Forall_forall in Hx, HF'.
      destruct (decide (x = k)) as [->|Hne].
      * right. apply elem_of_map. exists Q. split; [done|]. apply IH; [done|].
        apply Forall_forall. intros y Hy. specialize (Hx y Hy). specialize (HF' y Hy). lia.
      * left. apply IH; [done|]. constructor; [lia|].
        apply Forall_forall. intros y Hy. specialize (Hx y Hy). specialize (HF' y Hy). lia.
Qed.

Lemma elem_of_universe n p Q :
  (p, Q) ∈ universe n ↔ (p < n)%nat ∧ Q ∈ powerlist (seq 0 n).
Proof.
  unfold universe. rewrite list_elem_of_bind. split.
  - intros (p' & H & Hp'). apply list_elem_of_bind in H as (Q' & H & HQ').
    apply list_elem_of_singleton in H as [= -> ->]. apply elem_of_seq in Hp'.
    split; [lia|done].
  - intros [Hp HQ]. exists p. split; [|apply elem_of_seq; lia].
    apply list_elem_of_bind. exists Q. split; [by apply list_elem_of_singleton|done].
Qed.

Lemma good_universe p Q : good p Q → (p, Q) ∈ universe states.
Proof.
  intros Hg. apply elem_of_universe. split; [by eapply good_lt|].
  destruct Hg as ((t & _ & Ht) & Hs & _). apply sorted_in_powerlist; [done|].
  apply Forall_forall. intros s Hs'. apply Ht in Hs'. destruct t as [f kids].
  rewrite reach_Post in Hs'. apply elem_of_Post in Hs' as (tr & Htr & _ & <- & _).
  destruct (HB tr Htr) as (_ & _ & ? & _). lia.
Qed.

Lemma popped_bound st popped q Q rest :
  Pre st popped → next st = (q, Q) :: rest →
  (length popped < length (universe states))%nat.
Proof.
  intros HP Hnext.
  assert (NoDup ((q, Q) :: popped)) as Hnd.
  { constructor; [|by apply (pre_nodup _ _ _ _ HP)]. intros Hin.
    destruct (pre_popped _ _ _ _ HP q Q Hin) as [_ Hn]. apply Hn. rewrite Hnext. constructor. }
  assert (length ((q, Q) :: popped) ≤ length (universe states))%nat as Hle.
  { apply submseteq_length, NoDup_submseteq; [done|]. intros [p' Q'] Hin.
    apply good_universe, (pre_good _ _ _ _ HP).
    apply elem_of_cons in Hin as [[= -> ->]|Hin].
    - apply (pre_next _ _ _ _ HP). rewrite Hnext. constructor.
    - by apply (pre_popped _ _ _ _ HP). }
  cbn [length] in Hle. lia.
Qed.

Lemma pop_Pre st popped q Q rest :
  Pre st popped → next st = (q, Q) :: rest →
  Pre (MkState (processed st) rest) ((q, Q) :: popped).
Proof.
  intros HP Hnext. pose proof (pre_next_nodup _ _ _ _ HP) as Hnd.
  rewrite Hnext in Hnd. apply NoDup_cons in Hnd as [Hq Hnd].
  constructor; cbn [processed next].
  - apply (pre_good _ _ _ _ HP).
  - intros p' Q' H. apply (pre_next _ _ _ _ HP). rewrite Hnext. by constructor.
  - done.
  - intros p' Q' H. apply elem_of_cons in H as [[= -> ->]|H].
    + split; [|done]. apply (pre_next _ _ _ _ HP). rewrite Hnext. constructor.
    + destruct (pre_popped _ _ _ _ HP p' Q' H) as [H1 H2]. split; [done|].
      intros Hin. apply H2. rewrite Hnext. by constructor.
  - constructor; [|by apply (pre_nodup _ _ _ _ HP)]. intros Hin.
    destruct (pre_popped _ _ _ _ HP q Q Hin) as [_ Hn]. apply Hn. rewrite Hnext. constructor.
  - intros p' Q' H. destruct (pre_split _ _ _ _ HP p' Q' H) as [H1|H1].
    + left. by constructor.
    + rewrite Hnext in H1. apply elem_of_cons in H1 as [[= -> ->]|H1];
        [left; constructor|by right].
Qed.

Lemma chosen_cons q Q popped cs Qs :
  chosen ((q, Q) :: popped) cs Qs →
  chosen popped cs Qs ∨ ∃ j, cs !! j = Some q ∧ Qs !! j = Some Q.
Proof.
  unfold chosen. induction 1 as [|c Q' cs Qs Hc _ IH]; [left; constructor|].
  apply elem_of_cons in Hc as [[= -> ->]|Hc]; [right; by exists 0%nat|].
  destruct IH as [IH|(j & ? & ?)]; [left; by constructor|right; by exists (S j)].
Qed.

(** *** The main loop *)

(** With fuel for the pairs not popped yet, the loop ends: in a justified
    refutation, or with nothing pending and the invariant in place. *)
Lemma main_loop_spec k : ∀ st popped,
  Inv A B st popped → (length (universe states) - length popped ≤ k)%nat →
  ∃ v, main_loop addr_lt smaller_index (finalStates A) bigger_index (finalStates B)
         rows rows k st = Ok v
     ∧ (justified v
        ∨ (v.1 = true ∧ ∃ st' popped', Inv A B st' popped' ∧ next st' = [])).
Proof.
  induction k as [|k IH]; intros st popped (HP & Hleaves & Hclosed) Hk; cbn [main_loop];
    destruct (next st) as [|[q Q] rest] eqn:Hnext.
  - eexists. split; [done|]. right. split; [done|]. by exists st, popped.
  - pose proof (popped_bound _ _ _ _ _ HP Hnext). lia.
  - eexists. split; [done|]. right. split; [done|]. by exists st, popped.
  - pose proof (pop_Pre _ _ _ _ _ HP Hnext) as HP0.
    destruct (process_pair_spec _ _ q Q HP0) as [(v & -> & Hv)|(st' & -> & HP' & Hg & Hc)];
      [constructor| |]; cbn [rbind].
    + exists v. split; [done|]. by left.
    + cbn [processed] in Hg. apply (IH st' ((q, Q) :: popped)).
      * split; [done|]. split.
        -- intros tr Htr Hch. eapply covered_grows; [by apply Hleaves|done].
        -- intros tr Qs Htr Hne Hch.
           destruct (chosen_cons _ _ _ _ _ Hch) as [Hch'|(j & Hj & HQj)].
           ++ eapply covered_grows; [by apply Hclosed|done].
           ++ by apply (Hc tr j).
      * pose proof (popped_bound _ _ _ _ _ HP Hnext). cbn [length]. lia.
Qed.

(** When nothing is pending, the stored pairs cover every run of the smaller
    automaton: below the states the bigger automaton reaches on the tree there
    is a stored macro-state. *)
Lemma cover st popped :
  Inv A B st popped → next st = [] →
  ∀ t p, p ∈ reach A t → covered (processed st) p (reach B t).
Proof.
  intros (HP & Hleaves & Hclosed) Hnext.
  assert (∀ cs kids,
            Forall (λ t, ∀ p, p ∈ reach A t → covered (processed st) p (reach B t)) kids →
            Forall2 (λ c t, c ∈ reach A t) cs kids →
            ∃ Qs, chosen popped cs Qs ∧ Forall2 (λ Q' t, Q' ⊆ reach B t) Qs kids) as Hpick.
  { intros cs kids HIH HF. induction HF as [|c t cs kids Hc HF IHF].
    - exists []. split; constructor.
    - inversion HIH as [|? ? Ht HIH']; subst. destruct (IHF HIH') as (Qs & ? & ?).
      destruct (Ht c Hc) as (Q' & HQ' & Hsub). exists (Q' :: Qs).
      split; constructor; try done.
      destruct (pre_split _ _ _ _ HP c Q' HQ') as [|Hin]; [done|].
      rewrite Hnext in Hin. by apply elem_of_nil in Hin. }
  induction t as [f kids IH] using tree_induction.
  intros p Hp. rewrite reach_Post in Hp.
  apply elem_of_Post in Hp as (tr & Htr & <- & <- & HF).
  rewrite reach_Post.
  apply (proj1 (Forall2_map_r (λ c r, c ∈ r) (reach A) (children tr) kids)) in HF.
  destruct (decide (children tr = [])) as [He|Hne].
  - rewrite He in HF. inversion HF; subst. cbn [map]. by apply Hleaves.
  - destruct (Hpick _ _ IH HF) as (Qs & Hch & Hsub).
    eapply covered_subseteq; [by apply Hclosed|]. apply Post_mono.
    by apply (proj2 (Forall2_map_r (λ Q Q', Q ⊆ Q') (reach B) Qs kids)).
Qed.

Lemma justified_decides v : justified v → (v.1 = true ↔ included A B).
Proof.
  intros [Hv (t & Ht1 & Ht2)]. split; [congruence|].
  intros Hincl. specialize (Hincl t Ht1). congruence.
Qed.

Lemma Pre_initial : Pre (MkState ∅ []) [].
Proof.
  assert (∀ p Q, Q ∉ stored (∅ : gmap nat (list (list nat))) p) as He.
  { intros p Q H. unfold stored in H. rewrite lookup_empty in H. by apply elem_of_nil in H. }
  constructor; cbn [processed next].
  - intros p Q H. by apply He in H.
  - intros p Q H. by apply elem_of_nil in H.
  - constructor.
  - intros p Q H. by apply elem_of_nil in H.
  - constructor.
  - intros p Q H. by apply He in H.
Qed.

Lemma length_leaves a : length (leaves a symbols) = symbols.
Proof. unfold leaves. by rewrite length_fmap, length_seq. Qed.

(** The upward check under the identity preorder ends, and its verdict is
    the language inclusion. *)
Lemma upward_correct :
  ∃ fuel v,
    InclUpward addr_lt A B rows rows symbols slots states fuel = Ok v
    ∧ (v.1 = true ↔ included A B).
Proof.
  exists (length (universe states)). unfold InclUpward, checkInternal.
  rewrite !length_leaves, Nat.ltb_irrefl.
  match goal with |- context [ffold ?f ?s0 ?l] =>
    destruct (ffold_spec (λ st, Pre st [])
                (λ st st', grows (processed st) (processed st'))
                (λ sym st', ∀ trA, trA ∈ transitions A → symbol trA = sym →
                   children trA = [] →
                   covered (processed st') (state trA) (Post B sym []))
                justified
                (λ a, grows_refl _) (λ a b c, grows_trans _ _ _)
                (λ x a a' HD HR trA H1 H2 H3, covered_grows _ _ _ _ (HD trA H1 H2 H3) HR)
                f l) with (a := s0)
      as [(v & Hr & Hv)|(st & Hr & HP & _ & HD)]
  end.
  - intros a sym Hsym Ha. apply elem_of_seq in Hsym. apply seed_symbol_spec; [lia|done].
  - apply Pre_initial.
  - rewrite Hr. cbn [rbind]. exists v. split; [done|]. by apply justified_decides.
  - rewrite Hr. cbn [rbind].
    destruct (main_loop_spec (length (universe states)) st [])
      as (v & -> & [Hv|(Hv & st' & popped' & HInv & Hnext)]).
    + split; [done|]. split.
      * intros tr Htr Hch. apply (HD (symbol tr)); [|done..].
        apply elem_of_seq. destruct (HA tr Htr). lia.
      * intros tr Qs Htr Hne Hch. exfalso. unfold chosen in Hch.
        destruct Hch as [|c Q' cs Qs' Hc _]; [done|]. by apply elem_of_nil in Hc.
    + cbn [length]. lia.
    + exists v. split; [done|]. by apply justified_decides.
    + exists v. split; [done|]. split; [intros _|done].
      intros t Ht. apply accepts_true in Ht as (p & Hp & Hfin).
      destruct (cover st' popped' HInv Hnext t p Hp) as (Q' & HQ' & Hsub).
      destruct HInv as (HP' & _).
      destruct (pre_good _ _ _ _ HP' p Q' HQ') as (_ & _ & _ & Hf).
      destruct (Hf Hfin) as (s & Hs & Hsf). apply accepts_true. exists s.
      split; [by apply Hsub|done].
Qed.

End Correct.

(** *** The check on concrete automata *)

Import Examples.

Lemma set_lt_total : total set_lt.
Proof.
  intros x. induction x as [|a x IH]; intros [|b y] Hne; cbn [set_lt].
  - done.
  - by left.
  - by right.
  - destruct (Nat.ltb_spec a b); [by left|].
    destruct (Nat.ltb_spec b a); [by right|].
    assert (a = b) as -> by lia. rewrite Nat.eqb_refl. cbn [orb andb].
    apply IH. congruence.
Qed.

Lemma loop_small_in_range : in_range loop_small 3 1 3.
Proof.
  intros tr Htr. apply list_elem_of_In in Htr. cbn in Htr.
  destruct Htr as [<-|[<-|[]]]; cbn; repeat split; try lia; repeat constructor.
Qed.

Lemma loop_big_in_range : in_range loop_big 3 1 3.
Proof.
  intros tr Htr. apply list_elem_of_In in Htr. cbn in Htr.
  destruct Htr as [<-|[<-|[<-|[]]]]; cbn; repeat split; try lia; repeat constructor.
Qed.

Lemma loop_same_rank : same_rank loop_small loop_big.
Proof.
  intros tr tr' H1 H2 Hs. apply list_elem_of_In in H1, H2. cbn in H1, H2.
  destruct H1 as [<-|[<-|[]]], H2 as [<-|[<-|[<-|[]]]]; cbn in Hs |- *; done.
Qed.

Lemma loop_disjoint_states : disjoint_states loop_small loop_big.
Proof.
  intros tr tr' H1 H2 Hs. apply list_elem_of_In in H1, H2. cbn in H1, H2.
  destruct H1 as [<-|[<-|[]]], H2 as [<-|[<-|[<-|[]]]]; cbn in Hs; done.
Qed.

Lemma loop_small_no_useless_states : no_useless_states loop_small.
Proof.
  intros tr Htr. exists Hole. intros t Ht. cbn [plug]. apply accepts_true.
  exists (state tr). split; [done|]. apply list_elem_of_In in Htr. cbn in Htr.
  destruct Htr as [<-|[<-|[]]]; cbn; set_solver.
Qed.

(** The verdict of the upward check under the identity preorder is not the
    inclusion when the smaller automaton has a useless state: the smaller
    automaton [a → 0], [s(0) → 1] without a final state has the empty
    language, which is included in every language, yet its useless state [1]
    has no counterpart in the bigger automaton [a → 2], the post is empty,
    and the check refutes. *)
Lemma upward_refutes_with_useless_state :
  ¬ upward_decides_inclusion set_lt useless_small useless_big 2 1 3.
Proof.
  intros (fuel & v & d & Hr & Hiff).
  assert (v = false) as ->.
  { destruct fuel as [|fuel]; vm_compute in Hr; [discriminate Hr|]. by injection Hr as <- _. }
  assert (false = true) as Hf; [|discriminate Hf].
  apply Hiff. intros t Ht. apply accepts_true in Ht as (q & _ & Hq).
  cbn in Hq. set_solver.
Qed.

Lemma zero_below_one_spec s t :
  zero_below_one s t = true ↔ s = t ∨ (s = 0%nat ∧ t = 1%nat).
Proof.
  unfold zero_below_one. rewrite orb_true_iff, andb_true_iff, !bool_decide_eq_true. tauto.
Qed.

(** [0 ≤ 1] is a preorder, and an upward simulation on both automata: the
    only transition with [0] as a child is [g(0) → 2], and [g(1) → 2]
    answers it. *)
Lemma zero_below_one_compatible : compatible zero_below_one sim_small sim_big.
Proof.
  split; [|split; [|split]].
  - intros s. apply zero_below_one_spec. by left.
  - intros s t u Hst%zero_below_one_spec Htu%zero_below_one_spec.
    apply zero_below_one_spec. lia.
  - split.
    + intros p q [->|[-> ->]]%zero_below_one_spec; [done|]. cbn. set_solver.
    + intros tr i p q Htr Hc [->|[-> ->]]%zero_below_one_spec.
      * exists tr. rewrite list_insert_id by done. repeat split; try done.
        apply zero_below_one_spec. by left.
      * apply list_elem_of_In in Htr. cbn in Htr.
        destruct Htr as [<-|[<-|[<-|[<-|[]]]]]; destruct i; try done.
        exists (MkTrans 2 [1%nat] 2). cbn.
        split; [set_solver|]. split; [done|]. split; [done|]. reflexivity.
  - split.
    + intros p q [->|[-> ->]]%zero_below_one_spec; [done|]. cbn. set_solver.
    + intros tr i p q Htr Hc [->|[-> ->]]%zero_below_one_spec.
      * exists tr. rewrite list_insert_id by done. repeat split; try done.
        apply zero_below_one_spec. by left.
      * apply list_elem_of_In in Htr. cbn in Htr.
        destruct Htr as [<-|[<-|[<-|[<-|[]]]]]; destruct i; done.
Qed.

Lemma sim_small_no_useless_states : no_useless_states sim_small.
Proof.
  intros tr Htr. apply list_elem_of_In in Htr. cbn in Htr.
  assert (∀ t p, p ∈ reach sim_small t → p = 0%nat ∨ p = 1%nat →
            accepts sim_small (Node 2 [t]) = true) as Hup.
  { intros t p Hp Hp01. apply accepts_true. exists 2%nat. split; [|set_solver].
    cbn [reach map]. apply list_elem_of_fmap.
    destruct Hp01 as [->| ->].
    - exists (MkTrans 2 [0%nat] 2). split; [done|]. apply list_elem_of_In, filter_In.
      split; [cbn; tauto|]. cbn. by rewrite !bool_decide_true.
    - exists (MkTrans 2 [1%nat] 2). split; [done|]. apply list_elem_of_In, filter_In.
      split; [cbn; tauto|]. cbn. by rewrite !bool_decide_true. }
  destruct Htr as [<-|[<-|[<-|[<-|[]]]]]; cbn [state leaf].
  - exists (Fill 2 [] Hole []). intros t Ht. cbn [plug app]. by apply (Hup t 0%nat); [|left].
  - exists (Fill 2 [] Hole []). intros t Ht. cbn [plug app]. by apply (Hup t 1%nat); [|right].
  - exists Hole. intros t Ht. cbn [plug]. apply accepts_true. exists 2%nat.
    split; [done|set_solver].
  - exists Hole. intros t Ht. cbn [plug]. apply accepts_true. exists 2%nat.
    split; [done|set_solver].
Qed.

(** The smaller automaton accepts [g(a)], the bigger one does not. *)
Lemma sim_not_included : ¬ included sim_small sim_big.
Proof.
  intros Hincl.
  assert (accepts sim_big (Node 2 [Node 0 []]) = true) as Hf;
    [|vm_compute in Hf; discriminate Hf].
  apply Hincl. vm_compute. reflexivity.
Qed.

(** Under [0 ≤ 1] the upward check answers that the inclusion holds, with
    whatever fuel it returns: the pair [(0, {3})] of the leaf [a], whose
    post under [g] is empty, is erased from [processed] and from [next]
    when the pair [(1, {3, 4})] of the leaf [b] is added, since [0] is in
    [inv[1]] and [{3}] is below [{3, 4}]. *)
Lemma upward_proves_under_preorder fuel v d :
  InclUpward set_lt sim_small sim_big (ind_rows zero_below_one 6)
    (inv_rows zero_below_one 6) 3 1 6 fuel = Ok (v, d) →
  v = true.
Proof.
  intros Hr.
  destruct fuel as [|[|[|fuel]]]; vm_compute in Hr; [discriminate Hr..| |];
    by injection Hr as <- _.
Qed.




End UpCorrect.

Module CounterFacts.
Import Counter.

Lemma allocate_other h a row :
  is_Some (h !! row) → row ∉ store_ a →
  ∀ newRow h1 a1, allocate h a = (newRow, h1, a1) →
    newRow ≠ row ∧ h1 !! row = h !! row.
Proof.
  intros Hin Hst newRow h1 a1. unfold allocate.
  destruct (store_ a) as [|x rest] eqn:E.
  - intros [= <- <- <-].
    assert (fresh (dom h) ≠ row) as Hne.
    { intros Heq. apply (is_fresh (dom h)). rewrite Heq. by apply elem_of_dom. }
    split; [done|]. by rewrite lookup_insert_ne.
  - intros [= <- <- <-]. split; [|done]. set_solver.
Qed.

Lemma observed_shared c2 h h' label row v v' :
  data_ c2 !! label = Some (Some row) →
  h !! row = Some v → h' !! row = Some v' → drop 1 v' = drop 1 v →
  observed c2 h' label = observed c2 h label.
Proof.
  intros Hd Hv Hv' Hdrop. unfold observed. rewrite Hd. simpl.
  rewrite Hv, Hv'. simpl. by rewrite Hdrop.
Qed.

(** C9: [decr] on a row whose reference count exceeds one changes, in the
    shared vector, the reference count only; the master field and the
    per-slot counts stay as they were, the caller no longer points to the
    shared row, and any counter that still points to it observes the same
    values as before. *)
Theorem decr_shared_row_frame (c : SharedCounter) (h : Heap) (a : VectorAllocator)
    (label state : nat) (row : Ptr) (v : list Z) (refCount master : Z) (i : nat) :
  data_ c !! label = Some (Some row) →
  h !! row = Some v →
  v !! 0%nat = Some refCount → v !! 1%nat = Some master →
  1 < refCount < 2 ^ 64 →
  row ∉ store_ a →
  slot c label state = Some i → (i < length v)%nat →
  (master = 1 → v !! i = Some 1) →
  ∃ r c' h' a',
    decr c h a label state = Some (r, c', h', a')
    ∧ h' !! row = Some (<[0%nat := refCount - 1]> v)
    ∧ data_ c' !! label ≠ Some (Some row)
    ∧ ∀ c2, data_ c2 !! label = Some (Some row) →
        observed c2 h' label = observed c2 h label.
Proof.
  intros Hd Hv H0 H1 Hrc Hst Hsl Hi Hx.
  assert (label < length (data_ c))%nat as Hlab by (by eapply lookup_lt_Some).
  assert (wrap64 (refCount - 1) = refCount - 1) as Hw
    by (unfold wrap64; apply Z.mod_small; lia).
  unfold decr. rewrite Hd. cbn [mbind option_bind]. rewrite Hv. cbn [mbind option_bind].
  rewrite Hsl. cbn [mbind option_bind]. rewrite bool_decide_eq_true_2 by done.
  cbn [assert mbind option_bind]. rewrite H0, H1. cbn [mbind option_bind].
  destruct (Z.eqb_spec master 1) as [->|Hm].
  - rewrite (Hx eq_refl). cbn [mbind option_bind Z.eqb Pos.eqb assert].
    destruct (Z.eqb_spec refCount 1) as [|_]; [lia|]. rewrite Hw.
    eexists _, _, _, _. split; [done|]. split; [by rewrite lookup_insert_eq|].
    split.
    + unfold set_data. cbn [data_]. by rewrite list_lookup_insert_eq.
    + intros c2 Hc2. eapply observed_shared; [done..| |].
      * by rewrite lookup_insert_eq.
      * apply drop_insert_lt; lia.
  - destruct (Z.ltb_spec 1 refCount) as [_|]; [|lia]. rewrite Hw.
    set (h0 := <[row := <[0%nat := refCount - 1]> v]> h).
    destruct (allocate h0 a) as [[newRow h1] a1] eqn:Ha.
    assert (is_Some (h0 !! row)) as Hs0 by (by unfold h0; rewrite lookup_insert_eq).
    destruct (allocate_other h0 a row Hs0 Hst _ _ _ Ha) as [Hne Hrow].
    unfold h0 in Hrow. rewrite lookup_insert_eq in Hrow.
    assert (2 ≤ length v)%nat as Hlen by (apply lookup_lt_Some in H1; lia).
    set (new2 := take 1 _ ++ drop 1 v).
    assert (length new2 = length v) as Hl2.
    { unfold new2. rewrite length_app, length_take, length_insert, length_drop.
      unfold resize. rewrite length_app, length_take, length_replicate. lia. }
    destruct (lookup_lt_is_Some_2 new2 1) as [m Hm1]; [lia|].
    rewrite Hm1. cbn [mbind option_bind].
    destruct (lookup_lt_is_Some_2 (<[1%nat := wrap64 (m - 1)]> new2) i) as [x Hxi];
      [rewrite length_insert; lia|].
    rewrite Hxi. cbn [mbind option_bind].
    eexists _, _, _, _. split; [done|].
    split; [by rewrite !lookup_insert_ne|].
    split.
    + unfold set_data. cbn [data_]. rewrite list_lookup_insert_eq by done. congruence.
    + intros c2 Hc2. eapply observed_shared; [done..| |].
      * by rewrite !lookup_insert_ne.
      * apply drop_insert_lt; lia.
Qed.

(** The shared row of the witness below is what the code builds: two
    [incr]s on a fresh counter, then [copyRow] into the counter of a split-off
    block. *)
Example shared_row_built :
  let fresh_counter := Cnt [0; 1] 2 [2] [None] in
  (incr fresh_counter ∅ (Alloc []) 0 0
     ≫= λ '(c1, h1, a1), incr c1 h1 a1 0 1
     ≫= λ '(c2, h2, a2), copyRow fresh_counter h2 0 c2)
  = Some (Cnt [0; 1] 2 [2] [Some 0%nat], {[0%nat := [2; 2; 1; 1]]}).
Proof. vm_compute. reflexivity. Qed.

Lemma decr_shared_row_frame_witness :
  ∃ r c' h' a',
    decr (Cnt [0; 1] 2 [2] [Some 0%nat]) {[0%nat := [2; 2; 1; 1]]} (Alloc []) 0 0
      = Some (r, c', h', a')
    ∧ h' !! 0%nat = Some (<[0%nat := 2 - 1]> [2; 2; 1; 1])
    ∧ data_ c' !! 0%nat ≠ Some (Some 0%nat)
    ∧ ∀ c2, data_ c2 !! 0%nat = Some (Some 0%nat) →
        observed c2 h' 0 = observed c2 {[0%nat := [2; 2; 1; 1]]} 0.
Proof.
  apply (decr_shared_row_frame (Cnt [0; 1] 2 [2] [Some 0%nat])
           {[0%nat := [2; 2; 1; 1]]} (Alloc []) 0 0 0%nat [2; 2; 1; 1] 2 2 2%nat).
  - reflexivity.
  - vm_compute; reflexivity.
  - reflexivity.
  - reflexivity.
  - lia.
  - apply not_elem_of_nil.
  - vm_compute; reflexivity.
  - simpl; lia.
  - intros H; discriminate H.
Defined.

End CounterFacts.

(** ** The simulation engine on an LTS without transitions *)

Module SimFacts.
Import Counter Up UpFacts Sim.
Local Open Scope nat_scope.

Lemma rfold_id {A B : Type} (f : A → B → result A) (l : list B) (a : A) :
  (∀ x, x ∈ l → f a x = Ok a) → rfold f a l = Ok a.
Proof.
  induction l as [|x l IH]; intros Hf; cbn [rfold]; [done|].
  rewrite Hf by constructor. cbn [rbind]. apply IH. intros y Hy. apply Hf. by constructor.
Qed.

Lemma rfold_keeps {A B : Type} (I : A → Prop) (f : A → B → result A) (l : list B) :
  (∀ a x, x ∈ l → I a → ∃ a', f a x = Ok a' ∧ I a') →
  ∀ a, I a → ∃ a', rfold f a l = Ok a' ∧ I a'.
Proof.
  induction l as [|x l IH]; intros Hf a Ha; cbn [rfold]; [by exists a|].
  destruct (Hf a x) as (a1 & -> & Ha1); [constructor|done|]. cbn [rbind].
  apply IH; [|done]. intros a2 y Hy. apply Hf. by constructor.
Qed.

Lemma ss_elements_empty : ss_elements ∅ = [].
Proof. unfold ss_elements. by rewrite dom_empty_L, elements_empty. Qed.

Lemma rel_get_set r i j b i' j' :
  rel_get (rel_set r i j b) i' j'
  = if decide (i' = i ∧ j' = j) then b else rel_get r i' j'.
Proof.
  unfold rel_get, rel_set. cbn [rel_data].
  destruct b; case_decide as H.
  - destruct H as [-> ->]. apply bool_decide_eq_true_2. set_solver.
  - apply bool_decide_ext. split; [|set_solver].
    intros [Hin|Hin]%elem_of_union; [|done].
    apply elem_of_singleton in Hin. injection Hin as -> ->. by destruct H.
  - destruct H as [-> ->]. apply bool_decide_eq_false_2. set_solver.
  - apply bool_decide_ext. split; [set_solver|].
    intros Hin. apply elem_of_difference. split; [done|].
    intros Heq%elem_of_singleton. injection Heq as -> ->. by destruct H.
Qed.

Lemma elem_of_classes (P : list (list nat)) (q : nat) :
  q ∈ concat P ↔ ∃ c, c ∈ P ∧ q ∈ c.
Proof.
  rewrite list_elem_of_In, in_concat. split; intros (c & H1 & H2); exists c;
    by rewrite ?list_elem_of_In in *.
Qed.

Lemma split_ring_spec q l :
  q ∈ l → ∃ before after, split_ring q l = Some (before, after) ∧ l = before ++ q :: after.
Proof.
  induction l as [|x l IH]; intros Hq; [by apply elem_of_nil in Hq|]. cbn [split_ring].
  case_decide as Hx.
  - subst. by exists [], l.
  - apply elem_of_cons in Hq as [->|Hq]; [done|].
    destruct (IH Hq) as (before & after & -> & ->). by exists (x :: before), after.
Qed.

Section NoTransitions.
Variable lts : ExplicitLTS.
Hypothesis Hnil : delta lts = [].

Lemma pre_nil a r : pre lts a r = [].
Proof. unfold pre. by rewrite Hnil. Qed.

Lemma post_nil a q : post lts a q = [].
Proof. unfold post. by rewrite Hnil. Qed.

Lemma bwLabels_nil r : bwLabels lts r = [].
Proof. unfold bwLabels. by rewrite Hnil. Qed.

Lemma bind_bwLabels l : l ≫= bwLabels lts = [].
Proof. induction l as [|x l IH]; [done|]. cbn. by rewrite bwLabels_nil, IH. Qed.

Lemma buildDelta_lookup a : a < labels lts → buildDelta lts !! a = Some ∅.
Proof.
  intros Ha. unfold buildDelta. rewrite list_lookup_fmap, lookup_seq_lt by done.
  cbn. by rewrite Hnil.
Qed.

(** *** The blocks of the initial partition *)

(** The state after the classes [done] (those after the first) have been
    made into blocks. *)
Record made (done : list (list nat)) (alg : OLRTAlgorithm) : Prop := Made {
  made_length : length (_partition alg) = S (length done);
  made_block : ∀ j b, _partition alg !! j = Some b →
    _index b = j ∧ _inset b = ∅ ∧ _tmp b = [] ∧ _states b ≠ [];
  made_first : ∃ b0, _partition alg !! 0 = Some b0 ∧ NoDup (_states b0)
    ∧ ∀ q, q ∈ _states b0 ↔ q < states lts ∧ q ∉ concat done;
  made_class : ∀ j c q, done !! j = Some c → q ∈ c → block_ alg !! q = Some (S j);
  made_rest : ∀ q, q < states lts → q ∉ concat done → block_ alg !! q = Some 0;
  made_queue : _queue alg = []
}.

Lemma move_loop h va i rm cn ins bs rel blk qu d1 k rg : ∀ todo S T,
  NoDup S → NoDup todo → (∀ q, q ∈ todo → q ∈ S ∧ blk !! q = Some 0) →
  ∃ S', rfold (makeBlock_move 0)
          (Alg h va (Block i S rm cn ins T :: bs) rel blk qu d1 k rg) todo
        = Ok (Alg h va (Block i S' rm cn ins (T ++ todo) :: bs) rel blk qu d1 k rg)
      ∧ NoDup S' ∧ ∀ q, q ∈ S' ↔ q ∈ S ∧ q ∉ todo.
Proof.
  induction todo as [|q todo IH]; intros S T HS Htodo Hin; cbn [rfold].
  - exists S. rewrite app_nil_r. split; [done|]. split; [done|].
    intros q. rewrite elem_of_nil. tauto.
  - apply NoDup_cons in Htodo as [Hq Htodo].
    destruct (Hin q) as [HqS Hblk]; [constructor|].
    destruct (split_ring_spec q S HqS) as (before & after & Hsplit & ->).
    unfold makeBlock_move at 1. cbn [block_]. rewrite Hblk. cbn [of_option rbind require Nat.eqb].
    unfold get_block. cbn [_partition lookup list_lookup of_option rbind _states].
    rewrite bool_decide_eq_true_2 by (by destruct before). cbn [require rbind].
    unfold moveToTmp, move. cbn [_states _tmp].
    rewrite bool_decide_eq_true_2 by (by destruct before). cbn [require rbind].
    rewrite Hsplit. cbn [of_option rbind]. unfold put_block, set_partition, set_rings.
    cbn [_partition heap_ vectorAllocator_ _relation block_ _queue _delta1 _key _range
         _index _remove _counter _inset insert list_insert].
    assert (NoDup (after ++ before)) as HS1.
    { apply NoDup_app in HS as (H1 & H2 & H3). apply NoDup_cons in H3 as [H3 H4].
      apply NoDup_app. split; [done|]. split; [|done].
      intros x Hx Hx'. apply (H2 x Hx'). by constructor. }
    destruct (IH (after ++ before) (T ++ [q]) HS1 Htodo) as (S' & -> & HS' & Hchar).
    { intros q' Hq'. destruct (Hin q') as [Hq'S ?]; [by constructor|]. split; [|done].
      assert (q' ≠ q) by (by intros ->). set_solver. }
    exists S'. rewrite <- app_assoc. split; [done|]. split; [done|].
    intros x. rewrite Hchar.
    apply NoDup_app in HS as (H1 & H2 & H3). apply NoDup_cons in H3 as [H3 H4].
    rewrite elem_of_cons, !elem_of_app, elem_of_cons. split.
    + intros [[Hx|Hx] Hn]; (split; [tauto|]); intros [->|Hx']; try done.
      by apply (H2 q Hx); constructor.
    + intros [[Hx|[->|Hx]] Hn]; [tauto| |tauto]. destruct Hn. by left.
Qed.

Lemma length_foldr_insert (v : nat) (c blk : list nat) :
  length (foldr (λ q, <[q := v]>) blk c) = length blk.
Proof. induction c as [|y c IH]; cbn [foldr]; [done|]. by rewrite length_insert. Qed.

Lemma foldr_insert_in (v : nat) (c blk : list nat) (q : nat) :
  q ∈ c → q < length blk → foldr (λ q, <[q := v]>) blk c !! q = Some v.
Proof.
  induction c as [|x c IH]; intros Hq Hlt; [by apply elem_of_nil in Hq|]. cbn [foldr].
  destruct (decide (x = q)) as [->|Hne].
  - apply list_lookup_insert_eq. by rewrite length_foldr_insert.
  - rewrite list_lookup_insert_ne by done. apply IH; [|done].
    apply elem_of_cons in Hq as [->|Hq]; done.
Qed.

Lemma foldr_insert_out (v : nat) (c blk : list nat) (q : nat) :
  q ∉ c → foldr (λ q, <[q := v]>) blk c !! q = blk !! q.
Proof.
  induction c as [|x c IH]; intros Hq; [done|]. cbn [foldr].
  apply not_elem_of_cons in Hq as [Hne Hq]. rewrite list_lookup_insert_ne by done. by apply IH.
Qed.

Lemma makeBlock_made done alg c :
  made done alg → c ≠ [] → NoDup c →
  (∀ q, q ∈ c → q < states lts ∧ q ∉ concat done) →
  (∃ q0, q0 < states lts ∧ (q0 ∉ concat done) ∧ q0 ∉ c) →
  ∃ alg', makeBlock lts alg c (S (length done)) = Ok alg' ∧ made (done ++ [c]) alg'.
Proof.
  intros [Hlen Hblock (b0 & Hb0 & Hnd & Hchar) Hclass Hrest Hqueue] Hc Hndc Hin (q0 & Hq0 & Hq0d & Hq0c).
  destruct alg as [h va part rel blk qu d1 k rg]. cbn [_partition block_ _queue] in *.
  destruct part as [|b0' bs]; [done|]. injection Hb0 as ->.
  destruct (Hblock 0 b0 eq_refl) as (Hidx & Hins & Htmp & _).
  destruct b0 as [i S0 rm cn ins T]. cbn [_index _inset _tmp _states] in *. subst i ins T.
  unfold makeBlock. destruct c as [|front c'] eqn:Ec; [done|]. rewrite <- Ec in *.
  assert (head c = Some front) as -> by (by rewrite Ec). cbn [of_option rbind block_].
  rewrite (Hrest front) by (apply Hin; rewrite Ec; constructor). cbn [of_option rbind].
  destruct (move_loop h va 0 rm cn ∅ bs rel blk qu d1 k rg c S0 [] Hnd Hndc)
    as (S' & -> & HS' & HcharS').
  { intros q Hq. destruct (Hin q Hq). split; [by apply Hchar|by apply Hrest]. }
  cbn [rbind app]. unfold get_block at 1.
  cbn [_partition lookup list_lookup of_option rbind _states _tmp].
  assert (q0 ∈ S') as Hq0S by (apply HcharS'; split; [by apply Hchar|done]).
  rewrite bool_decide_eq_true_2 by (intros E; rewrite E in Hq0S; by apply elem_of_nil in Hq0S).
  cbn [require rbind]. rewrite bool_decide_eq_true_2 by done. cbn [require rbind].
  unfold pushNewBlock, get_block.
  cbn [_partition lookup list_lookup of_option rbind _states _tmp _inset _counter].
  rewrite bool_decide_eq_true_2 by done. cbn [require rbind].
  rewrite bind_bwLabels. cbn [rfold rbind].
  eexists. split; [done|].
  unfold put_block, set_block_, set_partition, set_inset, set_rings.
  cbn [_partition heap_ vectorAllocator_ _relation block_ _queue _delta1 _key _range
       _index _remove _counter _inset _states _tmp insert list_insert length].
  cbn [length] in Hlen. injection Hlen as Hlen.
  constructor; cbn [_partition block_ _queue].
  - cbn [length]. rewrite !length_app. cbn [length]. lia.
  - intros j b Hj. apply lookup_app_Some in Hj as [Hj|[Hge Hj]].
    + destruct j as [|j]; cbn [lookup list_lookup] in Hj.
      * injection Hj as <-. cbn. repeat split; try done.
        intros E. rewrite E in Hq0S. by apply elem_of_nil in Hq0S.
      * by apply (Hblock (S j)).
    + apply list_lookup_singleton_Some in Hj as [Hj <-]. cbn [length] in Hge, Hj.
      cbn. repeat split; try done. lia.
  - eexists. split; [done|]. cbn [_states]. split; [done|].
    intros q. rewrite HcharS', Hchar, concat_app. cbn [concat]. rewrite app_nil_r, elem_of_app.
    tauto.
  - intros j c0 q Hj Hq. apply lookup_app_Some in Hj as [Hj|[Hge Hj]].
    + rewrite foldr_insert_out; [by eapply Hclass|].
      intros Hqc. destruct (Hin q Hqc) as [_ Hn]. apply Hn.
      apply elem_of_classes. exists c0. split; [by eapply list_elem_of_lookup_2|done].
    + apply list_lookup_singleton_Some in Hj as [Hj <-].
      assert (j = length done) as -> by lia. rewrite <- Hlen.
      apply foldr_insert_in; [done|]. destruct (Hin q Hq) as [Hlt Hn].
      eapply lookup_lt_Some, Hrest; done.
  - intros q Hq Hn. rewrite concat_app in Hn. cbn [concat] in Hn.
    rewrite app_nil_r in Hn. apply not_elem_of_app in Hn as [Hn1 Hn2].
    rewrite foldr_insert_out by done. by apply Hrest.
  - done.
Qed.

Lemma made_fields done alg alg' :
  made done alg → _partition alg' = _partition alg → block_ alg' = block_ alg →
  _queue alg' = _queue alg → made done alg'.
Proof.
  intros [H1 H2 H3 H4 H5 H6] Hp Hb Hq. constructor; rewrite ?Hp, ?Hb, ?Hq; done.
Qed.

Lemma makeBlocks_made c0 : ∀ rest done alg,
  made done alg → c0 ≠ [] →
  NoDup (concat (c0 :: done ++ rest)) →
  (∀ q, q ∈ concat (c0 :: done ++ rest) → q < states lts) →
  Forall (λ c, c ≠ []) rest →
  ∃ alg', rfold (λ alg '(i, cls), makeBlock lts alg cls i) alg
            (imap (λ i c, (S (length done + i), c)) rest) = Ok alg'
        ∧ made (done ++ rest) alg'.
Proof.
  induction rest as [|c rest IH]; intros done alg Hmade Hc0 Hnd Hlt Hne; cbn [imap rfold].
  - exists alg. by rewrite app_nil_r.
  - apply Forall_cons in Hne as [Hc Hne].
    rewrite concat_cons, concat_app, concat_cons in Hnd.
    apply NoDup_app in Hnd as (Hnd0 & Hdis0 & Hnd).
    apply NoDup_app in Hnd as (Hndd & Hdisd & Hnd).
    apply NoDup_app in Hnd as (Hndc & Hdisc & Hndr).
    rewrite Nat.add_0_r.
    destruct (makeBlock_made done alg c Hmade Hc Hndc) as (alg1 & -> & Hmade1).
    { intros q Hq. split.
      - apply Hlt. rewrite concat_cons, concat_app, concat_cons, !elem_of_app. tauto.
      - intros Hqd. apply (Hdisd q Hqd). apply elem_of_app. by left. }
    { destruct c0 as [|q0 c0']; [done|]. exists q0. split; [|split].
      - apply Hlt. rewrite concat_cons. apply elem_of_app. left. constructor.
      - intros Hq. apply (Hdis0 q0); [constructor|]. apply elem_of_app. by left.
      - intros Hq. apply (Hdis0 q0); [constructor|]. rewrite !elem_of_app. tauto. }
    cbn [rbind].
    destruct (IH (done ++ [c]) alg1 Hmade1 Hc0) as (alg2 & Hr & Hmade2).
    + rewrite <- app_assoc. cbn [app]. rewrite concat_cons, concat_app, concat_cons.
      apply NoDup_app. split; [done|]. split; [done|].
      apply NoDup_app. split; [done|]. split; [done|]. by apply NoDup_app.
    + intros q Hq. apply Hlt. by rewrite <- app_assoc in Hq.
    + done.
    + exists alg2. rewrite <- app_assoc in Hmade2. split; [|done].
      rewrite <- Hr. f_equal. apply imap_ext. intros i x _. cbn.
      rewrite length_app. cbn [length]. f_equal. f_equal. lia.
Qed.

Lemma isPartition_true P :
  NoDup (concat P) → (∀ q, q ∈ concat P → q < states lts) →
  isPartition P (states lts) = Ok true.
Proof.
  intros Hnd Hlt. unfold isPartition.
  assert (∀ (l : list nat) (mask : list bool), NoDup l →
            (∀ q, q ∈ l → mask !! q = Some false) →
            ∃ mask', rfold (λ '(mask, ok) q,
                if ok : bool then
                  seen ←ʳ of_option (mask !! q);
                  if seen : bool then Ok (mask, false) else Ok (<[q := true]> mask, true)
                else Ok (mask, ok)) (mask, true) l = Ok (mask', true)) as Hloop.
  { induction l as [|q l IH]; intros mask Hl Hmask; cbn [rfold]; [by eexists|].
    apply NoDup_cons in Hl as [Hq Hl]. rewrite (Hmask q) by constructor.
    cbn [of_option rbind]. apply IH; [done|]. intros q' Hq'.
    rewrite list_lookup_insert_ne by (by intros ->). apply Hmask. by constructor. }
  destruct (Hloop (concat P) (replicate (states lts) false) Hnd) as (mask' & ->); [|done].
  intros q Hq. apply lookup_replicate_2. by apply Hlt.
Qed.

Lemma init_keys_total : ∃ key range, init_keys lts (buildDelta lts) = Ok (key, range).
Proof.
  unfold init_keys.
  match goal with |- ∃ key range, rfold ?f ?a0 ?l = _ =>
    destruct (rfold_keeps (λ acc : list Z * list Z, length acc.2 = labels lts) f l)
      with (a := a0) as ([key range] & Hr & _)
  end.
  - intros [key range] a Ha Hlen. cbn [snd] in Hlen. apply elem_of_seq in Ha.
    rewrite buildDelta_lookup by lia. cbn [of_option rbind].
    rewrite require_lt by lia. cbn [rbind].
    rewrite ss_elements_empty. cbn [imap rfold rbind].
    eexists. split; [done|]. cbn [snd]. by rewrite length_insert.
  - cbn [snd]. by rewrite length_replicate.
  - by exists key, range.
Qed.

Lemma init_pre_none alg :
  (∀ b, b ∈ _partition alg → _states b ≠ []) →
  (∀ a, a < labels lts → _delta1 alg !! a = Some ∅) →
  ∃ noPre, init_pre lts alg = Ok (replicate (length (_partition alg)) [], noPre).
Proof.
  intros Hst Hd1. unfold init_pre.
  set (I := λ acc : list (list nat) * list (list nat),
              acc.1 = replicate (length (_partition alg)) [] ∧ length acc.2 = labels lts).
  match goal with |- ∃ noPre, rfold ?f ?a0 ?l = _ =>
    destruct (rfold_keeps I f l) with (a := a0) as ([pre noPre] & Hr & Hpre & _)
  end.
  - intros acc blk Hblk Hacc. rewrite bool_decide_eq_true_2 by (by apply Hst).
    cbn [require rbind]. apply (rfold_keeps I); [|done].
    intros acc2 q _ Hacc2. apply (rfold_keeps I); [|done].
    intros [pre noPre] a Ha [Hpre HnoPre]. cbn [fst snd] in Hpre, HnoPre.
    apply elem_of_seq in Ha. rewrite Hd1 by lia. cbn [of_option rbind].
    unfold ss_contains. rewrite lookup_empty.
    rewrite bool_decide_eq_false_2 by (by intros [? ?]).
    unfold push_at. destruct (lookup_lt_is_Some_2 noPre a) as [l Hl]; [lia|].
    rewrite Hl. cbn [of_option rbind]. eexists. split; [done|].
    split; cbn [fst snd]; [done|]. by rewrite length_insert.
  - split; cbn [fst snd]; [done|]. by rewrite length_replicate.
  - cbn [fst] in Hpre. subst pre. by exists noPre.
Qed.

(** [init] on an LTS without transitions: the blocks are the classes of
    the partition, the relation is the given one, and the queue is empty. *)
Lemma init_made c0 cs R0 alg0 :
  made [] alg0 →
  c0 ≠ [] → Forall (λ c, c ≠ []) cs →
  NoDup (concat (c0 :: cs)) → (∀ q, q ∈ concat (c0 :: cs) → q < states lts) →
  rel_size R0 = S (length cs) → (∀ i, i < S (length cs) → rel_get R0 i i = true) →
  ∃ alg, init lts alg0 (c0 :: cs) R0 = Ok alg ∧ made cs alg ∧ _relation alg = R0.
Proof.
  intros Hmade0 Hc0 Hcs Hnd Hlt Hsize Hrefl. unfold init.
  rewrite isPartition_true by done. cbn [rbind require].
  destruct (makeBlocks_made c0 cs [] alg0 Hmade0 Hc0 Hnd Hlt Hcs) as (alg1 & Hr & Hmade1).
  cbn [app] in Hmade1.
  match goal with |- context [rfold ?f alg0 (drop 1 ?l)] =>
    change (rfold f alg0 (drop 1 l))
      with (rfold f alg0 (imap (λ i c, (S (length (@nil (list nat)) + i), c)) cs))
  end.
  rewrite Hr. cbn [rbind].
  pose proof (made_length _ _ Hmade1) as Hlen.
  assert (isConsistent (set_relation alg1 R0) = true) as ->.
  { unfold isConsistent. cbn [set_relation _partition _relation].
    rewrite bool_decide_eq_true_2 by congruence. cbn [andb].
    apply forallb_forall. intros i Hi%list_elem_of_In%elem_of_seq. apply Hrefl. lia. }
  cbn [require rbind].
  destruct init_keys_total as (key & range & ->). cbn [rbind].
  set (alg2 := set_delta (set_relation alg1 R0) (buildDelta lts) key range).
  assert (made cs alg2) as Hmade2 by (by apply (made_fields cs alg1)).
  rewrite rfold_id; cycle 1.
  { intros a Ha%elem_of_seq. cbn [alg2 set_delta _delta1].
    rewrite buildDelta_lookup by lia. cbn [of_option rbind].
    by rewrite ss_elements_empty. }
  cbn [rbind].
  destruct (init_pre_none alg2) as (noPre & ->).
  { intros b (j & Hj)%list_elem_of_lookup. by destruct (made_block _ _ Hmade2 j b Hj) as (_ & _ & _ & ?). }
  { intros a Ha. by apply buildDelta_lookup. }
  cbn [rbind]. unfold init_prune. rewrite rfold_id; cycle 1.
  { intros b1 Hb1%elem_of_seq. rewrite lookup_replicate_2 by lia. done. }
  cbn [rbind]. rewrite rfold_id; cycle 1.
  { intros i Hi%elem_of_reverse%elem_of_seq.
    destruct (lookup_lt_is_Some_2 (_partition alg2) i) as [b Hb]; [lia|].
    unfold get_block. rewrite Hb. cbn [of_option rbind].
    destruct (made_block _ _ Hmade2 i b Hb) as (_ & -> & _).
    by rewrite ss_elements_empty. }
  by exists alg2.
Qed.

Lemma make_made : 0 < states lts → ∃ alg0, make lts = Ok alg0 ∧ made [] alg0.
Proof.
  intros Hn. unfold make. rewrite require_lt by done. cbn [rbind].
  eexists. split; [done|]. rewrite bind_bwLabels. cbn [foldl].
  constructor; cbn [_partition block_ _queue length concat].
  - done.
  - intros j b Hj. apply list_lookup_singleton_Some in Hj as [-> <-].
    cbn. repeat split; try done. by destruct (states lts); [lia|].
  - eexists. split; [done|]. cbn [_states]. split; [apply NoDup_seq|].
    intros q. rewrite elem_of_seq, elem_of_nil. lia.
  - by intros j c q Hj.
  - intros q Hq _. by apply lookup_replicate_2.
  - done.
Qed.

Lemma run_idle fuel alg : _queue alg = [] → run lts fuel alg = Ok alg.
Proof. intros H. destruct fuel; cbn [run]; by rewrite H. Qed.

End NoTransitions.

(** *** The result *)

Section BuildResult.
Variable alg : OLRTAlgorithm.
Variable size : nat.
Variable cp : nat → nat.
Hypothesis Hcp : ∀ i, i < size →
  block_ alg !! i = Some (cp i)
  ∧ ∃ b, _partition alg !! cp i = Some b ∧ _index b = cp i.

Lemma buildResult_row i blocki : ∀ (l : list nat) result,
  (∀ j, j ∈ l → j < size) →
  ∃ result',
    rfold (λ result j,
             bj ←ʳ of_option (block_ alg !! j);
             blockj ←ʳ get_block alg bj;
             Ok (rel_set result i j
                   (rel_get (_relation alg) (_index blocki) (_index blockj))))
          result l = Ok result'
    ∧ (∀ j, j ∈ l → rel_get result' i j = rel_get (_relation alg) (_index blocki) (cp j))
    ∧ (∀ i' j, ¬ (i' = i ∧ j ∈ l) → rel_get result' i' j = rel_get result i' j).
Proof.
  induction l as [|j l IH]; intros result Hl; cbn [rfold].
  - exists result. split; [done|]. split; [|done]. intros j Hj. by apply elem_of_nil in Hj.
  - destruct (Hcp j) as (Hb & b & Hpb & Hidx); [apply Hl; constructor|].
    rewrite Hb. cbn [of_option rbind]. unfold get_block at 1. rewrite Hpb.
    cbn [of_option rbind]. rewrite Hidx.
    destruct (IH (rel_set result i j (rel_get (_relation alg) (_index blocki) (cp j))))
      as (result' & -> & Hin & Hout).
    { intros j' Hj'. apply Hl. by constructor. }
    exists result'. split; [done|]. split.
    + intros j' Hj'. destruct (decide (j' ∈ l)) as [Hjl|Hjl]; [by apply Hin|].
      apply elem_of_cons in Hj' as [->|Hj']; [|done].
      rewrite Hout by tauto. rewrite rel_get_set. by rewrite decide_True.
    + intros i' j' Hn. rewrite Hout by (rewrite elem_of_cons in Hn; tauto).
      rewrite rel_get_set. rewrite decide_False; [done|].
      rewrite elem_of_cons in Hn. tauto.
Qed.

Lemma buildResult_spec :
  ∃ result, buildResult alg size = Ok result
    ∧ ∀ i j, i < size → j < size →
        rel_get result i j = rel_get (_relation alg) (cp i) (cp j).
Proof.
  unfold buildResult.
  assert (∀ (l : list nat) result, (∀ i, i ∈ l → i < size) →
    ∃ result',
      rfold (λ result i,
               bi ←ʳ of_option (block_ alg !! i);
               blocki ←ʳ get_block alg bi;
               rfold (λ result j,
                        bj ←ʳ of_option (block_ alg !! j);
                        blockj ←ʳ get_block alg bj;
                        Ok (rel_set result i j
                              (rel_get (_relation alg) (_index blocki) (_index blockj))))
                     result (seq 0 size))
            result l = Ok result'
      ∧ (∀ i j, i ∈ l → j < size →
           rel_get result' i j = rel_get (_relation alg) (cp i) (cp j))
      ∧ (∀ i j, i ∉ l → rel_get result' i j = rel_get result i j)) as Hrows.
  { induction l as [|i l IH]; intros result Hl; cbn [rfold].
    - exists result. split; [done|]. split; [|done]. intros i j Hi. by apply elem_of_nil in Hi.
    - destruct (Hcp i) as (Hb & b & Hpb & Hidx); [apply Hl; constructor|].
      rewrite Hb. cbn [of_option rbind]. unfold get_block at 1. rewrite Hpb.
      cbn [of_option rbind].
      destruct (buildResult_row i b (seq 0 size) result) as (result1 & -> & Hin1 & Hout1).
      { intros j Hj%elem_of_seq. lia. }
      cbn [rbind]. destruct (IH result1) as (result' & -> & Hin & Hout).
      { intros i' Hi'. apply Hl. by constructor. }
      exists result'. split; [done|]. split.
      + intros i' j Hi' Hj. destruct (decide (i' ∈ l)) as [Hil|Hil]; [by apply Hin|].
        apply elem_of_cons in Hi' as [->|Hi']; [|done].
        rewrite Hout by done. rewrite Hin1 by (apply elem_of_seq; lia). by rewrite Hidx.
      + intros i' j Hi'. apply not_elem_of_cons in Hi' as [Hne Hi'].
        rewrite Hout by done. apply Hout1. tauto. }
  destruct (Hrows (seq 0 size) (rel_resize (Rel 0 ∅) size)) as (result & -> & Hres & _).
  { intros i Hi%elem_of_seq. lia. }
  exists result. split; [done|]. intros i j Hi Hj. apply Hres; [|done].
  apply elem_of_seq. lia.
Qed.

End BuildResult.

(** On an LTS without transitions, [computeSimulation] returns, whatever
    the fuel, and relates two states as the given relation relates their
    classes. *)
Lemma no_transitions_result lts fuel P R0 size :
  delta lts = [] →
  true_partition (states lts) P → rel_size R0 = length P →
  reflexive_on (length P) R0 → size ≤ states lts →
  ∃ result, computeSimulation lts fuel P R0 size = Ok result
    ∧ ∀ i j bi bj ci cj, i < size → j < size →
        P !! bi = Some ci → i ∈ ci → P !! bj = Some cj → j ∈ cj →
        rel_get result i j = rel_get R0 bi bj.
Proof.
  intros Hnil [Hperm Hne] Hsize Hrefl Hle. unfold computeSimulation.
  destruct (Nat.eqb_spec (states lts) 0) as [Hz|Hnz].
  { exists (Rel 0 ∅). split; [done|]. intros i j bi bj ci cj Hi. lia. }
  destruct (make_made lts Hnil) as (alg0 & -> & Hmade0); [lia|]. cbn [rbind].
  assert (NoDup (concat P)) as Hnd by (rewrite Hperm; apply NoDup_seq).
  assert (∀ q, q ∈ concat P ↔ q < states lts) as Hcover.
  { intros q. rewrite Hperm, elem_of_seq. lia. }
  destruct P as [|c0 cs].
  { exfalso. destruct (Hcover 0) as [_ H]. cbn in H. apply elem_of_nil in H; [done|lia]. }
  apply Forall_cons in Hne as [Hc0 Hcs]. cbn [length] in Hsize, Hrefl.
  destruct (init_made lts Hnil c0 cs R0 alg0) as (alg & -> & Hmade & Hrel); try done.
  { intros q Hq. by apply Hcover. }
  cbn [rbind]. rewrite run_idle by apply (made_queue _ _ _ Hmade). cbn [rbind].
  rewrite concat_cons in Hnd. apply NoDup_app in Hnd as (Hnd0 & Hdis & Hnds).
  set (cp := λ i, default 0 (block_ alg !! i)).
  assert (∀ b c i, (c0 :: cs) !! b = Some c → i ∈ c → block_ alg !! i = Some b) as Hclass.
  { intros [|b] c i Hb Hi; cbn in Hb.
    - injection Hb as <-. apply (made_rest _ _ _ Hmade); [|by apply Hdis].
      apply Hcover. rewrite concat_cons. apply elem_of_app. by left.
    - by apply (made_class _ _ _ Hmade b c). }
  destruct (buildResult_spec alg size cp) as (result & -> & Hres).
  { intros i Hi. assert (i ∈ concat (c0 :: cs)) as Hin by (apply Hcover; lia).
    apply elem_of_classes in Hin as (c & (b & Hb)%list_elem_of_lookup & Hic).
    pose proof (Hclass b c i Hb Hic) as Hblk. unfold cp. rewrite Hblk. cbn [default].
    split; [done|].
    destruct (lookup_lt_is_Some_2 (_partition alg) b) as [blk Hblk'].
    { rewrite (made_length _ _ _ Hmade). apply lookup_lt_Some in Hb. cbn [length] in Hb. lia. }
    exists blk. split; [done|]. by destruct (made_block _ _ _ Hmade b blk Hblk'). }
  exists result. split; [done|]. intros i j bi bj ci cj Hi Hj Hbi Hci Hbj Hcj.
  rewrite (Hres i j Hi Hj), Hrel. unfold cp.
  by rewrite (Hclass bi ci i Hbi Hci), (Hclass bj cj j Hbj Hcj).
Qed.




End SimFacts.

(** ** The choice-function generator: the vector it starts and ends with *)

Module ChoiceMore.
Import Choice ChoiceFacts.

(** X14: the loop over the generator calls [GetNext] once more than there
    are choice functions.  The all-zero choice function comes first and
    comes again at the end, after which [IsLast] holds; between the two it
    does not occur. *)
Theorem choice_generator_revisits_zero (k : nat) (n : Z) (fuel : nat) :
  (1 ≤ k)%nat → 1 ≤ n < 2 ^ 32 → (Z.to_nat (n ^ Z.of_nat k) + 1 ≤ fuel)%nat →
  ∃ l, produced fuel (make k n) = Some (replicate k 0 :: l ++ [replicate k 0])
    ∧ Z.of_nat (length l) = n ^ Z.of_nat k - 1
    ∧ replicate k 0 ∉ l.
Proof.
  intros Hk Hn Hf.
  assert (0 < n ^ Z.of_nat k) as Hp by (apply Z.pow_pos_nonneg; lia).
  pose proof (digits_sorted k n 0 (n ^ Z.of_nat k)) as Hs.
  rewrite produced_make by lia.
  rewrite (seqZ_cons 0) in * by lia. cbn [fmap list_fmap] in *.
  rewrite digits_zero in * by lia.
  exists (digits k n <$> seqZ (Z.succ 0) (Z.pred (n ^ Z.of_nat k))).
  split; [done|]. split; [rewrite length_fmap, length_seqZ; lia|].
  apply colex_sorted_NoDup in Hs; [|lia..]. by apply NoDup_cons in Hs as [? _].
Qed.

Lemma choice_generator_revisits_zero_witness :
  ∃ l, produced 5 (make 2 2) = Some (replicate 2 0 :: l ++ [replicate 2 0])
    ∧ Z.of_nat (length l) = 2 ^ Z.of_nat 2 - 1
    ∧ replicate 2 0 ∉ l.
Proof.
  apply (choice_generator_revisits_zero 2 2 5); [lia | lia | vm_compute; lia].
Defined.

End ChoiceMore.

(** ** The downward functor: verdict caches, flags and choice sets *)

Module DownMore.
Import Antichain Down DownFacts UpCorrect.

Section Functor.
Variable preorder_get : nat → nat → bool.
Variable preorderSmaller_ preorderBigger_ : nat → list nat.
Variable down_symbols : nat → StateSet → list (StateTupleSet * StateTupleSet).

Abbreviation expand := (expand preorder_get preorderSmaller_ preorderBigger_ down_symbols).
Abbreviation isInWorkset := (isInWorkset preorder_get).
Abbreviation isNoninclusionImplied := (isNoninclusionImplied preorder_get preorderSmaller_).
Abbreviation isImpliedByChildren := (isImpliedByChildren preorder_get preorderBigger_).
Abbreviation processFoundInclusion := (processFoundInclusion preorder_get preorderSmaller_).
Abbreviation processFoundNoninclusion :=
  (processFoundNoninclusion preorder_get preorderBigger_).

(** *** The verdict caches *)

Lemma SetComparerBigger_refl Q :
  (∀ x, preorder_get x x = true) → SetComparerBigger preorder_get Q Q = true.
Proof.
  intros Hrefl. unfold SetComparerBigger. apply forallb_forall. intros x Hx.
  apply existsb_exists. by exists x.
Qed.

Lemma SetComparerSmaller_refl Q :
  (∀ x, preorder_get x x = true) → SetComparerSmaller preorder_get Q Q = true.
Proof. apply SetComparerBigger_refl. Qed.

Lemma found_noninclusion_implied sh p Q :
  (∀ x, preorder_get x x = true) → p ∈ preorderSmaller_ p →
  isNoninclusionImplied (processFoundNoninclusion sh p Q) (p, Q) = true.
Proof.
  intros Hrefl Hp. unfold Down.isNoninclusionImplied, Down.processFoundNoninclusion.
  cbn [nonIncl_ fst snd]. apply contains2_true. exists p, Q.
  split; [done|]. split; [|by apply SetComparerBigger_refl].
  apply elem_of_stored_insert2. by right.
Qed.

Lemma found_inclusion_implied f p Q :
  (∀ x, preorder_get x x = true) → p ∈ preorderBigger_ p →
  isImpliedByChildren (processFoundInclusion f p Q) (p, Q) = true.
Proof.
  intros Hrefl Hp. unfold Down.isImpliedByChildren, Down.processFoundInclusion.
  cbn [childrenCache_ fst snd]. apply contains2_true. exists p, Q.
  split; [done|]. split; [|by apply SetComparerSmaller_refl].
  apply elem_of_stored_insert2. by right.
Qed.

Lemma isInWorkset_workset sh sh' elem :
  workset_ sh' = workset_ sh → isInWorkset sh' elem = isInWorkset sh elem.
Proof. intros H. unfold Down.isInWorkset. by rewrite H. Qed.

(** X11: [expand] memoises its verdicts.  Under a reflexive preorder whose
    index views hold each state for itself, asking again for a pair that
    [expand] has answered is settled by a filter: the second call explores
    nothing and changes neither the functor nor the shared state.  A pair
    answered [false] is answered [false] again, from any functor that shares
    the non-inclusion cache. *)
Theorem expand_memoises fuel f sh p Q b f' sh' :
  (∀ x, preorder_get x x = true) →
  (∀ x, x ∈ preorderSmaller_ x) → (∀ x, x ∈ preorderBigger_ x) →
  expand fuel f sh p Q = Ok (b, f', sh') →
  (∀ fuel2, ∃ b2, expand (S fuel2) f' sh' p Q = Ok (b2, f', sh'))
  ∧ (b = false → ∀ fuel2 f2, expand (S fuel2) f2 sh' p Q = Ok (false, f2, sh')).
Proof.
  intros Hrefl HS HB H. destruct fuel as [|fuel]; [done|].
  cbn [Down.expand] in H.
  destruct (isInWorkset sh (p, Q)) eqn:Hw.
  { injection H as <- <- <-. split; [|done]. intros fuel2. exists true.
    cbn [Down.expand]. by rewrite Hw. }
  destruct (isNoninclusionImplied sh (p, Q)) eqn:Hn.
  { injection H as <- <- <-. split.
    - intros fuel2. exists false. cbn [Down.expand]. by rewrite Hw, Hn.
    - intros _ fuel2 f2. cbn [Down.expand]. by rewrite Hw, Hn. }
  destruct (isImpliedByChildren f (p, Q)) eqn:Hc.
  { injection H as <- <- <-. split; [|done]. intros fuel2. exists true.
    cbn [Down.expand]. by rewrite Hw, Hn, Hc. }
  destruct (isImpliedByPreorder preorder_get (p, Q)) eqn:Hp.
  { injection H as <- <- <-. split; [|done]. intros fuel2. exists true.
    cbn [Down.expand]. by rewrite Hw, Hn, Hc, Hp. }
  rstep H. destruct a as [inner sh2].
  pose proof (foreach_keeps _ (expand_keeps _ _ _ _ fuel) _ _ _ _ _ _ E) as Hws.
  cbn [workset_ set_workset] in Hws.
  rewrite Hws, erase_first_head in H. cbn [of_option rbind] in H.
  destruct (InclusionHolds inner); injection H as <- <- <-.
  - split; [|done]. intros fuel2. cbn [Down.expand].
    rewrite (isInWorkset_workset sh) by done. rewrite Hw.
    rewrite found_inclusion_implied by auto.
    destruct (isNoninclusionImplied (set_workset sh2 (workset_ sh)) (p, Q));
      [by exists false|by exists true].
  - assert (isInWorkset (processFoundNoninclusion (set_workset sh2 (workset_ sh)) p Q) (p, Q)
            = false) as Hw'.
    { by rewrite (isInWorkset_workset sh). }
    split.
    + intros fuel2. exists false. cbn [Down.expand].
      rewrite Hw'. by rewrite found_noninclusion_implied by auto.
    + intros _ fuel2 f2. cbn [Down.expand].
      rewrite Hw'. by rewrite found_noninclusion_implied by auto.
Qed.

(** *** The flags of the functor *)

Abbreviation same_flags f f' :=
  (processingStopped_ f' = processingStopped_ f ∧ inclusionHolds_ f' = inclusionHolds_ f).

Abbreviation flags_step f f' :=
  (same_flags f f' ∨ (processingStopped_ f' = true ∧ inclusionHolds_ f' = false)).

Lemma expand_flags fuel f sh p Q b f' sh' :
  expand fuel f sh p Q = Ok (b, f', sh') → same_flags f f'.
Proof.
  intros H. destruct fuel as [|fuel]; [done|]. cbn [Down.expand] in H.
  repeat (match type of H with (if ?c then _ else _) = _ =>
            destruct c; [by injection H as <- <- <-|] end).
  rstep H. destruct a as [inner sh2]. rstep H.
  destruct (InclusionHolds inner); by injection H as <- <- <-.
Qed.

Section Call.
Variable e : DownwardInclusionFunctor → Shared → nat → StateSet →
             result (bool * DownwardInclusionFunctor * Shared).
Hypothesis He : ∀ f sh p Q b f' sh', e f sh p Q = Ok (b, f', sh') → same_flags f f'.

Lemma covers_flags positions : ∀ f sh l r b f' sh',
  covers e f sh l r positions = Ok (b, f', sh') → same_flags f f'.
Proof.
  induction positions as [|i rest IH]; intros f sh l r b f' sh' H; cbn [covers] in H.
  - by injection H as <- <- <-.
  - rstep H. rstep H. rstep H. destruct a1 as [[b1 f1] sh1].
    apply He in E1 as [? ?]. destruct b1.
    + apply IH in H as [? ?]. split; congruence.
    + injection H as <- <- <-. done.
Qed.

Lemma find_bigger_flags lhsTuple arity rhs : ∀ f sh b f' sh',
  find_bigger e f sh lhsTuple arity rhs = Ok (b, f', sh') → same_flags f f'.
Proof.
  induction rhs as [|r rest IH]; intros f sh b f' sh' H; cbn [find_bigger] in H.
  - by injection H as <- <- <-.
  - rstep H. destruct a as [[b1 f1] sh1]. apply covers_flags in E as [? ?]. destruct b1.
    + injection H as <- <- <-. done.
    + apply IH in H as [? ?]. split; congruence.
Qed.

Lemma try_positions_flags lhsTuple rhsVector arity cf positions : ∀ f sh b f' sh',
  try_positions e f sh lhsTuple rhsVector arity cf positions = Ok (b, f', sh') →
  same_flags f f'.
Proof.
  induction positions as [|i rest IH]; intros f sh b f' sh' H; cbn [try_positions] in H.
  - by injection H as <- <- <-.
  - rstep H. destruct a as [|x set]; [by apply IH in H|].
    rstep H. rstep H. destruct a0 as [[b1 f1] sh1]. apply He in E1 as [? ?]. destruct b1.
    + injection H as <- <- <-. done.
    + apply IH in H as [? ?]. split; congruence.
Qed.

Lemma choice_loop_flags fuel lhsTuple rhsVector arity : ∀ cfGen f sh b f' sh',
  choice_loop e fuel f sh lhsTuple rhsVector arity cfGen = Ok (b, f', sh') →
  same_flags f f'.
Proof.
  induction fuel as [|fuel IH]; intros cfGen f sh b f' sh' H; cbn [choice_loop] in H;
    destruct (Choice.IsLast cfGen); try (by injection H as <- <- <-); [done|].
  rstep H. destruct a as [cf cfGen']. rstep H. destruct a as [[b1 f1] sh1].
  apply try_positions_flags in E0 as [? ?]. destruct b1.
  - apply IH in H as [? ?]. split; congruence.
  - injection H as <- <- <-. done.
Qed.

Lemma for_lhs_flags fuel arity rhs lhs : ∀ f sh f' sh',
  for_lhs e fuel f sh arity rhs lhs = Ok (f', sh') → flags_step f f'.
Proof.
  induction lhs as [|l rest IH]; intros f sh f' sh' H; cbn [for_lhs] in H.
  - injection H as <- <-. by left.
  - rstep H. rstep H. destruct a0 as [[b1 f1] sh1].
    apply find_bigger_flags in E0 as [? ?].
    destruct b1.
    { apply IH in H as [[? ?]|?]; [left; split; congruence|by right]. }
    rstep H. destruct a0 as [[b2 f2] sh2]. apply choice_loop_flags in E0 as [? ?].
    destruct b2.
    { apply IH in H as [[? ?]|?]; [left; split; congruence|by right]. }
    injection H as <- <-. by right.
Qed.

Lemma call_flags fuel f sh lhs rhs f' sh' :
  call e fuel f sh lhs rhs = Ok (f', sh') → flags_step f f'.
Proof.
  unfold call. intros H. destruct lhs as [|first lhs']; [injection H as <- <-; by left|].
  destruct (length first =? 0)%nat.
  - rstep H. destruct rhs as [|r rhs']; [injection H as <- <-; by right|].
    rstep H. rstep H. injection H as <- <-. by left.
  - destruct rhs as [|r rhs']; [injection H as <- <-; by right|].
    by apply for_lhs_flags in H.
Qed.

Lemma foreach_flags fuel symbols : ∀ f sh f' sh',
  foreach e fuel f sh symbols = Ok (f', sh') → flags_step f f'.
Proof.
  induction symbols as [|[lhs rhs] rest IH]; intros f sh f' sh' H; cbn [foreach] in H.
  - injection H as <- <-. by left.
  - rstep H. destruct a as [f1 sh1]. apply call_flags in E.
    destruct (IsProcessingStopped f1).
    + by injection H as <- <-.
    + apply IH in H. destruct E as [[? ?]|[? ?]], H as [[? ?]|[? ?]];
        [left; split; congruence|right; split; congruence..].
Qed.

End Call.

(** X12: the two flags of the functor move together.  A traversal that
    calls the functor symbol by symbol, with [expand] for the recursive
    calls, leaves both flags as they were or ends with [processingStopped_]
    set and [inclusionHolds_] cleared; started from a functor that is not
    stopped and holds inclusion, it ends with [InclusionHolds()] the
    negation of [IsProcessingStopped()]. *)
Theorem flags_move_together fuel fuel' f sh symbols f' sh' :
  foreach (expand fuel) fuel' f sh symbols = Ok (f', sh') →
  ((processingStopped_ f' = processingStopped_ f
    ∧ inclusionHolds_ f' = inclusionHolds_ f)
   ∨ (processingStopped_ f' = true ∧ inclusionHolds_ f' = false))
  ∧ (processingStopped_ f = false → inclusionHolds_ f = true →
     InclusionHolds f' = negb (IsProcessingStopped f')).
Proof.
  intros H. apply foreach_flags in H; [|apply expand_flags].
  split; [done|]. intros Hs Hi. unfold InclusionHolds, IsProcessingStopped.
  destruct H as [[-> ->]|[-> ->]]; [by rewrite Hs, Hi|done].
Qed.

End Functor.

(** *** The set a choice function assigns to a position *)

Lemma elem_of_ord_insert x s y : y ∈ ord_insert x s ↔ y = x ∨ y ∈ s.
Proof.
  induction s as [|z s IH]; cbn [ord_insert].
  - rewrite list_elem_of_singleton, elem_of_nil. tauto.
  - destruct (Nat.ltb_spec x z); [by rewrite elem_of_cons|].
    destruct (Nat.eqb_spec x z) as [->|Hne].
    + rewrite elem_of_cons. tauto.
    + rewrite !elem_of_cons, IH. tauto.
Qed.

Lemma ord_insert_sorted x s :
  StronglySorted lt s → StronglySorted lt (ord_insert x s).
Proof.
  induction 1 as [|z s Hs IH Hz]; cbn [ord_insert].
  - by repeat constructor.
  - destruct (Nat.ltb_spec x z).
    + constructor; [by constructor|]. constructor; [done|].
      eapply Forall_impl; [exact Hz|]. cbn. lia.
    + destruct (Nat.eqb_spec x z) as [->|Hne]; [by constructor|].
      constructor; [done|]. apply Forall_forall. intros y Hy.
      apply elem_of_ord_insert in Hy as [->|Hy]; [lia|].
      rewrite Forall_forall in Hz. by apply Hz.
Qed.

Lemma rhsSetForTuplePos_from rhsVector arity tuplePos cf : ∀ cfIndex acc set,
  rhsSetForTuplePos rhsVector arity tuplePos cf cfIndex acc = Ok set →
  StronglySorted lt acc →
  StronglySorted lt set
  ∧ ∀ x, x ∈ set ↔
      x ∈ acc
      ∨ ∃ j rhsTuple, cf !! j = Some (Z.of_nat tuplePos)
          ∧ rhsVector !! (cfIndex + j)%nat = Some rhsTuple
          ∧ length rhsTuple = arity
          ∧ rhsTuple !! tuplePos = Some x.
Proof.
  induction cf as [|c cf IH]; intros cfIndex acc set H Hacc;
    cbn [rhsSetForTuplePos] in H.
  - injection H as <-. split; [done|]. intros x. split; [by left|].
    intros [?|(j & t & Hj & _)]; [done|]. by destruct j.
  - destruct (Z.eqb_spec c (Z.of_nat tuplePos)) as [->|Hne].
    + rstep H. rstep H. rstep H.
      apply UpFacts.of_option_Ok in E, E1.
      assert (length a = arity) as Hlen.
      { destruct (Nat.eqb_spec (length a) arity); [done|discriminate E0]. }
      destruct (IH _ _ _ H (ord_insert_sorted _ _ Hacc)) as [Hs Hin].
      split; [done|]. intros x. rewrite Hin, elem_of_ord_insert. split.
      * intros [[->|?]|(j & t & Hj & Ht & Hl & Hx)]; [|by left|].
        -- right. exists 0%nat, a. rewrite Nat.add_0_r. done.
        -- right. exists (S j), t. split; [done|].
           by replace (cfIndex + S j)%nat with (S cfIndex + j)%nat by lia.
      * intros [?|(j & t & Hj & Ht & Hl & Hx)]; [by left; right|].
        destruct j as [|j].
        -- rewrite Nat.add_0_r in Ht. left. left. congruence.
        -- right. exists j, t. split; [done|].
           by replace (S cfIndex + j)%nat with (cfIndex + S j)%nat by lia.
    + destruct (IH _ _ _ H Hacc) as [Hs Hin]. split; [done|].
      intros x. rewrite Hin. split.
      * intros [?|(j & t & Hj & Ht & Hx)]; [by left|]. right. exists (S j), t.
        split; [done|]. by replace (cfIndex + S j)%nat with (S cfIndex + j)%nat by lia.
      * intros [?|(j & t & Hj & Ht & Hx)]; [by left|]. destruct j as [|j].
        -- cbn in Hj. congruence.
        -- right. exists j, t. split; [done|].
           by replace (S cfIndex + j)%nat with (cfIndex + S j)%nat by lia.
Qed.

(** X13: the set [rhsSetForTuplePos] that [operator()] builds for a choice
    function and a position holds exactly the states at that position of
    the bigger tuples the choice function sends there, it is strictly
    sorted, and every tuple it was taken from has the arity of the
    symbol. *)
Theorem rhs_set_collects_assigned (rhsVector : StateTupleSet) (arity tuplePos : nat)
    (cf : Choice.ChoiceFunctionType) (set : StateSet) :
  rhsSetForTuplePos rhsVector arity tuplePos cf 0 [] = Ok set →
  StronglySorted lt set
  ∧ ∀ x, x ∈ set ↔
      ∃ j rhsTuple, cf !! j = Some (Z.of_nat tuplePos)
        ∧ rhsVector !! j = Some rhsTuple
        ∧ length rhsTuple = arity
        ∧ rhsTuple !! tuplePos = Some x.
Proof.
  intros H. destruct (rhsSetForTuplePos_from _ _ _ _ _ _ _ H) as [Hs Hin]; [constructor|].
  split; [done|]. intros x. rewrite Hin. split.
  - intros [Hx|?]; [by apply elem_of_nil in Hx|done].
  - intros ?. by right.
Qed.

Lemma rhs_set_collects_assigned_witness :
  StronglySorted lt [4; 7]%nat
  ∧ ∀ x, x ∈ [4; 7]%nat ↔
      ∃ j rhsTuple, [1; 0; 1; 1] !! j = Some (Z.of_nat 1)
        ∧ [[1; 7]; [2; 9]; [3; 4]; [5; 7]]%nat !! j = Some rhsTuple
        ∧ length rhsTuple = 2%nat
        ∧ rhsTuple !! 1%nat = Some x.
Proof.
  apply (rhs_set_collects_assigned [[1; 7]; [2; 9]; [3; 4]; [5; 7]]%nat 2 1 [1; 0; 1; 1]
           [4; 7]%nat).
  vm_compute. reflexivity.
Defined.

(** *** Concrete runs *)

Import TreeAut Examples.

Lemma expand_memoises_witness :
  (∀ fuel2, ∃ b2,
     expand_id leaf_small leaf_big (S fuel2) top
       (processFoundNoninclusion id_get id_index (MkShared [(0%nat, [1%nat])] ∅)
          0 [1%nat; 2%nat]) 0 [1%nat; 2%nat]
     = Ok (b2, top,
           processFoundNoninclusion id_get id_index (MkShared [(0%nat, [1%nat])] ∅)
             0 [1%nat; 2%nat]))
  ∧ (false = false → ∀ fuel2 f2,
       expand_id leaf_small leaf_big (S fuel2) f2
         (processFoundNoninclusion id_get id_index (MkShared [(0%nat, [1%nat])] ∅)
            0 [1%nat; 2%nat]) 0 [1%nat; 2%nat]
       = Ok (false, f2,
             processFoundNoninclusion id_get id_index (MkShared [(0%nat, [1%nat])] ∅)
               0 [1%nat; 2%nat])).
Proof.
  apply (expand_memoises id_get id_index id_index (down_symbols leaf_small leaf_big)
           2 top (MkShared [(0%nat, [1%nat])] ∅) 0%nat [1%nat; 2%nat] false top
           (processFoundNoninclusion id_get id_index (MkShared [(0%nat, [1%nat])] ∅)
              0 [1%nat; 2%nat])).
  - intros x. apply bool_decide_eq_true_2. reflexivity.
  - intros x. apply list_elem_of_singleton. reflexivity.
  - intros x. apply list_elem_of_singleton. reflexivity.
  - vm_compute. reflexivity.
Defined.

Lemma flags_move_together_witness :
  ((processingStopped_ (failProcessing top) = processingStopped_ top
    ∧ inclusionHolds_ (failProcessing top) = inclusionHolds_ top)
   ∨ (processingStopped_ (failProcessing top) = true
      ∧ inclusionHolds_ (failProcessing top) = false))
  ∧ (processingStopped_ top = false → inclusionHolds_ top = true →
     InclusionHolds (failProcessing top) = negb (IsProcessingStopped (failProcessing top))).
Proof.
  apply (flags_move_together id_get id_index id_index (down_symbols leaf_small leaf_big)
           1 1 top (MkShared [(0%nat, [1%nat; 2%nat])] ∅)
           (down_symbols leaf_small leaf_big 0 [1%nat; 2%nat])
           (failProcessing top) (MkShared [(0%nat, [1%nat; 2%nat])] ∅)).
  vm_compute. reflexivity.
Defined.



End DownMore.

(** ** The upward check: comparisons, the pending order, the bigger transitions *)

Module UpMore.
Import Antichain TreeAut Up UpSpec UpFacts UpCorrect Examples.

(** *** [checkIntersection] *)

Lemma checkIntersection_cons x s1 y s2 :
  checkIntersection (x :: s1) (y :: s2)
  = if (x <? y)%nat then checkIntersection s1 (y :: s2)
    else if (y <? x)%nat then checkIntersection (x :: s1) s2 else true.
Proof. reflexivity. Qed.

Lemma checkIntersection_complete s1 s2 z :
  StronglySorted le s1 → StronglySorted le s2 → z ∈ s1 → z ∈ s2 →
  checkIntersection s1 s2 = true.
Proof.
  intros H1. revert s2. induction H1 as [|x s1 Hs1 IH Hx]; intros s2 H2 Hz1 Hz2.
  { by apply elem_of_nil in Hz1. }
  induction H2 as [|y s2 Hs2 IH2 Hy]; [by apply elem_of_nil in Hz2|].
  assert (StronglySorted le (y :: s2)) as Hys2 by (by constructor).
  rewrite checkIntersection_cons. rewrite Forall_forall in Hx, Hy.
  apply elem_of_cons in Hz1 as [->|Hz1]; apply elem_of_cons in Hz2 as [Hz2|Hz2].
  - subst y. by rewrite Nat.ltb_irrefl.
  - specialize (Hy _ Hz2). destruct (Nat.ltb_spec x y); [lia|].
    destruct (Nat.ltb_spec y x); [|done]. by apply IH2.
  - subst y. specialize (Hx _ Hz1). destruct (Nat.ltb_spec x z).
    + apply IH; [done|done|constructor].
    + destruct (Nat.ltb_spec z x); [lia|done].
  - specialize (Hx _ Hz1). specialize (Hy _ Hz2). destruct (Nat.ltb_spec x y).
    + apply IH; [done|done|by constructor].
    + destruct (Nat.ltb_spec y x); [|done]. by apply IH2.
Qed.

Lemma Sorted_le_strongly (s : list nat) : Sorted le s → StronglySorted le s.
Proof. apply Sorted_StronglySorted. intros ???; lia. Qed.

(** X6: on sorted sequences [checkIntersection] returns [true] exactly when
    the two have an element in common. *)
Theorem checkIntersection_sorted_iff (s1 s2 : list nat) :
  Sorted le s1 → Sorted le s2 →
  checkIntersection s1 s2 = true ↔ ∃ x, x ∈ s1 ∧ x ∈ s2.
Proof.
  intros H1 H2. split.
  - apply checkIntersection_sound.
  - intros (x & Hx1 & Hx2).
    apply (checkIntersection_complete s1 s2 x); auto using Sorted_le_strongly.
Qed.

Lemma checkIntersection_sorted_iff_witness :
  checkIntersection [1; 3; 5]%nat [2; 3]%nat = true
  ↔ ∃ x, x ∈ [1; 3; 5]%nat ∧ x ∈ [2; 3]%nat.
Proof.
  apply (checkIntersection_sorted_iff [1; 3; 5]%nat [2; 3]%nat).
  - repeat constructor.
  - repeat constructor.
Defined.

(** X7: [lte] decides the lift of the preorder to macro-states.  When the
    rows of [ind] are sorted and each holds its own state, and [y] is
    sorted, [lte x y] is [true] exactly when every state of [x] is below
    some state of [y]; the shortcut on equal macro-states agrees with
    that. *)
Theorem lte_decides_lifted (ind : list (list nat)) (x y : BiggerType) :
  (∀ s, s ∈ x → s ∈ default [] (ind !! s)) →
  (∀ s, s ∈ x → Sorted le (default [] (ind !! s))) →
  Sorted le y →
  lte ind x y = true ↔ ∀ s, s ∈ x → ∃ t, t ∈ default [] (ind !! s) ∧ t ∈ y.
Proof.
  intros Hrefl Hrows Hy. unfold lte. case_decide as Heq.
  - subst y. split; [|done]. intros _ s Hs. exists s. auto.
  - unfold noncachedLte. rewrite forallb_forall. split.
    + intros H s Hs. apply checkIntersection_sound, H. by apply list_elem_of_In.
    + intros H s Hs. apply list_elem_of_In in Hs.
      destruct (H s Hs) as (t & Ht & Hty).
      apply (checkIntersection_complete _ _ t); auto using Sorted_le_strongly.
Qed.

Lemma lte_decides_lifted_witness :
  lte [[0; 1]; [1]]%nat [0]%nat [1]%nat = true
  ↔ ∀ s, s ∈ [0]%nat → ∃ t, t ∈ default [] ([[0; 1]; [1]]%nat !! s) ∧ t ∈ [1]%nat.
Proof.
  apply (lte_decides_lifted [[0; 1]; [1]]%nat [0]%nat [1]%nat).
  - intros s Hs. apply list_elem_of_singleton in Hs as ->. simpl. set_solver.
  - intros s Hs. apply list_elem_of_singleton in Hs as ->. simpl. repeat constructor.
  - repeat constructor.
Defined.

(** *** [AntichainElem::less] *)

Lemma set_lt_irrefl x : set_lt x x = false.
Proof.
  induction x as [|a x IH]; [done|]. cbn [set_lt].
  by rewrite Nat.ltb_irrefl, Nat.eqb_refl, IH.
Qed.

Lemma set_lt_trans x y z : set_lt x y = true → set_lt y z = true → set_lt x z = true.
Proof.
  revert y z. induction x as [|a x IH]; intros [|b y] [|c z]; cbn [set_lt]; try done.
  rewrite !orb_true_iff, !andb_true_iff, !Nat.ltb_lt, !Nat.eqb_eq.
  intros [?|[-> Hxy]] [?|[-> Hyz]]; try (left; lia). right. split; [done|].
  by apply (IH y z).
Qed.

(** X8: [AntichainElem::less] is a strict total order on the pending pairs
    whenever the order of the addresses is one on macro-states, and it
    never puts a pair with a larger macro-state before one with a smaller
    macro-state. *)
Theorem less_strict_total_order (addr_lt : StateSet → StateSet → bool) :
  (∀ Q, addr_lt Q Q = false) →
  (∀ Q1 Q2 Q3, addr_lt Q1 Q2 = true → addr_lt Q2 Q3 = true → addr_lt Q1 Q3 = true) →
  (∀ Q1 Q2, Q1 ≠ Q2 → addr_lt Q1 Q2 = true ∨ addr_lt Q2 Q1 = true) →
  (∀ p, less addr_lt p p = false)
  ∧ (∀ p1 p2 p3, less addr_lt p1 p2 = true → less addr_lt p2 p3 = true →
       less addr_lt p1 p3 = true)
  ∧ (∀ p1 p2, p1 ≠ p2 → less addr_lt p1 p2 = true ∨ less addr_lt p2 p1 = true)
  ∧ (∀ p1 p2, less addr_lt p1 p2 = true → (length p1.2 ≤ length p2.2)%nat).
Proof.
  intros Hirr Htr Htot. split; [|split; [|split]].
  - intros [q Q]. unfold less. cbn [fst snd]. by rewrite !Nat.ltb_irrefl.
  - intros [q1 Q1] [q2 Q2] [q3 Q3]. unfold less. cbn [fst snd].
    destruct (Nat.ltb_spec (length Q1) (length Q2));
      destruct (Nat.ltb_spec (length Q2) (length Q3));
      destruct (Nat.ltb_spec (length Q1) (length Q3)); try done; try lia;
      destruct (Nat.ltb_spec (length Q2) (length Q1)); try done; try lia;
      destruct (Nat.ltb_spec (length Q3) (length Q2)); try done; try lia;
      destruct (Nat.ltb_spec (length Q3) (length Q1)); try done; try lia.
    destruct (Nat.ltb_spec q1 q2); destruct (Nat.ltb_spec q2 q3);
      destruct (Nat.ltb_spec q1 q3); try done; try lia;
      destruct (Nat.ltb_spec q2 q1); try done; try lia;
      destruct (Nat.ltb_spec q3 q2); try done; try lia;
      destruct (Nat.ltb_spec q3 q1); try done; try lia.
    apply Htr.
  - intros [q1 Q1] [q2 Q2] Hne. unfold less. cbn [fst snd].
    destruct (Nat.ltb_spec (length Q1) (length Q2)); [by left|].
    destruct (Nat.ltb_spec (length Q2) (length Q1)); [by right|].
    destruct (Nat.ltb_spec q1 q2); [by left|].
    destruct (Nat.ltb_spec q2 q1); [by right|].
    assert (q1 = q2) as -> by lia. apply Htot. congruence.
  - intros [q1 Q1] [q2 Q2]. unfold less. cbn [fst snd].
    destruct (Nat.ltb_spec (length Q1) (length Q2)); [lia|].
    destruct (Nat.ltb_spec (length Q2) (length Q1)); [done|lia].
Qed.

Lemma less_strict_total_order_witness :
  (∀ p, less set_lt p p = false)
  ∧ (∀ p1 p2 p3, less set_lt p1 p2 = true → less set_lt p2 p3 = true →
       less set_lt p1 p3 = true)
  ∧ (∀ p1 p2, p1 ≠ p2 → less set_lt p1 p2 = true ∨ less set_lt p2 p1 = true)
  ∧ (∀ p1 p2, less set_lt p1 p2 = true → (length p1.2 ≤ length p2.2)%nat).
Proof.
  apply (less_strict_total_order set_lt).
  - apply set_lt_irrefl.
  - apply set_lt_trans.
  - apply set_lt_total.
Defined.


(** *** The bigger transitions of a choice *)

Lemma NoDup_List_filter {X : Type} (f : X → bool) (l : list X) :
  NoDup l → NoDup (List.filter f l).
Proof.
  induction 1 as [|x l Hx Hl IH]; cbn [List.filter]; [constructor|].
  destruct (f x); [|done]. constructor; [|done].
  rewrite list_elem_of_In, filter_In, <- list_elem_of_In. tauto.
Qed.

Lemma NoDup_evalTransitions biggerIndex symbol i Q :
  NoDup (evalTransitions biggerIndex symbol i Q).
Proof.
  unfold evalTransitions. destruct (biggerIndex !! symbol) as [iter|]; [|constructor].
  destruct (iter !! i); [apply NoDup_remove_dups|constructor].
Qed.

(** X19: the bigger transitions a choice selects are the intersection,
    over the slots, of what [evalTransitions] gives for the macro-state
    chosen at the slot: a transition of the bigger automaton is folded into
    [post] exactly when, at every slot, the index lists it under some state
    of the chosen macro-state; and it is folded once. *)
Theorem big_set_is_intersection (biggerIndex : list (list (list TransitionList)))
    (symbol : nat) (choice : list BiggerType) (tr : Transition) :
  (tr ∈ big_set biggerIndex symbol choice ↔
     choice ≠ []
     ∧ ∃ iter, biggerIndex !! symbol = Some iter
         ∧ ∀ k Qk, choice !! k = Some Qk →
             ∃ row s trs, iter !! k = Some row ∧ s ∈ Qk
               ∧ row !! s = Some trs ∧ tr ∈ trs)
  ∧ NoDup (big_set biggerIndex symbol choice).
Proof.
  assert (∀ k Qk, tr ∈ evalTransitions biggerIndex symbol k Qk ↔
            ∃ iter row s trs, biggerIndex !! symbol = Some iter ∧ iter !! k = Some row
              ∧ s ∈ Qk ∧ row !! s = Some trs ∧ tr ∈ trs) as Heval.
  { intros k Qk. unfold evalTransitions.
    destruct (biggerIndex !! symbol) as [iter|] eqn:Ei;
      [|split; [by intros ?%elem_of_nil|by intros (? & ? & ? & ? & ? & _)]].
    destruct (iter !! k) as [row|] eqn:Er;
      [|split; [by intros ?%elem_of_nil|
                intros (? & ? & ? & ? & [= <-] & ? & _); congruence]].
    rewrite elem_of_remove_dups, elem_of_concat. split.
    - intros (l & Hl & Htr). apply elem_of_map in Hl as (s & -> & Hs).
      destruct (row !! s) as [trs|] eqn:E; [|by apply elem_of_nil in Htr].
      by exists iter, row, s, trs.
    - intros (? & ? & s & trs & [= <-] & Hr' & Hs & Hrow & Htr).
      rewrite Er in Hr'. injection Hr' as <-.
      exists trs. split; [|done]. apply elem_of_map. exists s. by rewrite Hrow. }
  split.
  - destruct choice as [|Q0 rest]; cbn [big_set].
    { split; [by intros ?%elem_of_nil|by intros [? _]]. }
    rewrite (fold_intersection (evalTransitions biggerIndex symbol) tr rest (λ i, i)).
    rewrite !Heval. split.
    + intros [(iter & row & s & trs & Hi & Hr & Hs & Hrow & Htr) Hrest].
      split; [done|]. exists iter. split; [done|]. intros [|k] Qk HQ.
      * injection HQ as <-. by exists row, s, trs.
      * cbn in HQ. apply Hrest, Heval in HQ as (iter' & ? & ? & ? & ? & ?).
        assert (iter' = iter) as -> by congruence. eauto 10.
    + intros [_ (iter & Hi & H)]. split.
      * destruct (H 0%nat Q0 eq_refl) as (row & s & trs & ?). by exists iter, row, s, trs.
      * intros i Q HQ. apply Heval. destruct (H (S i) Q HQ) as (row & s & trs & ?).
        by exists iter, row, s, trs.
  - destruct choice as [|Q0 rest]; cbn [big_set]; [constructor|].
    generalize (imap pair rest). intros ps.
    assert (NoDup (evalTransitions biggerIndex symbol 0 Q0)) as Hnd
      by apply NoDup_evalTransitions.
    revert Hnd. generalize (evalTransitions biggerIndex symbol 0 Q0).
    induction ps as [|[k Qk] ps IH]; intros d Hd; cbn [fold_left]; [done|].
    apply IH. by apply NoDup_List_filter.
Qed.

(** *** The check on a smaller automaton without leaf transitions *)

Lemma ffold_idle {A B : Type} (f : A → B → result (flow A)) (a : A) (l : list B) :
  (∀ x, x ∈ l → f a x = Ok (Next a)) → ffold f a l = Ok (Next a).
Proof.
  induction l as [|x l IH]; intros H; [done|]. cbn [ffold].
  rewrite (H x) by constructor. cbn [rbind]. apply IH. intros y Hy. apply H.
  by constructor.
Qed.

(** X10: when the smaller automaton has no leaf transition under any
    symbol, the check returns [true] with the description "Inclusion
    proved!" straight after the leaf seeding, whatever its other
    transitions are and whatever the fuel: nothing is ever put in [next]. *)
Theorem no_smaller_leaves_proved (addr_lt : StateSet → StateSet → bool)
    (smallerLeaves : list TransitionList) (smallerIndex : list (list (list TransitionList)))
    (smallerFinalStates : gset nat)
    (biggerLeaves : list TransitionList) (biggerIndex : list (list (list TransitionList)))
    (biggerFinalStates : gset nat) (ind inv : list (list nat)) (fuel : nat) :
  Forall (λ ts, ts = []) smallerLeaves →
  (length smallerLeaves ≤ length biggerLeaves)%nat →
  (∀ ts t, ts ∈ biggerLeaves → t ∈ ts →
     children t = [] ∧ (state t < length ind)%nat ∧ (state t < length inv)%nat) →
  checkInternal addr_lt smallerLeaves smallerIndex smallerFinalStates
    biggerLeaves biggerIndex biggerFinalStates ind inv fuel
  = Ok (true, "Inclusion proved!"%string).
Proof.
  intros Hnil Hle Hbig. unfold checkInternal.
  destruct (Nat.ltb_spec (length biggerLeaves) (length smallerLeaves)); [lia|].
  rewrite ffold_idle.
  { cbn [rbind]. by destruct fuel. }
  intros symbol Hsym. apply elem_of_seq in Hsym. unfold seed_symbol.
  destruct (of_option_lookup biggerLeaves symbol ltac:(lia)) as (bts & Hbts & ->).
  destruct (of_option_lookup smallerLeaves symbol ltac:(lia)) as (sts & Hsts & ->).
  cbn [rbind]. apply list_elem_of_lookup_2 in Hbts.
  rewrite Forall_forall in Hnil. rewrite (Hnil sts) by (by eapply list_elem_of_lookup_2).
  match goal with |- context [rfold ?f ?a0 bts] =>
    assert (∃ r, rfold f a0 bts = Ok r) as [[post acc] ->] end.
  { apply rfold_total. intros a x Hx. destruct (Hbig _ _ Hbts Hx) as (-> & Hi & Hv).
    rewrite bool_decide_eq_true_2 by done. cbn [require rbind].
    by apply fold_post_total. }
  done.
Qed.

Lemma no_smaller_leaves_proved_witness :
  checkInternal set_lt [[]; []] [[[[MkTrans 1 [0%nat] 0]]]] {[0%nat]}
    [[leaf 0 1]; []] [] {[1%nat]} [[0%nat]; [1%nat]] [[0%nat]; [1%nat]] 0
  = Ok (true, "Inclusion proved!"%string).
Proof.
  apply (no_smaller_leaves_proved set_lt [[]; []] [[[[MkTrans 1 [0%nat] 0]]]] {[0%nat]}
           [[leaf 0 1]; []] [] {[1%nat]} [[0%nat]; [1%nat]] [[0%nat]; [1%nat]] 0).
  - repeat constructor.
  - simpl; lia.
  - intros ts t Hts Ht. apply list_elem_of_In in Hts. simpl in Hts.
    destruct Hts as [<-|[<-|[]]].
    + apply list_elem_of_singleton in Ht as ->. simpl. repeat split; lia.
    + by apply elem_of_nil in Ht.
Defined.

End UpMore.

(** ** The choice vector walks through the product *)

Module ChoiceVectorFacts.
Import Antichain Up.
Local Open Scope nat_scope.

Abbreviation Choice := ChoiceVector.Choice.
Abbreviation MkChoice := ChoiceVector.MkChoice.
Abbreviation visited := ChoiceVector.visited.
Abbreviation next_vector := ChoiceVector.next_vector.
Abbreviation current := ChoiceVector.current.

Abbreviation started := ChoiceVector.started.

Lemma visited_mono fuel k : ∀ st r,
  visited fuel st = Some r → visited (fuel + k) st = Some r.
Proof.
  induction fuel as [|fuel IH]; intros st r; [done|].
  cbn [ChoiceVector.visited Nat.add].
  destruct (current st) as [choice|]; [|done]. cbn [mbind option_bind].
  destruct (next_vector st) as [st' more]. destruct more; [|done].
  destruct (visited fuel st') as [[rest final]|] eqn:E; [|done].
  by rewrite (IH _ _ E).
Qed.

Lemma bind_cons_map {X : Type} (l : list X) (r : list X) :
  (x ← l; [x :: r]) = map (λ x, x :: r) l.
Proof. induction l as [|a l IH]; [done|]. cbn. by f_equal. Qed.

Lemma current_cons (l : list BiggerType) (i : nat) (rest : list Choice) x r :
  l !! i = Some x → current rest = Some r →
  current (MkChoice l i :: rest) = Some (x :: r).
Proof.
  intros Hx Hr. unfold ChoiceVector.current in *. cbn [mapM]. rewrite Hr.
  unfold ChoiceVector.get. cbn [ChoiceVector.biggerList_ ChoiceVector.current_].
  by rewrite Hx.
Qed.

Lemma next_vector_step (l : list BiggerType) (i : nat) (rest : list Choice) :
  S i ≠ length l →
  next_vector (MkChoice l i :: rest) = (MkChoice l (S i) :: rest, true).
Proof.
  intros Hi. cbn [ChoiceVector.next_vector]. unfold ChoiceVector.next.
  cbn [ChoiceVector.biggerList_ ChoiceVector.current_].
  by rewrite bool_decide_eq_true_2.
Qed.

Lemma next_vector_carry (l : list BiggerType) (i : nat) (rest : list Choice) :
  S i = length l →
  next_vector (MkChoice l i :: rest)
  = (MkChoice l 0 :: (next_vector rest).1, (next_vector rest).2).
Proof.
  intros Hi. cbn [ChoiceVector.next_vector]. unfold ChoiceVector.next.
  cbn [ChoiceVector.biggerList_ ChoiceVector.current_].
  rewrite bool_decide_eq_false_2 by (intros ?; done).
  by destruct (next_vector rest).
Qed.

Lemma visited_S fuel st :
  visited (S fuel) st
  = choice ← current st;
    if (next_vector st).2 then
      '(rest, final) ← visited fuel (next_vector st).1;
      Some (choice :: rest, final)
    else Some ([choice], (next_vector st).1).
Proof. cbn [ChoiceVector.visited]. by destruct (next_vector st) as [? []]. Qed.

(** Slot 0 sweeps through its list while the other slots stand still. *)
Lemma sweep (l : list BiggerType) (rest : list Choice) (r : list BiggerType) :
  current rest = Some r →
  ∀ n i F, i + S n = length l →
  visited (S n + F) (MkChoice l i :: rest)
  = if (next_vector rest).2 then
      '(vs, final) ← visited F (MkChoice l 0 :: (next_vector rest).1);
      Some (map (λ x, x :: r) (drop i l) ++ vs, final)
    else Some (map (λ x, x :: r) (drop i l), MkChoice l 0 :: (next_vector rest).1).
Proof.
  intros Hr. induction n as [|n IH]; intros i F Hi.
  - destruct (lookup_lt_is_Some_2 l i) as [x Hx]; [lia|].
    assert (drop i l = [x]) as ->.
    { rewrite (drop_S l x i Hx). rewrite drop_ge by lia. done. }
    change (1 + F) with (S F). rewrite visited_S.
    rewrite (current_cons l i rest x r Hx Hr). cbn [mbind option_bind].
    rewrite next_vector_carry by lia. cbn [fst snd].
    destruct ((next_vector rest).2); [|done].
    by destruct (visited F _) as [[vs final]|].
  - destruct (lookup_lt_is_Some_2 l i) as [x Hx]; [lia|].
    rewrite (drop_S l x i Hx).
    change (S (S n) + F) with (S (S n + F)). rewrite visited_S.
    rewrite (current_cons l i rest x r Hx Hr). cbn [mbind option_bind].
    rewrite next_vector_step by lia. cbn [fst snd].
    rewrite (IH (S i) F) by lia.
    destruct ((next_vector rest).2); [|done].
    by destruct (visited F _) as [[vs final]|].
Qed.

(** A walk of the slots after the first, lifted to the whole vector. *)
Lemma lift (l : list BiggerType) : l ≠ [] →
  ∀ fuel rest rs final,
    visited fuel rest = Some (rs, final) →
    visited (length l * length rs) (MkChoice l 0 :: rest)
    = Some (r ← rs; x ← l; [x :: r], MkChoice l 0 :: final).
Proof.
  intros Hl. assert (∃ n, length l = S n) as [n Hn].
  { destruct l; [done|]. by eexists. }
  induction fuel as [|fuel IH]; intros rest rs final; [done|].
  rewrite visited_S.
  destruct (current rest) as [r|] eqn:Hr; [|done]. cbn [mbind option_bind].
  pose proof (sweep l rest r Hr n 0) as Hsw.
  destruct (next_vector rest) as [rest' more]. cbn [fst snd] in *. destruct more.
  - destruct (visited fuel rest') as [[rs' final']|] eqn:E; [|done].
    cbn [mbind option_bind]. intros [= <- <-].
    specialize (IH _ _ _ E).
    cbn [length]. rewrite Nat.mul_succ_r, Nat.add_comm, Hn.
    rewrite (Hsw (S n * length rs')) by lia.
    rewrite Hn in IH. rewrite IH. cbn [mbind option_bind]. rewrite drop_0.
    by rewrite <- bind_cons_map.
  - intros [= <- <-]. cbn [length]. rewrite Nat.mul_1_r, Hn.
    replace (S n) with (S n + 0) by lia. rewrite (Hsw 0) by lia.
    rewrite drop_0, <- bind_cons_map. cbn. by rewrite app_nil_r.
Qed.

Lemma visited_started (lists : list (list BiggerType)) :
  Forall (λ l, l ≠ []) lists →
  visited (length (product lists)) (started lists) = Some (product lists, started lists).
Proof.
  induction 1 as [|l lists Hl Hall IH]; [done|].
  cbn [product started fmap list_fmap].
  pose proof (lift l Hl _ _ _ _ IH) as Hlift.
  assert (length (r ← product lists; x ← l; [x :: r])
          = length l * length (product lists)) as ->; [|done].
  generalize (product lists). intros rs. induction rs as [|r rs IHrs].
  - cbn. lia.
  - cbn [mbind list_bind]. change (mbind ?f ?l) with (list_bind _ _ f l).
    cbn [list_bind]. rewrite length_app. 
    change (list_bind _ _ ?f ?l) with (mbind f l). rewrite IHrs.
    rewrite bind_cons_map, length_map. cbn [length]. lia.
Qed.

Lemma build_started (ac : gmap nat (list (list nat))) Q cs j lists :
  j < length cs →
  build ac Q cs j = Some lists →
  Forall (λ l, l ≠ []) lists
  ∧ ChoiceVector.build ac Q cs j = Ok (Some (started lists)).
Proof.
  intros Hj. unfold build, ChoiceVector.build.
  rewrite UpFacts.require_lt by done. cbn [rbind].
  assert (∀ (o : option (list Choice)) x, o = Some x → Ok o = Ok (Some x)) as Hok
    by (by intros o x ->).
  intros H. cut (Forall (λ l, l ≠ []) lists
                 ∧ mapM (λ '(i, child),
                           if i =? j then Some (MkChoice [Q] 0)
                           else ChoiceVector.init (lookup2 ac child))
                        (imap pair cs) = Some (started lists)).
  { intros [? ?]. split; [done|]. by apply Hok. }
  revert H. clear Hj Hok. rewrite !mapM_Some.
  generalize (imap pair cs). intros ps.
  induction 1 as [|[i c] l ps lists Hl _ [IH1 IH2]]; [by split; constructor|].
  assert (l ≠ [] ∧ (if i =? j then Some (MkChoice [Q] 0)
                     else ChoiceVector.init (lookup2 ac c)) = Some (MkChoice l 0))
    as [Hne Hc].
  { destruct (i =? j); [by injection Hl as <-|].
    unfold lookup2 in *. destruct (stored ac c); [done|]. by injection Hl as <-. }
  split; [by constructor|]. by constructor.
Qed.

(** X9: the [do ... while (choiceVector.next())] loop after a successful
    [build] sees every combination of stored macro-states exactly as
    [product] lists them, slot 0 varying fastest, starting with the first
    macro-state of every slot, and leaves the vector as [build] made it. *)
Theorem choice_vector_walks_product (processed : Antichain2C StateSet) (Q : BiggerType)
    (children : list nat) (index : nat) (lists : list (list BiggerType)) (fuel : nat) :
  index < length children →
  build processed Q children index = Some lists →
  length (product lists) ≤ fuel →
  ∃ state_,
    ChoiceVector.build processed Q children index = Ok (Some state_)
    ∧ visited fuel state_ = Some (product lists, state_).
Proof.
  intros Hidx Hb Hfuel. destruct (build_started _ _ _ _ _ Hidx Hb) as [Hall Hst].
  exists (started lists). split; [done|].
  replace fuel with (length (product lists) + (fuel - length (product lists))) by lia.
  apply visited_mono. by apply visited_started.
Qed.

Lemma choice_vector_walks_product_witness :
  ∃ state_,
    ChoiceVector.build {[0 := [[1]; [2]]; 1 := [[3]; [4]]]} [5] [0; 7; 1] 1
      = Ok (Some state_)
    ∧ visited 4 state_
      = Some (product [[[1]; [2]]; [[5]]; [[3]; [4]]], state_).
Proof.
  apply (choice_vector_walks_product {[0 := [[1]; [2]]; 1 := [[3]; [4]]]} [5] [0; 7; 1] 1
           [[[1]; [2]]; [[5]]; [[3]; [4]]] 4).
  - simpl; lia.
  - vm_compute; reflexivity.
  - vm_compute; lia.
Defined.

End ChoiceVectorFacts.

(** ** The counters: rows stay consistent *)

Module CounterMore.
Import Counter CounterInv.

Lemma total_cons (z : Z) (l : list Z) : slots_total (z :: l) = z + slots_total l.
Proof. reflexivity. Qed.

Lemma total_insert (l : list Z) (j : nat) (x y : Z) :
  l !! j = Some x → slots_total (<[j := y]> l) = slots_total l - x + y.
Proof.
  revert j. induction l as [|z l IH]; intros [|j] Hj; try done.
  - injection Hj as ->. change (<[0%nat:=y]> (x :: l)) with (y :: l). rewrite (total_cons y l), (total_cons x l). lia.
  - cbn in Hj. change (<[S j:=y]> (z :: l)) with (z :: <[j:=y]> l). rewrite (total_cons z l), (total_cons z (<[j:=y]> l)), (IH j Hj). lia.
Qed.

Lemma total_pos (l : list Z) :
  forallb (λ z, 0 <=? z) l = true → 0 ≤ slots_total l.
Proof.
  induction l as [|w l IH]; [done|]. cbn [forallb].
  intros [Hw Hall]%andb_true_iff. apply Z.leb_le in Hw.
  specialize (IH Hall). rewrite total_cons. lia.
Qed.

Lemma total_nonneg (l : list Z) (j : nat) (x : Z) :
  forallb (λ z, 0 <=? z) l = true → l !! j = Some x → 0 ≤ x ≤ slots_total l.
Proof.
  revert j. induction l as [|z l IH]; intros j Hall Hj; [done|].
  cbn [forallb] in Hall. apply andb_true_iff in Hall as [Hz Hall]. apply Z.leb_le in Hz.
  pose proof (total_pos l Hall) as Hpos. rewrite total_cons.
  destruct j as [|j].
  - injection Hj as ->. lia.
  - cbn in Hj. specialize (IH j Hall Hj). lia.
Qed.

Lemma forallb_insert (l : list Z) (j : nat) (y : Z) :
  forallb (λ z, 0 <=? z) l = true → 0 ≤ y →
  forallb (λ z, 0 <=? z) (<[j := y]> l) = true.
Proof.
  revert j. induction l as [|z l IH]; intros j Hall Hy; [done|].
  cbn in Hall. apply andb_true_iff in Hall as [Hz Hall].
  destruct j as [|j]; cbn; apply andb_true_iff; split; auto.
  by apply Z.leb_le.
Qed.

Lemma row_ok_inv (v : list Z) :
  row_ok v = true →
  ∃ rc slots, v = rc :: slots_total slots :: slots
    ∧ forallb (λ z, 0 <=? z) slots = true ∧ slots_total slots < 2 ^ 64.
Proof.
  destruct v as [|rc [|m slots]]; try done. cbn [row_ok].
  rewrite !andb_true_iff. intros [[Hm Hall] Hlt].
  apply Z.eqb_eq in Hm. apply Z.ltb_lt in Hlt. subst m. by exists rc, slots.
Qed.

Lemma row_ok_intro (rc : Z) (slots : list Z) :
  forallb (λ z, 0 <=? z) slots = true → slots_total slots < 2 ^ 64 →
  row_ok (rc :: slots_total slots :: slots) = true.
Proof.
  intros Hall Hlt. cbn [row_ok]. rewrite !andb_true_iff. split; [split|]; [|done|].
  - apply Z.eqb_refl.
  - by apply Z.ltb_lt.
Qed.

Lemma wrap64_small (z : Z) : 0 ≤ z < 2 ^ 64 → wrap64 z = z.
Proof. intros. unfold wrap64. by apply Z.mod_small. Qed.

Lemma total_replicate (n : nat) : slots_total (replicate n 0) = 0.
Proof. induction n as [|n IH]; [done|]. cbn [replicate]. rewrite total_cons. lia. Qed.

Lemma forallb_replicate (n : nat) : forallb (λ z, 0 <=? z) (replicate n 0) = true.
Proof. induction n as [|n IH]; [done|]. cbn. done. Qed.

(** What [incr] builds when the counter has no row for the label. *)
Lemma incr_fresh c h a label state i r :
  data_ c !! label = Some None →
  slot c label state = Some i →
  range_ c !! label = Some r →
  0 ≤ r → 2 + r < 2 ^ 64 →
  (2 ≤ i < 2 + Z.to_nat r)%nat →
  (∀ x, x ∈ store_ a → is_Some (h !! x)) →
  ∃ row h1 a1,
    allocate h a = (row, h1, a1)
    ∧ incr c h a label state
      = Some (set_data c label (Some row),
              <[row := 1 :: 1 :: <[(i - 2)%nat := 1]> (replicate (Z.to_nat r) 0)]> h1, a1).
Proof.
  intros Hd Hsl Hr Hr0 Hr1 Hi Hst.
  destruct (allocate h a) as [[row h1] a1] eqn:Ha.
  exists row, h1, a1. split; [done|].
  unfold incr. rewrite Hd. cbn [mbind option_bind]. rewrite Hsl. cbn [mbind option_bind].
  rewrite Ha.
  assert (is_Some (h1 !! row)) as [old Hold].
  { unfold allocate in Ha. destruct (store_ a) as [|x rest] eqn:E.
    - injection Ha as <- <- <-. rewrite lookup_insert_eq. by eexists.
    - injection Ha as <- <- <-. apply Hst. set_solver. }
  rewrite Hold. cbn [mbind option_bind]. rewrite Hr. cbn [mbind option_bind].
  rewrite wrap64_small by lia.
  assert (length (resize (Z.to_nat (2 + r)) old) = (2 + Z.to_nat r)%nat) as Hlen.
  { unfold resize. rewrite length_app, length_take, length_replicate. lia. }
  rewrite bool_decide_eq_true_2 by lia. cbn [assert mbind option_bind].
  do 3 f_equal.
  destruct (resize (Z.to_nat (2 + r)) old) as [|x0 [|x1 rest]] eqn:E;
    cbn [length] in Hlen; try lia.
  destruct i as [|[|i]]; try lia. f_equal.
  change (<[1%nat:=1]> (<[0%nat:=1]> (x0 :: x1 :: rest))) with (1 :: 1 :: rest).
  change (take 2 (1 :: 1 :: rest)) with [1; 1].
  replace (length (1%Z :: 1%Z :: rest) - 2)%nat with (Z.to_nat r) by (cbn [length]; lia).
  replace (S (S i) - 2)%nat with i by lia. done.
Qed.


Lemma set_data_lookup c label p :
  (label < length (data_ c))%nat → data_ (set_data c label p) !! label = Some p.
Proof. intros. unfold set_data. cbn [data_]. by apply list_lookup_insert_eq. Qed.

Lemma set_data_restore c label p q :
  data_ c !! label = Some q → set_data (set_data c label p) label q = c.
Proof.
  intros Hd. destruct c as [k s r d]. unfold set_data. cbn [key_ states_ range_ data_] in *.
  f_equal. rewrite list_insert_insert_eq. by apply list_insert_id.
Qed.

(** X1: [incr] on a counter without a row for the label takes a vector from
    the allocator and makes it the row: reference count 1, master 1, count 1
    in the state's slot and 0 in every other slot; no other vector of the
    heap and no other label of the counter changes. *)
Theorem incr_starts_row (c : SharedCounter) (h : Heap) (a : VectorAllocator)
    (label state i : nat) (r : Z) :
  data_ c !! label = Some None →
  slot c label state = Some i →
  range_ c !! label = Some r →
  0 ≤ r → 2 + r < 2 ^ 64 →
  (2 ≤ i < 2 + Z.to_nat r)%nat →
  (∀ x, x ∈ store_ a → is_Some (h !! x)) →
  ∃ row c' h' a' v',
    incr c h a label state = Some (c', h', a')
    ∧ data_ c' !! label = Some (Some row)
    ∧ h' !! row = Some v'
    ∧ length v' = (2 + Z.to_nat r)%nat
    ∧ v' !! 0%nat = Some 1 ∧ v' !! 1%nat = Some 1 ∧ v' !! i = Some 1
    ∧ (∀ j, (2 ≤ j < length v')%nat → j ≠ i → v' !! j = Some 0)
    ∧ (∀ p, p ≠ row → h' !! p = h !! p)
    ∧ (∀ l, l ≠ label → data_ c' !! l = data_ c !! l).
Proof.
  intros Hd Hsl Hr Hr0 Hr1 Hi Hst.
  destruct (incr_fresh c h a label state i r) as (row & h1 & a1 & Ha & Hincr); try done.
  eexists row, _, _, _, _. split; [exact Hincr|].
  assert (label < length (data_ c))%nat as Hlab by (by eapply lookup_lt_Some).
  split; [by apply set_data_lookup|].
  split; [by rewrite lookup_insert_eq|].
  split; [cbn [length]; rewrite length_insert, length_replicate; lia|].
  split; [done|]. split; [done|].
  destruct i as [|[|i]]; try lia.
  replace (S (S i) - 2)%nat with i by lia.
  split.
  { cbn. apply list_lookup_insert_eq. rewrite length_replicate. lia. }
  split.
  { intros [|[|j]] Hj Hne; try lia. cbn [length] in Hj.
    rewrite length_insert, length_replicate in Hj. cbn.
    etrans; [apply list_lookup_insert_ne; congruence|].
    apply lookup_replicate_2. lia. }
  split.
  { intros p Hp. rewrite lookup_insert_ne by done.
    unfold allocate in Ha. destruct (store_ a) as [|x rest].
    - injection Ha as <- <- <-. by rewrite lookup_insert_ne.
    - by injection Ha as <- <- <-. }
  intros l Hl. unfold set_data. cbn [data_]. by rewrite list_lookup_insert_ne.
Qed.

Lemma incr_starts_row_witness :
  ∃ row c' h' a' v',
    incr (Cnt [0; 1] 2 [2] [None]) ∅ (Alloc []) 0 1 = Some (c', h', a')
    ∧ data_ c' !! 0%nat = Some (Some row)
    ∧ h' !! row = Some v'
    ∧ length v' = (2 + Z.to_nat 2)%nat
    ∧ v' !! 0%nat = Some 1 ∧ v' !! 1%nat = Some 1 ∧ v' !! 3%nat = Some 1
    ∧ (∀ j, (2 ≤ j < length v')%nat → j ≠ 3%nat → v' !! j = Some 0)
    ∧ (∀ p, p ≠ row → h' !! p = (∅ : Heap) !! p)
    ∧ (∀ l, l ≠ 0%nat → data_ c' !! l = [None] !! l).
Proof.
  apply (incr_starts_row (Cnt [0; 1] 2 [2] [None]) ∅ (Alloc []) 0 1 3 2).
  - reflexivity.
  - vm_compute; reflexivity.
  - reflexivity.
  - lia.
  - lia.
  - simpl; lia.
  - intros x Hx. by apply elem_of_nil in Hx.
Defined.

(** X2: counting a state on a label that has no row and then uncounting it
    is a round trip: [decr] returns 0, the counter is as it was before the
    [incr], and the vector that served as the row is back on the allocator's
    store. *)
Theorem incr_then_decr_releases_row (c : SharedCounter) (h : Heap) (a : VectorAllocator)
    (label state i : nat) (r : Z) :
  data_ c !! label = Some None →
  slot c label state = Some i →
  range_ c !! label = Some r →
  0 ≤ r → 2 + r < 2 ^ 64 →
  (2 ≤ i < 2 + Z.to_nat r)%nat →
  (∀ x, x ∈ store_ a → is_Some (h !! x)) →
  ∃ row c1 h1 a1,
    incr c h a label state = Some (c1, h1, a1)
    ∧ data_ c1 !! label = Some (Some row)
    ∧ decr c1 h1 a1 label state = Some (0, c, h1, reclaim a1 row).
Proof.
  intros Hd Hsl Hr Hr0 Hr1 Hi Hst.
  destruct (incr_fresh c h a label state i r) as (row & h1 & a1 & Ha & Hincr); try done.
  assert (label < length (data_ c))%nat as Hlab by (by eapply lookup_lt_Some).
  eexists row, _, _, _. split; [exact Hincr|].
  split; [by apply set_data_lookup|].
  unfold decr. rewrite set_data_lookup by done. cbn [mbind option_bind].
  rewrite lookup_insert_eq. cbn [mbind option_bind].
  replace (slot (set_data c label (Some row)) label state) with (Some i) by done.
  cbn [mbind option_bind].
  rewrite bool_decide_eq_true_2
    by (cbn [length]; rewrite length_insert, length_replicate; lia).
  cbn [assert mbind option_bind lookup list_lookup Z.eqb Pos.eqb].
  destruct i as [|[|i]]; try lia.
  replace (S (S i) - 2)%nat with i by lia.
  replace ((1 :: 1 :: <[i:=1]> (replicate (Z.to_nat r) 0)) !! S (S i))
    with (Some 1).
  2:{ symmetry. cbn. apply list_lookup_insert_eq. rewrite length_replicate. lia. }
  cbn [assert mbind option_bind lookup list_lookup Z.eqb Pos.eqb].
  by rewrite (set_data_restore c label (Some row) None Hd).
Qed.

Lemma incr_then_decr_releases_row_witness :
  ∃ row c1 h1 a1,
    incr (Cnt [0; 1] 2 [2] [None]) ∅ (Alloc []) 0 1 = Some (c1, h1, a1)
    ∧ data_ c1 !! 0%nat = Some (Some row)
    ∧ decr c1 h1 a1 0 1 = Some (0, Cnt [0; 1] 2 [2] [None], h1, reclaim a1 row).
Proof.
  apply (incr_then_decr_releases_row (Cnt [0; 1] 2 [2] [None]) ∅ (Alloc []) 0 1 3 2).
  - reflexivity.
  - vm_compute; reflexivity.
  - reflexivity.
  - lia.
  - lia.
  - simpl; lia.
  - intros x Hx. by apply elem_of_nil in Hx.
Defined.

(** X3: once [copyRow] has made a row shared, [incr] on that label fails its
    assertion on the reference count, for the counter that received the row
    and for the one it was copied from. *)
Theorem copyRow_blocks_incr (this cnt this' : SharedCounter) (h h' : Heap)
    (a : VectorAllocator) (label state : nat) (row : Ptr) (v : list Z) (refCount : Z) :
  data_ cnt !! label = Some (Some row) →
  h !! row = Some v → v !! 0%nat = Some refCount →
  1 ≤ refCount < 2 ^ 64 - 1 →
  copyRow this h label cnt = Some (this', h') →
  incr this' h' a label state = None ∧ incr cnt h' a label state = None.
Proof.
  intros Hd Hv H0 Hrc Hcopy. unfold copyRow in Hcopy.
  destruct (data_ this !! label) as [mine|] eqn:Hmine; [|done].
  cbn [mbind option_bind] in Hcopy. rewrite Hd in Hcopy.
  cbn [mbind option_bind] in Hcopy.
  destruct (bool_decide (length (data_ this) = length (data_ cnt))); cbn [assert mbind option_bind] in Hcopy; [|done].
  destruct (bool_decide (mine = None)); cbn [assert mbind option_bind] in Hcopy; [|done].
  rewrite Hv in Hcopy. cbn [mbind option_bind] in Hcopy. rewrite H0 in Hcopy.
  cbn [mbind option_bind] in Hcopy. injection Hcopy as <- <-.
  assert (label < length (data_ this))%nat as Hlab by (by eapply lookup_lt_Some).
  assert (0 < length v)%nat as Hlen by (by eapply lookup_lt_Some).
  assert ((wrap64 (refCount + 1) =? 1) = false) as Hne.
  { rewrite wrap64_small by lia. apply Z.eqb_neq. lia. }
  split; unfold incr.
  - rewrite set_data_lookup by done. cbn [mbind option_bind].
    destruct (slot _ label state); [|done]. cbn [mbind option_bind].
    rewrite lookup_insert_eq. cbn [mbind option_bind].
    rewrite list_lookup_insert_eq by done. cbn [mbind option_bind]. by rewrite Hne.
  - rewrite Hd. cbn [mbind option_bind].
    destruct (slot _ label state); [|done]. cbn [mbind option_bind].
    rewrite lookup_insert_eq. cbn [mbind option_bind].
    rewrite list_lookup_insert_eq by done. cbn [mbind option_bind]. by rewrite Hne.
Qed.

Lemma copyRow_blocks_incr_witness :
  incr (Cnt [0; 1] 2 [2] [Some 0%nat]) {[0%nat := [2; 2; 1; 1]]} (Alloc []) 0 0 = None
  ∧ incr (Cnt [0; 1] 2 [2] [Some 0%nat]) {[0%nat := [2; 2; 1; 1]]} (Alloc []) 0 0 = None.
Proof.
  apply (copyRow_blocks_incr (Cnt [0; 1] 2 [2] [None]) (Cnt [0; 1] 2 [2] [Some 0%nat])
           (Cnt [0; 1] 2 [2] [Some 0%nat]) {[0%nat := [1; 2; 1; 1]]}
           {[0%nat := [2; 2; 1; 1]]} (Alloc []) 0 0 0%nat [1; 2; 1; 1] 1).
  - reflexivity.
  - vm_compute; reflexivity.
  - reflexivity.
  - lia.
  - vm_compute; reflexivity.
Defined.

(** X4: [incr] on a row the counter holds alone keeps the row consistent:
    if the master field was the sum of the slots, it still is, the state's
    slot has grown by one and the other slots are as before. *)
Theorem incr_keeps_master_sum (c : SharedCounter) (h : Heap) (a : VectorAllocator)
    (label state : nat) (row : Ptr) (v : list Z) (i : nat) (x master : Z) :
  data_ c !! label = Some (Some row) →
  h !! row = Some v → v !! 0%nat = Some 1 →
  row_ok v = true →
  slot c label state = Some i → (2 ≤ i)%nat → v !! i = Some x →
  v !! 1%nat = Some master → master + 1 < 2 ^ 64 →
  ∃ v',
    incr c h a label state = Some (c, <[row := v']> h, a)
    ∧ row_ok v' = true
    ∧ v' !! 0%nat = Some 1
    ∧ v' !! 1%nat = Some (master + 1)
    ∧ v' !! i = Some (x + 1)
    ∧ (∀ j, (2 ≤ j)%nat → j ≠ i → v' !! j = v !! j).
Proof.
  intros Hd Hv H0 Hok Hsl Hi Hx Hm Hlt.
  destruct (row_ok_inv v Hok) as (rc & slots & -> & Hall & Htot).
  injection H0 as ->. injection Hm as <-.
  destruct i as [|[|i]]; try lia. change (slots !! i = Some x) in Hx.
  pose proof (total_nonneg slots i x Hall Hx) as Hbx.
  assert (i < length slots)%nat as Hil by (by eapply lookup_lt_Some).
  exists (1 :: (slots_total slots + 1) :: <[i := x + 1]> slots).
  split.
  { unfold incr. rewrite Hd. cbn [mbind option_bind]. rewrite Hsl.
    cbn [mbind option_bind]. rewrite Hv. cbn [mbind option_bind lookup list_lookup].
    cbn [Z.eqb Pos.eqb assert mbind option_bind].
    rewrite bool_decide_eq_true_2 by (cbn [length]; lia).
    cbn [assert mbind option_bind].
    change (<[1%nat:=wrap64 (slots_total slots + 1)]> (1 :: slots_total slots :: slots))
      with (1 :: wrap64 (slots_total slots + 1) :: slots).
    change ((1 :: wrap64 (slots_total slots + 1) :: slots) !! S (S i)) with (slots !! i).
    rewrite Hx. cbn [mbind option_bind].
    rewrite !wrap64_small by lia. done. }
  split.
  { replace (slots_total slots + 1) with (slots_total (<[i := x + 1]> slots))
      by (rewrite (total_insert slots i x (x + 1) Hx); lia).
    apply row_ok_intro.
    - apply forallb_insert; [done|lia].
    - rewrite (total_insert slots i x (x + 1) Hx). lia. }
  split; [done|]. split; [done|].
  split; [cbn; by apply list_lookup_insert_eq|].
  intros [|[|j]] Hj Hne; try lia. cbn. apply list_lookup_insert_ne. congruence.
Qed.

Lemma incr_keeps_master_sum_witness :
  ∃ v',
    incr (Cnt [0; 1] 2 [2] [Some 0%nat]) {[0%nat := [1; 2; 1; 1]]} (Alloc []) 0 1
      = Some (Cnt [0; 1] 2 [2] [Some 0%nat], <[0%nat := v']> {[0%nat := [1; 2; 1; 1]]},
              Alloc [])
    ∧ row_ok v' = true
    ∧ v' !! 0%nat = Some 1
    ∧ v' !! 1%nat = Some (2 + 1)
    ∧ v' !! 3%nat = Some (1 + 1)
    ∧ (∀ j, (2 ≤ j)%nat → j ≠ 3%nat → v' !! j = [1; 2; 1; 1] !! j).
Proof.
  apply (incr_keeps_master_sum (Cnt [0; 1] 2 [2] [Some 0%nat]) {[0%nat := [1; 2; 1; 1]]}
           (Alloc []) 0 1 0%nat [1; 2; 1; 1] 3 1 2).
  - reflexivity.
  - vm_compute; reflexivity.
  - reflexivity.
  - reflexivity.
  - vm_compute; reflexivity.
  - lia.
  - reflexivity.
  - reflexivity.
  - lia.
Defined.

(** X5: on a consistent row, [decr] of a state whose slot is positive fails
    no assertion and returns the slot's count less one.  It gives the row up
    exactly when the master field was 1; otherwise the counter ends with a
    row of its own (reference count 1) that is consistent again, with the
    state's slot decremented and the other slots as before. *)
Theorem decr_keeps_master_sum (c : SharedCounter) (h : Heap) (a : VectorAllocator)
    (label state : nat) (row : Ptr) (v : list Z) (refCount : Z) (i : nat) (x : Z) :
  data_ c !! label = Some (Some row) →
  h !! row = Some v → row_ok v = true →
  v !! 0%nat = Some refCount → 1 ≤ refCount < 2 ^ 64 →
  slot c label state = Some i → (2 ≤ i)%nat → v !! i = Some x → 1 ≤ x →
  ∃ c' h' a',
    decr c h a label state = Some (x - 1, c', h', a')
    ∧ match data_ c' !! label with
      | Some None => v !! 1%nat = Some 1
      | Some (Some row') =>
          v !! 1%nat ≠ Some 1
          ∧ ∃ v', h' !! row' = Some v' ∧ row_ok v' = true
              ∧ v' !! 0%nat = Some 1 ∧ v' !! i = Some (x - 1)
              ∧ ∀ j, (2 ≤ j)%nat → j ≠ i → v' !! j = v !! j
      | None => False
      end.
Proof.
  intros Hd Hv Hok H0 Hrc Hsl Hi Hx Hx1.
  destruct (row_ok_inv v Hok) as (rc & slots & -> & Hall & Htot).
  injection H0 as ->.
  destruct i as [|[|i]]; try lia. change (slots !! i = Some x) in Hx.
  pose proof (total_nonneg slots i x Hall Hx) as Hbx.
  assert (i < length slots)%nat as Hil by (by eapply lookup_lt_Some).
  assert (label < length (data_ c))%nat as Hlab by (by eapply lookup_lt_Some).
  set (v' := 1 :: (slots_total slots - 1) :: <[i := x - 1]> slots).
  assert (slots_total slots ≠ 1 → row_ok v' = true ∧ v' !! 0%nat = Some 1
            ∧ v' !! S (S i) = Some (x - 1)
            ∧ ∀ j, (2 ≤ j)%nat → j ≠ S (S i) →
                v' !! j = (refCount :: slots_total slots :: slots) !! j) as Hv'.
  { intros Hne. split.
    { unfold v'. replace (slots_total slots - 1) with (slots_total (<[i := x - 1]> slots))
        by (rewrite (total_insert slots i x (x - 1) Hx); lia).
      apply row_ok_intro.
      - apply forallb_insert; [done|lia].
      - rewrite (total_insert slots i x (x - 1) Hx). lia. }
    split; [done|].
    split; [unfold v'; cbn; by apply list_lookup_insert_eq|].
    intros [|[|j]] Hj Hnj; try lia. unfold v'. cbn.
    apply list_lookup_insert_ne. congruence. }
  assert (∀ rc, <[S (S i) := x - 1]> (<[1%nat := slots_total slots - 1]> (rc :: slots_total slots :: slots))
            = rc :: (slots_total slots - 1) :: <[i := x - 1]> slots) as Hfinal by done.
  remember (refCount :: slots_total slots :: slots) as V eqn:EV.
  assert (V !! 0%nat = Some refCount) as HV0 by (by subst V).
  assert (V !! 1%nat = Some (slots_total slots)) as HV1 by (by subst V).
  assert (V !! S (S i) = Some x) as HVi by (by subst V).
  assert (length V = S (S (length slots))) as HVl by (by subst V).
  unfold decr. rewrite Hd. cbn [mbind option_bind]. rewrite Hv.
  cbn [mbind option_bind]. rewrite Hsl. cbn [mbind option_bind].
  rewrite bool_decide_eq_true_2 by lia.
  cbn [assert mbind option_bind]. rewrite HV0, HV1. cbn [mbind option_bind].
  destruct (Z.eqb_spec (slots_total slots) 1) as [Hone|Hne].
  - assert (x = 1) as -> by lia. rewrite HVi.
    cbn [mbind option_bind Z.eqb Pos.eqb assert].
    destruct (refCount =? 1).
    + eexists _, _, _. split; [done|]. rewrite set_data_lookup by done.
      by rewrite Hone.
    + eexists _, _, _. split; [done|]. rewrite set_data_lookup by done.
      by rewrite Hone.
  - destruct (Hv' Hne) as (Hok' & H0' & Hi' & Hother).
    destruct (Z.ltb_spec 1 refCount) as [Hshared|Hown].
    + destruct (allocate _ a) as [[newRow h1] a1] eqn:Ha.
      set (w := resize _ _).
      assert (take 1 (<[0%nat := 1]> w) ++ drop 1 V = 1 :: slots_total slots :: slots) as ->.
      { assert (length w = S (S (length slots))) as Hw.
        { unfold w, resize. rewrite length_app, length_take, length_replicate. lia. }
        subst V. destruct w; [done|]. done. }
      change ((1 :: slots_total slots :: slots) !! 1%nat) with (Some (slots_total slots)).
      cbn [mbind option_bind].
      rewrite (wrap64_small (slots_total slots - 1)) by lia.
      replace (<[1%nat:=slots_total slots - 1]> (1 :: slots_total slots :: slots) !! S (S i))
        with (Some x) by (symmetry; exact Hx).
      cbn [mbind option_bind].
      rewrite !wrap64_small by lia. rewrite Hfinal.
      eexists _, _, _. split; [done|]. rewrite set_data_lookup by done.
      split; [congruence|].
      exists v'. split; [by rewrite lookup_insert_eq|]. done.
    + rewrite HV1. cbn [mbind option_bind].
      rewrite (wrap64_small (slots_total slots - 1)) by lia.
      replace (<[1%nat:=slots_total slots - 1]> V !! S (S i))
        with (Some x) by (symmetry; subst V; exact Hx).
      cbn [mbind option_bind].
      rewrite !wrap64_small by lia.
      assert (refCount = 1) as -> by lia. subst V. rewrite Hfinal.
      eexists _, _, _. split; [done|]. rewrite set_data_lookup by done.
      split; [congruence|].
      exists v'. split; [by rewrite lookup_insert_eq|]. done.
Qed.

Lemma decr_keeps_master_sum_witness :
  ∃ c' h' a',
    decr (Cnt [0; 1] 2 [2] [Some 0%nat]) {[0%nat := [2; 2; 1; 1]]} (Alloc []) 0 1
      = Some (1 - 1, c', h', a')
    ∧ match data_ c' !! 0%nat with
      | Some None => [2; 2; 1; 1] !! 1%nat = Some 1
      | Some (Some row') =>
          [2; 2; 1; 1] !! 1%nat ≠ Some 1
          ∧ ∃ v', h' !! row' = Some v' ∧ row_ok v' = true
              ∧ v' !! 0%nat = Some 1 ∧ v' !! 3%nat = Some (1 - 1)
              ∧ ∀ j, (2 ≤ j)%nat → j ≠ 3%nat → v' !! j = [2; 2; 1; 1] !! j
      | None => False
      end.
Proof.
  apply (decr_keeps_master_sum (Cnt [0; 1] 2 [2] [Some 0%nat]) {[0%nat := [2; 2; 1; 1]]}
           (Alloc []) 0 1 0%nat [2; 2; 1; 1] 2 3 1).
  - reflexivity.
  - vm_compute; reflexivity.
  - reflexivity.
  - reflexivity.
  - lia.
  - vm_compute; reflexivity.
  - lia.
  - reflexivity.
  - lia.
Defined.

End CounterMore.

(** ** The simulation engine: partitions, rings and the result *)

Module SimMore.
Import Counter Up UpFacts Sim SimFacts.
Local Open Scope nat_scope.

(** *** [isPartition] *)

Lemma isPartition_stopped (l : list nat) (mask : list bool) :
  rfold (λ '(mask, ok) q,
           if ok : bool then
             seen ←ʳ of_option (mask !! q);
             if seen : bool then Ok (mask, false) else Ok (<[q := true]> mask, true)
           else Ok (mask, ok))
        (mask, false) l = Ok (mask, false).
Proof. by apply rfold_id. Qed.

Lemma isPartition_walk (n : nat) : ∀ (l seen : list nat) (mask : list bool),
  Forall (λ q, q < n) l → NoDup seen →
  (∀ q, q < n → mask !! q = Some (bool_decide (q ∈ seen))) →
  ∃ mask',
    rfold (λ '(mask, ok) q,
             if ok : bool then
               seen ←ʳ of_option (mask !! q);
               if seen : bool then Ok (mask, false) else Ok (<[q := true]> mask, true)
             else Ok (mask, ok))
          (mask, true) l = Ok (mask', bool_decide (NoDup (seen ++ l))).
Proof.
  induction l as [|q l IH]; intros seen mask Hl Hseen Hmask; cbn [rfold].
  - exists mask. rewrite app_nil_r. by rewrite bool_decide_eq_true_2.
  - apply Forall_cons in Hl as [Hq Hl]. rewrite (Hmask q Hq). cbn [of_option rbind].
    case_bool_decide as Hin; cbn [rbind].
    + rewrite isPartition_stopped. exists mask. rewrite bool_decide_eq_false_2; [done|].
      intros Hnd. apply NoDup_app in Hnd as (_ & Hdisj & _).
      apply (Hdisj q Hin). constructor.
    + destruct (IH (seen ++ [q]) (<[q := true]> mask)) as (mask' & ->); [done| |..].
      * apply NoDup_app. split; [done|]. split; [|apply NoDup_singleton].
        intros x Hx Hxq. apply list_elem_of_singleton in Hxq. by subst.
      * intros q' Hq'. destruct (decide (q' = q)) as [->|Hne].
        -- rewrite list_lookup_insert_eq.
           ++ f_equal. symmetry. apply bool_decide_eq_true_2. set_solver.
           ++ apply lookup_lt_is_Some. by rewrite Hmask.
        -- rewrite list_lookup_insert_ne by done. rewrite Hmask by done. f_equal.
           apply bool_decide_ext. set_solver.
      * exists mask'. by rewrite <- app_assoc.
Qed.

Lemma isPartition_result (part : list (list nat)) (n : nat) :
  Forall (λ q, q < n) (concat part) →
  isPartition part n = Ok (bool_decide (NoDup (concat part))).
Proof.
  intros Hrange. unfold isPartition.
  destruct (isPartition_walk n (concat part) [] (replicate n false) Hrange)
    as (m & Hm).
  - constructor.
  - intros q Hq. by rewrite lookup_replicate_2.
  - cbn [app] in Hm. by rewrite Hm.
Qed.

(** X15: on classes whose states are below [states], [isPartition]
    returns [true] exactly when no state occurs twice in the classes; it
    does not ask that every state occurs, nor that a class is non-empty. *)
Theorem isPartition_checks_disjointness (part : list (list nat)) (n : nat) :
  Forall (λ q, q < n) (concat part) →
  ∃ b, isPartition part n = Ok b
    ∧ (b = true ↔ NoDup (concat part))
    ∧ (b = true → Forall (λ cls, NoDup cls) part
                  ∧ ∀ i j c d q, part !! i = Some c → part !! j = Some d →
                      q ∈ c → q ∈ d → i = j).
Proof.
  intros Hrange. exists (bool_decide (NoDup (concat part))).
  split; [by apply isPartition_result|]. split; [apply bool_decide_eq_true|].
  intros Hnd%bool_decide_eq_true. clear Hrange.
  induction part as [|cls part IH]; [split; [constructor|]; by intros [|?] ?|].
  cbn [concat] in Hnd. apply NoDup_app in Hnd as (Hcls & Hdisj & Hrest).
  destruct (IH Hrest) as [Hall Huniq]. split; [by constructor|].
  intros [|i] [|j] c d q Hc Hd Hqc Hqd; cbn in Hc, Hd.
  - done.
  - injection Hc as <-. exfalso. apply (Hdisj q Hqc). apply elem_of_classes.
    exists d. split; [by eapply list_elem_of_lookup_2|done].
  - injection Hd as <-. exfalso. apply (Hdisj q Hqd). apply elem_of_classes.
    exists c. split; [by eapply list_elem_of_lookup_2|done].
  - f_equal. by eapply Huniq.
Qed.

Lemma isPartition_checks_disjointness_witness :
  ∃ b, isPartition [[2]; []; [0]] 4 = Ok b
    ∧ (b = true ↔ NoDup (concat [[2]; []; [0]]))
    ∧ (b = true → Forall (λ cls, NoDup cls) [[2]; []; [0]]
                  ∧ ∀ i j c d q, [[2]; []; [0]] !! i = Some c → [[2]; []; [0]] !! j = Some d →
                      q ∈ c → q ∈ d → i = j).
Proof.
  apply (isPartition_checks_disjointness [[2]; []; [0]] 4).
  simpl. repeat constructor.
Defined.

(** X16: [computeSimulation] on an LTS with states stops at the first
    assertion of [init] when a state occurs twice in the given partition. *)
Theorem repeated_state_aborts (lts : ExplicitLTS) (fuel : nat) (partition : list (list nat))
    (relation : BinaryRelation) (outputSize : nat) :
  states lts ≠ 0 →
  Forall (λ q, q < states lts) (concat partition) →
  ¬ NoDup (concat partition) →
  computeSimulation lts fuel partition relation outputSize = Abort.
Proof.
  intros Hst Hrange Hdup. unfold computeSimulation.
  destruct (Nat.eqb_spec (states lts) 0) as [|_]; [done|].
  unfold make. rewrite require_lt by lia. cbn [rbind]. unfold init.
  rewrite isPartition_result by done. by rewrite bool_decide_eq_false_2.
Qed.

Lemma repeated_state_aborts_witness :
  computeSimulation (LTS 2 1 [(0, 0, 1)]) 5 [[0; 1]; [1]] (Rel 2 {[(0, 0); (1, 1)]}) 2
  = Abort.
Proof.
  apply (repeated_state_aborts (LTS 2 1 [(0, 0, 1)]) 5 [[0; 1]; [1]]
           (Rel 2 {[(0, 0); (1, 1)]}) 2).
  - simpl. lia.
  - simpl. repeat constructor.
  - simpl. intros H. apply NoDup_cons in H as [_ H]. apply NoDup_cons in H as [H _].
    apply H. constructor.
Defined.

(** *** Moving states to the [tmp] ring *)

Lemma move_spec (q : nat) (src dst : list nat) :
  q ∈ src →
  ∃ src', move q src dst = Ok (src', dst ++ [q]) ∧ src ≡ₚ q :: src'.
Proof.
  intros Hq. unfold move.
  rewrite bool_decide_eq_true_2 by (intros ->; by apply elem_of_nil in Hq).
  cbn [require rbind].
  destruct (split_ring_spec q src Hq) as (before & after & -> & ->).
  cbn [of_option rbind]. eexists. split; [done|].
  rewrite <- Permutation_middle. by rewrite (Permutation_app_comm before).
Qed.

Lemma moveToTmp_all (b : OLRTBlock) : ∀ (l s t : list nat),
  NoDup s → NoDup l → l ⊆ s →
  ∃ rest, rfold moveToTmp (set_rings b s t) l = Ok (set_rings b rest (t ++ l))
    ∧ s ≡ₚ l ++ rest.
Proof.
  induction l as [|q l IH]; intros s t Hs Hl Hsub; cbn [rfold].
  - exists s. by rewrite app_nil_r.
  - apply NoDup_cons in Hl as [Hq Hl].
    destruct (move_spec q s t) as (s' & Hm & Hperm); [apply Hsub; constructor|].
    unfold moveToTmp at 1. cbn [_states _tmp set_rings]. rewrite Hm. cbn [rbind].
    change (set_rings _ s' (t ++ [q])) with (set_rings b s' (t ++ [q])).
    assert (NoDup (q :: s')) as [Hqs' Hs']%NoDup_cons by (by rewrite <- Hperm).
    destruct (IH s' (t ++ [q])) as (rest & Hr & Hperm'); [done|done| |].
    { intros x Hx. assert (x ∈ q :: s') as [->|?]%elem_of_cons; [|done..].
      rewrite <- Hperm. apply Hsub. by constructor. }
    exists rest. rewrite Hr, <- app_assoc. split; [done|]. by rewrite Hperm, Hperm'.
Qed.

(** X17: moving distinct states of a block to its [tmp] ring, one by one,
    takes exactly these states out of the ring of the block and lines them
    up in [tmp] in the order they were moved; [checkEmpty] then reports
    [true] exactly when all the states of the block were moved, and in
    that case [tmp] becomes the ring of the block again. *)
Theorem moved_states_leave_block (b : OLRTBlock) (l : list nat) :
  NoDup (_states b) → NoDup l → l ⊆ _states b →
  ∃ rest,
    rfold moveToTmp b l = Ok (set_rings b rest (_tmp b ++ l))
    ∧ _states b ≡ₚ l ++ rest
    ∧ ((checkEmpty (set_rings b rest (_tmp b ++ l))).1 = true ↔ _states b ≡ₚ l)
    ∧ (_states b ≡ₚ l →
       (checkEmpty (set_rings b rest (_tmp b ++ l))).2 = set_rings b (_tmp b ++ l) []).
Proof.
  intros Hs Hl Hsub.
  destruct (moveToTmp_all b l (_states b) (_tmp b) Hs Hl Hsub) as (rest & Hr & Hperm).
  exists rest. split; [by destruct b|]. split; [done|].
  assert (_states b ≡ₚ l ↔ rest = []) as Hiff.
  { split.
    - intros Hp. rewrite Hp in Hperm. apply Permutation_length in Hperm.
      rewrite length_app in Hperm. destruct rest; [done|]. cbn in Hperm. lia.
    - intros ->. by rewrite app_nil_r in Hperm. }
  unfold checkEmpty. cbn [_states _tmp set_rings]. split.
  - rewrite Hiff. by destruct rest.
  - intros ->%Hiff. done.
Qed.

Lemma moved_states_leave_block_witness :
  ∃ rest,
    rfold moveToTmp (Block 0 [3; 1; 4] [] [] ∅ []) [4; 3]
      = Ok (set_rings (Block 0 [3; 1; 4] [] [] ∅ []) rest ([] ++ [4; 3]))
    ∧ [3; 1; 4] ≡ₚ [4; 3] ++ rest
    ∧ ((checkEmpty (set_rings (Block 0 [3; 1; 4] [] [] ∅ []) rest ([] ++ [4; 3]))).1 = true
       ↔ [3; 1; 4] ≡ₚ [4; 3])
    ∧ ([3; 1; 4] ≡ₚ [4; 3] →
       (checkEmpty (set_rings (Block 0 [3; 1; 4] [] [] ∅ []) rest ([] ++ [4; 3]))).2
       = set_rings (Block 0 [3; 1; 4] [] [] ∅ []) ([] ++ [4; 3]) []).
Proof.
  apply (moved_states_leave_block (Block 0 [3; 1; 4] [] [] ∅ []) [4; 3]).
  - simpl. repeat constructor; set_solver.
  - repeat constructor; set_solver.
  - simpl. set_solver.
Defined.

(** *** [buildResult] *)

(** X18: [buildResult] lifts the relation on the blocks to the states:
    when every state below [size] has its block, and the block sits at the
    position its index names, two states are related in the result exactly
    as their blocks are in [_relation]; hence two states of one block are
    related to the same states, and the result is reflexive, and
    transitive, on the states below [size] as soon as [_relation] is on the
    blocks these states are in. *)
Theorem buildResult_lifts_block_relation (alg : OLRTAlgorithm) (size : nat) (cp : nat → nat) :
  (∀ i, i < size →
     block_ alg !! i = Some (cp i)
     ∧ ∃ b, _partition alg !! cp i = Some b ∧ _index b = cp i) →
  ∃ result, buildResult alg size = Ok result
    ∧ (∀ i j, i < size → j < size →
         rel_get result i j = rel_get (_relation alg) (cp i) (cp j))
    ∧ (∀ i i' j, i < size → i' < size → j < size → cp i = cp i' →
         rel_get result i j = rel_get result i' j
         ∧ rel_get result j i = rel_get result j i')
    ∧ ((∀ i, i < size → rel_get (_relation alg) (cp i) (cp i) = true) →
       reflexive_on size result)
    ∧ ((∀ i j k, i < size → j < size → k < size →
          rel_get (_relation alg) (cp i) (cp j) = true →
          rel_get (_relation alg) (cp j) (cp k) = true →
          rel_get (_relation alg) (cp i) (cp k) = true) →
       transitive_on size result).
Proof.
  intros Hcp. destruct (buildResult_spec alg size cp Hcp) as (result & Hres & Hget).
  exists result. split; [done|]. split; [done|]. split; [|split].
  - intros i i' j Hi Hi' Hj Heq. rewrite !Hget by done. by rewrite Heq.
  - intros Hrefl i Hi. rewrite Hget by done. by apply Hrefl.
  - intros Htrans i j k Hi Hj Hk. rewrite !Hget by done. by apply Htrans.
Qed.


Lemma buildResult_lifts_block_relation_witness :
  ∃ result,
    buildResult (Alg ∅ (Alloc []) [Block 0 [0; 1] [] [] ∅ []] (Rel 1 {[(0, 0)]})
                   [0; 0] [] [] [] []) 2 = Ok result
    ∧ (∀ i j, i < 2 → j < 2 →
         rel_get result i j = rel_get (Rel 1 {[(0, 0)]}) 0 0)
    ∧ (∀ i i' j, i < 2 → i' < 2 → j < 2 → 0 = 0 →
         rel_get result i j = rel_get result i' j
         ∧ rel_get result j i = rel_get result j i')
    ∧ ((∀ i, i < 2 → rel_get (Rel 1 {[(0, 0)]}) 0 0 = true) →
       reflexive_on 2 result)
    ∧ ((∀ i j k, i < 2 → j < 2 → k < 2 →
          rel_get (Rel 1 {[(0, 0)]}) 0 0 = true →
          rel_get (Rel 1 {[(0, 0)]}) 0 0 = true →
          rel_get (Rel 1 {[(0, 0)]}) 0 0 = true) →
       transitive_on 2 result).
Proof.
  apply (buildResult_lifts_block_relation
           (Alg ∅ (Alloc []) [Block 0 [0; 1] [] [] ∅ []] (Rel 1 {[(0, 0)]})
              [0; 0] [] [] [] []) 2 (λ _, 0)).
  intros [|[|i]] Hi; [| |lia]; simpl;
    (split; [reflexivity|]); eexists; split; reflexivity.
Defined.

End SimMore.

(** ** The upward check: pending pairs are processed pairs *)

Module PendingFacts.
Import Antichain TreeAut Up UpSpec UpFacts UpCorrect Examples.

Section Refine.
Context {T : Type}.
Implicit Types (ac : gmap nat (list T)) (cmp : T → T → bool).

Lemma elem_of_List_filter (f : T → bool) (l : list T) (x : T) :
  x ∈ List.filter f l ↔ x ∈ l ∧ f x = true.
Proof. by rewrite !list_elem_of_In, filter_In. Qed.

Lemma refine_key_reports v cmp ac erased k ac' erased' :
  refine_key v cmp (ac, erased) k = (ac', erased') →
  (∀ e, e ∈ erased → e ∈ erased')
  ∧ (∀ k' v', v' ∈ stored ac k' → v' ∈ stored ac' k' ∨ (k', v') ∈ erased')
  ∧ (∀ k' v', v' ∈ stored ac' k' → v' ∈ stored ac k').
Proof.
  unfold refine_key. intros [= <- <-].
  set (kept := List.filter (λ v', negb (cmp v v')) (stored ac k)).
  set (gone := List.filter (λ v', cmp v v') (stored ac k)).
  assert (∀ k', stored (match kept with [] => delete k ac | _ => <[k := kept]> ac end) k'
                = if decide (k' = k) then kept else stored ac k') as Hst.
  { intros k'. unfold stored at 1. case_decide as Hk.
    - subst k'. destruct kept; [by rewrite lookup_delete_eq|by rewrite lookup_insert_eq].
    - destruct kept; [by rewrite lookup_delete_ne|by rewrite lookup_insert_ne]. }
  split; [|split].
  - intros e He. apply elem_of_app. by left.
  - intros k' v' Hv'. rewrite Hst. case_decide as Hk; [|by left]. subst k'.
    destruct (cmp v v') eqn:Hc.
    + right. apply elem_of_app. right. apply elem_of_map. exists v'.
      split; [done|]. by apply elem_of_List_filter.
    + left. apply elem_of_List_filter. by rewrite Hc.
  - intros k' v'. rewrite Hst. case_decide as Hk; [|done]. subst k'.
    by intros [? _]%elem_of_List_filter.
Qed.

Lemma refine_fold_reports v cmp K : ∀ ac erased ac' erased',
  fold_left (refine_key v cmp) K (ac, erased) = (ac', erased') →
  (∀ e, e ∈ erased → e ∈ erased')
  ∧ (∀ k v', v' ∈ stored ac k → v' ∈ stored ac' k ∨ (k, v') ∈ erased')
  ∧ (∀ k v', v' ∈ stored ac' k → v' ∈ stored ac k).
Proof.
  induction K as [|k K IH]; intros ac erased ac' erased' H; cbn [fold_left] in H.
  - injection H as <- <-. split; [done|]. split; [by left|done].
  - destruct (refine_key v cmp (ac, erased) k) as [ac1 erased1] eqn:E.
    apply refine_key_reports in E as (He1 & Hs1 & Hb1).
    apply IH in H as (He & Hs & Hb). split; [auto|]. split; [|auto].
    intros k' v' Hv'. destruct (Hs1 k' v' Hv') as [?|?]; [auto|right; auto].
Qed.

End Refine.

Section Next.
Variable addr_lt : list nat → list nat → bool.
Hypothesis Hirr : ∀ Q, addr_lt Q Q = false.

Lemma less_irrefl e : less addr_lt e e = false.
Proof. unfold less. by rewrite !Nat.ltb_irrefl. Qed.

Lemma elem_of_next_erase l e x : x ∈ next_erase addr_lt l e → x ∈ l ∧ x ≠ e.
Proof.
  unfold next_erase. rewrite !list_elem_of_In, filter_In. intros [Hx Hne].
  split; [done|]. intros ->. by rewrite less_irrefl in Hne.
Qed.

Lemma elem_of_fold_erase erased : ∀ l x,
  x ∈ fold_left (next_erase addr_lt) erased l → x ∈ l ∧ x ∉ erased.
Proof.
  induction erased as [|e erased IH]; intros l x Hx; cbn [fold_left] in Hx.
  - split; [done|apply not_elem_of_nil].
  - apply IH in Hx as [Hx Hout]. apply elem_of_next_erase in Hx as [Hx Hne].
    split; [done|]. by apply not_elem_of_cons.
Qed.

End Next.

(** X20: every pending pair is in [processed], and [add_processed] keeps
    it so.  What [refine] takes out of [processed] the [Eraser] takes out
    of [next], and the pair that is inserted in [processed] is the one that
    is inserted in [next]: if each pair of [next] is stored in [processed]
    before the call, each is after it; and a pair that was not already
    covered is, after the call, both stored and pending. *)
Theorem pending_pairs_are_processed (addr_lt : StateSet → StateSet → bool)
    (ind inv : list (list nat)) (st st' : State) (p : nat) (up : list nat)
    (Q : BiggerType) :
  (∀ Q, addr_lt Q Q = false) → total addr_lt →
  (∀ q Q', (q, Q') ∈ next st → Q' ∈ stored (processed st) q) →
  add_processed addr_lt ind inv st p up Q = Ok st' →
  (∀ q Q', (q, Q') ∈ next st' → Q' ∈ stored (processed st') q)
  ∧ (contains2 (processed st) up Q (lte ind) = false →
     (p, Q) ∈ next st' ∧ Q ∈ stored (processed st') p).
Proof.
  intros Hirr Htot Hinv H. unfold add_processed in H.
  destruct (contains2 _ _ _ _) eqn:Hc.
  { injection H as <-. by split. }
  rstep H. rstep H. apply of_option_Ok in E0.
  destruct (refine2 (processed st) a0 Q (gte ind)) as [refined erased] eqn:Er.
  injection H as <-. cbn [next processed].
  unfold refine2 in Er. apply refine_fold_reports in Er as (_ & Hrep & _).
  split.
  - intros q Q' Hin. apply elem_of_next_insert in Hin; [|done].
    destruct Hin as [[= -> ->]|Hin].
    + apply elem_of_stored_insert2. by right.
    + apply elem_of_fold_erase in Hin as [Hin Hout]; [|done].
      apply elem_of_stored_insert2. left.
      destruct (Hrep q Q' (Hinv _ _ Hin)) as [?|?]; done.
  - intros _. split.
    + apply elem_of_next_insert; [done|by left].
    + apply elem_of_stored_insert2. by right.
Qed.

Lemma pending_pairs_are_processed_witness :
  (∀ q Q',
     (q, Q') ∈ next (MkState {[0%nat := [[1%nat]]; 1%nat := [[0%nat; 1%nat]]]}
              [(0%nat, [1%nat]); (1%nat, [0%nat; 1%nat])]) →
     Q' ∈ stored
            (processed (MkState {[0%nat := [[1%nat]]; 1%nat := [[0%nat; 1%nat]]]}
              [(0%nat, [1%nat]); (1%nat, [0%nat; 1%nat])])) q)
  ∧ (contains2 (processed (MkState {[1%nat := [[0%nat; 1%nat]]]} [(1%nat, [0%nat; 1%nat])]))
       [0%nat] [1%nat] (lte [[0%nat]; [1%nat]]) = false →
     (0%nat, [1%nat]) ∈ next (MkState {[0%nat := [[1%nat]]; 1%nat := [[0%nat; 1%nat]]]}
              [(0%nat, [1%nat]); (1%nat, [0%nat; 1%nat])])
     ∧ [1%nat] ∈ stored
                   (processed (MkState {[0%nat := [[1%nat]]; 1%nat := [[0%nat; 1%nat]]]}
              [(0%nat, [1%nat]); (1%nat, [0%nat; 1%nat])])) 0).
Proof.
  apply (pending_pairs_are_processed set_lt [[0%nat]; [1%nat]] [[0%nat]; [1%nat]]
           (MkState {[1%nat := [[0%nat; 1%nat]]]} [(1%nat, [0%nat; 1%nat])])
           (MkState {[0%nat := [[1%nat]]; 1%nat := [[0%nat; 1%nat]]]}
              [(0%nat, [1%nat]); (1%nat, [0%nat; 1%nat])])
           0%nat [0%nat] [1%nat]).
  - apply UpMore.set_lt_irrefl.
  - apply set_lt_total.
  - intros q Q' Hin. apply list_elem_of_singleton in Hin. injection Hin as -> ->.
    vm_compute. constructor.
  - vm_compute. reflexivity.
Defined.

End PendingFacts.

(** ** The simulation engine: the result refines the given relation *)

Module SimInv.
Import Counter Up UpFacts Sim SimFacts SimSpec.
Local Open Scope nat_scope.

(** Case analysis on the outcome bound first in [H], with names. *)
Ltac rstepn H x E :=
  match type of H with
  | rbind ?m _ = Ok _ => destruct m as [x| |] eqn:E; cbn [rbind] in H; [|discriminate H..]
  end.

(** *** Updates that leave the invariant alone *)

Abbreviation same_block b b' := (_index b' = _index b ∧ rings b' ≡ₚ rings b).

Lemma Struct_ext alg alg' :
  block_ alg' = block_ alg →
  Forall2 (λ b b', same_block b b') (_partition alg) (_partition alg') →
  Struct alg → Struct alg'.
Proof.
  intros Hb HF [H1 H2 H3]. pose proof (Forall2_length _ _ _ HF) as Hlen.
  constructor; rewrite ?Hb.
  - intros q b Hq. rewrite <- Hlen. by eapply H1.
  - intros b blk' q Hblk Hq.
    destruct (Forall2_lookup_r _ _ _ _ _ HF Hblk) as (blk & Hblk0 & _ & Hperm).
    apply (H2 b blk); [done|]. by rewrite <- Hperm.
  - intros b blk' Hblk.
    destruct (Forall2_lookup_r _ _ _ _ _ HF Hblk) as (blk & Hblk0 & _ & Hperm).
    rewrite Hperm. by eapply H3.
Qed.

Section Invariant.
Variable R0 : BinaryRelation.
Variable cls : nat → nat.

Abbreviation Inv := (Inv R0 cls).
Abbreviation Good := (Good R0 cls).

Lemma Inv_ext orig alg alg' :
  _relation alg' = _relation alg → block_ alg' = block_ alg →
  Forall2 (λ b b', same_block b b') (_partition alg) (_partition alg') →
  Inv orig alg → Inv orig alg'.
Proof.
  intros Hr Hb HF [HS H1 H2 H3 H4].
  constructor; rewrite ?Hr, ?Hb; try done.
  - by eapply Struct_ext.
  - intros b blk' Hblk.
    destruct (Forall2_lookup_r _ _ _ _ _ HF Hblk) as (blk & Hblk0 & -> & _). by eapply H3.
  - intros q b blk' Hq Hblk.
    destruct (Forall2_lookup_r _ _ _ _ _ HF Hblk) as (blk & Hblk0 & -> & _). by eapply H4.
Qed.

Lemma Forall2_put (l : list OLRTBlock) b blk blk' :
  l !! b = Some blk → same_block blk blk' →
  Forall2 (λ b b', same_block b b') l (<[b := blk']> l).
Proof.
  intros Hl Hs. rewrite <- (list_insert_id l b blk Hl) at 1.
  apply Forall2_insert; [|done]. apply Forall_Forall2_diag, Forall_forall. by intros.
Qed.

Lemma Forall2_same (l : list OLRTBlock) :
  Forall2 (λ b b', same_block b b') l l.
Proof. apply Forall_Forall2_diag, Forall_forall. by intros. Qed.

Lemma get_block_Ok alg b blk : get_block alg b = Ok blk → _partition alg !! b = Some blk.
Proof. apply of_option_Ok. Qed.

Lemma Good_ext alg alg' :
  _relation alg' = _relation alg → block_ alg' = block_ alg →
  Forall2 (λ b b', same_block b b') (_partition alg) (_partition alg') →
  Good alg → Good alg'.
Proof. intros Hr Hb HF [orig HI]. exists orig. by eapply Inv_ext. Qed.

Lemma Good_put_block alg b blk blk' :
  _partition alg !! b = Some blk → same_block blk blk' →
  Good alg → Good (put_block alg b blk').
Proof.
  intros Hblk Hs. apply Good_ext; [done|done|]. by eapply Forall2_put.
Qed.

Lemma Good_fields alg alg' :
  _relation alg' = _relation alg → block_ alg' = block_ alg →
  _partition alg' = _partition alg → Good alg → Good alg'.
Proof.
  intros Hr Hb Hp. apply Good_ext; [done|done|]. rewrite Hp. apply Forall2_same.
Qed.

Lemma Good_rel_false alg a b :
  a ≠ b → Good alg → Good (set_relation alg (rel_set (_relation alg) a b false)).
Proof.
  intros Hne [orig [HS H1 H2 H3 H4]]. exists orig.
  assert (∀ x y, rel_get (rel_set (_relation alg) a b false) x y = true →
                 rel_get (_relation alg) x y = true) as Hsub.
  { intros x y. rewrite rel_get_set. by case_decide. }
  constructor; cbn [_relation _partition block_ set_relation]; try done.
  - by destruct HS.
  - auto.
  - intros x y Hxy. apply Hsub in Hxy. by apply H2.
  - intros k blk Hblk. rewrite rel_get_set. rewrite decide_False; [by eapply H3|].
    intros [-> <-]. done.
Qed.

(** *** Moving states within a block *)

Lemma split_ring_Some q l before after :
  split_ring q l = Some (before, after) → l = before ++ q :: after.
Proof.
  revert before. induction l as [|x l IH]; intros before H; [done|].
  cbn [split_ring] in H. case_decide as Hx.
  - injection H as <- <-. by subst.
  - destruct (split_ring q l) as [[b a]|]; [|done]. cbn in H. injection H as <- <-.
    cbn. f_equal. by apply IH.
Qed.

Lemma move_perm q src dst s t :
  move q src dst = Ok (s, t) → s ++ t ≡ₚ src ++ dst.
Proof.
  unfold move. intros H. rstep H. rstep H. destruct a0 as [before after].
  injection H as <- <-. apply of_option_Ok, split_ring_Some in E0 as ->.
  rewrite (Permutation_app_comm after before), (Permutation_app_comm dst [q]).
  rewrite <- !app_assoc. cbn [app]. apply Permutation_app_head.
  symmetry. apply Permutation_middle.
Qed.

Lemma moveToTmp_same b q b' : moveToTmp b q = Ok b' → same_block b b'.
Proof.
  unfold moveToTmp. intros H. rstep H. destruct a as [s t]. injection H as <-.
  split; [done|]. unfold rings. cbn [_states _tmp set_rings]. by eapply move_perm.
Qed.

Lemma checkEmpty_same b : same_block b (checkEmpty b).2.
Proof.
  unfold checkEmpty. destruct (_states b) eqn:E; [|done]. split; [done|].
  unfold rings. cbn [_states _tmp set_rings snd]. by rewrite E, app_nil_r.
Qed.

End Invariant.

(** *** A new block *)

Lemma rel_get_split r idx a b :
  rel_get (rel_split r idx true).1 a b = true ↔
  rel_get r a b = true
  ∨ (a = rel_size r ∧ rel_get r idx b = true)
  ∨ (b = rel_size r ∧ rel_get r a idx = true)
  ∨ (a = rel_size r ∧ b = rel_size r).
Proof.
  unfold rel_get, rel_split. cbn [fst rel_data]. rewrite !bool_decide_eq_true.
  rewrite !elem_of_union, !elem_of_map, elem_of_singleton. split.
  - intros [[[?|([x y] & [= -> ->] & Hxy)]|([x y] & [= -> ->] & Hxy)]|[= -> ->]].
    + by left.
    + apply elem_of_filter in Hxy as [Hx Hin]. cbn in Hx. subst x. right. left. done.
    + apply elem_of_filter in Hxy as [Hy Hin]. cbn in Hy. subst y. right. right. left. done.
    + right. right. right. done.
  - intros [?|[[-> Hin]|[[-> Hin]|[-> ->]]]].
    + by left; left; left.
    + left. left. right. exists (idx, b). split; [done|]. by apply elem_of_filter.
    + left. right. exists (a, idx). split; [done|]. by apply elem_of_filter.
    + by right.
Qed.

Section Push.
Variable lts : ExplicitLTS.

Lemma pushNewBlock_fields alg parent index alg' :
  pushNewBlock lts alg parent index = Ok alg' →
  ∃ p pins ins,
    _partition alg !! parent = Some p ∧ _tmp p ≠ []
    ∧ _partition alg'
      = <[parent := set_inset (set_rings p (_states p) []) pins]> (_partition alg)
        ++ [Block index (_tmp p) (replicate (labels lts) None)
              (replicate (length (_counter p)) None) ins []]
    ∧ block_ alg' = foldr (λ q, <[q := length (_partition alg)]>) (block_ alg) (_tmp p)
    ∧ _relation alg' = _relation alg.
Proof.
  unfold pushNewBlock. intros H. rstep H. rstep H. rstep H. destruct a1 as [pins ins].
  injection H as <-. apply get_block_Ok in E.
  exists a, pins, ins. split; [done|]. split; [|done].
  by destruct (decide (_tmp a = [])) as [Ht|Ht];
    [rewrite bool_decide_eq_false_2 in E0 by (by intros ?)|].
Qed.

Lemma length_foldr_ins (v : nat) (c blk : list nat) :
  length (foldr (λ q, <[q := v]>) blk c) = length blk.
Proof. induction c as [|y c IH]; cbn [foldr]; [done|]. by rewrite length_insert. Qed.

Lemma foldr_ins_in (v : nat) (c blk : list nat) (q : nat) :
  q ∈ c → q < length blk → foldr (λ q, <[q := v]>) blk c !! q = Some v.
Proof.
  induction c as [|x c IH]; intros Hq Hlt; [by apply elem_of_nil in Hq|]. cbn [foldr].
  destruct (decide (x = q)) as [->|Hne].
  - apply list_lookup_insert_eq. by rewrite length_foldr_ins.
  - rewrite list_lookup_insert_ne by done. apply IH; [|done].
    apply elem_of_cons in Hq as [->|Hq]; done.
Qed.

Lemma foldr_ins_out (v : nat) (c blk : list nat) (q : nat) :
  q ∉ c → foldr (λ q, <[q := v]>) blk c !! q = blk !! q.
Proof.
  induction c as [|x c IH]; intros Hq; [done|]. cbn [foldr].
  apply not_elem_of_cons in Hq as [Hne Hq]. rewrite list_lookup_insert_ne by done.
  by apply IH.
Qed.

(** What [pushNewBlock] does to the partition and to [block_]. *)
Lemma pushNewBlock_spec alg parent index alg' :
  Struct alg → pushNewBlock lts alg parent index = Ok alg' →
  ∃ p, _partition alg !! parent = Some p
    ∧ Struct alg'
    ∧ _relation alg' = _relation alg
    ∧ length (_partition alg') = S (length (_partition alg))
    ∧ length (block_ alg') = length (block_ alg)
    ∧ (∀ b blk', _partition alg' !! b = Some blk' →
         (b = length (_partition alg) ∧ _index blk' = index
          ∧ _states blk' = _tmp p ∧ _tmp blk' = [])
         ∨ (b = parent ∧ _index blk' = _index p
            ∧ _states blk' = _states p ∧ _tmp blk' = [])
         ∨ (b ≠ parent ∧ _partition alg !! b = Some blk'))
    ∧ (∀ q bq, block_ alg' !! q = Some bq →
         (q ∈ _tmp p ∧ bq = length (_partition alg) ∧ block_ alg !! q = Some parent)
         ∨ ((q ∉ _tmp p) ∧ block_ alg !! q = Some bq)).
Proof.
  intros [H1 H2 H3] H.
  apply pushNewBlock_fields in H as (p & pins & ins & Hp & Htmp & Hpart & Hblk & Hrel).
  exists p. split; [done|].
  assert (parent < length (_partition alg)) as Hparent by (by eapply lookup_lt_Some).
  assert (∀ b blk', _partition alg' !! b = Some blk' →
         (b = length (_partition alg) ∧ _index blk' = index
          ∧ _states blk' = _tmp p ∧ _tmp blk' = [])
         ∨ (b = parent ∧ _index blk' = _index p
            ∧ _states blk' = _states p ∧ _tmp blk' = [])
         ∨ (b ≠ parent ∧ _partition alg !! b = Some blk')) as Hblocks.
  { intros b blk'. rewrite Hpart. intros Hb.
    apply lookup_app_Some in Hb as [Hb|[Hge Hb]].
    - right. destruct (decide (b = parent)) as [->|Hne].
      + left. rewrite list_lookup_insert_eq in Hb by done. by injection Hb as <-.
      + right. by rewrite list_lookup_insert_ne in Hb.
    - left. rewrite length_insert in Hge, Hb.
      apply list_lookup_singleton_Some in Hb as [Hb <-]. split; [lia|done]. }
  assert (∀ q bq, block_ alg' !! q = Some bq →
         (q ∈ _tmp p ∧ bq = length (_partition alg) ∧ block_ alg !! q = Some parent)
         ∨ ((q ∉ _tmp p) ∧ block_ alg !! q = Some bq)) as Hstates.
  { intros q bq. rewrite Hblk. intros Hq.
    destruct (decide (q ∈ _tmp p)) as [Hin|Hout].
    - left. assert (block_ alg !! q = Some parent) as Hold.
      { apply (H2 parent p); [done|]. unfold rings. apply elem_of_app. by right. }
      rewrite foldr_ins_in in Hq; [|done|by eapply lookup_lt_Some].
      by injection Hq as <-.
    - right. by rewrite foldr_ins_out in Hq. }
  assert (NoDup (_states p) ∧ NoDup (_tmp p)
          ∧ ∀ q, q ∈ _states p → q ∉ _tmp p) as (Hnd1 & Hnd2 & Hdisj).
  { specialize (H3 parent p Hp). unfold rings in H3.
    apply NoDup_app in H3 as (? & ? & ?). done. }
  split; [|split; [done|]; split; [|split; [|done]]].
  - constructor.
    + intros q bq Hq. rewrite Hpart, length_app, length_insert. cbn [length].
      destruct (Hstates q bq Hq) as [(_ & -> & _)|[_ Hold]]; [lia|].
      apply H1 in Hold. lia.
    + intros b blk' q Hb Hq. rewrite Hblk.
      destruct (Hblocks b blk' Hb) as [(-> & _ & Hs & Ht)|[(-> & _ & Hs & Ht)|[Hne Hold]]].
      * unfold rings in Hq. rewrite Hs, Ht, app_nil_r in Hq.
        apply foldr_ins_in; [done|]. eapply lookup_lt_Some, (H2 parent p); [done|].
        unfold rings. apply elem_of_app. by right.
      * unfold rings in Hq. rewrite Hs, Ht, app_nil_r in Hq.
        rewrite foldr_ins_out by auto. apply (H2 parent p); [done|].
        unfold rings. apply elem_of_app. by left.
      * rewrite foldr_ins_out; [by eapply H2|]. intros Hin.
        assert (block_ alg !! q = Some parent) as Hq1.
        { apply (H2 parent p); [done|]. unfold rings. apply elem_of_app. by right. }
        assert (block_ alg !! q = Some b) as Hq2 by (by eapply H2). congruence.
    + intros b blk' Hb.
      destruct (Hblocks b blk' Hb) as [(-> & _ & Hs & Ht)|[(-> & _ & Hs & Ht)|[Hne Hold]]].
      * unfold rings. by rewrite Hs, Ht, app_nil_r.
      * unfold rings. by rewrite Hs, Ht, app_nil_r.
      * by eapply H3.
  - rewrite Hpart, length_app, length_insert. cbn [length]. lia.
  - by rewrite Hblk, length_foldr_ins.
Qed.

Section Invariant.
Variable R0 : BinaryRelation.
Variable cls : nat → nat.

Abbreviation Good := (Good R0 cls).

(** The step that splits a block: the relation gets a new index that stands
    to the others as the index of the block does, and the states set aside
    in [tmp] become a block of that index. *)
Lemma Good_split_step alg block b' relation newIndex alg2 :
  Good alg → _partition alg !! block = Some b' →
  rel_split (_relation alg) (_index b') true = (relation, newIndex) →
  pushNewBlock lts (set_relation alg relation) block newIndex = Ok alg2 →
  Good alg2.
Proof.
  intros [orig [HS H1 H2 H3 H4]] Hb' Hsplit Hpush.
  assert (relation = (rel_split (_relation alg) (_index b') true).1) as Hrel
    by (by rewrite Hsplit).
  assert (rel_size relation = S (rel_size (_relation alg))) as Hsize
    by (by injection Hsplit as <- _).
  assert (newIndex = rel_size (_relation alg)) as -> by (by injection Hsplit as _ <-).
  set (n := rel_size (_relation alg)) in *.
  assert (Struct (set_relation alg relation)) as HS1 by (by destruct HS).
  destruct (pushNewBlock_spec _ _ _ _ HS1 Hpush)
    as (p & Hp & HS2 & Hrel2 & Hlen & Hlenb & Hblocks & Hstates).
  cbn [set_relation _partition _relation block_] in *.
  assert (p = b') as -> by congruence.
  assert (_index b' < n) as Hidx.
  { by destruct (H2 _ _ (H3 _ _ Hb')). }
  assert (∀ b blk, _partition alg !! b = Some blk → _index blk < n) as Hidxs.
  { intros b blk Hblk. by destruct (H2 _ _ (H3 _ _ Hblk)). }
  exists (λ x, if decide (x = n) then orig (_index b') else orig x).
  constructor; rewrite ?Hrel2; try done.
  - intros a b. rewrite Hrel, rel_get_split. fold n. cbn beta.
    intros [Hab|[[-> Hb]|[[-> Ha]|[-> ->]]]].
    + destruct (H2 _ _ Hab). rewrite !decide_False by lia. by apply H1.
    + destruct (H2 _ _ Hb). rewrite decide_True by done. rewrite decide_False by lia.
      by apply H1.
    + destruct (H2 _ _ Ha). rewrite decide_False by lia. rewrite decide_True by done.
      by apply H1.
    + rewrite !decide_True by done. apply H1. by eapply H3.
  - intros a b. rewrite Hsize, Hrel, rel_get_split. fold n.
    intros [Hab|[[-> Hb]|[[-> Ha]|[-> ->]]]].
    + destruct (H2 _ _ Hab). lia.
    + destruct (H2 _ _ Hb). lia.
    + destruct (H2 _ _ Ha). lia.
    + lia.
  - intros b blk' Hblk'. rewrite Hrel, rel_get_split. fold n.
    destruct (Hblocks b blk' Hblk') as [(-> & -> & _)|[(-> & -> & _)|[Hne Hold]]].
    + right. right. right. done.
    + left. by eapply H3.
    + left. by eapply H3.
  - intros q bq blk' Hq Hblk'.
    destruct (Hstates q bq Hq) as [(Hin & -> & Hold)|[Hout Hold]].
    + destruct (Hblocks _ blk' Hblk') as [(_ & -> & _)|[(Hpar & _)|[_ Hlk]]].
      * rewrite decide_True by done. by eapply H4.
      * apply lookup_lt_Some in Hb'. lia.
      * apply lookup_lt_Some in Hlk. lia.
    + destruct (Hblocks _ blk' Hblk') as [(-> & _)|[(-> & -> & _)|[_ Hlk]]].
      * destruct HS as [Hblock _ _]. apply Hblock in Hold. lia.
      * rewrite decide_False by lia. by eapply H4.
      * specialize (Hidxs _ _ Hlk). rewrite decide_False by lia. by eapply H4.
Qed.

Lemma Good_update alg alg' b blk blk' :
  _relation alg' = _relation alg → block_ alg' = block_ alg →
  _partition alg' = <[b := blk']> (_partition alg) →
  _partition alg !! b = Some blk → same_block blk blk' →
  Good alg → Good alg'.
Proof.
  intros Hr Hb Hp Hblk Hs. apply Good_ext; [done|done|]. rewrite Hp. by eapply Forall2_put.
Qed.

Lemma Good_same alg alg' :
  _relation alg' = _relation alg → block_ alg' = block_ alg →
  _partition alg' = _partition alg → Good alg → Good alg'.
Proof. apply Good_fields. Qed.

Ltac good_update alg b blk :=
  eapply (Good_update alg _ _ blk);
  [reflexivity|reflexivity|reflexivity|eassumption|first [eassumption|done]|eassumption].

(** *** The loops of [init] and [run] keep the invariant *)

Lemma internalSplit_good alg remove alg' blocks :
  internalSplit alg remove = Ok (alg', blocks) → Good alg → Good alg'.
Proof.
  unfold internalSplit. intros H HG. rstep H. injection H as <- _.
  revert E. apply (rfold_invariant (λ st : OLRTAlgorithm * (list nat * list nat), Good st.1));
    [|done].
  clear. intros [alg acc] q [alg' acc'] _ HG H. cbn [fst] in *.
  rstep H. rstep H. rstep H. rstep H. rstep H. injection H as <- _.
  apply get_block_Ok in E1. apply moveToTmp_same in E2.
  good_update alg a0 a1.
Qed.

Lemma fastSplit_good alg remove alg' :
  fastSplit lts alg remove = Ok alg' → Good alg → Good alg'.
Proof.
  unfold fastSplit. intros H HG. rstep H. destruct a as [alg1 blocks].
  apply internalSplit_good in E; [|done].
  revert E H. apply rfold_invariant.
  clear. intros alg block alg' _ HG H. rstep H. apply get_block_Ok in E.
  pose proof (checkEmpty_same a) as Hsame.
  assert (Good (put_block alg block (checkEmpty a).2)) as HG1
    by good_update alg block a.
  case_bool_decide as Ht; [by injection H as <-|].
  destruct (rel_split _ _ _) as [relation newIndex] eqn:Hsplit.
  eapply Good_split_step; [exact HG1| |exact Hsplit|exact H].
  cbn [put_block set_partition _partition].
  apply list_lookup_insert_eq. by eapply lookup_lt_Some.
Qed.

Lemma split_good alg remove alg' removeList :
  split lts alg remove = Ok (alg', removeList) → Good alg → Good alg'.
Proof.
  unfold split. intros H HG. rstep H. destruct a as [alg1 blocks].
  apply internalSplit_good in E; [|done].
  revert H. apply (rfold_invariant (λ st : OLRTAlgorithm * list nat, Good st.1)); [|done].
  clear. intros [alg acc] block [alg' acc'] _ HG H. cbn [fst] in *.
  rstep H. apply get_block_Ok in E.
  pose proof (checkEmpty_same a) as Hsame.
  destruct (checkEmpty a) as [empty b'] eqn:Hce. cbn [snd] in Hsame.
  assert (Good (put_block alg block b')) as HG1 by good_update alg block a.
  destruct empty; [by injection H as <- _|].
  rstep H. destruct (rel_split _ _ _) as [relation newIndex] eqn:Hsplit.
  rstep H. rstep H. rstep H. injection H as <- _.
  assert (Good a1) as HG2.
  { eapply Good_split_step; [exact HG1| |exact Hsplit|exact E1].
    cbn [put_block set_partition _partition].
    apply list_lookup_insert_eq. by eapply lookup_lt_Some. }
  revert E3. apply rfold_invariant; [|done].
  intros algc lbl algc' _ HGc Hc.
  rstepn Hc new Enew. rstepn Hc b Eb. rstepn Hc ch Ecopy. destruct ch as [c h].
  rstepn Hc r Er. apply get_block_Ok in Enew.
  assert (same_block new (set_counter new (data_ c))) as Hs1 by done.
  destruct r as [l|]; injection Hc as <-.
  - assert (same_block new (set_remove (set_counter new (data_ c))
                              (<[lbl:=Some l]> (_remove (set_counter new (data_ c))))))
      as Hs2 by done.
    good_update algc 0 new.
  - good_update algc 0 new.
Qed.

Lemma enqueueToRemove_good alg block label state alg' :
  enqueueToRemove alg block label state = Ok alg' → Good alg → Good alg'.
Proof.
  unfold enqueueToRemove. intros H HG. rstep H. rstep H. apply get_block_Ok in E.
  injection H as <-.
  assert (same_block a (set_remove a (<[label:=Some (default [] a0 ++ [state])]> (_remove a))))
    as Hs by done.
  destruct a0; good_update alg block a.
Qed.

Lemma decrement_good b1 a alg pre2 alg' :
  decrement lts b1 a alg pre2 = Ok alg' → Good alg → Good alg'.
Proof.
  unfold decrement. intros H HG. rstep H. rstep H. destruct a1 as [[[n c] h] va].
  apply get_block_Ok in E.
  assert (same_block a0 (set_counter a0 (data_ c))) as Hs by done.
  assert (Good (put_block (set_heap alg h va) b1 (set_counter a0 (data_ c)))) as HG1
    by good_update alg b1 a0.
  destruct (n =? 0)%Z; [by eapply enqueueToRemove_good|by injection H as <-].
Qed.

Lemma processRemove_good alg block label alg' :
  processRemove lts alg block label = Ok alg' → Good alg → Good alg'.
Proof.
  unfold processRemove. intros H HG. rstep H. rstep H. rstep H. rstep H. rstep H.
  destruct a3 as [alg1 removeList]. apply get_block_Ok in E.
  assert (same_block a (set_remove a (<[label:=None]> (_remove a)))) as Hs by done.
  apply split_good in E3; [|good_update alg block a].
  revert H. apply rfold_invariant; [|done]. clear.
  intros alg b1 alg' _ HG. apply rfold_invariant; [|done]. clear.
  intros alg b2 alg' _ HG H. rstep H. rstep H. rstep H.
  destruct (negb (rel_get _ _ _)); [by injection H as <-|].
  assert (_index a ≠ _index a0) as Hne.
  { destruct (Nat.eqb_spec (_index a) (_index a0)); [discriminate E1|done]. }
  revert H. apply rfold_invariant; [|by apply Good_rel_false]. clear.
  intros alg lbl alg' _ HG H. rstep H.
  destruct (negb (ss_contains _ _)); [by injection H as <-|].
  rstep H. revert H. apply rfold_invariant; [|done]. clear.
  intros alg pre2 alg' _ HG H. by eapply decrement_good.
Qed.

Lemma run_good fuel : ∀ alg alg',
  run lts fuel alg = Ok alg' → Good alg → Good alg'.
Proof.
  induction fuel as [|fuel IH]; intros alg alg' H HG; cbn [run] in H.
  - destruct (_queue alg) as [|[block label] rest]; [by injection H as <-|done].
  - destruct (_queue alg) as [|[block label] rest]; [by injection H as <-|].
    rstep H. eapply IH; [exact H|]. eapply processRemove_good; [exact E|].
    by apply (Good_same alg).
Qed.

Lemma init_prune_good alg pre noPre alg' :
  init_prune alg pre noPre = Ok alg' → Good alg → Good alg'.
Proof.
  unfold init_prune. intros H HG. revert H. apply rfold_invariant; [|done].
  intros alg1 b1 alg1' _ HG1 H1. rstep H1. revert H1. apply rfold_invariant; [|done].
  intros alg2 a2 alg2' _ HG2 H2. rstep H2. revert H2. apply rfold_invariant; [|done].
  intros alg3 b2 alg3' _ HG3 H3. rstepn H3 u Eu. injection H3 as <-.
  apply Good_rel_false; [|done].
  destruct (Nat.eqb_spec b1 b2); [discriminate Eu|done].
Qed.

Lemma init_counter_good i a alg alg' :
  init_counter lts i a alg = Ok alg' → Good alg → Good alg'.
Proof.
  unfold init_counter. intros H HG.
  rstepn H d Ed. rstepn H bi Ebi. rstepn H alg1 Ealg1. rstepn H s Es.
  assert (Good alg1) as HG1.
  { revert Ealg1. apply rfold_invariant; [|done].
    intros alg2 q alg2' _ HG2. apply rfold_invariant; [|done].
    intros alg3 r alg3' _ HG3 H3. rstepn H3 rb Erb. rstepn H3 rblock Erblock.
    destruct (rel_get _ _ _); [|by injection H3 as <-].
    rstepn H3 b Eb. rstepn H3 chv Eincr. destruct chv as [[c h] va]. injection H3 as <-.
    apply get_block_Ok in Eb.
    assert (same_block b (set_counter b (data_ c))) as Hs by done.
    good_update alg3 i b. }
  case_bool_decide; [by injection H as <-|].
  rstepn H b Eb. rstepn H u Eu. injection H as <-. apply get_block_Ok in Eb.
  assert (same_block b (set_remove b (<[a:=Some (ss_elements s)]> (_remove b))))
    as Hs by done.
  good_update alg1 i b.
Qed.

End Invariant.

(** *** The blocks of the given partition *)

Lemma moveToTmp_tmp b q b' :
  moveToTmp b q = Ok b' → _index b' = _index b ∧ _tmp b' = _tmp b ++ [q].
Proof.
  unfold moveToTmp, move. intros H. rstepn H st Est. destruct st as [s t].
  injection H as <-. rstepn Est u Eu. rstepn Est ba Eba. destruct ba as [before after].
  by injection Est as <- <-.
Qed.

Lemma makeBlock_moves block : ∀ l algx algy,
  rfold (makeBlock_move block) algx l = Ok algy → Struct algx →
  Struct algy
  ∧ block_ algy = block_ algx
  ∧ length (_partition algy) = length (_partition algx)
  ∧ (∀ b, b ≠ block → _partition algy !! b = _partition algx !! b)
  ∧ (∀ blk, _partition algx !! block = Some blk →
       ∃ blk', _partition algy !! block = Some blk'
         ∧ _index blk' = _index blk ∧ _tmp blk' = _tmp blk ++ l)
  ∧ (∀ q, q ∈ l → block_ algx !! q = Some block).
Proof.
  induction l as [|q l IH]; intros algx algy H HS; cbn [rfold] in H.
  - injection H as <-. split; [done|]. split; [done|]. split; [done|].
    split; [done|]. split.
    + intros blk Hblk. exists blk. by rewrite app_nil_r.
    + by intros q ?%elem_of_nil.
  - rstepn H alg1 Estep. unfold makeBlock_move in Estep.
    rstepn Estep eb Eeb. rstepn Estep u Eu. rstepn Estep b Eb. rstepn Estep u2 Eu2.
    rstepn Estep b' Eb'. injection Estep as <-.
    apply of_option_Ok in Eeb. apply get_block_Ok in Eb.
    assert (eb = block) as ->.
    { destruct (Nat.eqb_spec block eb); [done|discriminate Eu]. }
    pose proof (moveToTmp_same _ _ _ Eb') as Hsame.
    apply moveToTmp_tmp in Eb' as [Hidx Htmp].
    assert (block < length (_partition algx)) as Hlt by (by eapply lookup_lt_Some).
    assert (Struct (put_block algx block b')) as HS1.
    { eapply Struct_ext; [| |exact HS]; [done|]. by eapply Forall2_put. }
    destruct (IH _ _ H HS1) as (HSy & Hby & Hlen & Hother & Hblock & Hin).
    cbn [put_block set_partition _partition block_] in *.
    rewrite length_insert in Hlen.
    split; [done|]. split; [done|]. split; [done|]. split; [|split].
    + intros b0 Hne. rewrite Hother by done. by rewrite list_lookup_insert_ne.
    + intros blk Hblk. assert (blk = b) as -> by congruence.
      destruct (Hblock b') as (blk' & Hy & Hi & Ht);
        [by apply list_lookup_insert_eq|].
      exists blk'. split; [done|]. split; [congruence|].
      rewrite Ht, Htmp, <- app_assoc. done.
    + intros q' [->|Hq']%elem_of_cons; [done|]. by apply Hin.
Qed.

Lemma makeBlock_made0 done alg c alg' :
  Made0 lts done alg → makeBlock lts alg c (S (length done)) = Ok alg' →
  (∀ q, q ∈ c → q ∉ concat done) →
  Made0 lts (done ++ [c]) alg'.
Proof.
  intros [HS Hlen Hst Hidx Hcls Hrest] H Hfresh. unfold makeBlock in H.
  rstepn H front Efront. rstepn H parent Eparent. rstepn H alg1 Emoves.
  rstepn H b Eb. rstepn H u1 Eu1. rstepn H u2 Eu2.
  apply of_option_Ok in Eparent. apply get_block_Ok in Eb.
  destruct (makeBlock_moves _ _ _ _ Emoves HS)
    as (HS1 & Hb1 & Hlen1 & Hother & Hblock & Hin).
  assert (parent < length (_partition alg)) as Hlt.
  { destruct HS as [Hbl _ _]. by eapply Hbl. }
  destruct (lookup_lt_is_Some_2 _ _ Hlt) as [blk0 Hblk0].
  destruct (Hblock _ Hblk0) as (blk1 & Hblk1 & Hi1 & Ht1).
  assert (blk1 = b) as -> by congruence.
  destruct (Hidx _ _ Hblk0) as [Hi0 Ht0]. rewrite Ht0 in Ht1. cbn [app] in Ht1.
  destruct (pushNewBlock_spec _ _ _ _ HS1 H)
    as (p & Hp & HS2 & Hrel2 & Hlen2 & Hlenb2 & Hblocks & Hstates).
  assert (p = b) as -> by congruence.
  assert (∀ q bq, block_ alg !! q = Some bq → q ∉ c → block_ alg' !! q = Some bq) as Hkeep.
  { intros q bq Hq Hqc.
    destruct (lookup_lt_is_Some_2 (block_ alg') q) as [bq' Hbq'].
    { rewrite Hlenb2, Hb1. by eapply lookup_lt_Some. }
    destruct (Hstates _ _ Hbq') as [(Hin' & _)|[_ Hold]].
    - by rewrite Ht1 in Hin'.
    - rewrite Hb1 in Hold. congruence. }
  constructor.
  - done.
  - rewrite Hlen2, Hlen1, Hlen, length_app. cbn [length]. lia.
  - by rewrite Hlenb2, Hb1.
  - intros b0 blk' Hb0.
    destruct (Hblocks _ _ Hb0) as [(-> & -> & _ & Ht)|[(-> & -> & _ & Ht)|[Hne Hold]]].
    + split; [|done]. rewrite Hlen1, Hlen. done.
    + split; [|done]. congruence.
    + rewrite Hother in Hold by done. by apply Hidx.
  - intros j c0 q Hj Hq. apply lookup_app_Some in Hj as [Hj|[Hge Hj]].
    + apply Hkeep; [by eapply Hcls|]. intros Hqc. apply (Hfresh q Hqc).
      apply elem_of_classes. exists c0. split; [by eapply list_elem_of_lookup_2|done].
    + apply list_lookup_singleton_Some in Hj as [Hj <-].
      assert (j = length done) as -> by lia.
      assert (block_ alg !! q = Some parent) as Hold by (by apply Hin).
      destruct (lookup_lt_is_Some_2 (block_ alg') q) as [bq' Hbq'].
      { rewrite Hlenb2, Hb1. by eapply lookup_lt_Some. }
      destruct (Hstates _ _ Hbq') as [(_ & -> & _)|[Hout _]].
      * rewrite Hbq'. f_equal. rewrite Hlen1, Hlen. done.
      * by rewrite Ht1 in Hout.
  - intros q Hq Hn. rewrite concat_app in Hn. cbn [concat] in Hn.
    rewrite app_nil_r in Hn. apply not_elem_of_app in Hn as [Hn1 Hn2].
    apply Hkeep; [by apply Hrest|done].
Qed.

Lemma makeBlocks_made0 : ∀ rest done alg alg',
  Made0 lts done alg →
  rfold (λ alg '(i, cls), makeBlock lts alg cls i) alg
    (imap (λ i c, (S (length done + i), c)) rest) = Ok alg' →
  NoDup (concat (done ++ rest)) →
  Made0 lts (done ++ rest) alg'.
Proof.
  induction rest as [|c rest IH]; intros done alg alg' Hmade H Hnd; cbn [imap rfold] in H.
  - injection H as <-. by rewrite app_nil_r.
  - rstepn H alg1 Emake. rewrite Nat.add_0_r in Emake.
    apply (makeBlock_made0 _ _ _ _ Hmade) in Emake.
    2:{ intros q Hq Hqd. rewrite concat_app in Hnd.
        apply NoDup_app in Hnd as (_ & Hdisj & _). apply (Hdisj q Hqd).
        rewrite concat_cons. apply elem_of_app. by left. }
    replace (done ++ c :: rest) with ((done ++ [c]) ++ rest) in *
      by (by rewrite <- app_assoc).
    apply (IH _ _ _ Emake); [|done].
    rewrite <- H. f_equal. apply imap_ext. intros i x _. cbn.
    rewrite length_app. cbn [length]. f_equal. lia.
Qed.

Lemma make_made0 alg0 : make lts = Ok alg0 → Made0 lts [] alg0.
Proof.
  unfold make. intros H. rstepn H u Eu. injection H as <-.
  constructor; cbn [_partition block_ length concat].
  - constructor; cbn [_partition block_ length].
    + intros q b Hq. apply lookup_replicate in Hq as [-> _]. lia.
    + intros [|b] blk q Hb Hq; [|done]. injection Hb as <-.
      unfold rings in Hq. cbn [_states _tmp] in Hq. rewrite app_nil_r in Hq.
      apply elem_of_seq in Hq. apply lookup_replicate_2. lia.
    + intros [|b] blk Hb; [|done]. injection Hb as <-.
      unfold rings. cbn [_states _tmp]. rewrite app_nil_r. apply NoDup_seq.
  - done.
  - by rewrite length_replicate.
  - intros [|b] blk Hb; [|done]. by injection Hb as <-.
  - by intros [|j] c q Hj.
  - intros q Hq _. by apply lookup_replicate_2.
Qed.

(** [isPartition] returned [true]: no state occurs twice, and every state
    is one of the LTS. *)
Lemma isPartition_true_walk (n : nat) : ∀ (l seen : list nat) (mask mask' : list bool),
  rfold (λ '(mask, ok) q,
           if ok : bool then
             seen ←ʳ of_option (mask !! q);
             if seen : bool then Ok (mask, false) else Ok (<[q := true]> mask, true)
           else Ok (mask, ok))
        (mask, true) l = Ok (mask', true) →
  length mask = n → NoDup seen →
  (∀ q, q < n → mask !! q = Some (bool_decide (q ∈ seen))) →
  NoDup (seen ++ l) ∧ Forall (λ q, q < n) l.
Proof.
  induction l as [|q l IH]; intros seen mask mask' H Hlen Hseen Hmask; cbn [rfold] in H.
  - by rewrite app_nil_r.
  - rstepn H st Est. rstepn Est b Eb. apply of_option_Ok in Eb.
    assert (q < n) as Hq by (rewrite <- Hlen; by eapply lookup_lt_Some).
    rewrite (Hmask q Hq) in Eb. injection Eb as <-.
    case_bool_decide as Hin; injection Est as <-.
    + rewrite SimMore.isPartition_stopped in H. discriminate H.
    + destruct (IH (seen ++ [q]) _ _ H) as [Hnd Hall].
      * by rewrite length_insert.
      * apply NoDup_app. split; [done|]. split; [|apply NoDup_singleton].
        intros x Hx Hxq. apply list_elem_of_singleton in Hxq. by subst.
      * intros q' Hq'. destruct (decide (q' = q)) as [->|Hne].
        -- rewrite list_lookup_insert_eq by lia.
           f_equal. symmetry. apply bool_decide_eq_true_2. set_solver.
        -- rewrite list_lookup_insert_ne by done. rewrite Hmask by done. f_equal.
           apply bool_decide_ext. set_solver.
      * rewrite <- app_assoc in Hnd. split; [done|]. by constructor.
Qed.

Lemma isPartition_Ok_true part n :
  isPartition part n = Ok true →
  NoDup (concat part) ∧ Forall (λ q, q < n) (concat part).
Proof.
  unfold isPartition. intros H. rstepn H st Est. destruct st as [mask' ok].
  injection H as ->.
  apply (isPartition_true_walk n _ [] _ _ Est).
  - by rewrite length_replicate.
  - constructor.
  - intros q Hq. by rewrite lookup_replicate_2.
Qed.

(** *** The result *)

Lemma buildResult_row_partial alg i blocki : ∀ (l : list nat) result result',
  rfold (λ result j,
           bj ←ʳ of_option (block_ alg !! j);
           blockj ←ʳ get_block alg bj;
           Ok (rel_set result i j
                 (rel_get (_relation alg) (_index blocki) (_index blockj))))
        result l = Ok result' →
  NoDup l →
  (∀ j, j ∈ l → ∃ bj blockj,
      block_ alg !! j = Some bj ∧ _partition alg !! bj = Some blockj
      ∧ rel_get result' i j = rel_get (_relation alg) (_index blocki) (_index blockj))
  ∧ (∀ i' j, ¬ (i' = i ∧ j ∈ l) → rel_get result' i' j = rel_get result i' j).
Proof.
  induction l as [|j l IH]; intros result result' H Hnd; cbn [rfold] in H.
  - injection H as <-. split; [by intros j ?%elem_of_nil|done].
  - rstepn H r1 Estep. rstepn Estep bj Ebj. rstepn Estep blockj Eblockj.
    injection Estep as <-. apply of_option_Ok in Ebj. apply get_block_Ok in Eblockj.
    apply NoDup_cons in Hnd as [Hj Hnd].
    destruct (IH _ _ H Hnd) as [Hin Hout]. split.
    + intros j' [->|Hj']%elem_of_cons; [|by apply Hin].
      exists bj, blockj. split; [done|]. split; [done|].
      rewrite Hout by tauto. rewrite rel_get_set. by rewrite decide_True.
    + intros i' j' Hn. rewrite Hout by (rewrite elem_of_cons in Hn; tauto).
      rewrite rel_get_set. rewrite decide_False; [done|].
      rewrite elem_of_cons in Hn. tauto.
Qed.

Lemma buildResult_partial alg size result :
  buildResult alg size = Ok result →
  ∀ i j, i < size → j < size →
    ∃ bi blocki bj blockj,
      block_ alg !! i = Some bi ∧ _partition alg !! bi = Some blocki
      ∧ block_ alg !! j = Some bj ∧ _partition alg !! bj = Some blockj
      ∧ rel_get result i j = rel_get (_relation alg) (_index blocki) (_index blockj).
Proof.
  unfold buildResult. intros H.
  assert (∀ (l : list nat) result0 result', NoDup l →
    rfold (λ result i,
             bi ←ʳ of_option (block_ alg !! i);
             blocki ←ʳ get_block alg bi;
             rfold (λ result j,
                      bj ←ʳ of_option (block_ alg !! j);
                      blockj ←ʳ get_block alg bj;
                      Ok (rel_set result i j
                            (rel_get (_relation alg) (_index blocki) (_index blockj))))
                   result (seq 0 size))
          result0 l = Ok result' →
    (∀ i j, i ∈ l → j < size → ∃ bi blocki bj blockj,
        block_ alg !! i = Some bi ∧ _partition alg !! bi = Some blocki
        ∧ block_ alg !! j = Some bj ∧ _partition alg !! bj = Some blockj
        ∧ rel_get result' i j = rel_get (_relation alg) (_index blocki) (_index blockj))
    ∧ (∀ i j, i ∉ l → rel_get result' i j = rel_get result0 i j)) as Hrows.
  { induction l as [|i l IH]; intros result0 result' Hnd Hl; cbn [rfold] in Hl.
    - injection Hl as <-. split; [by intros i j ?%elem_of_nil|done].
    - rstepn Hl r1 Estep. rstepn Estep bi Ebi. rstepn Estep blocki Eblocki.
      apply of_option_Ok in Ebi. apply get_block_Ok in Eblocki.
      apply NoDup_cons in Hnd as [Hi Hnd].
      destruct (buildResult_row_partial _ _ _ _ _ _ Estep (NoDup_seq 0 size))
        as [Hin1 Hout1].
      destruct (IH _ _ Hnd Hl) as [Hin Hout]. split.
      + intros i' j [->|Hi']%elem_of_cons Hj; [|by apply Hin].
        destruct (Hin1 j) as (bj & blockj & ? & ? & Hget); [apply elem_of_seq; lia|].
        exists bi, blocki, bj, blockj. repeat (split; [done|]).
        by rewrite Hout.
      + intros i' j Hi'. apply not_elem_of_cons in Hi' as [Hne Hi'].
        rewrite Hout by done. apply Hout1. tauto. }
  destruct (Hrows _ _ _ (NoDup_seq 0 size) H) as [Hres _].
  intros i j Hi Hj. apply Hres; [|done]. apply elem_of_seq. lia.
Qed.

(** *** [init], and the whole computation *)

Lemma drop_imap_pair (P : list (list nat)) :
  drop 1 (imap pair P) = imap (λ i c, (S (length (@nil (list nat)) + i), c)) (drop 1 P).
Proof. destruct P as [|c0 cs]; [done|]. cbn [imap drop]. by apply imap_ext. Qed.

Lemma init_good alg0 P R0 alg1 :
  make lts = Ok alg0 → init lts alg0 P R0 = Ok alg1 → within_size R0 →
  ∃ cls, Good R0 cls alg1
    ∧ ∀ ci c q, P !! ci = Some c → q ∈ c → cls q = ci.
Proof.
  intros Hmake H Hwithin. unfold init in H.
  rstepn H ok Eok. rstepn H u Eu. destruct ok; [|discriminate Eu].
  apply isPartition_Ok_true in Eok as [Hnd Hrange].
  rstepn H algm Emade. rewrite drop_imap_pair in Emade.
  apply (makeBlocks_made0 _ [] _ _ (make_made0 _ Hmake)) in Emade.
  2:{ cbn [app]. destruct P as [|c0 cs]; [constructor|].
      cbn [drop concat] in *. by apply NoDup_app in Hnd as (_ & _ & ?). }
  cbn [app] in Emade. destruct Emade as [HS Hlen Hst Hidx Hcls Hrest].
  rstepn H u2 Econs. rstepn H kr Ekeys. destruct kr as [key range].
  rstepn H algs Esplit. rstepn H pn Epre. destruct pn as [pre noPre].
  rstepn H algp Eprune.
  set (cls := λ q, default 0 (block_ algm !! q)).
  exists cls. split.
  - assert (Good R0 cls (set_delta (set_relation algm R0) (buildDelta lts) key range))
      as HG0.
    { exists (λ x, x).
      assert (isConsistent (set_relation algm R0) = true) as Hc.
      { by destruct (isConsistent (set_relation algm R0)). }
      unfold isConsistent in Hc. cbn [set_relation _partition _relation] in Hc.
      apply andb_true_iff in Hc as [Hsize Hrefl]. apply bool_decide_eq_true in Hsize.
      rewrite forallb_forall in Hrefl.
      constructor; cbn [set_delta set_relation _partition _relation block_].
      - by destruct HS.
      - done.
      - done.
      - intros b blk Hblk. destruct (Hidx _ _ Hblk) as [-> _]. apply Hrefl.
        apply list_elem_of_In, elem_of_seq. apply lookup_lt_Some in Hblk. lia.
      - intros q b blk Hq Hblk. destruct (Hidx _ _ Hblk) as [-> _]. unfold cls.
        by rewrite Hq. }
    assert (Good R0 cls algs) as HG1.
    { revert Esplit. apply rfold_invariant; [|done].
      intros algx a algx' _ HGx Hx. rstepn Hx d Ed. by eapply fastSplit_good. }
    apply (init_prune_good _ _ _ _ _ _ Eprune) in HG1.
    revert H. apply rfold_invariant; [|done].
    intros algx i algx' _ HGx Hx. rstepn Hx b Eb. revert Hx.
    apply rfold_invariant; [|done].
    intros algy a algy' _ HGy Hy. by eapply init_counter_good.
  - intros ci c q Hci Hq. unfold cls.
    assert (q < states lts) as Hqn.
    { rewrite Forall_forall in Hrange. apply Hrange, elem_of_classes.
      exists c. split; [by eapply list_elem_of_lookup_2|done]. }
    destruct P as [|c0 cs]; [done|]. cbn [drop] in *. destruct ci as [|j].
    + injection Hci as <-. rewrite Hrest; [done|done|].
      cbn [concat] in Hnd. apply NoDup_app in Hnd as (_ & Hdisj & _). by apply Hdisj.
    + cbn in Hci. by rewrite (Hcls j c q Hci Hq).
Qed.

End Push.

(** X21: the relation [computeSimulation] returns is reflexive on the
    output range, and it relates two states only if the given relation
    relates the classes of the partition they were given in: whatever the
    refinement does, it never adds a pair between classes that the caller
    has not allowed. *)
Theorem computeSimulation_refines_initial (lts : ExplicitLTS) (fuel : nat)
    (partition : list (list nat)) (relation : BinaryRelation) (outputSize : nat)
    (result : BinaryRelation) :
  within_size relation → states lts ≠ 0 →
  computeSimulation lts fuel partition relation outputSize = Ok result →
  reflexive_on outputSize result
  ∧ refines_initial partition relation outputSize result.
Proof.
  intros Hwithin Hst H. unfold computeSimulation in H.
  destruct (Nat.eqb_spec (states lts) 0) as [|_]; [done|].
  rstepn H alg0 Emake. rstepn H alg1 Einit. rstepn H alg2 Erun.
  destruct (init_good _ _ _ _ _ Emake Einit Hwithin) as (cls & HG & Hcls).
  apply (run_good _ _ _ _ _ _ Erun) in HG. destruct HG as [orig [HS H1 H2 H3 H4]].
  pose proof (buildResult_partial _ _ _ H) as Hres. split.
  - intros i Hi.
    destruct (Hres i i Hi Hi) as (bi & blocki & bj & blockj & Hbi & Hblocki & Hbj & Hblockj & ->).
    assert (bj = bi) as -> by congruence. assert (blockj = blocki) as -> by congruence.
    by eapply H3.
  - intros i j ci cj c d Hi Hj Hci Hic Hcj Hjd.
    destruct (Hres i j Hi Hj) as (bi & blocki & bj & blockj & Hbi & Hblocki & Hbj & Hblockj & ->).
    intros Hrel. apply H1 in Hrel.
    rewrite (H4 _ _ _ Hbi Hblocki), (H4 _ _ _ Hbj Hblockj) in Hrel.
    by rewrite (Hcls _ _ _ Hci Hic), (Hcls _ _ _ Hcj Hjd) in Hrel.
Qed.

Lemma computeSimulation_refines_initial_witness :
  reflexive_on 3
    (match computeSimulation (LTS 3 1 [(0, 0, 1); (1, 0, 2)]) 10 [[0; 1]; [2]]
             (Rel 2 {[(0, 0); (1, 1); (1, 0)]}) 3 with
     | Ok r => r
     | _ => Rel 0 ∅
     end)
  ∧ refines_initial [[0; 1]; [2]] (Rel 2 {[(0, 0); (1, 1); (1, 0)]}) 3
      (match computeSimulation (LTS 3 1 [(0, 0, 1); (1, 0, 2)]) 10 [[0; 1]; [2]]
               (Rel 2 {[(0, 0); (1, 1); (1, 0)]}) 3 with
       | Ok r => r
       | _ => Rel 0 ∅
       end).
Proof.
  apply (computeSimulation_refines_initial (LTS 3 1 [(0, 0, 1); (1, 0, 2)]) 10
           [[0; 1]; [2]] (Rel 2 {[(0, 0); (1, 1); (1, 0)]}) 3).
  - intros a b Hab. apply bool_decide_eq_true in Hab. simpl in *.
    set_unfold. destruct Hab as [[Hab|Hab]|Hab]; injection Hab as -> ->; lia.
  - simpl. lia.
  - vm_compute. reflexivity.
Defined.

End SimInv.
